(* ===== verification/_CoqProject ===== *)
-Q . S2P
Prelude.v
Common.v
Multi2.v
Descramble.v
Crc.v
Sections.v
TsPacket.v
TsCore.v
RecordIndex.v
Pipeline.v
Ledger.v
AvBacking.v
