(* ===== verification/Prelude.v ===== *)
(** * Tuner HAL and ARIB SI engine: a verification library

    The repository holds the Japanese television stack of an Android TV
    product: a tuner HAL in Rust (tuner_hal2), an ARIB SI engine in Rust
    (arib_si_engine_rs), a TV input service and a recorder in Kotlin (tis, rec)
    and a CAS plugin in C++ (cas_plugin).  This library models the data path of
    the tuner HAL, from the bytes of a transport stream to the sections, PES
    packets, record-index entries and AV events a client receives, and the
    ledger that guards the life of the resources on that path.

    ** The program's parts and how they interact

    A frontend or a playback DVR hands bytes to a completion buffer that cuts
    them into 188-byte packets and resynchronises ([common]).  A packet is
    validated into a view ([demux/parser/packet_pipeline.rs]) and, when a
    descrambler claims its PID, decrypted in place with MULTI2
    ([descrambler]).  The packet pipeline then classifies its continuity, plans
    which filters receive it, and feeds the section and PES assemblers, one per
    origin, PID and filter ([demux/parser/{sections,ts_core}.rs]); recorded
    packets are indexed ([demux/parser/record_index.rs]).  AV payloads go to a
    backing of shared slots and event-local files under a byte budget that the
    filters of a demux share ([demux/av]).  Frontends, demuxes, filters, DVRs,
    descramblers and LNBs are opened and closed through a ledger
    ([resource_ledger]).

    ** Files (paths under src/tuner_hal2/)

    - [Prelude]: the outcome monad, machine widths, byte strings, tactics.
    - [Common]: common/src/lib.rs.  PIDs, section bounds, [TsPacketCompletionBuffer],
      [FirstErrorCollector], [IdAllocator].
    - [Multi2]: descrambler/src/core/multi2.rs.
    - [Descramble]: descrambler/src/core/packet.rs, runtime/pid_claim.rs,
      runtime/token.rs.
    - [Crc]: the algebra of the CRC-32 used by sections.
    - [Sections]: demux/src/parser/sections.rs.
    - [TsPacket]: the validation half of demux/src/parser/packet_pipeline.rs.
    - [TsCore]: demux/src/parser/ts_core.rs (continuity, PES headers, PES assembler).
    - [RecordIndex]: demux/src/parser/record_index.rs.
    - [Pipeline]: the state half of demux/src/parser/packet_pipeline.rs, with the
      use demux/src/runtime/demux.rs makes of it for one packet.
    - [Ledger]: resource_ledger/src/lib.rs.
    - [AvBacking]: demux/src/av/shared_backing.rs, release_txn.rs, event.rs.

    Each file keeps the source's names; a struct is a Record, an enum an
    Inductive, a method that takes [&mut self] a function from the state to the
    new state and its result.  A map is a [gmap] with the source's key, a
    [retain] a filter of it, a [Vec] a list.

    ** Conventions

    - A fallible or partial operation returns [outcome]: [Ret], [Panic] (an index
      or slice out of range, a checked addition past its width, as in a build
      with overflow checks) or [Diverge] (a loop that ran out of fuel).  An
      error of the source is a value, [Err e] of [result], inside [Ret].  Safety
      theorems say [returns m P]: [m] is [Ret a] with [P a], so neither a panic
      nor a lack of fuel is possible.
    - Integers are [Z] with their width written out: [checked_add max],
      [saturating_add max], [mod 2 ^ n]; [usize] is 64 bits wide.
    - A loop that is not structural takes fuel, and the wrapper around it gives a
      bound that the theorems show to be enough: one more than the bytes of the
      buffer or payload for the section loops (every turn takes a byte), four
      more than three times the buffer for the packet cutter (a turn that takes
      no byte only flips the resynchronisation mode), one more than the bytes of
      the payload for the start-code scans, and 33 for the Exp-Golomb prefix
      (the code gives up after 31 zeros).
    - Shared objects ([Arc]s of atomics) are explicit shared state, threaded
      through the operations of all their owners; an atomic read-modify-write is
      one step.

    ** What the theorems show

    - Cutting a byte stream ([push_refines_drains], [push_chunking],
      [push_accounting], [push_limited_fifo]): the executable cutter refines an
      abstract drain relation, does not depend on how the stream is chunked,
      accounts for every byte and is a bounded FIFO.
    - MULTI2 and descrambling ([multi2_payload_roundtrip], [multi2_known_answer],
      [descramble_inverts_scramble], [descramble_decision_table],
      [demux_descrambler_agree]): decryption inverts encryption at every length,
      the decision for each packet is a table of its header, and the demux and
      the descrambler read headers alike.
    - Sections and PES ([section_push_safe], [section_reassembly],
      [section_pointer_carry], [section_crc_verdict], [pes_push_safe],
      [pes_bounded_reassembly], [pes_unbounded_reassembly],
      [pes_header_roundtrip]): every push is safe and bounded; whatever the
      fragmentation, a section or PES packet comes out once and unchanged.
    - Continuity and the pipeline ([continuity_verdict], [validate_sound],
      [packet_processing_safe], [packet_isolation], [retransmission_idempotent],
      [flush_filter_exact]): the pipeline keeps its invariant on every packet,
      delivers only to filters that asked, keeps origins and PIDs apart, ignores
      retransmissions, and flushes exactly one filter.
    - Record index ([avc_slice_header_roundtrip], [find_sc_prefix_first],
      [record_event_sound]).
    - Resources ([ledger_table], [ledger_refines_lifecycle],
      [ledger_no_resurrection], [id_allocator_unique]): the ledger is a transition
      table that refines a life cycle per incarnation; a finished incarnation
      stays finished.
    - AV memory ([av_budget_conserved], [av_payload_delivered],
      [av_release_once]): the shared byte budget is conserved under every
      interleaving of the filters, a delivered payload is where its event says and
      damages no other, and a data id is released at most once.

    ** What is not modelled

    The Binder and AIDL layers, kernel drivers, threads and file descriptors
    (their answers are arguments where a modelled operation depends on them); the
    orchestration of the service runtime, of queues and DVRs; the ARIB SI
    engine's descriptors, strings and service discovery; the Kotlin and C++
    components.  Log text is not modelled.  Planned next, in this order: the
    PCR clock, AV sync and generation boundaries of the demux runtime; queues,
    DVRs and source boundaries; the transaction and object tables of the service
    runtime; LNB transactions; the ARIB SI engine's sections, descriptors and
    strings. *)

From Stdlib Require Import ZArith Lia.
From stdpp Require Export base numbers list option.

Declare Scope tv_scope.
Delimit Scope tv_scope with tv.
#[global] Open Scope Z_scope.
#[global] Open Scope tv_scope.

Create HintDb tv.

#[global] Arguments Z.testbit : simpl never.

(** ** Rust control flow

    [outcome] is what one call of a Rust function does: return, panic (an
    index or slice out of range, a debug-checked subtraction below zero), or
    exhaust the fuel of a modelled loop.  Every loop of the development is
    proved never to reach [Diverge] with the fuel it is given. *)
Inductive outcome (A : Type) : Type :=
| Ret (a : A)
| Panic
| Diverge.
Arguments Ret {A} a.
Arguments Panic {A}.
Arguments Diverge {A}.

#[global] Instance outcome_ret : MRet outcome := @Ret.
#[global] Instance outcome_bind : MBind outcome := fun A B f m =>
  match m with
  | Ret a => f a
  | Panic => Panic
  | Diverge => Diverge
  end.

(** Rust's [Result]. *)
Inductive result (A E : Type) : Type :=
| Ok (a : A)
| Err (e : E).
Arguments Ok {A E} a.
Arguments Err {A E} e.

(** [let x = m?; k]: the error propagation of a fallible call. *)
Definition try_bind {A B E} (m : outcome (result A E)) (k : A -> outcome (result B E))
  : outcome (result B E) :=
  match m with
  | Ret (Ok a) => k a
  | Ret (Err e) => Ret (Err e)
  | Panic => Panic
  | Diverge => Diverge
  end.
Notation "x ←? m ; k" := (try_bind m (fun x => k))
  (at level 20, m at level 100, k at level 200, only parsing) : tv_scope.
Notation "' p ←? m ; k" := (try_bind m (fun p => k))
  (at level 20, p pattern, m at level 100, k at level 200, only parsing) : tv_scope.

#[global] Instance result_eq_dec {A E} `{EqDecision A, EqDecision E} :
  EqDecision (result A E).
Proof. solve_decision. Defined.

#[global] Instance outcome_eq_dec {A} `{EqDecision A} : EqDecision (outcome A).
Proof. solve_decision. Defined.

(** [m] returns a value satisfying [P]; in particular it does not panic. *)
Definition returns {A} (m : outcome A) (P : A -> Prop) : Prop :=
  exists a, m = Ret a /\ P a.

Lemma returns_ret {A} (a : A) (P : A -> Prop) : P a -> returns (Ret a) P.
Proof. intros; exists a; auto. Qed.

Lemma returns_bind {A B} (m : outcome A) (f : A -> outcome B) P Q :
  returns m P -> (forall a, P a -> returns (f a) Q) -> returns (m ≫= f) Q.
Proof. intros (a & -> & Ha) Hf. exact (Hf a Ha). Qed.

Lemma returns_mono {A} (m : outcome A) (P Q : A -> Prop) :
  returns m P -> (forall a, P a -> Q a) -> returns m Q.
Proof. intros (a & -> & Ha) HPQ. exists a; auto. Qed.

Lemma returns_inv {A} (m : outcome A) (P : A -> Prop) a :
  returns m P -> m = Ret a -> P a.
Proof. intros (b & -> & Hb) [= ->]; exact Hb. Qed.

(** [m] returns, and what it returns on success satisfies [P]. *)
Definition returns_ok {A E} (m : outcome (result A E)) (P : A -> Prop) : Prop :=
  returns m (fun r => match r with Ok a => P a | Err _ => True end).

Lemma returns_ok_bind {A B E} (m : outcome (result A E)) (f : A -> outcome (result B E)) P Q :
  returns_ok m P -> (forall a, P a -> returns_ok (f a) Q) -> returns_ok (try_bind m f) Q.
Proof.
  intros ([a|e] & -> & Ha) Hf; [exact (Hf a Ha)|]. by apply returns_ret.
Qed.

Lemma returns_ok_ret {A E} (a : A) (P : A -> Prop) : P a -> returns_ok (E := E) (Ret (Ok a)) P.
Proof. intros; by apply returns_ret. Qed.
Lemma returns_ok_err {A E} (e : E) (P : A -> Prop) : returns_ok (Ret (Err e)) P.
Proof. by apply returns_ret. Qed.

#[export] Hint Resolve returns_ret returns_ok_ret returns_ok_err : tv.

(** ** Machine integers *)
Definition u8_max : Z := 255.
Definition u16_max : Z := 65535.
Definition u32_max : Z := 4294967295.
Definition i32_max : Z := 2147483647.
Definition i64_max : Z := 9223372036854775807.
Definition u64_max : Z := 18446744073709551615.
(** [usize] on the 64-bit targets of the product. *)
Abbreviation usize_max := u64_max.

Definition checked_add (max a b : Z) : option Z :=
  if a + b <=? max then Some (a + b) else None.
Definition checked_sub (a b : Z) : option Z :=
  if b <=? a then Some (a - b) else None.
Definition saturating_add (max a b : Z) : Z := Z.min max (a + b).
Definition saturating_sub (a b : Z) : Z := Z.max 0 (a - b).
Definition wrap32 (v : Z) : Z := v mod 2 ^ 32.

(** ** Byte strings

    A [u8] is a [Z] between 0 and 255, a slice or [Vec<u8>] a list of them,
    and a [usize] a [Z]; [len] is the length as a [Z]. *)
Definition is_byte (b : Z) : Prop := 0 <= b < 256.
Abbreviation bytes := (list Z).
Definition wf_bytes (l : bytes) : Prop := Forall is_byte l.

#[global] Instance is_byte_dec b : Decision (is_byte b).
Proof. unfold is_byte; apply _. Defined.
#[global] Instance wf_bytes_dec l : Decision (wf_bytes l).
Proof. unfold wf_bytes; apply _. Defined.

Definition len {A} (l : list A) : Z := Z.of_nat (length l).
(** The element at a [Z] index, 0 out of range; the code reads only through
    [byte_at], which panics there. *)
Definition nthz (l : bytes) (i : Z) : Z := nth (Z.to_nat i) l 0.
(** The first [n] elements and the rest; clamping to the length keeps them
    executable at [usize::MAX]. *)
Definition takez {A} (n : Z) (l : list A) : list A := take (Z.to_nat (Z.min n (len l))) l.
Definition dropz {A} (n : Z) (l : list A) : list A := drop (Z.to_nat (Z.min n (len l))) l.

Lemma takez_eq {A} n (l : list A) : takez n l = take (Z.to_nat n) l.
Proof.
  unfold takez, len. destruct (Z.min_spec n (Z.of_nat (length l))) as [[? ->]|[? ->]]; [done|].
  rewrite !take_ge by lia; done.
Qed.
Lemma dropz_eq {A} n (l : list A) : dropz n l = drop (Z.to_nat n) l.
Proof.
  unfold dropz, len. destruct (Z.min_spec n (Z.of_nat (length l))) as [[? ->]|[? ->]]; [done|].
  rewrite !drop_ge by lia; done.
Qed.

(** [l[i]] *)
Definition byte_at (l : bytes) (i : Z) : outcome Z :=
  if (0 <=? i) && (i <? len l) then Ret (nthz l i) else Panic.
(** [l[a..b]] *)
Definition slice {A} (l : list A) (a b : Z) : outcome (list A) :=
  if (0 <=? a) && (a <=? b) && (b <=? len l)
  then Ret (takez (b - a) (dropz a l)) else Panic.
(** [l[a..]] *)
Definition slice_from {A} (l : list A) (a : Z) : outcome (list A) :=
  slice l a (len l).
(** [l.get(i)] *)
Definition get_byte (l : bytes) (i : Z) : option Z :=
  if (0 <=? i) && (i <? len l) then Some (nthz l i) else None.
(** [l.starts_with(p)] *)
Definition starts_with (l p : bytes) : bool := bool_decide (take (length p) l = p).
(** [(v & mask) != 0] *)
Definition has_bits (v mask : Z) : bool := negb (Z.land v mask =? 0).

(** Big-endian pairs, [u16::from_be_bytes]. *)
Definition be16 (hi lo : Z) : Z := hi * 256 + lo.
(** A 12-bit length, [((hi & 0x0f) << 8) | lo]. *)
Definition len12 (hi lo : Z) : Z := Z.lor (Z.shiftl (Z.land hi 15) 8) lo.

(** ** Lengths and indexing *)
Section Lists.
  Context {A : Type}.
  Implicit Types (l k : list A) (n i : Z).

Lemma len_nonneg l : 0 <= len l.
Proof. unfold len; lia. Qed.
Lemma len_nil : len (@nil A) = 0.
Proof. reflexivity. Qed.
Lemma len_cons x l : len (x :: l) = 1 + len l.
Proof. unfold len; simpl; lia. Qed.
Lemma len_app l k : len (l ++ k) = len l + len k.
Proof. unfold len; rewrite length_app; lia. Qed.
Lemma len_zero l : len l = 0 -> l = [].
Proof. destruct l; [done|rewrite len_cons; pose proof (len_nonneg l); lia]. Qed.
Lemma len_takez n l : 0 <= n <= len l -> len (takez n l) = n.
Proof. rewrite !takez_eq; unfold len; rewrite length_take; lia. Qed.
Lemma len_dropz n l : 0 <= n <= len l -> len (dropz n l) = len l - n.
Proof. rewrite !dropz_eq; unfold len; rewrite length_drop; lia. Qed.
Lemma takez_dropz n l : takez n l ++ dropz n l = l.
Proof. apply take_drop. Qed.
Lemma dropz_all n l : len l <= n -> dropz n l = [].
Proof. rewrite !dropz_eq; unfold len; intros; apply drop_ge; lia. Qed.
Lemma takez_all n l : len l <= n -> takez n l = l.
Proof. rewrite !takez_eq; unfold len; intros; apply take_ge; lia. Qed.
Lemma dropz_0 l : dropz 0 l = l.
Proof. by rewrite dropz_eq. Qed.
Lemma takez_0 l : takez 0 l = [].
Proof. by rewrite takez_eq. Qed.
Lemma dropz_app_exact l k : dropz (len l) (l ++ k) = k.
Proof. rewrite !dropz_eq; unfold len; rewrite Nat2Z.id; apply drop_app_length. Qed.
Lemma takez_app_exact l k : takez (len l) (l ++ k) = l.
Proof. rewrite !takez_eq; unfold len; rewrite Nat2Z.id; apply take_app_length. Qed.
Lemma dropz_app_le n l k : 0 <= n <= len l -> dropz n (l ++ k) = dropz n l ++ k.
Proof. rewrite !dropz_eq; unfold len; intros; apply drop_app_le; lia. Qed.
Lemma takez_app_le n l k : 0 <= n <= len l -> takez n (l ++ k) = takez n l.
Proof. rewrite !takez_eq; unfold len; intros; apply take_app_le; lia. Qed.
Lemma dropz_dropz n m l : 0 <= n -> 0 <= m -> dropz n (dropz m l) = dropz (m + n) l.
Proof. rewrite !dropz_eq; intros; rewrite drop_drop; f_equal; lia. Qed.
Lemma takez_takez n m l : 0 <= n <= m -> takez n (takez m l) = takez n l.
Proof. rewrite !takez_eq; intros; rewrite take_take; f_equal; lia. Qed.
Lemma takez_cons n x l : 0 < n -> takez n (x :: l) = x :: takez (n - 1) l.
Proof.
  rewrite !takez_eq; intros. replace (Z.to_nat n) with (S (Z.to_nat (n - 1))) by lia.
  reflexivity.
Qed.
Lemma dropz_cons n x l : 0 < n -> dropz n (x :: l) = dropz (n - 1) l.
Proof.
  rewrite !dropz_eq; intros. replace (Z.to_nat n) with (S (Z.to_nat (n - 1))) by lia.
  reflexivity.
Qed.

Lemma slice_ok l a b :
  0 <= a <= b -> b <= len l -> slice l a b = Ret (takez (b - a) (dropz a l)).
Proof.
  intros; unfold slice.
  rewrite (proj2 (Z.leb_le 0 a)), (proj2 (Z.leb_le a b)), (proj2 (Z.leb_le b _)) by lia.
  reflexivity.
Qed.
Lemma slice_from_ok l a : 0 <= a <= len l -> slice_from l a = Ret (dropz a l).
Proof.
  intros; unfold slice_from; rewrite slice_ok by lia.
  rewrite takez_all; [done|]. rewrite len_dropz by lia; lia.
Qed.
End Lists.

Create Rewrite HintDb tv_len.
#[export] Hint Rewrite @len_nil @len_cons @len_app : tv_len.
#[export] Hint Rewrite @len_takez @len_dropz using (autorewrite with tv_len; lia) : tv_len.

(** Linear arithmetic over lengths: every length in sight is non-negative. *)
Ltac pose_lens :=
  repeat match goal with
  | |- context [len ?l] =>
      lazymatch goal with H : 0 <= len l |- _ => fail | _ => pose proof (len_nonneg l) end
  | _ : context [len ?l] |- _ =>
      lazymatch goal with H : 0 <= len l |- _ => fail | _ => pose proof (len_nonneg l) end
  end.
Ltac lens := autorewrite with tv_len in *; pose_lens; lia.

(** Two ways to cut the same string. *)
Lemma prefix_split {A} (l1 l2 k1 k2 : list A) : l1 ++ l2 = k1 ++ k2 -> len l1 < len k1 ->
  l1 = takez (len l1) k1.
Proof.
  intros H Hl. assert (takez (len l1) (l1 ++ l2) = takez (len l1) (k1 ++ k2)) as E by (by rewrite H).
  rewrite takez_app_exact, takez_app_le in E by (pose_lens; lia). done.
Qed.

Lemma app_split_ge {A} (l1 l2 k1 k2 : list A) : l1 ++ l2 = k1 ++ k2 -> len k1 <= len l1 ->
  exists t, l1 = k1 ++ t /\ k2 = t ++ l2.
Proof.
  intros H Hl. exists (dropz (len k1) l1).
  assert (takez (len k1) (l1 ++ l2) = k1) as E1 by (rewrite H; apply takez_app_exact).
  assert (dropz (len k1) (l1 ++ l2) = k2) as E2 by (rewrite H; apply dropz_app_exact).
  rewrite takez_app_le in E1 by (pose_lens; lia). rewrite dropz_app_le in E2 by (pose_lens; lia).
  split; [|done]. rewrite <- E1 at 1. by rewrite takez_dropz.
Qed.

Lemma byte_at_ok l i : 0 <= i < len l -> byte_at l i = Ret (nthz l i).
Proof.
  intros; unfold byte_at.
  rewrite (proj2 (Z.leb_le 0 i)), (proj2 (Z.ltb_lt i _)) by lia; reflexivity.
Qed.

Lemma get_byte_ok l i : 0 <= i < len l -> get_byte l i = Some (nthz l i).
Proof.
  intros; unfold get_byte.
  rewrite (proj2 (Z.leb_le 0 i)), (proj2 (Z.ltb_lt i _)) by lia; reflexivity.
Qed.

Lemma get_byte_none l i : len l <= i -> get_byte l i = None.
Proof.
  intros; unfold get_byte. rewrite (proj2 (Z.ltb_ge i _)) by lia.
  by rewrite andb_false_r.
Qed.

Lemma nthz_app_l l k i : 0 <= i < len l -> nthz (l ++ k) i = nthz l i.
Proof. unfold nthz, len; intros; apply app_nth1; lia. Qed.

Lemma nthz_app_r l k i : len l <= i -> nthz (l ++ k) i = nthz k (i - len l).
Proof.
  unfold nthz, len; intros. rewrite app_nth2 by lia. f_equal; lia.
Qed.

Lemma nthz_cons_0 x l : nthz (x :: l) 0 = x.
Proof. reflexivity. Qed.

Lemma nthz_cons x l i : 0 < i -> nthz (x :: l) i = nthz l (i - 1).
Proof.
  unfold nthz; intros. replace (Z.to_nat i) with (S (Z.to_nat (i - 1))) by lia.
  reflexivity.
Qed.

Lemma nthz_takez l n i : 0 <= i < n -> nthz (takez n l) i = nthz l i.
Proof.
  rewrite !takez_eq; unfold nthz; intros Hi.
  destruct (decide (Z.to_nat i < length l)%nat).
  - rewrite <- (take_drop (Z.to_nat n) l) at 2.
    rewrite app_nth1; [done|rewrite length_take; lia].
  - rewrite !nth_overflow; [done|lia|rewrite length_take; lia].
Qed.

Lemma nthz_dropz l n i : 0 <= n -> 0 <= i -> nthz (dropz n l) i = nthz l (n + i).
Proof.
  rewrite !dropz_eq; unfold nthz; intros.
  destruct (decide (Z.to_nat n <= length l)%nat).
  - rewrite <- (take_drop (Z.to_nat n) l) at 2.
    rewrite app_nth2; rewrite length_take; [f_equal; lia|lia].
  - rewrite drop_ge by lia. rewrite (nth_overflow l) by lia. by destruct (Z.to_nat i).
Qed.

Lemma nthz_oob l i : len l <= i -> nthz l i = 0.
Proof. unfold nthz, len; intros; apply nth_overflow; lia. Qed.


(** ** Well-formed byte strings *)
Lemma wf_nil : wf_bytes [].
Proof. constructor. Qed.
Lemma wf_app l k : wf_bytes (l ++ k) <-> wf_bytes l /\ wf_bytes k.
Proof. apply Forall_app. Qed.
Lemma wf_cons x l : wf_bytes (x :: l) <-> is_byte x /\ wf_bytes l.
Proof. apply Forall_cons_iff. Qed.
Lemma wf_takez n l : wf_bytes l -> wf_bytes (takez n l).
Proof. apply Forall_take. Qed.
Lemma wf_dropz n l : wf_bytes l -> wf_bytes (dropz n l).
Proof. apply Forall_drop. Qed.
Lemma wf_nthz l i : wf_bytes l -> is_byte (nthz l i).
Proof.
  intros H. unfold nthz.
  destruct (decide (Z.to_nat i < length l)%nat) as [Hi|Hi].
  - by apply Forall_nth.
  - rewrite nth_overflow by lia. unfold is_byte; lia.
Qed.

(** Split [wf_bytes] of an explicit list into its bytes. *)
Ltac wf_split :=
  repeat match goal with
  | H : wf_bytes (_ :: _) |- _ =>
      let H1 := fresh "Hb" in apply wf_cons in H as [H1 H]
  | H : wf_bytes (_ ++ _) |- _ =>
      let H1 := fresh "Hwf" in apply wf_app in H as [H1 H]
  end.

#[export] Hint Resolve wf_nil wf_takez wf_dropz wf_nthz : tv.

Lemma dropz_nthz l n : 0 <= n < len l -> dropz n l = nthz l n :: dropz (n + 1) l.
Proof.
  intros H. rewrite !dropz_eq; unfold nthz, len in *.
  replace (Z.to_nat (n + 1)) with (S (Z.to_nat n)) by lia.
  assert (Hk : (Z.to_nat n < length l)%nat) by lia.
  revert Hk; generalize (Z.to_nat n) as k; clear H n.
  induction l as [|x l IH]; simpl; intros k Hk; [lia|].
  destruct k; [done|]. simpl. apply IH; lia.
Qed.

(** ** Bit fields as arithmetic *)
Lemma land_ones_mod v n : 0 <= n -> Z.land v (Z.ones n) = v mod 2 ^ n.
Proof. intros; by apply Z.land_ones. Qed.

Lemma land_mask_range v n : 0 <= n -> 0 <= Z.land v (Z.ones n) < 2 ^ n.
Proof.
  intros; rewrite land_ones_mod by done. apply Z.mod_pos_bound; lia.
Qed.

Lemma land_shiftl_small hi lo n :
  0 <= n -> 0 <= lo < 2 ^ n -> Z.land (Z.shiftl hi n) lo = 0.
Proof.
  intros Hn Hlo. apply Z.bits_inj'; intros k Hk.
  rewrite Z.land_spec, Z.bits_0, Z.shiftl_spec by done.
  destruct (decide (k < n)) as [Hlt|Hge].
  - by rewrite Z.testbit_neg_r by lia.
  - rewrite <- (Z.mod_small lo (2 ^ n)) by done.
    rewrite Z.mod_pow2_bits_high by lia. apply andb_false_r.
Qed.

(** Concatenating bit fields: [(hi << n) | lo] for a [lo] of [n] bits. *)
Lemma lor_shiftl_add hi lo n :
  0 <= n -> 0 <= lo < 2 ^ n -> Z.lor (Z.shiftl hi n) lo = hi * 2 ^ n + lo.
Proof.
  intros Hn Hlo. rewrite <- Z.shiftl_mul_pow2 by done.
  pose proof (land_shiftl_small hi lo n Hn Hlo) as H0.
  by rewrite Z.add_nocarry_lxor, Z.lxor_lor.
Qed.

Lemma len12_eq hi lo : is_byte lo -> len12 hi lo = (hi mod 16) * 256 + lo.
Proof.
  intros Hlo. unfold len12. rewrite (lor_shiftl_add _ _ 8) by (unfold is_byte in *; lia).
  change 15 with (Z.ones 4). by rewrite land_ones_mod by lia.
Qed.

Lemma len12_range hi lo : is_byte lo -> 0 <= len12 hi lo < 4096.
Proof.
  intros Hlo; rewrite len12_eq by done. unfold is_byte in Hlo.
  pose proof (Z.mod_pos_bound hi 16); lia.
Qed.

Lemma shiftr_byte v n : is_byte v -> 0 <= n -> 0 <= Z.shiftr v n <= v / 2 ^ n.
Proof.
  intros Hv Hn. rewrite Z.shiftr_div_pow2 by done. split; [|lia].
  apply Z.div_pos; unfold is_byte in *; lia.
Qed.

Lemma has_bits_land_ones v n : 0 <= n -> has_bits v (2 ^ n) = Z.testbit v n.
Proof.
  intros Hn. unfold has_bits.
  destruct (Z.testbit v n) eqn:E; destruct (Z.land v (2 ^ n) =? 0) eqn:E0; try done; exfalso.
  - apply Z.eqb_eq in E0. assert (Z.testbit (Z.land v (2 ^ n)) n = true) as H.
    { by rewrite Z.land_spec, E, Z.pow2_bits_true. }
    by rewrite E0, Z.bits_0 in H.
  - apply Z.eqb_neq in E0. apply E0. apply Z.bits_inj'; intros k Hk.
    rewrite Z.land_spec, Z.bits_0. destruct (decide (k = n)) as [->|Hne].
    + by rewrite E.
    + rewrite Z.pow2_bits_false by lia. apply andb_false_r.
Qed.

(** ** Case analysis on the code's tests *)
Ltac case_test :=
  match goal with
  | |- context [if ?b then _ else _] =>
      lazymatch b with
      | bool_decide _ => case_bool_decide
      | _ => let E := fresh "E" in destruct b eqn:E
      end
  | |- context [match ?o with Some _ => _ | None => _ end] =>
      let E := fresh "E" in destruct o eqn:E
  end.

(** Turn boolean comparisons in the context into propositions. *)
Ltac breflect :=
  repeat match goal with
  | H : _ && _ = true |- _ => apply andb_prop in H as [? ?]
  | H : _ || _ = false |- _ => apply orb_false_elim in H as [? ?]
  | H : negb _ = true |- _ => apply negb_true_iff in H
  | H : negb _ = false |- _ => apply negb_false_iff in H
  | H : (_ =? _) = true |- _ => apply Z.eqb_eq in H
  | H : (_ =? _) = false |- _ => apply Z.eqb_neq in H
  | H : (_ <=? _) = true |- _ => apply Z.leb_le in H
  | H : (_ <=? _) = false |- _ => apply Z.leb_gt in H
  | H : (_ <? _) = true |- _ => apply Z.ltb_lt in H
  | H : (_ <? _) = false |- _ => apply Z.ltb_ge in H
  | H : (_ >? _) = true |- _ => rewrite Z.gtb_ltb in H
  | H : (_ >? _) = false |- _ => rewrite Z.gtb_ltb in H
  | H : (_ >=? _) = true |- _ => rewrite Z.geb_leb in H
  | H : (_ >=? _) = false |- _ => rewrite Z.geb_leb in H
  | H : bool_decide _ = true |- _ => apply bool_decide_eq_true in H
  | H : bool_decide _ = false |- _ => apply bool_decide_eq_false in H
  end.

(** A closed decidable statement, by evaluation. *)
Ltac dec_true := apply (bool_decide_unpack _); vm_compute; exact I.

(** Read guarded indices: rewrite [byte_at] and [slice] in range. *)
Ltac in_range :=
  repeat first
    [ rewrite byte_at_ok by lens
    | rewrite slice_ok by lens
    | rewrite slice_from_ok by lens ].

Lemma checked_add_Some max a b c :
  checked_add max a b = Some c <-> c = a + b /\ a + b <= max.
Proof. unfold checked_add; destruct (Z.leb_spec (a + b) max); split; intros; simplify_eq; try lia; intuition congruence. Qed.

Lemma checked_add_None max a b : checked_add max a b = None <-> max < a + b.
Proof. unfold checked_add; destruct (Z.leb_spec (a + b) max); split; intros; simplify_eq; try lia; done. Qed.

Lemma checked_sub_Some a b c : checked_sub a b = Some c <-> c = a - b /\ b <= a.
Proof. unfold checked_sub; destruct (Z.leb_spec b a); split; intros; simplify_eq; try lia; intuition congruence. Qed.

(** ** Words of a fixed width *)
Definition uN (n v : Z) : Prop := 0 <= v < 2 ^ n.

Lemma uN_intro n v : 0 <= n -> v mod 2 ^ n = v -> uN n v.
Proof. intros Hn <-. apply Z.mod_pos_bound; lia. Qed.

Lemma uN_mod n v : uN n v -> v mod 2 ^ n = v.
Proof. apply Z.mod_small. Qed.

(** A bitwise operator with [op false false = false] stays within the width. *)
Lemma uN_bitwise n (f : Z -> Z -> Z) (op : bool -> bool -> bool) a b :
  0 <= n -> (forall k, 0 <= k -> Z.testbit (f a b) k = op (Z.testbit a k) (Z.testbit b k)) ->
  op false false = false -> uN n a -> uN n b -> uN n (f a b).
Proof.
  intros Hn Hf Hop Ha Hb. apply uN_intro; [done|]. apply Z.bits_inj'; intros k Hk.
  rewrite Z.testbit_mod_pow2 by done. rewrite Hf by done.
  destruct (Z.ltb_spec k n); [done|]. simpl.
  rewrite <- (uN_mod n a Ha), <- (uN_mod n b Hb), !Z.mod_pow2_bits_high by lia. by rewrite Hop.
Qed.

Lemma uN_lxor n a b : 0 <= n -> uN n a -> uN n b -> uN n (Z.lxor a b).
Proof. intros; apply (uN_bitwise n _ xorb); auto using Z.lxor_spec. Qed.
Lemma uN_lor n a b : 0 <= n -> uN n a -> uN n b -> uN n (Z.lor a b).
Proof. intros; apply (uN_bitwise n _ orb); auto using Z.lor_spec. Qed.
Lemma uN_land n a b : 0 <= n -> uN n a -> uN n b -> uN n (Z.land a b).
Proof. intros; apply (uN_bitwise n _ andb); auto using Z.land_spec. Qed.
Lemma uN_shiftr n a k : 0 <= n -> 0 <= k -> uN n a -> uN n (Z.shiftr a k).
Proof.
  unfold uN; intros. rewrite Z.shiftr_div_pow2 by done. split; [apply Z.div_pos; lia|].
  apply Z.le_lt_trans with a; [|lia]. apply Z.div_le_upper_bound; [lia|].
  pose proof (Z.pow_pos_nonneg 2 k); nia.
Qed.
Lemma uN_wrap32 v : uN 32 (wrap32 v).
Proof. apply Z.mod_pos_bound; lia. Qed.
Lemma uN_byte_widen n b : 8 <= n -> is_byte b -> uN n b.
Proof.
  unfold uN, is_byte; intros. pose proof (Z.pow_le_mono_r 2 8 n); lia.
Qed.
