(* ===== verification/Common.v ===== *)
(** * Shared transport-stream primitives

    Models [tuner_hal2/common/src/lib.rs]: packet identifiers, the ARIB
    section-length classes, the packet completion buffer that cuts a byte
    stream into 188-byte packets and regains sync, the first-error collector,
    the identifier allocator and the Japanese frequency contracts. *)

From stdpp Require Import gmap.
From S2P Require Import Prelude.

Definition TS_PACKET_SIZE : Z := 188.
Definition MAX_ARIB_SHORT_SECTION_LENGTH : Z := 1021.
Definition MAX_ARIB_EIT_SECTION_LENGTH : Z := 4093.
Definition ARIB_TDT_SECTION_LENGTH : Z := 5.
Definition MAX_ARIB_SECTION_TOTAL_BYTES : Z := 3 + MAX_ARIB_EIT_SECTION_LENGTH.
Definition MAX_SECTION_PAYLOAD_BYTES : Z := MAX_ARIB_SECTION_TOTAL_BYTES.

(** ** Packet identifiers *)
Record TransportStreamPid := mkPid { pid_value : Z }.
Inductive TransportStreamPidValidationError := OutOfRange.

#[global] Instance TransportStreamPid_eq_dec : EqDecision TransportStreamPid.
Proof. solve_decision. Defined.

Definition from_mpeg_ts_header_bytes (header_byte_1 header_byte_2 : Z) : TransportStreamPid :=
  mkPid (Z.lor (Z.shiftl (Z.land header_byte_1 0x1f) 8) header_byte_2).

Definition validate_u16 (pid : Z) : result TransportStreamPid TransportStreamPidValidationError :=
  if pid <=? 0x1fff then Ok (mkPid pid) else Err OutOfRange.

Definition validate_i32 (pid : Z) : result TransportStreamPid TransportStreamPidValidationError :=
  if (0 <=? pid) && (pid <=? 0x1fff) then Ok (mkPid pid) else Err OutOfRange.

Definition to_i32_for_aidl_boundary (p : TransportStreamPid) : Z := pid_value p.

Definition matches_i32_config (p : TransportStreamPid) (tpid : option Z) : bool :=
  match tpid with
  | Some config_pid => config_pid =? pid_value p
  | None => false
  end.

Definition valid_pid (p : TransportStreamPid) : Prop := 0 <= pid_value p <= 0x1fff.

(** ** Section-length classes *)
Definition max_arib_section_length_for_table_id (table_id : Z) : Z :=
  if table_id =? 0x70 then ARIB_TDT_SECTION_LENGTH
  else if ((0x00 <=? table_id) && (table_id <=? 0x03))
          || bool_decide (table_id ∈ [0x40; 0x41; 0x42; 0x46; 0x4a; 0x71; 0x73])
  then MAX_ARIB_SHORT_SECTION_LENGTH
  else MAX_ARIB_EIT_SECTION_LENGTH.

Definition is_valid_arib_section_length (table_id section_length : Z) : bool :=
  if table_id =? 0x70 then section_length =? ARIB_TDT_SECTION_LENGTH
  else section_length <=? max_arib_section_length_for_table_id table_id.

(** ** The packet completion buffer *)
Definition TS_RESYNC_CONFIRM_PACKETS : Z := 3.
Definition TS_RESYNC_TAIL_BYTES : Z := TS_PACKET_SIZE * (TS_RESYNC_CONFIRM_PACKETS - 1).
Definition TS_RESYNC_CONFIRM_BYTES : Z := TS_RESYNC_TAIL_BYTES + 1.

Record TsPacketBufferDrain := mkDrain {
  drain_packets : list bytes;
  drain_malformed_bytes : Z;
}.

Record TsPacketCompletionBuffer := mkBuffer {
  tb_buf : bytes;
  tb_completed : list bytes;
  tb_malformed_bytes : Z;
  tb_malformed_bytes_saturated : bool;
  tb_resync_required : bool;
}.

Definition buffer_default : TsPacketCompletionBuffer := mkBuffer [] [] 0 false false.

Definition add_local_malformed (local amount : Z) (saturated : bool) : Z * bool :=
  match checked_add usize_max local amount with
  | Some next => (next, saturated)
  | None => (usize_max, true)
  end.

Definition add_malformed_bytes (s : TsPacketCompletionBuffer) (amount : Z) : TsPacketCompletionBuffer :=
  if amount =? 0 then s
  else
    let '(bytes', sat) :=
      match checked_add u64_max (tb_malformed_bytes s) amount with
      | Some next => (next, tb_malformed_bytes_saturated s)
      | None => (u64_max, true)
      end in
    mkBuffer (tb_buf s) (tb_completed s) bytes'
      (if amount =? u64_max then true else sat) (tb_resync_required s).

(** The inner [all]: three sync bytes, one packet apart. *)
Fixpoint syncs_at (count : nat) (buf : bytes) (offset : Z) : outcome bool :=
  match count with
  | O => Ret true
  | S count =>
      b ← byte_at buf offset;
      if b =? 0x47 then syncs_at count buf (offset + TS_PACKET_SIZE) else Ret false
  end.

(** The outer [find] over [offset..offset+count]. *)
Fixpoint find_sync (count : nat) (buf : bytes) (offset : Z) : outcome (option Z) :=
  match count with
  | O => Ret None
  | S count =>
      ok ← syncs_at (Z.to_nat TS_RESYNC_CONFIRM_PACKETS) buf offset;
      if (ok : bool) then Ret (Some offset) else find_sync count buf (offset + 1)
  end.

Definition confirmed_sync_offset (buf : bytes) : outcome (option Z) :=
  if len buf <? TS_RESYNC_CONFIRM_BYTES then Ret None
  else
    let last_start := len buf - TS_RESYNC_CONFIRM_BYTES in
    find_sync (Z.to_nat (last_start + 1)) buf 0.

(** The state of the loop of [push]: the buffer's own fields that the loop
    changes and its two locals. *)
Record push_locals := mkLocals {
  pl_buf : bytes;
  pl_resync : bool;
  pl_completed : list bytes;
  pl_malformed : Z;
  pl_saturated : bool;
}.

Inductive flow (S : Type) : Type := Continue (s : S) | Break (s : S).
Arguments Continue {S} s.
Arguments Break {S} s.

(** One turn of the loop of [push]. *)
Definition push_step (s : push_locals) : outcome (flow push_locals) :=
  let '(mkLocals buf resync completed malformed saturated) := s in
  if resync then
    found ← confirmed_sync_offset buf;
    match found with
    | None =>
        if len buf >? TS_RESYNC_TAIL_BYTES then
          let discard := len buf - TS_RESYNC_TAIL_BYTES in
          let '(malformed, saturated) := add_local_malformed malformed discard saturated in
          Ret (Break (mkLocals (dropz discard buf) true completed malformed saturated))
        else Ret (Break s)
    | Some offset =>
        if offset >? 0 then
          let '(malformed, saturated) := add_local_malformed malformed offset saturated in
          Ret (Continue (mkLocals (dropz offset buf) false completed malformed saturated))
        else Ret (Continue (mkLocals buf false completed malformed saturated))
    end
  else if len buf <? TS_PACKET_SIZE then Ret (Break s)
  else
    first ← byte_at buf 0;
    if negb (first =? 0x47) then Ret (Continue (mkLocals buf true completed malformed saturated))
    else
      packet ← slice buf 0 TS_PACKET_SIZE;
      Ret (Continue (mkLocals (dropz TS_PACKET_SIZE buf) resync (completed ++ [packet])
                       malformed saturated)).

Fixpoint push_loop (fuel : nat) (s : push_locals) : outcome push_locals :=
  match fuel with
  | O => Diverge
  | S fuel =>
      r ← push_step s;
      match r with
      | Continue s' => push_loop fuel s'
      | Break s' => Ret s'
      end
  end.

Definition drain_completed (s : TsPacketCompletionBuffer) (max_packets : Z)
  : list bytes * TsPacketCompletionBuffer :=
  (takez max_packets (tb_completed s),
   mkBuffer (tb_buf s) (dropz max_packets (tb_completed s)) (tb_malformed_bytes s)
     (tb_malformed_bytes_saturated s) (tb_resync_required s)).

Definition push (s : TsPacketCompletionBuffer) (data : bytes)
  : outcome (TsPacketBufferDrain * TsPacketCompletionBuffer) :=
  let buf := tb_buf s ++ data in
  l ← push_loop (3 * length buf + 4)
        (mkLocals buf (tb_resync_required s) (tb_completed s) 0 false);
  let s := mkBuffer (pl_buf l) (pl_completed l) (tb_malformed_bytes s)
             (tb_malformed_bytes_saturated s) (pl_resync l) in
  let s := if pl_malformed l >? 0 then add_malformed_bytes s (pl_malformed l) else s in
  let s := if pl_saturated l
           then mkBuffer (tb_buf s) (tb_completed s) (tb_malformed_bytes s) true (tb_resync_required s)
           else s in
  let '(packets, s) := drain_completed s usize_max in
  Ret (mkDrain packets (pl_malformed l), s).

Definition push_limited (s : TsPacketCompletionBuffer) (data : bytes) (max_packets : Z)
  : outcome (TsPacketBufferDrain * TsPacketCompletionBuffer) :=
  r ← push s data;
  let '(drain, s) := r in
  if len (drain_packets drain) <=? max_packets then Ret (drain, s)
  else
    let packets := takez max_packets (drain_packets drain) in
    let pending := dropz max_packets (drain_packets drain) in
    Ret (mkDrain packets (drain_malformed_bytes drain),
         mkBuffer (tb_buf s) (pending ++ tb_completed s) (tb_malformed_bytes s)
           (tb_malformed_bytes_saturated s) (tb_resync_required s)).

Definition buffer_clear (s : TsPacketCompletionBuffer) : TsPacketCompletionBuffer :=
  mkBuffer [] [] (tb_malformed_bytes s) (tb_malformed_bytes_saturated s) false.

Definition drain_for_boundary (s : TsPacketCompletionBuffer)
  : TsPacketBufferDrain * TsPacketCompletionBuffer :=
  let '(packets, s) := drain_completed s usize_max in
  let malformed_bytes := len (tb_buf s) in
  let s := if malformed_bytes >? 0
           then let s := add_malformed_bytes s malformed_bytes in
                mkBuffer [] (tb_completed s) (tb_malformed_bytes s)
                  (tb_malformed_bytes_saturated s) (tb_resync_required s)
           else s in
  (mkDrain packets malformed_bytes,
   mkBuffer (tb_buf s) (tb_completed s) (tb_malformed_bytes s)
     (tb_malformed_bytes_saturated s) false).

(** ** The first-error collector *)
Record FirstErrorCollector (E : Type) := mkCollector { first_error : option E }.
Arguments mkCollector {E} _.
Arguments first_error {E} _.

Definition push_error {E} (c : FirstErrorCollector E) (e : E) : FirstErrorCollector E :=
  match first_error c with None => mkCollector (Some e) | Some _ => c end.
Definition push_result {E} (c : FirstErrorCollector E) (r : result unit E) : FirstErrorCollector E :=
  match r with Err e => push_error c e | Ok _ => c end.
Definition has_error {E} (c : FirstErrorCollector E) : bool := bool_decide (is_Some (first_error c)).
Definition into_result {E} (c : FirstErrorCollector E) : result unit E :=
  match first_error c with Some e => Err e | None => Ok tt end.

(** ** Japanese frequency contracts *)
Definition is_japan_bs_if_frequency_hz (f : Z) : bool :=
  let first := 1049480000 in
  let last := 1471440000 in
  if (f <? first) || (f >? last) then false
  else (f - first) mod 38360000 =? 0.

Definition is_japan_cs110_if_frequency_hz (f : Z) : bool :=
  let first := 1613000000 in
  let last := 2053000000 in
  if (f <? first) || (f >? last) then false
  else (f - first) mod 40000000 =? 0.

(** ** Regaining sync *)
Definition synced (buf : bytes) (o : Z) : Prop :=
  nthz buf o = 0x47 /\ nthz buf (o + 188) = 0x47 /\ nthz buf (o + 376) = 0x47.

(** What [confirmed_sync_offset] finds: the first offset with three sync
    bytes whose last one is already received. *)
Definition first_sync (buf : bytes) (r : option Z) : Prop :=
  match r with
  | Some o => 0 <= o /\ o + 376 < len buf /\ synced buf o /\
              forall o', 0 <= o' < o -> ~ synced buf o'
  | None => forall o', 0 <= o' -> o' + 376 < len buf -> ~ synced buf o'
  end.

Lemma syncs_at_spec buf o : 0 <= o -> o + 376 < len buf ->
  exists b, syncs_at 3 buf o = Ret b /\ (b = true <-> synced buf o).
Proof.
  intros Ho Hl. unfold synced. cbn [syncs_at]. unfold TS_PACKET_SIZE.
  rewrite !byte_at_ok by lia. cbn.
  replace (o + 188 + 188) with (o + 376) by lia.
  destruct (Z.eqb_spec (nthz buf o) 71); [|eexists; split; [done|split; [done|lia]]].
  destruct (Z.eqb_spec (nthz buf (o + 188)) 71); [|eexists; split; [done|split; [done|lia]]].
  destruct (Z.eqb_spec (nthz buf (o + 376)) 71); eexists; (split; [done|split; [done|lia]]).
Qed.

Lemma find_sync_spec count buf o : 0 <= o -> o + Z.of_nat count + 376 <= len buf ->
  returns (find_sync count buf o) (fun r =>
    match r with
    | Some p => o <= p < o + Z.of_nat count /\ synced buf p /\
                forall o', o <= o' < p -> ~ synced buf o'
    | None => forall o', o <= o' < o + Z.of_nat count -> ~ synced buf o'
    end).
Proof.
  revert o; induction count as [|count IH]; intros o Ho Hl; cbn [find_sync].
  - apply returns_ret; lia.
  - destruct (syncs_at_spec buf o) as (b & Hb & Hiff); [lia..|].
    change (Z.to_nat TS_RESYNC_CONFIRM_PACKETS) with 3%nat. rewrite Hb; simpl.
    destruct b.
    + apply returns_ret. split; [lia|]. split; [tauto|lia].
    + assert (~ synced buf o) by (intros H; apply Hiff in H; done).
      eapply returns_mono; [apply IH; lia|]. intros [p|].
      * intros (? & ? & Hmin). split; [lia|]. split; [done|]. intros o' ?.
        destruct (decide (o' = o)) as [->|]; [done|apply Hmin; lia].
      * intros Hmin o' ?. destruct (decide (o' = o)) as [->|]; [done|apply Hmin; lia].
Qed.

Lemma confirmed_sync_offset_spec buf :
  returns (confirmed_sync_offset buf) (first_sync buf).
Proof.
  unfold confirmed_sync_offset.
  change TS_RESYNC_CONFIRM_BYTES with 377.
  destruct (Z.ltb_spec (len buf) 377).
  - apply returns_ret; simpl; lia.
  - eapply returns_mono; [apply find_sync_spec; lia|].
    intros [p|]; simpl.
    + intros (? & ? & Hmin). repeat split; try lia; try apply H1. intros; apply Hmin; lia.
    + intros Hmin o' ??. apply Hmin; lia.
Qed.

Lemma first_sync_unique buf r r' : first_sync buf r -> first_sync buf r' -> r = r'.
Proof.
  destruct r as [o|], r' as [o'|]; simpl; intros H H'; auto.
  - destruct H as (? & ? & ? & Hm), H' as (? & ? & ? & Hm').
    destruct (decide (o < o')); [by destruct (Hm' o); [lia|]|].
    destruct (decide (o' < o)); [by destruct (Hm o'); [lia|]|]. f_equal; lia.
  - destruct H as (? & ? & ? & _). by destruct (H' o).
  - destruct H' as (? & ? & ? & _). by destruct (H o').
Qed.

(** ** Specification of the resynchronising cut

    [drains buf rs buf' rs' ps d]: from the received bytes [buf], in or out of
    sync, the packets [ps] are cut, [d] bytes are given up, and [buf'] is
    kept for later, in sync or not according to [rs']. *)
Inductive drains : bytes -> bool -> bytes -> bool -> list bytes -> Z -> Prop :=
| drains_short buf : len buf < 188 -> drains buf false buf false [] 0
| drains_lost buf buf' rs' ps d :
    188 <= len buf -> nthz buf 0 <> 0x47 ->
    drains buf true buf' rs' ps d -> drains buf false buf' rs' ps d
| drains_packet buf buf' rs' ps d :
    188 <= len buf -> nthz buf 0 = 0x47 ->
    drains (dropz 188 buf) false buf' rs' ps d ->
    drains buf false buf' rs' (takez 188 buf :: ps) d
| drains_found buf o buf' rs' ps d :
    first_sync buf (Some o) ->
    drains (dropz o buf) false buf' rs' ps d -> drains buf true buf' rs' ps (o + d)
| drains_wait buf :
    first_sync buf None ->
    drains buf true (dropz (Z.max 0 (len buf - 376)) buf) true []
      (Z.max 0 (len buf - 376)).

#[export] Hint Constructors drains : tv.

Definition add_saturating (m d : Z) (sat : bool) : Z * bool :=
  (Z.min usize_max (m + d), sat || (usize_max <? m + d)).

Lemma add_local_malformed_eq m d sat :
  0 <= m <= usize_max -> 0 <= d ->
  add_local_malformed m d sat = add_saturating m d sat.
Proof.
  intros. unfold add_local_malformed, add_saturating, checked_add.
  destruct (Z.leb_spec (m + d) usize_max).
  - rewrite Z.min_r by lia. rewrite (proj2 (Z.ltb_ge _ _)) by lia. by rewrite orb_false_r.
  - rewrite Z.min_l by lia. rewrite (proj2 (Z.ltb_lt _ _)) by lia. by rewrite orb_true_r.
Qed.

Lemma add_saturating_assoc m d e sat m' sat' :
  0 <= d -> 0 <= e -> add_saturating m d sat = (m', sat') ->
  add_saturating m' e sat' = add_saturating m (d + e) sat.
Proof.
  unfold add_saturating; intros ?? [= <- <-]. f_equal; [lia|].
  destruct sat; [done|]; simpl.
  destruct (Z.ltb_spec usize_max (m + d)), (Z.ltb_spec usize_max (m + (d + e))),
    (Z.ltb_spec usize_max (Z.min usize_max (m + d) + e)); simpl; lia || done.
Qed.

(** The loop's fuel: a packet, a resync or the loss of sync makes progress. *)
Definition push_measure (s : push_locals) : Z :=
  3 * len (pl_buf s) +
  (if pl_resync s then 1 else if nthz (pl_buf s) 0 =? 0x47 then 0 else 2).

Lemma drains_discard_nonneg buf rs buf' rs' ps d : drains buf rs buf' rs' ps d -> 0 <= d.
Proof. induction 1; simpl in *; lia. Qed.

(** The loop computes [drains] and adds to its accumulators. *)
Definition loop_result (s s' : push_locals) : Prop :=
  exists ps d,
    drains (pl_buf s) (pl_resync s) (pl_buf s') (pl_resync s') ps d /\
    pl_completed s' = pl_completed s ++ ps /\
    (pl_malformed s', pl_saturated s') = add_saturating (pl_malformed s) d (pl_saturated s).

Lemma add_saturating_0 m sat : 0 <= m <= usize_max -> add_saturating m 0 sat = (m, sat).
Proof.
  intros; unfold add_saturating. rewrite Z.add_0_r, Z.min_r by lia.
  rewrite (proj2 (Z.ltb_ge _ _)) by lia. by rewrite orb_false_r.
Qed.

(** What one turn owes the loop: a final result, or progress and a state
    from which the rest of the loop completes the result. *)
Definition step_result (s : push_locals) (r : flow push_locals) : Prop :=
  match r with
  | Break s' => loop_result s s'
  | Continue s' =>
      push_measure s' < push_measure s /\ 0 <= pl_malformed s' <= usize_max /\
      forall s'', loop_result s' s'' -> loop_result s s''
  end.

Lemma loop_result_quiet buf rs completed m sat :
  0 <= m <= usize_max -> drains buf rs buf rs [] 0 ->
  loop_result (mkLocals buf rs completed m sat) (mkLocals buf rs completed m sat).
Proof.
  intros Hm Hd. exists [], 0; simpl. by rewrite app_nil_r, add_saturating_0.
Qed.

Lemma step_result_found buf o completed m sat m' sat' :
  first_sync buf (Some o) -> 0 <= m <= usize_max ->
  (m', sat') = add_saturating m o sat ->
  step_result (mkLocals buf true completed m sat)
    (Continue (mkLocals (dropz o buf) false completed m' sat')).
Proof.
  intros Hr Hm Hadd. pose proof Hr as (Ho & Hl & [Hs _] & _). pose_lens.
  split; [|split].
  - unfold push_measure; cbn [pl_buf pl_resync].
    rewrite nthz_dropz by lia. rewrite Z.add_0_r, Hs. simpl. rewrite len_dropz by lia. lia.
  - unfold add_saturating, u64_max in *; simpl. injection Hadd; lia.
  - intros s'' (ps & d & Hd & Hc & Hs'); simpl in *. exists ps, (o + d); simpl.
    split; [by apply drains_found|]. split; [done|]. rewrite Hs'.
    apply add_saturating_assoc with (1 := Ho); [|done]. by eapply drains_discard_nonneg.
Qed.

Lemma push_step_resync buf completed m sat :
  0 <= m <= usize_max ->
  returns (push_step (mkLocals buf true completed m sat))
    (step_result (mkLocals buf true completed m sat)).
Proof.
  intros Hm. cbn [push_step].
  destruct (confirmed_sync_offset_spec buf) as ([o|] & -> & Hr); cbn -[u64_max step_result].
  - pose proof Hr as (Ho & _). rewrite Z.gtb_ltb. destruct (Z.ltb_spec 0 o).
    + rewrite add_local_malformed_eq by lia. apply returns_ret, step_result_found; done.
    + assert (o = 0) as -> by lia. apply returns_ret. rewrite <- (dropz_0 buf) at 2.
      apply step_result_found; [done..|]. by rewrite add_saturating_0.
  - pose proof (drains_wait _ Hr) as Hw. rewrite Z.gtb_ltb.
    change TS_RESYNC_TAIL_BYTES with 376. destruct (Z.ltb_spec 376 (len buf)).
    + rewrite Z.max_r in Hw by lia. rewrite add_local_malformed_eq by lia.
      apply returns_ret. exists [], (len buf - 376); simpl. by rewrite app_nil_r.
    + rewrite Z.max_l, dropz_0 in Hw by lia. by apply returns_ret, loop_result_quiet.
Qed.

Lemma push_step_in_sync buf completed m sat :
  0 <= m <= usize_max ->
  returns (push_step (mkLocals buf false completed m sat))
    (step_result (mkLocals buf false completed m sat)).
Proof.
  intros Hm. cbn [push_step]. unfold TS_PACKET_SIZE. destruct (Z.ltb_spec (len buf) 188).
  { apply returns_ret, loop_result_quiet; auto with tv. }
  rewrite byte_at_ok by lia. cbn -[u64_max slice step_result].
  destruct (Z.eqb_spec (nthz buf 0) 71) as [E|E]; cbn -[u64_max slice step_result].
  - rewrite slice_ok by lia. apply returns_ret. split; [|split; [done|]].
    + unfold push_measure; cbn [pl_buf pl_resync]. rewrite len_dropz by lia.
      repeat case_test; lia.
    + intros s' (ps & d & Hd & Hc & Hs'); simpl in *.
      exists (takez 188 buf :: ps), d. split; [by apply drains_packet|].
      split; [|done]. rewrite Hc, <- app_assoc. simpl. by rewrite dropz_0.
  - apply returns_ret. split; [|split; [done|]].
    + unfold push_measure; cbn [pl_buf pl_resync].
      destruct (Z.eqb_spec (nthz buf 0) 71); lia.
    + intros s' (ps & d & Hd & Hc & Hs'); simpl in *.
      exists ps, d. split; [by apply drains_lost|done].
Qed.

Lemma push_loop_spec fuel s :
  0 <= pl_malformed s <= usize_max -> push_measure s < Z.of_nat fuel ->
  returns (push_loop fuel s) (loop_result s).
Proof.
  revert s; induction fuel as [|fuel IH]; intros s Hm Hf.
  { unfold push_measure in Hf. pose_lens. repeat case_match; lia. }
  cbn [push_loop]. apply returns_bind with (P := step_result s).
  { destruct s as [? [] ???]; [by apply push_step_resync|by apply push_step_in_sync]. }
  intros [s'|s'] Hr; [|by apply returns_ret].
  destruct Hr as (? & ? & Hr). eapply returns_mono; [apply IH; [done|lia]|done].
Qed.

(** ** Facts about the cut *)
Lemma drains_functional buf rs b1 r1 p1 d1 :
  drains buf rs b1 r1 p1 d1 -> forall b2 r2 p2 d2,
  drains buf rs b2 r2 p2 d2 -> b1 = b2 /\ r1 = r2 /\ p1 = p2 /\ d1 = d2.
Proof.
  induction 1 as [buf ?|buf b1 r1 p1 d1 ?? H1 IH|buf b1 r1 p1 d1 ?? H1 IH
                 |buf o b1 r1 p1 d1 Hf H1 IH|buf Hf];
    intros b2 r2 p2 d2 H2; inversion H2; subst; try lia; auto;
    try match goal with
    | Ha : first_sync buf ?r, Hb : first_sync buf ?r' |- _ =>
        pose proof (first_sync_unique _ _ _ Ha Hb); simplify_eq
    end;
    edestruct IH as (-> & -> & -> & ->); eauto.
Qed.

Definition is_ts_packet (p : bytes) : Prop := len p = 188 /\ nthz p 0 = 0x47.

(** Every received byte is cut into a packet, given up or kept; the packets
    are 188 bytes and start with the sync byte; less than two packets and a
    byte are kept. *)
Lemma drains_accounting buf rs buf' rs' ps d :
  drains buf rs buf' rs' ps d ->
  len buf = 188 * len ps + d + len buf' /\ Forall is_ts_packet ps /\
  len buf' <= 376 /\ 0 <= d.
Proof.
  induction 1 as [buf ?|buf b1 r1 p1 d1 ?? H1 IH|buf b1 r1 p1 d1 ?? H1 IH
                 |buf o b1 r1 p1 d1 Hf H1 IH|buf Hf]; pose_lens.
  - autorewrite with tv_len. repeat split; try constructor; lia.
  - exact IH.
  - destruct IH as (Hlen & Hall & Htail & Hd). rewrite len_dropz in Hlen by lia.
    rewrite len_cons. split; [lia|]. split; [|done]. constructor; [|done].
    split; [apply len_takez; lia|]. by rewrite nthz_takez by lia.
  - destruct Hf as (? & ? & _). rewrite len_dropz in IH by lia.
    destruct IH as (? & ? & ? & ?). repeat split; try done; lia.
  - rewrite len_dropz by lia. autorewrite with tv_len. repeat split; try constructor; lia.
Qed.

Lemma synced_app buf b o : 0 <= o -> o + 376 < len buf -> synced (buf ++ b) o <-> synced buf o.
Proof. intros; unfold synced. by rewrite !nthz_app_l by lia. Qed.

Lemma first_sync_app buf b o : first_sync buf (Some o) -> first_sync (buf ++ b) (Some o).
Proof.
  intros (Ho & Hl & Hs & Hm). pose_lens. split; [done|]. split; [lens|].
  split; [by apply synced_app|]. intros o' ?. rewrite synced_app by lia. by apply Hm.
Qed.

(** Bytes given up while out of sync can no longer start a confirmed run. *)
Lemma first_sync_drop buf b r : 376 <= len buf ->
  first_sync buf None ->
  first_sync (dropz (len buf - 376) buf ++ b) r ->
  first_sync (buf ++ b) (option_map (Z.add (len buf - 376)) r).
Proof.
  intros Hl Hn. set (d := len buf - 376) in *. pose_lens.
  rewrite <- dropz_app_le by lia.
  assert (Hsync : forall o, 0 <= o ->
            synced (dropz d (buf ++ b)) o <-> synced (buf ++ b) (d + o)).
  { intros o Ho. unfold synced. rewrite !nthz_dropz by lia. by rewrite !Z.add_assoc. }
  assert (Hearly : forall o, 0 <= o < d -> ~ synced (buf ++ b) o).
  { intros o ?. rewrite synced_app by lia. apply Hn; lia. }
  destruct r as [o|]; simpl; intros Hr.
  - destruct Hr as (Ho & Hlen & Hs & Hm). rewrite len_dropz in Hlen by (lens).
    split; [lia|]. split; [lia|]. split; [by apply Hsync|]. intros o' ?.
    destruct (decide (o' < d)); [apply Hearly; lia|].
    replace o' with (d + (o' - d)) by lia. rewrite <- Hsync by lia. apply Hm; lia.
  - intros o' ??. destruct (decide (o' < d)); [apply Hearly; lia|].
    replace o' with (d + (o' - d)) by lia. rewrite <- Hsync by lia. apply Hr; [lia|].
    rewrite len_dropz by (lens). lia.
Qed.

(** Cutting what is received first and continuing with what was kept is the
    same as cutting everything at once. *)
Lemma drains_app buf rs buf1 rs1 ps1 d1 b :
  drains buf rs buf1 rs1 ps1 d1 -> forall buf2 rs2 ps2 d2,
  drains (buf1 ++ b) rs1 buf2 rs2 ps2 d2 ->
  drains (buf ++ b) rs buf2 rs2 (ps1 ++ ps2) (d1 + d2).
Proof.
  induction 1 as [buf ?|buf b1 r1 p1 d1 ?? H1 IH|buf b1 r1 p1 d1 ?? H1 IH
                 |buf o b1 r1 p1 d1 Hf H1 IH|buf Hf]; intros buf2 rs2 ps2 d2 H2; pose_lens.
  - exact H2.
  - apply drains_lost; [lens|by rewrite nthz_app_l by lia|by apply IH].
  - rewrite <- (takez_app_le 188 buf b) by lia. simpl.
    apply drains_packet; [lens|by rewrite nthz_app_l by lia|].
    rewrite dropz_app_le by lia. by apply IH.
  - pose proof Hf as (? & ? & _). rewrite <- Z.add_assoc. apply drains_found; [by apply first_sync_app|].
    rewrite dropz_app_le by lia. by apply IH.
  - destruct (decide (len buf <= 376)).
    { rewrite Z.max_l, dropz_0 in H2 by lia. by rewrite Z.max_l by lia. }
    rewrite Z.max_r in * by lia. simpl. inversion H2 as [| | |buf' o ???? Hf2 Hd2|buf' Hf2]; subst.
    + pose proof Hf2 as (Ho & _). apply first_sync_drop in Hf2; [|lia|done]. simpl in Hf2.
      rewrite Z.add_assoc. apply drains_found; [exact Hf2|].
      by rewrite <- (dropz_app_le _ buf b), dropz_dropz in Hd2 by lia.
    + apply first_sync_drop in Hf2; [|lia|done]. simpl in Hf2.
      pose proof (drains_wait _ Hf2) as Hw. autorewrite with tv_len in *. pose_lens.
      replace (Z.max 0 (len buf + len b - 376)) with (len buf - 376 + len b) in Hw by lia.
      replace (Z.max 0 (len buf - (len buf - 376) + len b - 376)) with (len b) by lia.
      by rewrite <- dropz_app_le, dropz_dropz by lia.
Qed.

(** ** The buffer's operations *)
Definition wf_buffer (s : TsPacketCompletionBuffer) : Prop :=
  0 <= tb_malformed_bytes s <= u64_max /\ Forall is_ts_packet (tb_completed s) /\
  len (tb_buf s) <= 376.

(** The bytes and packets in memory stay addressable. *)
Definition fits (s : TsPacketCompletionBuffer) (data : bytes) : Prop :=
  len (tb_completed s) + len (tb_buf s) + len data < usize_max.

(** What [push] does to the buffer [s], with [ps] cut and [d] bytes given up. *)
Definition push_result_of (s : TsPacketCompletionBuffer) (data : bytes) (ps : list bytes) (d : Z)
    (r : TsPacketBufferDrain * TsPacketCompletionBuffer) : Prop :=
  drains (tb_buf s ++ data) (tb_resync_required s)
         (tb_buf (snd r)) (tb_resync_required (snd r)) ps d /\
  fst r = mkDrain (tb_completed s ++ ps) d /\
  tb_completed (snd r) = [] /\
  tb_malformed_bytes (snd r) = Z.min u64_max (tb_malformed_bytes s + d) /\
  tb_malformed_bytes_saturated (snd r) =
    tb_malformed_bytes_saturated s || (u64_max <? tb_malformed_bytes s + d).

Lemma add_malformed_bytes_eq s d :
  0 <= tb_malformed_bytes s <= u64_max -> 0 <= d < u64_max ->
  (if d >? 0 then add_malformed_bytes s d else s) =
  mkBuffer (tb_buf s) (tb_completed s) (Z.min u64_max (tb_malformed_bytes s + d))
    (tb_malformed_bytes_saturated s || (u64_max <? tb_malformed_bytes s + d))
    (tb_resync_required s).
Proof.
  destruct s as [buf completed m sat rs]; simpl; intros Hm Hd.
  rewrite Z.gtb_ltb. destruct (Z.ltb_spec 0 d).
  - unfold add_malformed_bytes; simpl. rewrite (proj2 (Z.eqb_neq d 0)) by lia.
    pose proof (add_local_malformed_eq m d sat Hm ltac:(lia)) as E.
    unfold add_local_malformed in E.  rewrite E.
    unfold add_saturating. by rewrite (proj2 (Z.eqb_neq d u64_max)) by lia.
  - assert (d = 0) as -> by lia.
    pose proof (add_saturating_0 m sat Hm) as [= E1 E2]. 
    by rewrite E1, E2.
Qed.

Lemma drain_completed_all s : len (tb_completed s) <= usize_max ->
  drain_completed s usize_max =
    (tb_completed s, mkBuffer (tb_buf s) [] (tb_malformed_bytes s)
       (tb_malformed_bytes_saturated s) (tb_resync_required s)).
Proof. intros; unfold drain_completed. by rewrite takez_all, dropz_all by done. Qed.

Lemma push_spec s data :
  wf_buffer s -> fits s data ->
  returns (push s data) (fun r => exists ps d, push_result_of s data ps d r).
Proof.
  intros (Hm & _ & _) Hfit. unfold push. eapply returns_bind.
  - apply push_loop_spec; cbn [pl_malformed]; [unfold u64_max; lia|].
    unfold push_measure; cbn [pl_buf pl_resync]. unfold len. repeat case_match; lia.
  - intros [buf' rs' c' m' sat'] (ps & d & Hd & Hc & Hs).
    cbn [pl_buf pl_resync pl_completed pl_malformed pl_saturated] in *.
    pose proof (drains_accounting _ _ _ _ _ _ Hd) as (Hlen & Hall & _ & Hd0).
    unfold fits in Hfit. autorewrite with tv_len in Hlen. pose_lens.
    assert (Hsmall : len c' <= usize_max) by (rewrite Hc; lens).
    unfold add_saturating in Hs. rewrite Z.min_r in Hs by lia.
    rewrite (proj2 (Z.ltb_ge _ _)) in Hs by lia. injection Hs as -> ->. cbn [orb].
    rewrite Z.add_0_l in *. rewrite add_malformed_bytes_eq by (simpl; lia).
    cbn [tb_buf tb_completed tb_malformed_bytes tb_malformed_bytes_saturated tb_resync_required].
    rewrite drain_completed_all by done. apply returns_ret. exists ps, d.
    unfold push_result_of; simpl. rewrite <- Hc. by repeat split.
Qed.

Lemma push_result_wf s data ps d r :
  wf_buffer s -> push_result_of s data ps d r -> wf_buffer (snd r).
Proof.
  intros (Hm & Hc & Hl) (Hd & Hdr & Hc' & Hm' & _).
  apply drains_accounting in Hd as (_ & _ & Htail & Hd0).
  split; [rewrite Hm'; unfold u64_max in *; lia|]. by rewrite Hc'.
Qed.

(** Two pushes in a row are one push of the concatenation. *)
Lemma push_result_app s a b ps1 d1 r1 ps2 d2 r2 :
  wf_buffer s ->
  push_result_of s a ps1 d1 r1 -> push_result_of (snd r1) b ps2 d2 r2 ->
  push_result_of s (a ++ b) (ps1 ++ ps2) (d1 + d2)
    (mkDrain (drain_packets (fst r1) ++ drain_packets (fst r2))
             (drain_malformed_bytes (fst r1) + drain_malformed_bytes (fst r2)), snd r2).
Proof.
  intros ((Hm & _) & _) (Hd1 & Hf1 & Hc1 & Hm1 & Hs1) (Hd2 & Hf2 & Hc2 & Hm2 & Hs2).
  pose proof (drains_discard_nonneg _ _ _ _ _ _ Hd1).
  pose proof (drains_discard_nonneg _ _ _ _ _ _ Hd2).
  unfold push_result_of; cbn [fst snd]. rewrite Hf1, Hf2, Hc1; simpl.
  split; [rewrite app_assoc; by eapply drains_app|].
  split; [by rewrite app_assoc|]. split; [done|]. rewrite Hm1 in Hm2, Hs2.
  split; [lia|]. rewrite Hs2, Hs1.
  pose proof (add_saturating_assoc (tb_malformed_bytes s) d1 d2
    (tb_malformed_bytes_saturated s) _ _ ltac:(lia) ltac:(lia) eq_refl) as E.
  unfold add_saturating in E.  congruence.
Qed.

(** ** The identifier allocator

    [IdAllocator::try_allocate] retries a compare-exchange on an atomic
    counter.  A turn of its loop is two atomic accesses, the load and the
    compare-exchange, between which other threads run; [loaded] holds the
    value each thread in the middle of a turn has read. *)
Module IdAllocator.

Record state := mkState {
  next : Z;
  loaded : gmap nat Z;
  allocated : list Z;   (* identifiers returned so far, oldest first *)
}.

Inductive turn_result := Exhausted (last_attempted : Z) | Allocated (id : Z) | Retry.

Definition new_bounded (start : Z) : state := mkState start ∅ [].

(** [let current = self.next.load(..)] *)
Definition load (t : nat) (s : state) : state :=
  mkState (next s) (<[t := next s]> (loaded s)) (allocated s).

(** The rest of the turn of thread [t], which has read [current]. *)
Definition finish_turn (max : Z) (t : nat) (current : Z) (s : state) : turn_result * state :=
  let idle := delete t (loaded s) in
  if current >? max then (Exhausted current, mkState (next s) idle (allocated s))
  else match checked_add i32_max current 1 with
       | None => (Exhausted current, mkState (next s) idle (allocated s))
       | Some n =>
           if next s =? current
           then (Allocated current, mkState n idle (allocated s ++ [current]))
           else (Retry, mkState (next s) idle (allocated s))
       end.

Inductive step (max : Z) : state -> state -> Prop :=
| step_load t s : loaded s !! t = None -> step max s (load t s)
| step_finish t current s :
    loaded s !! t = Some current -> step max s (snd (finish_turn max t current s)).

Lemma seqZ_snoc start n : 0 <= n -> seqZ start (n + 1) = seqZ start n ++ [start + n].
Proof.
  intros. rewrite seqZ_app by lia. by f_equal.
Qed.

(** What is handed out is the initial segment that starts at [start]. *)
Definition invariant (max start : Z) (s : state) : Prop :=
  start <= next s /\ allocated s = seqZ start (next s - start) /\
  (start < next s -> next s <= max + 1 /\ next s <= i32_max).

Lemma step_invariant max start s s' :
  step max s s' -> invariant max start s -> invariant max start s'.
Proof.
  intros [t s0 _|t c s0 _] (Hle & Ha & Hb); [done|].
  unfold finish_turn. rewrite Z.gtb_ltb. destruct (Z.ltb_spec max c); [done|].
  destruct (checked_add i32_max c 1) as [n|] eqn:E; [|done].
  apply checked_add_Some in E as [-> Hn]. destruct (Z.eqb_spec (next s0) c) as [<-|]; [|done].
  unfold invariant; simpl. split; [lia|]. split; [|lia].
  rewrite Ha. replace (next s0 + 1 - start) with (next s0 - start + 1) by lia.
  rewrite seqZ_snoc by lia. do 2 f_equal; lia.
Qed.

Lemma reachable_invariant max start s :
  rtc (step max) (new_bounded start) s -> invariant max start s.
Proof.
  intros H. remember (new_bounded start) as s0 eqn:E0.
  assert (invariant max start s0) as Hi.
  { subst. unfold invariant, new_bounded; simpl. rewrite Z.sub_diag. repeat split; lia. }
  clear E0. induction H as [|s0 s1 s2 Hs _ IH]; [done|]. apply IH. by eapply step_invariant.
Qed.

End IdAllocator.

(** ** Properties *)

(** C11. [push] always returns (it neither panics nor loops), whatever the
    bytes and whether or not the buffer is in sync, and it implements the
    specification [drains]: it hands out the packets completed before
    followed by the packets cut now, keeps the specified tail and sync state,
    and adds the bytes given up to the saturating counter. *)
Theorem push_refines_drains (s : TsPacketCompletionBuffer) (data : bytes)
    (Hwf : wf_buffer s) (Hfit : fits s data) :
  exists r ps d, push s data = Ret r /\ push_result_of s data ps d r /\ wf_buffer (snd r).
Proof.
  destruct (push_spec s data Hwf Hfit) as (r & Hr & ps & d & Hres).
  exists r, ps, d. split; [done|]. split; [done|]. by eapply push_result_wf.
Qed.

Lemma push_refines_drains_witness :
  exists r ps d, push buffer_default (0 :: replicate 377 0x47) = Ret r /\
    push_result_of buffer_default (0 :: replicate 377 0x47) ps d r /\ wf_buffer (snd r).
Proof.
  apply push_refines_drains.
  - repeat split; try constructor; vm_compute; discriminate.
  - vm_compute; reflexivity.
Defined.

(** C12. The cut does not depend on how the byte stream is chunked: pushing
    [a] and then [b] hands out the same packets in the same order, gives up
    the same number of bytes and leaves the same buffer as pushing [a ++ b]. *)
Theorem push_chunking (s : TsPacketCompletionBuffer) (a b : bytes)
    (Hwf : wf_buffer s) (Hfit : fits s (a ++ b)) :
  exists d1 s1 d2 s2 s12,
    push s a = Ret (d1, s1) /\ push s1 b = Ret (d2, s2) /\
    push s (a ++ b) =
      Ret (mkDrain (drain_packets d1 ++ drain_packets d2)
                   (drain_malformed_bytes d1 + drain_malformed_bytes d2), s12) /\
    s12 = s2.
Proof.
  unfold fits in Hfit; autorewrite with tv_len in Hfit.
  destruct (push_spec s a Hwf) as ([d1 s1] & H1 & ps1 & n1 & R1); [unfold fits; pose_lens; lia|].
  pose proof (push_result_wf _ _ _ _ _ Hwf R1) as Hwf1. cbn [snd] in Hwf1.
  pose proof R1 as (Hd1 & _ & Hc1 & _).
  pose proof (drains_accounting _ _ _ _ _ _ Hd1) as (Hlen & _ & _ & ?). simpl in *.
  autorewrite with tv_len in Hlen.
  destruct (push_spec s1 b Hwf1) as ([d2 s2] & H2 & ps2 & n2 & R2).
  { unfold fits. rewrite Hc1. autorewrite with tv_len. pose_lens. lia. }
  destruct (push_spec s (a ++ b) Hwf) as ([d12 s12] & H12 & ps & n & R12).
  { unfold fits; autorewrite with tv_len; lia. }
  pose proof (push_result_app _ _ _ _ _ _ _ _ _ Hwf R1 R2) as R.
  destruct R12 as (Hd & Hf & Hc & Hm & Hs), R as (Hd' & Hf' & Hc' & Hm' & Hs').
  destruct (drains_functional _ _ _ _ _ _ Hd _ _ _ _ Hd') as (E1 & E2 & -> & ->).
  simpl in *. exists d1, s1, d2, s2, s12. split; [done|]. split; [done|].
  rewrite H12, Hf, Hf'. split; [done|].
  destruct s12, s2; simpl in *; congruence.
Qed.

Lemma push_chunking_witness :
  exists d1 s1 d2 s2 s12,
    push buffer_default (replicate 100 0x47) = Ret (d1, s1) /\
    push s1 (replicate 300 0x47) = Ret (d2, s2) /\
    push buffer_default (replicate 100 0x47 ++ replicate 300 0x47) =
      Ret (mkDrain (drain_packets d1 ++ drain_packets d2)
                   (drain_malformed_bytes d1 + drain_malformed_bytes d2), s12) /\
    s12 = s2.
Proof.
  apply push_chunking.
  - repeat split; try constructor; vm_compute; discriminate.
  - vm_compute; reflexivity.
Defined.

(** C21. Nothing is lost or invented: the bytes held and received are the
    packets cut now, the bytes counted as malformed and the tail kept; every
    packet handed out is 188 bytes and starts with the sync byte, and the
    tail never exceeds two packets. *)
Theorem push_accounting (s : TsPacketCompletionBuffer) (data : bytes)
    (Hwf : wf_buffer s) (Hfit : fits s data) :
  exists drain s', push s data = Ret (drain, s') /\
    188 * len (tb_completed s) + len (tb_buf s) + len data =
      188 * len (drain_packets drain) + drain_malformed_bytes drain + len (tb_buf s') /\
    Forall is_ts_packet (drain_packets drain) /\ len (tb_buf s') <= 376.
Proof.
  destruct (push_spec s data Hwf Hfit) as ([dr s'] & Hp & ps & d & Hd & Hf & _); simpl in *.
  exists dr, s'. split; [done|].
  apply drains_accounting in Hd as (Hlen & Hall & Htail & _). subst dr; simpl.
  autorewrite with tv_len in *. split; [lia|]. split; [|done].
  apply Forall_app; split; [apply Hwf|done].
Qed.

Lemma push_accounting_witness :
  exists drain s', push buffer_default (7 :: replicate 377 0x47) = Ret (drain, s') /\
    188 * len (tb_completed buffer_default) + len (tb_buf buffer_default)
      + len (7 :: replicate 377 0x47) =
      188 * len (drain_packets drain) + drain_malformed_bytes drain + len (tb_buf s') /\
    Forall is_ts_packet (drain_packets drain) /\ len (tb_buf s') <= 376.
Proof.
  apply push_accounting.
  - repeat split; try constructor; vm_compute; discriminate.
  - vm_compute; reflexivity.
Defined.

Lemma push_limited_spec s data max_packets :
  wf_buffer s -> fits s data -> 0 <= max_packets ->
  exists drain s' ps d,
    push_limited s data max_packets = Ret (drain, s') /\
    drains (tb_buf s ++ data) (tb_resync_required s) (tb_buf s') (tb_resync_required s') ps d /\
    drain_packets drain ++ tb_completed s' = tb_completed s ++ ps /\
    drain_malformed_bytes drain = d /\ len (drain_packets drain) <= max_packets.
Proof.
  intros Hwf Hfit Hmax.
  destruct (push_spec s data Hwf Hfit) as ([dr s'] & Hp & ps & d & Hd & Hf & Hc & _); simpl in *.
  unfold push_limited. rewrite Hp; simpl. destruct (Z.leb_spec (len (drain_packets dr)) max_packets).
  - exists dr, s', ps, d. subst dr; simpl in *. rewrite Hc, app_nil_r. by repeat split.
  - eexists _, _, ps, d. split; [reflexivity|]. simpl. rewrite Hc, app_nil_r.
    rewrite takez_dropz. subst dr; simpl in *. repeat split; try done.
    rewrite len_takez by lia. lia.
Qed.

(** C22. A bounded push is first in, first out: at most [max_packets] packets
    are handed out, and those followed by the ones retained for later are
    exactly the packets completed before followed by the packets cut now. *)
Theorem push_limited_fifo (s : TsPacketCompletionBuffer) (data : bytes) (max_packets : Z)
    (Hwf : wf_buffer s) (Hfit : fits s data) (Hmax : 0 <= max_packets) :
  exists drain s' ps d,
    push_limited s data max_packets = Ret (drain, s') /\
    drains (tb_buf s ++ data) (tb_resync_required s) (tb_buf s') (tb_resync_required s') ps d /\
    drain_packets drain ++ tb_completed s' = tb_completed s ++ ps /\
    drain_malformed_bytes drain = d /\ len (drain_packets drain) <= max_packets.
Proof. by apply push_limited_spec. Qed.

Lemma push_limited_fifo_witness :
  exists drain s' ps d,
    push_limited buffer_default (replicate 400 0x47) 1 = Ret (drain, s') /\
    drains ([] ++ replicate 400 0x47) false (tb_buf s') (tb_resync_required s') ps d /\
    drain_packets drain ++ tb_completed s' = [] ++ ps /\
    drain_malformed_bytes drain = d /\ len (drain_packets drain) <= 1.
Proof.
  apply (push_limited_fifo buffer_default).
  - repeat split; try constructor; vm_compute; discriminate.
  - vm_compute; reflexivity.
  - lia.
Defined.

(** C23. Under every interleaving of any number of threads, the identifiers
    [try_allocate] has returned are consecutive from the start value, so no
    identifier is ever handed out twice, and none exceeds the bound or
    reaches [i32::MAX]. *)
Theorem id_allocator_unique (max start : Z) (s : IdAllocator.state)
    (Hr : rtc (IdAllocator.step max) (IdAllocator.new_bounded start) s) :
  NoDup (IdAllocator.allocated s) /\
  IdAllocator.allocated s = seqZ start (IdAllocator.next s - start) /\
  Forall (fun id => start <= id <= max /\ id < i32_max) (IdAllocator.allocated s).
Proof.
  destruct (IdAllocator.reachable_invariant _ _ _ Hr) as (Hle & Ha & Hb).
  split; [rewrite Ha; apply NoDup_seqZ|]. split; [done|].
  rewrite Ha. apply Forall_forall. intros id Hid. apply list_elem_of_In, elem_of_seqZ in Hid. lia.
Qed.

Lemma id_allocator_unique_witness :
  let s := IdAllocator.mkState 2 ∅ [0; 1] in
  NoDup (IdAllocator.allocated s) /\
  IdAllocator.allocated s = seqZ 0 (IdAllocator.next s - 0) /\
  Forall (fun id => 0 <= id <= 5 /\ id < i32_max) (IdAllocator.allocated s).
Proof.
  intros s. apply (id_allocator_unique 5 0).
  (* thread 1 and thread 2 read 0; thread 1 wins, thread 2 retries *)
  eapply rtc_l; [apply (IdAllocator.step_load 5 1); reflexivity|].
  eapply rtc_l; [apply (IdAllocator.step_load 5 2); reflexivity|].
  eapply rtc_l; [apply (IdAllocator.step_finish 5 1 0); reflexivity|].
  eapply rtc_l; [apply (IdAllocator.step_finish 5 2 0); reflexivity|].
  eapply rtc_l; [apply (IdAllocator.step_load 5 2); reflexivity|].
  eapply rtc_l; [apply (IdAllocator.step_finish 5 2 1); reflexivity|].
  apply rtc_refl.
Defined.
