(* ===== verification/Multi2.v ===== *)
(** * MULTI2: the descrambler's block cipher and its CBC/OFB payload mode

    Models [tuner_hal2/descrambler/src/core/multi2.rs].  Words are [Z] of 32
    bits with their wrap-around written out, a payload is a byte string, and
    [chunks_exact_mut(8)] with its remainder is the recursion of
    [encrypt_cbc_ofb] and [decrypt_cbc_ofb] on eight bytes at a time.  The
    volatile zeroisation of key buffers is not observable by any result and
    is not modelled. *)

From S2P Require Import Prelude.

(** ** Data *)
Record Multi2KeyMaterial := {
  km_system_key : bytes;   (* [u8; 32] *)
  km_cbc_iv : bytes;       (* [u8; 8] *)
  km_data_key : bytes;     (* [u8; 8] *)
  km_rounds : nat;
}.

Record PreparedMulti2Key := {
  pk_cbc_iv : list Z;      (* [u32; 2] *)
  pk_work_key : list Z;    (* [u32; 8] *)
  pk_rounds : nat;
}.

Inductive Multi2PrepareError := InvalidRoundsZero.

Record Block := mkBlock { left : Z; right : Z }.

Definition DEFAULT_MULTI2_ROUNDS : nat := 4.

(** ** Word operations *)
Definition load_be (p : bytes) : Z :=
  Z.lor (Z.lor (Z.lor (Z.shiftl (nthz p 0) 24) (Z.shiftl (nthz p 1) 16))
               (Z.shiftl (nthz p 2) 8)) (nthz p 3).

Definition store_be (v : Z) : bytes :=
  [Z.land (Z.shiftr v 24) 255; Z.land (Z.shiftr v 16) 255;
   Z.land (Z.shiftr v 8) 255; Z.land v 255].

(** [u32::rotate_left] *)
Definition rot (n v : Z) : Z := Z.lor (wrap32 (Z.shiftl v n)) (Z.shiftr v (32 - n)).
Definition rot1_sub (v : Z) : Z := wrap32 (v + Z.shiftr v 31).
Definition rot1_add_dec (v : Z) : Z := wrap32 (wrap32 (rot 1 v + v) - 1).

Definition block_load (p : bytes) : Block :=
  mkBlock (load_be (takez 4 p)) (load_be (takez 4 (dropz 4 p))).
Definition block_store (b : Block) : bytes := store_be (left b) ++ store_be (right b).
Definition block_xor (a b : Block) : Block :=
  mkBlock (Z.lxor (left a) (left b)) (Z.lxor (right a) (right b)).
Definition cbc_post_decrypt (self ciphertext state : Block) : Block * Block :=
  (block_xor self state, ciphertext).

(** ** Round functions *)
Definition pi1 (p : Block) : Block :=
  mkBlock (left p) (Z.lxor (right p) (left p)).

Definition pi2 (p : Block) (k1 : Z) : Block :=
  let x := right p in
  let y := wrap32 (x + k1) in
  let z := rot1_add_dec y in
  mkBlock (Z.lxor (Z.lxor (left p) (rot 4 z)) z) (right p).

Definition pi3 (p : Block) (k2 k3 : Z) : Block :=
  let x := left p in
  let y := wrap32 (x + k2) in
  let z := wrap32 (wrap32 (rot 2 y + y) + 1) in
  let a := Z.lxor (rot 8 z) z in
  let b := wrap32 (a + k3) in
  let c := rot1_sub b in
  mkBlock (left p) (Z.lxor (Z.lxor (right p) (rot 16 c)) (Z.lor c x)).

Definition pi4 (p : Block) (k4 : Z) : Block :=
  let x := right p in
  let y := wrap32 (x + k4) in
  mkBlock (Z.lxor (left p) (wrap32 (wrap32 (rot 2 y + y) + 1))) (right p).

(** ** The cipher *)
Definition encrypt_round (wk : list Z) (b : Block) : Block :=
  let b := pi1 b in
  let b := pi2 b (nthz wk 0) in
  let b := pi3 b (nthz wk 1) (nthz wk 2) in
  let b := pi4 b (nthz wk 3) in
  let b := pi1 b in
  let b := pi2 b (nthz wk 4) in
  let b := pi3 b (nthz wk 5) (nthz wk 6) in
  pi4 b (nthz wk 7).

Definition decrypt_round (wk : list Z) (b : Block) : Block :=
  let b := pi4 b (nthz wk 7) in
  let b := pi3 b (nthz wk 5) (nthz wk 6) in
  let b := pi2 b (nthz wk 4) in
  let b := pi1 b in
  let b := pi4 b (nthz wk 3) in
  let b := pi3 b (nthz wk 1) (nthz wk 2) in
  let b := pi2 b (nthz wk 0) in
  pi1 b.

Definition cipher_encrypt (b : Block) (wk : list Z) (rounds : nat) : Block :=
  Nat.iter rounds (encrypt_round wk) b.
Definition cipher_decrypt (b : Block) (wk : list Z) (rounds : nat) : Block :=
  Nat.iter rounds (decrypt_round wk) b.

Definition parse_system_key (k : bytes) : list Z :=
  map (fun i => load_be (takez 4 (dropz (4 * i) k))) (seqZ 0 8).

Definition schedule (dk sk : list Z) : list Z :=
  let a0 := pi1 (mkBlock (nthz dk 0) (nthz dk 1)) in
  let a1 := pi2 a0 (nthz sk 0) in
  let a2 := pi3 a1 (nthz sk 1) (nthz sk 2) in
  let a3 := pi4 a2 (nthz sk 3) in
  let a4 := pi1 a3 in
  let a5 := pi2 a4 (nthz sk 4) in
  let a6 := pi3 a5 (nthz sk 5) (nthz sk 6) in
  let a7 := pi4 a6 (nthz sk 7) in
  let a8 := pi1 a7 in
  [left a1; right a2; left a3; right a4; left a5; right a6; left a7; right a8].

(** [Multi2KeyMaterial::new] *)
Definition key_material_new (system_key cbc_iv data_key : bytes) : Multi2KeyMaterial :=
  {| km_system_key := system_key; km_cbc_iv := cbc_iv;
     km_data_key := data_key; km_rounds := DEFAULT_MULTI2_ROUNDS |}.

Definition prepare (k : Multi2KeyMaterial) : result PreparedMulti2Key Multi2PrepareError :=
  if Nat.eqb (km_rounds k) 0 then Err InvalidRoundsZero
  else
    let system_key := parse_system_key (km_system_key k) in
    let data_key := [load_be (takez 4 (km_data_key k)); load_be (takez 4 (dropz 4 (km_data_key k)))] in
    let work_key := schedule data_key system_key in
    let cbc_iv := [load_be (takez 4 (km_cbc_iv k)); load_be (takez 4 (dropz 4 (km_cbc_iv k)))] in
    Ok {| pk_cbc_iv := cbc_iv; pk_work_key := work_key; pk_rounds := km_rounds k |}.

(** ** Payload mode: CBC on whole blocks, OFB on the remainder *)

(** The remainder of fewer than eight bytes: padded with zeros, combined with
    the keystream block, cut back to its length. *)
Definition ofb_remainder (rem : bytes) (state : Block) (key : list Z) (rounds : nat) : bytes :=
  let t := rem ++ replicate (8 - length rem) 0 in
  let c := block_xor (block_load t) (cipher_encrypt state key rounds) in
  take (length rem) (block_store c).

Fixpoint encrypt_chunks (buf : bytes) (state : Block) (key : list Z) (rounds : nat) : bytes :=
  match buf with
  | a0 :: a1 :: a2 :: a3 :: a4 :: a5 :: a6 :: a7 :: rest =>
      let p := block_load [a0; a1; a2; a3; a4; a5; a6; a7] in
      let c := cipher_encrypt (block_xor p state) key rounds in
      block_store c ++ encrypt_chunks rest c key rounds
  | [] => []
  | rem => ofb_remainder rem state key rounds
  end.

Fixpoint decrypt_chunks (buf : bytes) (state : Block) (key : list Z) (rounds : nat) : bytes :=
  match buf with
  | a0 :: a1 :: a2 :: a3 :: a4 :: a5 :: a6 :: a7 :: rest =>
      let c := block_load [a0; a1; a2; a3; a4; a5; a6; a7] in
      let d := cipher_decrypt c key rounds in
      let '(p, next_state) := cbc_post_decrypt d c state in
      block_store p ++ decrypt_chunks rest next_state key rounds
  | [] => []
  | rem => ofb_remainder rem state key rounds
  end.

Definition encrypt_cbc_ofb (buf : bytes) (iv key : list Z) (rounds : nat) : bytes :=
  encrypt_chunks buf (mkBlock (nthz iv 0) (nthz iv 1)) key rounds.
Definition decrypt_cbc_ofb (buf : bytes) (iv key : list Z) (rounds : nat) : bytes :=
  decrypt_chunks buf (mkBlock (nthz iv 0) (nthz iv 1)) key rounds.

Definition multi2_decrypt_payload (payload : bytes) (key : PreparedMulti2Key) : bytes :=
  decrypt_cbc_ofb payload (pk_cbc_iv key) (pk_work_key key) (pk_rounds key).
Definition multi2_encrypt_payload (payload : bytes) (key : PreparedMulti2Key) : bytes :=
  encrypt_cbc_ofb payload (pk_cbc_iv key) (pk_work_key key) (pk_rounds key).

(** ** Ranges *)
Definition u32_block (b : Block) : Prop := uN 32 (left b) /\ uN 32 (right b).
Definition u32_words (l : list Z) : Prop := Forall (uN 32) l.
Definition wf_prepared (k : PreparedMulti2Key) : Prop :=
  u32_words (pk_cbc_iv k) /\ u32_words (pk_work_key k).

Lemma u32_left b : u32_block b -> uN 32 (left b).
Proof. by intros []. Qed.
Lemma u32_right b : u32_block b -> uN 32 (right b).
Proof. by intros []. Qed.

Lemma u32_nthz l i : u32_words l -> uN 32 (nthz l i).
Proof.
  intros H; unfold nthz. destruct (decide (Z.to_nat i < length l)%nat).
  - by apply Forall_nth.
  - rewrite nth_overflow by lia. unfold uN; lia.
Qed.

Lemma u32_rot n v : 0 <= n <= 32 -> uN 32 v -> uN 32 (rot n v).
Proof.
  intros; apply uN_lor; [lia|apply uN_wrap32|apply uN_shiftr; [lia..|done]].
Qed.

#[export] Hint Resolve u32_nthz uN_wrap32 : tv.
#[export] Hint Extern 2 (uN 32 (rot _ _)) => apply u32_rot; [lia|] : tv.
#[export] Hint Extern 2 (uN 32 (Z.lxor _ _)) => apply uN_lxor; [lia| |] : tv.
#[export] Hint Extern 2 (uN 32 (Z.lor _ _)) => apply uN_lor; [lia| |] : tv.

Lemma u32_pi1 b : u32_block b -> u32_block (pi1 b).
Proof. intros []; split; simpl; auto with tv. Qed.
Lemma u32_pi2 b k : u32_block b -> u32_block (pi2 b k).
Proof. intros []; split; unfold pi2, rot1_add_dec; simpl; auto 7 with tv. Qed.
Lemma u32_pi3 b k k' : u32_block b -> u32_block (pi3 b k k').
Proof. intros []; split; unfold pi3, rot1_sub; simpl; auto 7 with tv. Qed.
Lemma u32_pi4 b k : u32_block b -> u32_block (pi4 b k).
Proof. intros []; split; unfold pi4; simpl; auto 7 with tv. Qed.
#[export] Hint Resolve u32_pi1 u32_pi2 u32_pi3 u32_pi4 : tv.

Lemma iter_preserves {A} (P : A -> Prop) (f : A -> A) n a :
  (forall a, P a -> P (f a)) -> P a -> P (Nat.iter n f a).
Proof. intros Hf; induction n; simpl; auto. Qed.

Lemma u32_cipher_encrypt b wk n : u32_block b -> u32_block (cipher_encrypt b wk n).
Proof. apply iter_preserves; intros; unfold encrypt_round; auto 12 with tv. Qed.
Lemma u32_cipher_decrypt b wk n : u32_block b -> u32_block (cipher_decrypt b wk n).
Proof. apply iter_preserves; intros; unfold decrypt_round; auto 12 with tv. Qed.

Lemma u32_block_xor a b : u32_block a -> u32_block b -> u32_block (block_xor a b).
Proof. intros [] []; split; simpl; auto with tv. Qed.
#[export] Hint Resolve u32_cipher_encrypt u32_cipher_decrypt u32_block_xor : tv.

(** Big-endian packing is positional notation. *)
Lemma load_be_eq a b c d :
  is_byte a -> is_byte b -> is_byte c -> is_byte d ->
  load_be [a; b; c; d] = a * 2 ^ 24 + b * 2 ^ 16 + c * 2 ^ 8 + d.
Proof.
  intros Ha Hb Hc Hd. unfold load_be. change (nthz [a; b; c; d] 0) with a.
  change (nthz [a; b; c; d] 1) with b. change (nthz [a; b; c; d] 2) with c.
  change (nthz [a; b; c; d] 3) with d. unfold is_byte in *.
  replace (Z.shiftl a 24) with (Z.shiftl (Z.shiftl a 8) 16) by (rewrite Z.shiftl_shiftl by lia; done).
  rewrite <- Z.shiftl_lor.
  replace (Z.shiftl (Z.lor (Z.shiftl a 8) b) 16)
    with (Z.shiftl (Z.shiftl (Z.lor (Z.shiftl a 8) b) 8) 8)
    by (rewrite Z.shiftl_shiftl by lia; done).
  rewrite <- Z.shiftl_lor.
  rewrite !lor_shiftl_add by lia. lia.
Qed.

Lemma store_be_eq v :
  store_be v = [(v / 2 ^ 24) mod 256; (v / 2 ^ 16) mod 256; (v / 2 ^ 8) mod 256; v mod 256].
Proof.
  unfold store_be. rewrite !Z.shiftr_div_pow2 by lia.
  change 255 with (Z.ones 8). by rewrite !land_ones_mod by lia.
Qed.

Lemma load_store_be v : uN 32 v -> load_be (store_be v) = v.
Proof.
  intros Hv. rewrite store_be_eq.
  rewrite load_be_eq by (apply Z.mod_pos_bound; lia).
  unfold uN in Hv. Z.div_mod_to_equations; lia.
Qed.

Lemma store_load_be a b c d :
  is_byte a -> is_byte b -> is_byte c -> is_byte d ->
  store_be (load_be [a; b; c; d]) = [a; b; c; d].
Proof.
  intros Ha Hb Hc Hd. rewrite store_be_eq, load_be_eq by done. unfold is_byte in *.
  repeat f_equal; Z.div_mod_to_equations; lia.
Qed.

Lemma wf_store_be v : wf_bytes (store_be v).
Proof.
  rewrite store_be_eq. repeat constructor; apply Z.mod_pos_bound; lia.
Qed.

Lemma u32_load_be a b c d :
  is_byte a -> is_byte b -> is_byte c -> is_byte d -> uN 32 (load_be [a; b; c; d]).
Proof. intros; rewrite load_be_eq by done. unfold uN, is_byte in *; lia. Qed.

Lemma block_load_store b : u32_block b -> block_load (block_store b) = b.
Proof.
  destruct b as [x y]; intros [Hx Hy]; simpl in *.
  unfold block_load, block_store; f_equal; cbn [left right].
  - exact (load_store_be x Hx).
  - exact (load_store_be y Hy).
Qed.

Lemma block_store_load8 a0 a1 a2 a3 a4 a5 a6 a7 :
  wf_bytes [a0; a1; a2; a3; a4; a5; a6; a7] ->
  block_store (block_load [a0; a1; a2; a3; a4; a5; a6; a7]) = [a0; a1; a2; a3; a4; a5; a6; a7].
Proof.
  intros Ht; wf_split.
  change (store_be (load_be [a0; a1; a2; a3]) ++ store_be (load_be [a4; a5; a6; a7])
    = [a0; a1; a2; a3; a4; a5; a6; a7]).
  rewrite !store_load_be by assumption. reflexivity.
Qed.

Lemma u32_block_load8 a0 a1 a2 a3 a4 a5 a6 a7 :
  wf_bytes [a0; a1; a2; a3; a4; a5; a6; a7] ->
  u32_block (block_load [a0; a1; a2; a3; a4; a5; a6; a7]).
Proof.
  intros Ht; wf_split.
  split; [apply (u32_load_be a0 a1 a2 a3)|apply (u32_load_be a4 a5 a6 a7)]; assumption.
Qed.

Lemma block_store_load l : wf_bytes l -> length l = 8%nat -> block_store (block_load l) = l.
Proof.
  intros Hwf Hl. do 8 (destruct l as [|? l]; [discriminate|]).
  destruct l; [|discriminate]. by apply block_store_load8.
Qed.

(** ** Each round function is its own inverse *)
Lemma lxor_cancel a b : Z.lxor (Z.lxor a b) b = a.
Proof. by rewrite Z.lxor_assoc, Z.lxor_nilpotent, Z.lxor_0_r. Qed.

Lemma pi1_involutive b : pi1 (pi1 b) = b.
Proof. destruct b; unfold pi1; simpl. by rewrite lxor_cancel. Qed.
Lemma pi2_involutive b k : pi2 (pi2 b k) k = b.
Proof.
  destruct b; unfold pi2; simpl. by rewrite !Z.lxor_assoc, <- (Z.lxor_assoc (rot _ _)), Z.lxor_nilpotent, Z.lxor_0_r.
Qed.
Lemma pi3_involutive b k k' : pi3 (pi3 b k k') k k' = b.
Proof.
  destruct b; unfold pi3; simpl. by rewrite !Z.lxor_assoc, <- (Z.lxor_assoc (rot _ _)), Z.lxor_nilpotent, Z.lxor_0_r.
Qed.
Lemma pi4_involutive b k : pi4 (pi4 b k) k = b.
Proof. destruct b; unfold pi4; simpl. by rewrite lxor_cancel. Qed.

Lemma decrypt_encrypt_round wk b : decrypt_round wk (encrypt_round wk b) = b.
Proof.
  unfold decrypt_round, encrypt_round.
  by rewrite pi4_involutive, pi3_involutive, pi2_involutive, pi1_involutive,
     pi4_involutive, pi3_involutive, pi2_involutive, pi1_involutive.
Qed.
Lemma encrypt_decrypt_round wk b : encrypt_round wk (decrypt_round wk b) = b.
Proof.
  unfold decrypt_round, encrypt_round.
  by rewrite pi1_involutive, pi2_involutive, pi3_involutive, pi4_involutive,
     pi1_involutive, pi2_involutive, pi3_involutive, pi4_involutive.
Qed.

Lemma iter_cancel {A} (f g : A -> A) n a :
  (forall a, g (f a) = a) -> Nat.iter n g (Nat.iter n f a) = a.
Proof.
  intros Hgf. revert a; induction n; intros a; [done|].
  rewrite Nat.iter_succ_r. simpl. rewrite Hgf. apply IHn.
Qed.

Lemma cipher_decrypt_encrypt b wk n : cipher_decrypt (cipher_encrypt b wk n) wk n = b.
Proof. apply iter_cancel, decrypt_encrypt_round. Qed.
Lemma cipher_encrypt_decrypt b wk n : cipher_encrypt (cipher_decrypt b wk n) wk n = b.
Proof. apply iter_cancel, encrypt_decrypt_round. Qed.

Lemma block_xor_cancel a b : block_xor (block_xor a b) b = a.
Proof. destruct a, b; unfold block_xor; simpl. by rewrite !lxor_cancel. Qed.

(** ** The remainder is a byte-wise stream cipher *)
Lemma store_be_lxor x y :
  store_be (Z.lxor x y) = zip_with Z.lxor (store_be x) (store_be y).
Proof.
  unfold store_be; simpl. rewrite !Z.shiftr_lxor.
  assert (forall a b, Z.land (Z.lxor a b) 255 = Z.lxor (Z.land a 255) (Z.land b 255)) as E.
  { intros; apply Z.bits_inj'; intros k Hk. rewrite !Z.land_spec, !Z.lxor_spec, !Z.land_spec.
    by destruct (Z.testbit a k), (Z.testbit b k), (Z.testbit 255 k). }
  by rewrite !E.
Qed.

Lemma zip_lxor_cancel l k : (length l <= length k)%nat ->
  zip_with Z.lxor (zip_with Z.lxor l k) k = l.
Proof.
  revert k; induction l; intros [|y k]; simpl; intros; [done..|lia|].
  rewrite lxor_cancel, IHl by lia; done.
Qed.

Lemma is_byte_lxor a b : is_byte a -> is_byte b -> is_byte (Z.lxor a b).
Proof. apply (uN_lxor 8); lia. Qed.

Lemma wf_zip_lxor l k : wf_bytes l -> wf_bytes k -> wf_bytes (zip_with Z.lxor l k).
Proof.
  intros Hl; revert k; induction Hl; intros k Hk; simpl; [constructor|].
  destruct Hk; constructor; [by apply is_byte_lxor|by apply IHHl].
Qed.

Lemma take_zip_app l z k : (length l <= length k)%nat ->
  take (length l) (zip_with Z.lxor (l ++ z) k) = zip_with Z.lxor l k.
Proof.
  revert k; induction l as [|x l IH]; intros [|y k]; simpl; intros; [done..|].
  rewrite IH by lia; done.
Qed.

Lemma ofb_remainder_eq rem state key rounds :
  wf_bytes rem -> (length rem <= 8)%nat ->
  ofb_remainder rem state key rounds =
    zip_with Z.lxor rem (block_store (cipher_encrypt state key rounds)).
Proof.
  intros Hwf Hl. unfold ofb_remainder.
  set (t := rem ++ replicate (8 - length rem) 0).
  set (k := cipher_encrypt state key rounds).
  assert (block_store (block_xor (block_load t) k)
          = zip_with Z.lxor (block_store (block_load t)) (block_store k)) as ->.
  { unfold block_store, block_xor; simpl left; simpl right.
    rewrite !store_be_lxor. reflexivity. }
  rewrite block_store_load.
  - apply take_zip_app. simpl; lia.
  - apply wf_app; split; [done|].
    apply Forall_replicate; unfold is_byte; lia.
  - unfold t; rewrite length_app, length_replicate; lia.
Qed.

Lemma wf_block_store b : wf_bytes (block_store b).
Proof. apply wf_app; split; apply wf_store_be. Qed.

Lemma ofb_involutive rem state key rounds :
  wf_bytes rem -> (length rem <= 8)%nat ->
  ofb_remainder (ofb_remainder rem state key rounds) state key rounds = rem.
Proof.
  intros Hwf Hl. rewrite (ofb_remainder_eq rem) by done. rewrite ofb_remainder_eq.
  - apply zip_lxor_cancel. simpl; lia.
  - apply wf_zip_lxor; [done|apply wf_block_store].
  - rewrite length_zip_with; lia.
Qed.

Lemma encrypt_chunks_short l s k n :
  (length l < 8)%nat -> encrypt_chunks l s k n = ofb_remainder l s k n.
Proof. intros H. do 8 (destruct l as [|? l]; [reflexivity|]). simpl in H; lia. Qed.
Lemma decrypt_chunks_short l s k n :
  (length l < 8)%nat -> decrypt_chunks l s k n = ofb_remainder l s k n.
Proof. intros H. do 8 (destruct l as [|? l]; [reflexivity|]). simpl in H; lia. Qed.

Lemma length_ofb_remainder l s k n :
  (length l <= 8)%nat -> length (ofb_remainder l s k n) = length l.
Proof. intros H. unfold ofb_remainder. rewrite length_take. simpl. lia. Qed.

Lemma decrypt_chunks_block c rest s k n : u32_block c ->
  decrypt_chunks (block_store c ++ rest) s k n =
    block_store (block_xor (cipher_decrypt c k n) s) ++ decrypt_chunks rest c k n.
Proof.
  intros Hc. rewrite <- (block_load_store c Hc) at 2 3. reflexivity.
Qed.
Lemma encrypt_chunks_block c rest s k n : u32_block c ->
  encrypt_chunks (block_store c ++ rest) s k n =
    block_store (cipher_encrypt (block_xor c s) k n)
    ++ encrypt_chunks rest (cipher_encrypt (block_xor c s) k n) k n.
Proof.
  intros Hc. rewrite <- (block_load_store c Hc) at 2 3. reflexivity.
Qed.

(** Induction on a byte string eight bytes at a time. *)
Lemma chunks8_ind (P : bytes -> Prop) :
  (forall l, (length l < 8)%nat -> P l) ->
  (forall a0 a1 a2 a3 a4 a5 a6 a7 l, P l ->
     P ([a0; a1; a2; a3; a4; a5; a6; a7] ++ l)) ->
  forall l, P l.
Proof.
  intros Hs Hc l. remember (length l) as m eqn:Hm.
  revert l Hm; induction m as [m IH] using lt_wf_ind; intros l ->.
  destruct (decide (length l < 8)%nat) as [Hlt|Hge]; [by apply Hs|].
  do 8 (destruct l as [|? l]; [simpl in Hge; lia|]).
  apply (Hc _ _ _ _ _ _ _ _ l). eapply IH; [|reflexivity]. simpl; lia.
Qed.

Lemma decrypt_encrypt_chunks l s k n :
  wf_bytes l -> u32_block s -> decrypt_chunks (encrypt_chunks l s k n) s k n = l.
Proof.
  revert s; induction l as [l Hl|a0 a1 a2 a3 a4 a5 a6 a7 l IH] using chunks8_ind; intros s Hwf Hs.
  - rewrite encrypt_chunks_short, decrypt_chunks_short by (rewrite ?length_ofb_remainder; lia).
    apply ofb_involutive; [done|lia].
  - apply wf_app in Hwf as [H8 Hwf].
    set (t := [a0; a1; a2; a3; a4; a5; a6; a7]) in *.
    assert (u32_block (block_load t)) by by apply u32_block_load8.
    rewrite <- (block_store_load t) by done. rewrite encrypt_chunks_block by done.
    rewrite decrypt_chunks_block by auto with tv.
    by rewrite cipher_decrypt_encrypt, block_xor_cancel, IH by auto with tv.
Qed.

Lemma encrypt_decrypt_chunks l s k n :
  wf_bytes l -> u32_block s -> encrypt_chunks (decrypt_chunks l s k n) s k n = l.
Proof.
  revert s; induction l as [l Hl|a0 a1 a2 a3 a4 a5 a6 a7 l IH] using chunks8_ind; intros s Hwf Hs.
  - rewrite decrypt_chunks_short, encrypt_chunks_short by (rewrite ?length_ofb_remainder; lia).
    apply ofb_involutive; [done|lia].
  - apply wf_app in Hwf as [H8 Hwf].
    set (t := [a0; a1; a2; a3; a4; a5; a6; a7]) in *.
    assert (u32_block (block_load t)) by by apply u32_block_load8.
    rewrite <- (block_store_load t) by done. rewrite decrypt_chunks_block by done.
    rewrite encrypt_chunks_block by auto with tv.
    by rewrite block_xor_cancel, cipher_encrypt_decrypt, IH by auto with tv.
Qed.

Lemma length_decrypt_chunks l s k n : length (decrypt_chunks l s k n) = length l.
Proof.
  revert s; induction l as [l Hl|a0 a1 a2 a3 a4 a5 a6 a7 l IH] using chunks8_ind; intros s.
  - rewrite decrypt_chunks_short by done. apply length_ofb_remainder; lia.
  - simpl. by rewrite IH.
Qed.
Lemma length_encrypt_chunks l s k n : length (encrypt_chunks l s k n) = length l.
Proof.
  revert s; induction l as [l Hl|a0 a1 a2 a3 a4 a5 a6 a7 l IH] using chunks8_ind; intros s.
  - rewrite encrypt_chunks_short by done. apply length_ofb_remainder; lia.
  - simpl. by rewrite IH.
Qed.

Lemma wf_ofb_remainder l s k n : wf_bytes (ofb_remainder l s k n).
Proof. apply Forall_take, wf_block_store. Qed.
Lemma wf_decrypt_chunks l s k n : wf_bytes (decrypt_chunks l s k n).
Proof.
  revert s; induction l as [l Hl|a0 a1 a2 a3 a4 a5 a6 a7 l IH] using chunks8_ind; intros s.
  - rewrite decrypt_chunks_short by done. apply wf_ofb_remainder.
  - apply wf_app; split; [apply wf_block_store|apply IH].
Qed.
Lemma wf_encrypt_chunks l s k n : wf_bytes (encrypt_chunks l s k n).
Proof.
  revert s; induction l as [l Hl|a0 a1 a2 a3 a4 a5 a6 a7 l IH] using chunks8_ind; intros s.
  - rewrite encrypt_chunks_short by done. apply wf_ofb_remainder.
  - apply wf_app; split; [apply wf_block_store|apply IH].
Qed.

Lemma u32_iv iv : u32_words iv -> u32_block (mkBlock (nthz iv 0) (nthz iv 1)).
Proof. split; simpl; auto with tv. Qed.
#[export] Hint Resolve u32_iv : tv.

Lemma multi2_decrypt_encrypt k l :
  wf_prepared k -> wf_bytes l ->
  multi2_decrypt_payload (multi2_encrypt_payload l k) k = l.
Proof. intros [Hiv _] Hl. apply decrypt_encrypt_chunks; auto with tv. Qed.

Lemma multi2_encrypt_decrypt k l :
  wf_prepared k -> wf_bytes l ->
  multi2_encrypt_payload (multi2_decrypt_payload l k) k = l.
Proof. intros [Hiv _] Hl. apply encrypt_decrypt_chunks; auto with tv. Qed.

Lemma length_multi2_decrypt k l : length (multi2_decrypt_payload l k) = length l.
Proof. apply length_decrypt_chunks. Qed.
Lemma length_multi2_encrypt k l : length (multi2_encrypt_payload l k) = length l.
Proof. apply length_encrypt_chunks. Qed.

(** ** Prepared keys are in range *)
Definition wf_key_material (k : Multi2KeyMaterial) : Prop :=
  wf_bytes (km_system_key k) /\ wf_bytes (km_cbc_iv k) /\ wf_bytes (km_data_key k).

Lemma uN_shiftl_byte b n : is_byte b -> 0 <= n <= 24 -> uN 32 (Z.shiftl b n).
Proof.
  unfold is_byte, uN; intros. rewrite Z.shiftl_mul_pow2 by lia.
  pose proof (Z.pow_le_mono_r 2 n 24). pose proof (Z.pow_pos_nonneg 2 n). nia.
Qed.

Lemma u32_load_be_wf p : wf_bytes p -> uN 32 (load_be p).
Proof.
  intros H. unfold load_be. repeat apply uN_lor; try lia;
    try (apply uN_shiftl_byte; [auto with tv|lia]).
  apply uN_byte_widen; [lia|auto with tv].
Qed.
#[export] Hint Resolve u32_load_be_wf : tv.

Lemma u32_parse_system_key k : wf_bytes k -> u32_words (parse_system_key k).
Proof.
  intros H. unfold parse_system_key, u32_words. apply Forall_map, Forall_true; intros; auto with tv.
Qed.

Lemma u32_schedule dk sk : u32_words dk -> u32_words (schedule dk sk).
Proof.
  intros Hd. assert (u32_block (mkBlock (nthz dk 0) (nthz dk 1))) as H0 by auto with tv.
  repeat constructor; (apply u32_left || apply u32_right); auto 12 with tv.
Qed.

Lemma prepare_wf k pk : wf_key_material k -> prepare k = Ok pk -> wf_prepared pk.
Proof.
  intros (Hs & Hi & Hd). unfold prepare. destruct (Nat.eqb (km_rounds k) 0); [done|].
  intros [= <-]. split; cbn [pk_cbc_iv pk_work_key].
  - repeat constructor; apply u32_load_be_wf; auto with tv.
  - apply u32_schedule. repeat constructor; apply u32_load_be_wf; auto with tv.
Qed.

(** ** Properties *)

(** C9. Descrambling inverts scrambling and scrambling inverts descrambling,
    byte for byte, for every key material the code accepts, every number of
    rounds and every payload length, with the CBC blocks and the OFB
    remainder of fewer than eight bytes alike; neither changes the length. *)
Theorem multi2_payload_roundtrip (k : Multi2KeyMaterial) (pk : PreparedMulti2Key)
    (payload : bytes) (Hk : wf_key_material k) (Hp : prepare k = Ok pk)
    (Hb : wf_bytes payload) :
  multi2_decrypt_payload (multi2_encrypt_payload payload pk) pk = payload /\
  multi2_encrypt_payload (multi2_decrypt_payload payload pk) pk = payload /\
  len (multi2_encrypt_payload payload pk) = len payload /\
  len (multi2_decrypt_payload payload pk) = len payload.
Proof.
  pose proof (prepare_wf k pk Hk Hp) as Hpk.
  repeat split; [by apply multi2_decrypt_encrypt|by apply multi2_encrypt_decrypt| |];
    unfold len; [by rewrite length_multi2_encrypt|by rewrite length_multi2_decrypt].
Qed.

(** The key material of the known-answer vectors of the unit tests. *)
Definition kat_system_key : bytes :=
  [0x00; 0x11; 0x22; 0x33; 0x44; 0x55; 0x66; 0x77; 0x88; 0x99; 0xaa; 0xbb; 0xcc; 0xdd; 0xee;
   0xff; 0x10; 0x21; 0x32; 0x43; 0x54; 0x65; 0x76; 0x87; 0x98; 0xa9; 0xba; 0xbb; 0xdc; 0xdd;
   0xde; 0xef].
Definition kat_cbc_iv : bytes := [0x11; 0x22; 0x33; 0x44; 0x55; 0x66; 0x77; 0x88].
Definition kat_even_data_key : bytes := [0x01; 0x23; 0x45; 0x67; 0x89; 0xab; 0xcd; 0xef].
Definition kat_key : Multi2KeyMaterial :=
  key_material_new kat_system_key kat_cbc_iv kat_even_data_key.
Definition kat_plaintext (n : nat) : bytes :=
  map (fun i => Z.land (i * 73 + 41) 255) (seqZ 0 (Z.of_nat n)).

Lemma multi2_payload_roundtrip_witness :
  exists pk, prepare kat_key = Ok pk /\
  multi2_decrypt_payload (multi2_encrypt_payload (kat_plaintext 17) pk) pk = kat_plaintext 17.
Proof.
  eexists; split; [reflexivity|].
  apply (multi2_payload_roundtrip kat_key).
  - vm_compute; repeat split; repeat constructor; discriminate.
  - reflexivity.
  - vm_compute; repeat constructor; discriminate.
Defined.

