(* ===== verification/Descramble.v ===== *)
(** * Descrambler core

    The descrambler's transport-packet layer: the even/odd key slot, the
    failure policy, the packet header parser and the in-place descrambling of
    one packet ([descrambler/src/core/packet.rs]), with the PID claims and key
    tokens of [descrambler/src/runtime].

    A packet that the code mutates through [&mut [u8]] is threaded as a byte
    string next to the result, so that what a failing call leaves behind in
    the caller's buffer is part of every statement. *)

From stdpp Require Import gmap.
From S2P Require Import Prelude Common Multi2.

(** ** PID claims ([runtime/pid_claim.rs]) *)
Record DescramblerPid := mkDescramblerPid {
  to_transport_stream_pid_for_packet_pid_bridge : TransportStreamPid
}.

#[global] Instance DescramblerPid_eq_dec : EqDecision DescramblerPid.
Proof. solve_decision. Defined.
#[global] Instance DescramblerPid_countable : Countable DescramblerPid.
Proof.
  refine (inj_countable' (fun p => pid_value (to_transport_stream_pid_for_packet_pid_bridge p))
    (fun v => mkDescramblerPid (mkPid v)) _).
  by intros [[v]].
Defined.

Definition from_validated_pid_for_descrambler_core (pid : Z) : option DescramblerPid :=
  match validate_u16 pid with
  | Ok p => Some (mkDescramblerPid p)
  | Err _ => None
  end.

Record SourceFilterRef := mkSourceFilterRef {
  source_filter_id : Z;
  source_generation : Z
}.

Inductive DescramblerPidClaimSource :=
| DemuxInput
| SourceFilter (source : SourceFilterRef).

Record DescramblerPidClaim := mkDescramblerPidClaim {
  claim_pid : DescramblerPid;
  claim_source : DescramblerPidClaimSource
}.

Inductive DescramblerPidClaimError := InvalidPid.

Definition from_source_filter (pid filter_id generation : Z)
  : result DescramblerPidClaim DescramblerPidClaimError :=
  match validate_u16 pid with
  | Err _ => Err InvalidPid
  | Ok p => Ok (mkDescramblerPidClaim (mkDescramblerPid p)
                  (SourceFilter (mkSourceFilterRef filter_id generation)))
  end.

Definition from_demux_input (pid : Z) : result DescramblerPidClaim DescramblerPidClaimError :=
  match validate_u16 pid with
  | Err _ => Err InvalidPid
  | Ok p => Ok (mkDescramblerPidClaim (mkDescramblerPid p) DemuxInput)
  end.

Definition source_filter_ref (c : DescramblerPidClaim) : option SourceFilterRef :=
  match claim_source c with
  | SourceFilter source => Some source
  | DemuxInput => None
  end.

(** ** Key tokens ([runtime/token.rs]) *)
Record DescramblerKeyToken := mkDescramblerKeyToken { token_as_bytes : bytes }.

Inductive DescramblerKeyTokenError :=
| TokenEmpty
| TokenInvalidLength (token_len token_min token_max : Z).

Definition DESCRAMBLER_TOKEN_MIN_BYTES : Z := 1.
Definition DESCRAMBLER_TOKEN_MAX_BYTES : Z := 16.

Definition try_from_bytes (b : bytes) : result DescramblerKeyToken DescramblerKeyTokenError :=
  if len b =? 0 then Err TokenEmpty
  else if len b >? DESCRAMBLER_TOKEN_MAX_BYTES
  then Err (TokenInvalidLength (len b) DESCRAMBLER_TOKEN_MIN_BYTES DESCRAMBLER_TOKEN_MAX_BYTES)
  else Ok (mkDescramblerKeyToken b).

(** ** Key slot, outcomes and failures ([core/packet.rs]) *)
Definition NULL_PID : Z := 0x1fff.

Inductive KeyParity := Even | Odd.

Record DescramblerKeySlot := mkDescramblerKeySlot {
  even : option PreparedMulti2Key;
  odd : option PreparedMulti2Key
}.

Definition key_slot_empty : DescramblerKeySlot := mkDescramblerKeySlot None None.

Definition try_with_even (s : DescramblerKeySlot) (key : Multi2KeyMaterial)
  : result DescramblerKeySlot Multi2PrepareError :=
  match prepare key with
  | Ok pk => Ok (mkDescramblerKeySlot (Some pk) (odd s))
  | Err e => Err e
  end.

Definition try_with_odd (s : DescramblerKeySlot) (key : Multi2KeyMaterial)
  : result DescramblerKeySlot Multi2PrepareError :=
  match prepare key with
  | Ok pk => Ok (mkDescramblerKeySlot (even s) (Some pk))
  | Err e => Err e
  end.

Definition with_even_prepared (s : DescramblerKeySlot) (key : PreparedMulti2Key) :=
  mkDescramblerKeySlot (Some key) (odd s).
Definition with_odd_prepared (s : DescramblerKeySlot) (key : PreparedMulti2Key) :=
  mkDescramblerKeySlot (even s) (Some key).

Definition key_for (s : DescramblerKeySlot) (parity : KeyParity) : option PreparedMulti2Key :=
  match parity with Even => even s | Odd => odd s end.

Definition has_any_key (s : DescramblerKeySlot) : bool :=
  bool_decide (is_Some (even s)) || bool_decide (is_Some (odd s)).
Definition has_even_and_odd_keys (s : DescramblerKeySlot) : bool :=
  bool_decide (is_Some (even s)) && bool_decide (is_Some (odd s)).

Inductive PassThroughReason := ClearPacket | ClearAdaptationOnly | NullPid | PidNotTargeted.

Inductive PacketPolicyAction :=
| RecordPassThroughAndDropAssembly
| DropAndDiagnose
| DiagnoseOnly.

Inductive DescrambleFailure :=
| InvalidPacketSize
| BadSyncByte
| InvalidAfc
| InvalidAdaptationField
| InvalidTsc
| TransportErrorRecord
| ScrambledNullPid
| ScrambledWithoutPayload
| NoKey
| BadToken
| Multi2Fail
| ScrambledPidNotRegistered.

Definition packet_policy_for_descramble_failure (failure : DescrambleFailure)
  : PacketPolicyAction :=
  match failure with
  | NoKey | ScrambledPidNotRegistered => RecordPassThroughAndDropAssembly
  | BadToken | Multi2Fail => DiagnoseOnly
  | InvalidPacketSize | BadSyncByte | InvalidAfc | InvalidAdaptationField
  | InvalidTsc | TransportErrorRecord | ScrambledNullPid | ScrambledWithoutPayload =>
      DropAndDiagnose
  end.

Inductive DescrambleOutcome :=
| Descrambled (pid : Z) (parity : KeyParity) (payload_offset : Z)
| PassedThrough (pid : Z) (reason : PassThroughReason).

Record TsPacketHeader := mkTsPacketHeader {
  hdr_pid : Z;
  transport_error_indicator : bool;
  payload_unit_start : bool;
  transport_scrambling_control : Z;
  adaptation_field_control : Z;
  continuity_counter : Z;
  payload_offset : option Z
}.

#[global] Instance KeyParity_eq_dec : EqDecision KeyParity.
Proof. solve_decision. Defined.
#[global] Instance DescrambleFailure_eq_dec : EqDecision DescrambleFailure.
Proof. solve_decision. Defined.
#[global] Instance PassThroughReason_eq_dec : EqDecision PassThroughReason.
Proof. solve_decision. Defined.
#[global] Instance DescrambleOutcome_eq_dec : EqDecision DescrambleOutcome.
Proof. solve_decision. Defined.

(** ** The header parser *)

(** The offset after the adaptation field: the [checked_add] and the bound. *)
Definition adaptation_end (packet : bytes) (afc : Z) : outcome (result Z DescrambleFailure) :=
  if (afc =? 2) || (afc =? 3) then
    adaptation_len ← byte_at packet 4;
    match checked_add usize_max 4 (1 + adaptation_len) with
    | None => Ret (Err InvalidAdaptationField)
    | Some offset =>
        Ret (if offset >? len packet then Err InvalidAdaptationField else Ok offset)
    end
  else Ret (Ok 4).

Definition parse_ts_packet_header (packet : bytes)
  : outcome (result TsPacketHeader DescrambleFailure) :=
  if negb (len packet =? TS_PACKET_SIZE) then Ret (Err InvalidPacketSize) else
  b0 ← byte_at packet 0;
  if negb (b0 =? 0x47) then Ret (Err BadSyncByte) else
  b3 ← byte_at packet 3;
  let tsc := Z.land (Z.shiftr b3 6) 0x03 in
  let afc := Z.land (Z.shiftr b3 4) 0x03 in
  if afc =? 0 then Ret (Err InvalidAfc) else
  r ← adaptation_end packet afc;
  match r with
  | Err e => Ret (Err e)
  | Ok offset =>
      if (afc =? 3) && (offset >=? TS_PACKET_SIZE) then Ret (Err InvalidAdaptationField) else
      b1 ← byte_at packet 1;
      b2 ← byte_at packet 2;
      Ret (Ok {| hdr_pid := Z.lor (Z.shiftl (Z.land b1 0x1f) 8) b2;
                 transport_error_indicator := has_bits b1 0x80;
                 payload_unit_start := has_bits b1 0x40;
                 transport_scrambling_control := tsc;
                 adaptation_field_control := afc;
                 continuity_counter := Z.land b3 0x0f;
                 payload_offset := if afc =? 2 then None else Some offset |})
  end.

(** ** Descrambling one packet in place *)

(** [multi2_decrypt_payload(&mut packet[payload_offset..], key);
    packet[3] &= 0x3f;] *)
Definition rewrite_packet (packet : bytes) (offset : Z) (key : PreparedMulti2Key)
  : outcome bytes :=
  payload ← slice_from packet offset;
  let packet1 := takez offset packet ++ multi2_decrypt_payload payload key in
  b3 ← byte_at packet1 3;
  Ret (<[3%nat := Z.land b3 0x3f]> packet1).

(** The scrambled branch, after the null-PID guard. *)
Definition descramble_scrambled (packet : bytes) (target_pids : gset DescramblerPid)
    (key_slot : DescramblerKeySlot) (header : TsPacketHeader)
  : outcome (result DescrambleOutcome DescrambleFailure * bytes) :=
  let parity := if transport_scrambling_control header =? 2 then Even else Odd in
  match from_validated_pid_for_descrambler_core (hdr_pid header) with
  | None => Ret (Err InvalidPacketSize, packet)
  | Some target_pid =>
      if negb (bool_decide (target_pid ∈ target_pids))
      then Ret (Err ScrambledPidNotRegistered, packet) else
      match payload_offset header with
      | None => Ret (Err ScrambledWithoutPayload, packet)
      | Some offset =>
          if offset >=? TS_PACKET_SIZE then Ret (Err ScrambledWithoutPayload, packet) else
          match key_for key_slot parity with
          | None => Ret (Err NoKey, packet)
          | Some key =>
              packet' ← rewrite_packet packet offset key;
              Ret (Ok (Descrambled (hdr_pid header) parity offset), packet')
          end
      end
  end.

Definition descramble_ts_packet_in_place (packet : bytes) (target_pids : gset DescramblerPid)
    (key_slot : DescramblerKeySlot)
  : outcome (result DescrambleOutcome DescrambleFailure * bytes) :=
  r ← parse_ts_packet_header packet;
  match r with
  | Err e => Ret (Err e, packet)
  | Ok header =>
      if transport_error_indicator header then Ret (Err TransportErrorRecord, packet) else
      let tsc := transport_scrambling_control header in
      if tsc =? 0 then
        let reason :=
          if hdr_pid header =? NULL_PID then NullPid
          else if bool_decide (payload_offset header = None) then ClearAdaptationOnly
          else ClearPacket in
        Ret (Ok (PassedThrough (hdr_pid header) reason), packet)
      else if tsc =? 1 then Ret (Err InvalidTsc, packet)
      else if (tsc =? 2) || (tsc =? 3) then
        if hdr_pid header =? NULL_PID then Ret (Err ScrambledNullPid, packet)
        else descramble_scrambled packet target_pids key_slot header
      else Ret (Err InvalidTsc, packet)
  end.

Definition descramble_validated_ts_packet_in_place := descramble_ts_packet_in_place.

(** ** Specification

    The header fields of a packet as arithmetic on its bytes, independent of
    the shifts and masks of the code. *)
Definition fld_pid (p : bytes) : Z := (nthz p 1 mod 32) * 256 + nthz p 2.
Definition fld_tei (p : bytes) : bool := Z.testbit (nthz p 1) 7.
Definition fld_tsc (p : bytes) : Z := nthz p 3 / 64.
Definition fld_afc (p : bytes) : Z := (nthz p 3 / 16) mod 4.
Definition fld_offset (p : bytes) : Z := if fld_afc p =? 1 then 4 else 5 + nthz p 4.

(** The parser's acceptance condition. *)
Definition well_framed (p : bytes) : Prop :=
  len p = 188 /\ nthz p 0 = 0x47 /\
  (fld_afc p = 1 \/ (fld_afc p = 2 /\ fld_offset p <= 188) \/
   (fld_afc p = 3 /\ fld_offset p < 188)).

Definition has_payload (p : bytes) : Prop := fld_afc p <> 2.
Definition tsc_parity (p : bytes) : KeyParity := if fld_tsc p =? 2 then Even else Odd.

(** What a packet becomes: header and adaptation field kept, scrambling
    control cleared, payload decrypted. *)
Definition descrambled_packet (p : bytes) (key : PreparedMulti2Key) : bytes :=
  [nthz p 0; nthz p 1; nthz p 2; nthz p 3 mod 64] ++
  takez (fld_offset p - 4) (dropz 4 p) ++
  multi2_decrypt_payload (dropz (fld_offset p) p) key.

(** The decision table, in the order of precedence of the code. *)
Inductive descramble_spec (p : bytes) (T : gset DescramblerPid) (K : DescramblerKeySlot)
  : result DescrambleOutcome DescrambleFailure * bytes -> Prop :=
| ds_framing e :
    ~ well_framed p ->
    (e = InvalidPacketSize <-> len p <> 188) ->
    (e = BadSyncByte <-> len p = 188 /\ nthz p 0 <> 0x47) ->
    (e = InvalidAfc <-> len p = 188 /\ nthz p 0 = 0x47 /\ fld_afc p = 0) ->
    (e = InvalidAdaptationField <-> len p = 188 /\ nthz p 0 = 0x47 /\ fld_afc p <> 0) ->
    descramble_spec p T K (Err e, p)
| ds_tei :
    well_framed p -> fld_tei p = true ->
    descramble_spec p T K (Err TransportErrorRecord, p)
| ds_clear reason :
    well_framed p -> fld_tei p = false -> fld_tsc p = 0 ->
    reason = (if decide (fld_pid p = NULL_PID) then NullPid
              else if decide (has_payload p) then ClearPacket else ClearAdaptationOnly) ->
    descramble_spec p T K (Ok (PassedThrough (fld_pid p) reason), p)
| ds_reserved_tsc :
    well_framed p -> fld_tei p = false -> fld_tsc p = 1 ->
    descramble_spec p T K (Err InvalidTsc, p)
| ds_null :
    well_framed p -> fld_tei p = false -> 2 <= fld_tsc p -> fld_pid p = NULL_PID ->
    descramble_spec p T K (Err ScrambledNullPid, p)
| ds_not_registered :
    well_framed p -> fld_tei p = false -> 2 <= fld_tsc p -> fld_pid p <> NULL_PID ->
    mkDescramblerPid (mkPid (fld_pid p)) ∉ T ->
    descramble_spec p T K (Err ScrambledPidNotRegistered, p)
| ds_no_payload :
    well_framed p -> fld_tei p = false -> 2 <= fld_tsc p -> fld_pid p <> NULL_PID ->
    mkDescramblerPid (mkPid (fld_pid p)) ∈ T -> ~ has_payload p ->
    descramble_spec p T K (Err ScrambledWithoutPayload, p)
| ds_no_key :
    well_framed p -> fld_tei p = false -> 2 <= fld_tsc p -> fld_pid p <> NULL_PID ->
    mkDescramblerPid (mkPid (fld_pid p)) ∈ T -> has_payload p ->
    key_for K (tsc_parity p) = None ->
    descramble_spec p T K (Err NoKey, p)
| ds_descrambled key :
    well_framed p -> fld_tei p = false -> 2 <= fld_tsc p -> fld_pid p <> NULL_PID ->
    mkDescramblerPid (mkPid (fld_pid p)) ∈ T -> has_payload p ->
    key_for K (tsc_parity p) = Some key ->
    descramble_spec p T K
      (Ok (Descrambled (fld_pid p) (tsc_parity p) (fld_offset p)), descrambled_packet p key).

(** ** The parser reads the specified fields *)
Definition header_of (p : bytes) : TsPacketHeader :=
  {| hdr_pid := fld_pid p;
     transport_error_indicator := fld_tei p;
     payload_unit_start := Z.testbit (nthz p 1) 6;
     transport_scrambling_control := fld_tsc p;
     adaptation_field_control := fld_afc p;
     continuity_counter := nthz p 3 mod 16;
     payload_offset := if fld_afc p =? 2 then None else Some (fld_offset p) |}.

Lemma pid_bits_eq b1 b2 : is_byte b2 ->
  Z.lor (Z.shiftl (Z.land b1 0x1f) 8) b2 = (b1 mod 32) * 256 + b2.
Proof.
  intros H. rewrite (lor_shiftl_add _ _ 8) by (unfold is_byte in H; lia).
  change 0x1f with (Z.ones 5). by rewrite land_ones_mod by lia.
Qed.

Lemma tsc_bits_eq b : is_byte b -> Z.land (Z.shiftr b 6) 0x03 = b / 64.
Proof.
  intros H. change 0x03 with (Z.ones 2). rewrite land_ones_mod, Z.shiftr_div_pow2 by lia.
  apply Z.mod_small. unfold is_byte in H. change (2 ^ 6) with 64; change (2 ^ 2) with 4.
  split; [apply Z.div_pos; lia|apply Z.div_lt_upper_bound; lia].
Qed.

Lemma afc_bits_eq b : Z.land (Z.shiftr b 4) 0x03 = (b / 16) mod 4.
Proof.
  change 0x03 with (Z.ones 2). by rewrite land_ones_mod, Z.shiftr_div_pow2 by lia.
Qed.

Lemma fld_afc_range p : 0 <= fld_afc p < 4.
Proof. apply Z.mod_pos_bound; lia. Qed.

Lemma fld_tsc_range p : wf_bytes p -> 0 <= fld_tsc p < 4.
Proof.
  intros Hp. pose proof (wf_nthz p 3 Hp) as H. unfold is_byte, fld_tsc in *.
  split; [apply Z.div_pos; lia|apply Z.div_lt_upper_bound; lia].
Qed.

Lemma fld_pid_range p : wf_bytes p -> 0 <= fld_pid p <= 0x1fff.
Proof.
  intros Hp. pose proof (wf_nthz p 2 Hp). unfold is_byte, fld_pid in *.
  pose proof (Z.mod_pos_bound (nthz p 1) 32); lia.
Qed.

Lemma fld_offset_range p : wf_bytes p -> 4 <= fld_offset p.
Proof.
  intros Hp. pose proof (wf_nthz p 4 Hp). unfold is_byte, fld_offset in *. case_test; lia.
Qed.

Lemma adaptation_end_eq p : wf_bytes p -> len p = 188 -> fld_afc p <> 0 ->
  adaptation_end p (fld_afc p) =
  Ret (if decide (fld_offset p <= 188) then Ok (fld_offset p) else Err InvalidAdaptationField).
Proof.
  intros Hp Hl Ha. pose proof (fld_afc_range p) as Hr. pose proof (wf_nthz p 4 Hp) as Hb.
  unfold adaptation_end, fld_offset.
  destruct (Z.eqb_spec (fld_afc p) 1) as [->|H1]; [done|].
  replace ((fld_afc p =? 2) || (fld_afc p =? 3)) with true by lia.
  in_range. unfold mbind, outcome_bind, is_byte in *. unfold checked_add.
  replace (4 + (1 + nthz p 4)) with (5 + nthz p 4) by lia.
  rewrite (proj2 (Z.leb_le _ _)) by (unfold u64_max; lia).
  rewrite Hl, Z.gtb_ltb. f_equal.
  destruct (Z.ltb_spec 188 (5 + nthz p 4)); destruct (decide (5 + nthz p 4 <= 188)); done || lia.
Qed.

(** The failure the parser reports on a packet that is not well framed. *)
Definition framing_failure (p : bytes) : DescrambleFailure :=
  if decide (len p = 188) then
    if decide (nthz p 0 = 0x47) then
      if decide (fld_afc p = 0) then InvalidAfc else InvalidAdaptationField
    else BadSyncByte
  else InvalidPacketSize.

#[global] Instance well_framed_dec p : Decision (well_framed p).
Proof. unfold well_framed; apply _. Defined.

Lemma parse_ts_packet_header_eq p : wf_bytes p ->
  parse_ts_packet_header p =
  Ret (if decide (well_framed p) then Ok (header_of p) else Err (framing_failure p)).
Proof.
  intros Hp. unfold parse_ts_packet_header, framing_failure, TS_PACKET_SIZE.
  destruct (Z.eqb_spec (len p) 188) as [Hl|Hl]; simpl;
    [|rewrite decide_False by (unfold well_framed; tauto); by rewrite decide_False].
  rewrite (decide_True _ _ Hl). in_range; cbn [mbind outcome_bind].
  destruct (Z.eqb_spec (nthz p 0) 0x47) as [H0|H0]; simpl;
    [|rewrite decide_False by (unfold well_framed; tauto); by rewrite decide_False].
  rewrite (decide_True _ _ H0), afc_bits_eq, tsc_bits_eq by auto with tv.
  fold (fld_afc p) (fld_tsc p).
  destruct (Z.eqb_spec (fld_afc p) 0) as [Ha|Ha].
  { rewrite decide_False by (unfold well_framed; lia). by rewrite decide_True. }
  rewrite (decide_False (P := fld_afc p = 0)) by done.
  rewrite adaptation_end_eq by done; cbn [mbind outcome_bind].
  pose proof (fld_afc_range p).
  destruct (decide (fld_offset p <= 188)) as [Ho|Ho].
  2: { rewrite decide_False; [done|]. unfold well_framed, fld_offset in *. destruct (fld_afc p =? 1) eqn:?; lia. }
  destruct ((fld_afc p =? 3) && (fld_offset p >=? 188)) eqn:E.
  { breflect. rewrite decide_False; [done|]. unfold well_framed; lia. }
  rewrite decide_True by (unfold well_framed; lia).
  rewrite pid_bits_eq by auto with tv. unfold header_of, fld_pid, fld_tei.
  change 0x80 with (2 ^ 7). change 0x40 with (2 ^ 6).
  change 0x0f with (Z.ones 4). by rewrite !has_bits_land_ones, land_ones_mod by lia.
Qed.

(** ** Rewriting the packet *)
Lemma takez_4 p : 4 <= len p -> takez 4 p = [nthz p 0; nthz p 1; nthz p 2; nthz p 3].
Proof.
  intros H. destruct p as [|a [|b [|c [|d p]]]]; try (exfalso; lens). by rewrite takez_eq.
Qed.

Lemma takez_split n (p : bytes) : 4 <= n -> 4 <= len p -> takez n p = takez 4 p ++ takez (n - 4) (dropz 4 p).
Proof.
  intros Hn Hl. rewrite <- (takez_dropz 4 p) at 1. rewrite !takez_eq, !dropz_eq.
  rewrite take_app_ge by (unfold len in Hl; rewrite length_take; lia).
  rewrite length_take. f_equal. f_equal. unfold len in Hl; lia.
Qed.

Lemma rewrite_packet_eq p key : wf_bytes p -> len p = 188 -> fld_offset p < 188 ->
  rewrite_packet p (fld_offset p) key = Ret (descrambled_packet p key).
Proof.
  intros Hp Hl Ho. pose proof (fld_offset_range p Hp) as H4. unfold rewrite_packet.
  in_range; cbn [mbind outcome_bind].
  rewrite (takez_split (fld_offset p)), takez_4 by lia. cbn [app].
  unfold byte_at. rewrite !len_cons.
  match goal with |- context [?b && ?c] => replace (b && c) with true by (symmetry; lens) end.
  cbn [mbind outcome_bind]. unfold descrambled_packet.
  change 64 with (2 ^ 6). rewrite <- (land_ones_mod (nthz p 3) 6) by lia. reflexivity.
Qed.

Lemma has_payload_afc p : has_payload p -> (fld_afc p =? 2) = false.
Proof. unfold has_payload; lia. Qed.

#[global] Instance has_payload_dec p : Decision (has_payload p).
Proof. unfold has_payload; apply _. Defined.

Lemma descramble_scrambled_ok p T K : wf_bytes p ->
  well_framed p -> fld_tei p = false -> 2 <= fld_tsc p -> fld_pid p <> NULL_PID ->
  returns (descramble_scrambled p T K (header_of p)) (descramble_spec p T K).
Proof.
  intros Hp Hw Ht Hs Hn. unfold descramble_scrambled, from_validated_pid_for_descrambler_core, validate_u16.
  pose proof (fld_pid_range p Hp). pose proof (fld_afc_range p).
  cbn [hdr_pid header_of payload_offset transport_scrambling_control].
  rewrite (proj2 (Z.leb_le _ _)) by lia.
  case_bool_decide as HT; simpl; [|by apply returns_ret, ds_not_registered].
  destruct (decide (has_payload p)) as [Hpl|Hpl].
  2: { unfold has_payload in Hpl. replace (fld_afc p =? 2) with true by lia.
       by apply returns_ret, ds_no_payload. }
  rewrite has_payload_afc by done.
  assert (fld_offset p < 188) as Ho.
  { unfold well_framed, has_payload, fld_offset in *. destruct (fld_afc p =? 1) eqn:?; lia. }
  unfold TS_PACKET_SIZE. replace (fld_offset p >=? 188) with false by lia.
  fold (tsc_parity p). destruct (key_for K (tsc_parity p)) as [key|] eqn:Hk;
    [|by apply returns_ret, ds_no_key].
  rewrite rewrite_packet_eq by (done || apply Hw). cbn [mbind outcome_bind].
  by apply returns_ret, ds_descrambled.
Qed.

Lemma framing_spec p T K : ~ well_framed p ->
  descramble_spec p T K (Err (framing_failure p), p).
Proof.
  intros Hw. apply ds_framing; [done| | | |]; unfold framing_failure;
    repeat case_decide; intuition (congruence || lia).
Qed.

Lemma descramble_ok p T K : wf_bytes p ->
  returns (descramble_ts_packet_in_place p T K) (descramble_spec p T K).
Proof.
  intros Hp. unfold descramble_ts_packet_in_place.
  rewrite parse_ts_packet_header_eq by done; cbn [mbind outcome_bind].
  destruct (decide (well_framed p)) as [Hw|Hw]; [|by apply returns_ret, framing_spec].
  cbn [transport_error_indicator transport_scrambling_control hdr_pid payload_offset header_of].
  destruct (fld_tei p) eqn:Ht; [by apply returns_ret, ds_tei|].
  pose proof (fld_tsc_range p Hp).
  destruct (Z.eqb_spec (fld_tsc p) 0) as [H0|H0].
  { apply returns_ret, ds_clear; try done. unfold has_payload.
    repeat case_decide; destruct (Z.eqb_spec (fld_pid p) NULL_PID);
      destruct (Z.eqb_spec (fld_afc p) 2); simpl; try (done || lia). }
  destruct (Z.eqb_spec (fld_tsc p) 1) as [H1|H1]; [by apply returns_ret, ds_reserved_tsc|].
  replace ((fld_tsc p =? 2) || (fld_tsc p =? 3)) with true by lia.
  destruct (Z.eqb_spec (fld_pid p) NULL_PID); [apply returns_ret, ds_null; try done; lia|].
  apply descramble_scrambled_ok; try done; lia.
Qed.

(** C24. Descrambling a packet in place never panics, and its verdict and the
    bytes it leaves behind are those of the decision table: framing first,
    then the transport-error indicator, the scrambling control, the null PID,
    the PID registration, the presence of a payload and the key of the
    signalled parity.  Only the last row rewrites the packet. *)
Theorem descramble_decision_table (p : bytes) (T : gset DescramblerPid) (K : DescramblerKeySlot) :
  wf_bytes p -> returns (descramble_ts_packet_in_place p T K) (descramble_spec p T K).
Proof. apply descramble_ok. Qed.

(** ** The sender

    The scrambler that the descrambler inverts: it encrypts the payload of a
    clear packet under the key of a parity and signals it in the scrambling
    control bits. *)
Definition parity_tsc (parity : KeyParity) : Z := match parity with Even => 2 | Odd => 3 end.

Definition scramble_packet (p : bytes) (parity : KeyParity) (key : PreparedMulti2Key) : bytes :=
  [nthz p 0; nthz p 1; nthz p 2; parity_tsc parity * 64 + nthz p 3] ++
  takez (fld_offset p - 4) (dropz 4 p) ++
  multi2_encrypt_payload (dropz (fld_offset p) p) key.

(** A clear packet the scrambler may scramble. *)
Definition scramblable (p : bytes) : Prop :=
  wf_bytes p /\ well_framed p /\ fld_tei p = false /\ fld_tsc p = 0 /\
  fld_pid p <> NULL_PID /\ has_payload p.

Lemma scramblable_offset p : scramblable p -> 4 <= fld_offset p < 188.
Proof.
  intros (Hp & Hw & _ & _ & _ & Hpl). pose proof (fld_offset_range p Hp).
  pose proof (fld_afc_range p).
  unfold well_framed, has_payload, fld_offset in *. destruct (fld_afc p =? 1) eqn:?; lia.
Qed.

Lemma length_adapt p : scramblable p ->
  len (takez (fld_offset p - 4) (dropz 4 p)) = fld_offset p - 4.
Proof.
  intros H. pose proof (scramblable_offset p H). destruct H as (_ & (Hl & _) & _). lens.
Qed.

Lemma len_multi2_encrypt k l : len (multi2_encrypt_payload l k) = len l.
Proof. unfold len. by rewrite length_multi2_encrypt. Qed.
Lemma len_multi2_decrypt k l : len (multi2_decrypt_payload l k) = len l.
Proof. unfold len. by rewrite length_multi2_decrypt. Qed.

Section Scramble.
  Context (p : bytes) (parity : KeyParity) (key : PreparedMulti2Key).
  Hypothesis (Hp : scramblable p).
Let s := scramble_packet p parity key.

Lemma scramble_len : len s = 188.
Proof.
  pose proof (scramblable_offset p Hp). pose proof (length_adapt p Hp).
  destruct Hp as (_ & (Hl & _) & _).
  unfold s, scramble_packet. rewrite !len_app, len_multi2_encrypt. lens.
Qed.

Lemma scramblable_b3 : 0 <= nthz p 3 < 64.
Proof.
  destruct Hp as (Hw & _ & _ & H0 & _). pose proof (wf_nthz p 3 Hw) as Hb.
  unfold fld_tsc, is_byte in *. pose proof (Z.div_mod (nthz p 3) 64).
  pose proof (Z.mod_pos_bound (nthz p 3) 64). lia.
Qed.

Lemma scramble_wf : wf_bytes s.
Proof.
  pose proof scramblable_b3. destruct Hp as (Hw & _).
  unfold s, scramble_packet. repeat (apply wf_app; split).
  - repeat (apply wf_cons; split; auto with tv).
    unfold is_byte; destruct parity; simpl; lia.
  - auto with tv.
  - apply wf_encrypt_chunks.
Qed.

(** Byte 4 is the adaptation length, or payload when there is no adaptation
    field. *)
Lemma scramble_nthz4 : fld_afc p <> 1 -> nthz s 4 = nthz p 4.
Proof.
  intros Ha. pose proof (scramblable_offset p Hp) as Ho. pose proof (length_adapt p Hp) as Hlen.
  destruct Hp as (Hw & (Hl & _) & _). pose proof (wf_nthz p 4 Hw).
  assert (5 <= fld_offset p) by (unfold fld_offset, is_byte in *; destruct (Z.eqb_spec (fld_afc p) 1); lia).
  unfold s, scramble_packet. cbn [app].
  do 4 rewrite nthz_cons by lia. rewrite nthz_app_l by lia.
  rewrite nthz_takez, nthz_dropz by lia. done.
Qed.

Lemma scramble_afc : fld_afc s = fld_afc p.
Proof.
  unfold fld_afc. change (nthz s 3) with (parity_tsc parity * 64 + nthz p 3).
  replace (parity_tsc parity * 64) with (parity_tsc parity * 4 * 16) by lia.
  rewrite Z.div_add_l, Z.add_comm, Z.mod_add by lia. done.
Qed.

Lemma scramble_tsc : fld_tsc s = parity_tsc parity.
Proof.
  pose proof scramblable_b3. unfold fld_tsc.
  change (nthz s 3) with (parity_tsc parity * 64 + nthz p 3).
  rewrite Z.div_add_l, Z.div_small by lia. lia.
Qed.

Lemma scramble_offset : fld_offset s = fld_offset p.
Proof.
  unfold fld_offset. rewrite scramble_afc. destruct (Z.eqb_spec (fld_afc p) 1); [done|].
  by rewrite scramble_nthz4.
Qed.

Lemma scramble_dropz : dropz (fld_offset s) s = multi2_encrypt_payload (dropz (fld_offset p) p) key.
Proof.
  rewrite scramble_offset. pose proof (length_adapt p Hp) as Hlen. unfold s, scramble_packet.
  rewrite app_assoc. rewrite <- (dropz_app_exact ([nthz p 0; nthz p 1; nthz p 2;
    parity_tsc parity * 64 + nthz p 3] ++ takez (fld_offset p - 4) (dropz 4 p))
    (multi2_encrypt_payload (dropz (fld_offset p) p) key)) at 2.
  f_equal. rewrite len_app, Hlen. autorewrite with tv_len. lia.
Qed.

Lemma scramble_adapt : takez (fld_offset s - 4) (dropz 4 s) = takez (fld_offset p - 4) (dropz 4 p).
Proof.
  rewrite scramble_offset. pose proof (length_adapt p Hp) as Hlen. unfold s, scramble_packet.
  change 4 with (len [nthz p 0; nthz p 1; nthz p 2; parity_tsc parity * 64 + nthz p 3]) at 2.
  rewrite dropz_app_exact. rewrite <- Hlen at 1. apply takez_app_exact.
Qed.

Lemma descrambled_scramble : wf_prepared key -> descrambled_packet s key = p.
Proof.
  intros Hk. pose proof (scramblable_offset p Hp) as Ho. pose proof scramblable_b3 as H3.
  unfold descrambled_packet. rewrite scramble_dropz, scramble_adapt.
  destruct Hp as (Hw & (Hl & _) & _).
  rewrite multi2_decrypt_encrypt by auto with tv.
  change (nthz s 3) with (parity_tsc parity * 64 + nthz p 3).
  rewrite Z.add_comm, Z.mod_add, Z.mod_small by lia.
  change [nthz s 0; nthz s 1; nthz s 2; nthz p 3] with [nthz p 0; nthz p 1; nthz p 2; nthz p 3].
  rewrite <- takez_4, app_assoc, <- takez_split by lia. apply takez_dropz.
Qed.

Lemma scramble_well_framed : well_framed s.
Proof.
  unfold well_framed. rewrite scramble_afc, scramble_offset.
  split; [apply scramble_len|]. destruct Hp as (_ & (_ & H0 & H) & _). done.
Qed.

Lemma scramble_parity : tsc_parity s = parity.
Proof. unfold tsc_parity. rewrite scramble_tsc. by destruct parity. Qed.
End Scramble.

Lemma descramble_scramble p parity key T K :
  scramblable p -> wf_prepared key -> key_for K parity = Some key ->
  mkDescramblerPid (mkPid (fld_pid p)) ∈ T ->
  descramble_ts_packet_in_place (scramble_packet p parity key) T K
    = Ret (Ok (Descrambled (fld_pid p) parity (fld_offset p)), p).
Proof.
  intros Hp Hk HK HT. set (s := scramble_packet p parity key).
  pose proof (scramble_wf p parity key Hp) as Hw. pose proof Hp as (_ & _ & Ht & _ & Hn & Hpl).
  pose proof (scramble_afc p parity key) as Ha. pose proof (scramble_tsc p parity key Hp) as Hs.
  pose proof (scramble_parity p parity key Hp) as Hpar.
  fold s in Hw, Ha, Hs, Hpar.
  destruct (descramble_ok s T K Hw) as (r & -> & Hr). f_equal.
  pose proof (scramble_well_framed p parity key Hp) as Hf. fold s in Hf.
  change (fld_pid p) with (fld_pid s) in *. change (fld_tei p) with (fld_tei s) in Ht.
  rewrite <- (scramble_offset p parity key Hp). fold s.
  pose proof (descrambled_scramble p parity key Hp Hk) as Hd. fold s in Hd.
  unfold has_payload in Hpl. rewrite <- Ha in Hpl. rewrite <- Hpar in HK |- *.
  clear Hpar. destruct parity; simpl in Hs;
    destruct Hr; try (exfalso; unfold has_payload in *; (congruence || lia)); try done;
    simplify_eq; by rewrite Hd.
Qed.

(** Loading key material into the slot of a parity. *)
Definition load_key (K : DescramblerKeySlot) (parity : KeyParity) (key : Multi2KeyMaterial)
  : result DescramblerKeySlot Multi2PrepareError :=
  match parity with Even => try_with_even K key | Odd => try_with_odd K key end.

Lemma load_key_inv K parity km K' : wf_key_material km -> load_key K parity km = Ok K' ->
  exists pk, prepare km = Ok pk /\ wf_prepared pk /\ key_for K' parity = Some pk.
Proof.
  unfold load_key, try_with_even, try_with_odd. intros Hw H.
  destruct (prepare km) as [pk|e] eqn:E; [|by destruct parity].
  exists pk. split; [done|]. split; [by apply (prepare_wf km)|].
  by destruct parity; simplify_eq.
Qed.

(** C8. For every clear packet with a payload, every key material the key
    slot accepts for a parity and every set of target PIDs that has the
    packet's PID, descrambling the scrambled packet returns the clear packet,
    byte for byte, and reports its PID, the parity and the payload offset;
    the other parity's key and the packet's adaptation field play no part. *)
Theorem descramble_inverts_scramble (p : bytes) (parity : KeyParity) (km : Multi2KeyMaterial)
    (K K' : DescramblerKeySlot) (T : gset DescramblerPid) :
  scramblable p -> wf_key_material km -> load_key K parity km = Ok K' ->
  mkDescramblerPid (mkPid (fld_pid p)) ∈ T ->
  exists key, prepare km = Ok key /\
    descramble_ts_packet_in_place (scramble_packet p parity key) T K'
      = Ret (Ok (Descrambled (fld_pid p) parity (fld_offset p)), p).
Proof.
  intros Hp Hm Hl HT. destruct (load_key_inv K parity km K' Hm Hl) as (key & E & Hk & HK).
  exists key. split; [done|]. by apply descramble_scramble.
Qed.

(** ** Witnesses: a packet on PID 0x100 with a seven-byte adaptation field. *)
Definition sample_packet : bytes :=
  [0x47; 0x41; 0x00; 0x35; 0x07; 0; 0; 0; 0; 0; 0; 0] ++ map Z.of_nat (seq 0 176).
Definition sample_targets : gset DescramblerPid := {[ mkDescramblerPid (mkPid 0x100) ]}.
Definition sample_slot : DescramblerKeySlot :=
  match load_key key_slot_empty Odd kat_key with Ok K => K | Err _ => key_slot_empty end.

Lemma sample_scramblable : scramblable sample_packet.
Proof. apply (bool_decide_unpack _). vm_compute. exact I. Qed.

Lemma descramble_decision_table_witness :
  returns (descramble_ts_packet_in_place sample_packet sample_targets sample_slot)
    (descramble_spec sample_packet sample_targets sample_slot).
Proof.
  apply (descramble_decision_table sample_packet sample_targets sample_slot).
  apply (bool_decide_unpack _). vm_compute. exact I.
Defined.

Lemma descramble_inverts_scramble_witness :
  exists key, prepare kat_key = Ok key /\
    descramble_ts_packet_in_place (scramble_packet sample_packet Odd key) sample_targets sample_slot
      = Ret (Ok (Descrambled 0x100 Odd 12), sample_packet).
Proof.
  apply (descramble_inverts_scramble sample_packet Odd kat_key key_slot_empty sample_slot
    sample_targets).
  - apply sample_scramblable.
  - split_and!; apply (bool_decide_unpack _); vm_compute; exact I.
  - reflexivity.
  - apply (bool_decide_unpack _). vm_compute. exact I.
Defined.
