(* ===== verification/Crc.v ===== *)
(** * CRC-32/MPEG-2

    The bitwise checksum of PSI/SI sections ([crc32_mpeg] of
    [demux/src/parser/sections.rs]) and its algebra: one shift step is
    GF(2)-linear and injective, four bytes act as one 32-bit word, hence the
    zero residue of a checksummed string and the detection of every error
    burst of at most 32 bits. *)

From S2P Require Import Prelude.

Definition CRC_POLY : Z := 0x04c11db7.

(** One turn of the inner loop, on a 32-bit register. *)
Definition crc_bit (crc : Z) : Z :=
  if has_bits crc 0x80000000 then Z.lxor (wrap32 (Z.shiftl crc 1)) CRC_POLY
  else wrap32 (Z.shiftl crc 1).

(** One turn of the outer loop. *)
Definition crc_byte (crc byte : Z) : Z :=
  Nat.iter 8 crc_bit (Z.lxor crc (Z.shiftl byte 24)).

Definition crc32_mpeg (bs : bytes) : Z := fold_left crc_byte bs 0xffffffff.

(** ** Linearity and injectivity of the shift step *)
Lemma crc_bit_eq c :
  crc_bit c = Z.lxor (wrap32 (Z.shiftl c 1)) (if Z.testbit c 31 then CRC_POLY else 0).
Proof.
  unfold crc_bit. change 0x80000000 with (2 ^ 31). rewrite has_bits_land_ones by lia.
  case_test; [done|by rewrite Z.lxor_0_r].
Qed.

Lemma wrap32_shiftl_lxor a b :
  wrap32 (Z.shiftl (Z.lxor a b) 1) = Z.lxor (wrap32 (Z.shiftl a 1)) (wrap32 (Z.shiftl b 1)).
Proof.
  rewrite Z.shiftl_lxor. apply Z.bits_inj'; intros k Hk. unfold wrap32.
  rewrite Z.lxor_spec, !Z.testbit_mod_pow2, Z.lxor_spec by lia.
  destruct (k <? 32); [done|]. by rewrite !andb_false_l.
Qed.

Lemma crc_bit_lxor a b : crc_bit (Z.lxor a b) = Z.lxor (crc_bit a) (crc_bit b).
Proof.
  rewrite !crc_bit_eq, wrap32_shiftl_lxor, Z.lxor_spec.
  set (x := wrap32 (Z.shiftl a 1)); set (y := wrap32 (Z.shiftl b 1)).
  apply Z.bits_inj'; intros k Hk.
  destruct (Z.testbit a 31), (Z.testbit b 31); cbn [xorb];
    rewrite !Z.lxor_spec, ?Z.bits_0;
    destruct (Z.testbit x k), (Z.testbit y k), (Z.testbit CRC_POLY k); done.
Qed.

Lemma crc_bit_u32 c : uN 32 (crc_bit c).
Proof.
  rewrite crc_bit_eq. apply uN_lxor; [lia|apply uN_wrap32|].
  case_test; unfold uN, CRC_POLY; lia.
Qed.

Lemma testbit31 c : uN 32 c -> Z.testbit c 31 = false -> c < 2 ^ 31.
Proof.
  intros Hc H. destruct (Z.lt_ge_cases c (2 ^ 31)) as [|Hge]; [done|exfalso].
  apply Z.testbit_false in H; [|lia].
  assert (c / 2 ^ 31 = 1) as E by (symmetry; apply Z.div_unique with (c - 2 ^ 31); unfold uN in Hc; lia).
  by rewrite E in H.
Qed.

Lemma crc_bit_small c : 0 <= c < 2 ^ 31 -> crc_bit c = c * 2.
Proof.
  intros H. rewrite crc_bit_eq.
  assert (Z.testbit c 31 = false) as ->.
  { apply Z.testbit_false; [lia|]. by rewrite Z.div_small by lia. }
  rewrite Z.lxor_0_r. unfold wrap32. rewrite Z.shiftl_mul_pow2, Z.mod_small by lia. lia.
Qed.

Lemma crc_bit_kernel c : uN 32 c -> crc_bit c = 0 -> c = 0.
Proof.
  intros Hc H. destruct (Z.testbit c 31) eqn:E.
  - exfalso. rewrite crc_bit_eq, E in H.
    assert (Z.testbit (Z.lxor (wrap32 (Z.shiftl c 1)) CRC_POLY) 0 = true) as H0.
    { rewrite Z.lxor_spec. unfold wrap32. rewrite Z.testbit_mod_pow2 by lia.
      by rewrite Z.shiftl_spec by lia. }
    by rewrite H in H0.
  - pose proof (testbit31 c Hc E). rewrite crc_bit_small in H by (unfold uN in Hc; lia). lia.
Qed.

(** ** Runs of shift steps *)
Abbreviation crc_bits n := (Nat.iter n crc_bit).

Lemma crc_bits_lxor n a b : crc_bits n (Z.lxor a b) = Z.lxor (crc_bits n a) (crc_bits n b).
Proof. induction n as [|n IH]; simpl; [done|]. by rewrite IH, crc_bit_lxor. Qed.

Lemma crc_bits_u32 n c : uN 32 c -> uN 32 (crc_bits n c).
Proof. destruct n; simpl; auto using crc_bit_u32. Qed.

Lemma crc_bits_zero n : crc_bits n 0 = 0.
Proof. induction n as [|n IH]; simpl; [done|]. by rewrite IH. Qed.

Lemma crc_bits_kernel n c : uN 32 c -> crc_bits n c = 0 -> c = 0.
Proof.
  intros Hc. induction n as [|n IH]; simpl; [done|]. intros H.
  apply IH. apply crc_bit_kernel; [by apply crc_bits_u32|done].
Qed.

Lemma crc_bits_inj n a b : uN 32 a -> uN 32 b -> crc_bits n a = crc_bits n b -> a = b.
Proof.
  intros Ha Hb H. apply Z.lxor_eq. apply (crc_bits_kernel n); [by apply uN_lxor|].
  by rewrite crc_bits_lxor, H, Z.lxor_nilpotent.
Qed.

Lemma crc_bits_shift n b : is_byte b -> (n <= 24)%nat ->
  crc_bits n (Z.shiftl b (24 - Z.of_nat n)) = Z.shiftl b 24.
Proof.
  intros Hb. unfold is_byte in Hb.
  assert (forall m, (m <= 24)%nat -> forall c, 0 <= c < 2 ^ (32 - Z.of_nat m) ->
    crc_bits m c = c * 2 ^ Z.of_nat m) as Hs.
  { induction m as [|m IH]; intros Hm c Hc; simpl Nat.iter; [simpl; lia|].
    replace (32 - Z.of_nat m) with (Z.succ (32 - Z.of_nat (S m))) in IH by lia.
    rewrite Z.pow_succ_r in IH by lia. rewrite IH by lia.
    replace (Z.of_nat (S m)) with (Z.succ (Z.of_nat m)) in * by lia.
    rewrite Z.pow_succ_r by lia. rewrite crc_bit_small; [lia|].
    replace (2 ^ 31) with (2 ^ (32 - Z.succ (Z.of_nat m)) * 2 ^ Z.of_nat m)
      by (rewrite <- Z.pow_add_r by lia; f_equal; lia). nia. }
  intros Hn. rewrite !Z.shiftl_mul_pow2 by lia. rewrite Hs; [|done|].
  - rewrite <- Z.mul_assoc, <- Z.pow_add_r by lia. do 2 f_equal; lia.
  - replace (32 - Z.of_nat n) with (8 + (24 - Z.of_nat n)) by lia.
    rewrite Z.pow_add_r by lia. split; [nia|].
    pose proof (Z.pow_pos_nonneg 2 (24 - Z.of_nat n)). nia.
Qed.

(** A byte fed in after [n] shifts is the same bits fed in at the start. *)
Lemma crc_byte_shift n x b : is_byte b -> (n <= 24)%nat ->
  crc_byte (crc_bits n x) b = crc_bits (8 + n) (Z.lxor x (Z.shiftl b (24 - Z.of_nat n))).
Proof.
  intros Hb Hn. unfold crc_byte. rewrite <- (crc_bits_shift n b) by done.
  rewrite <- crc_bits_lxor. by rewrite Nat.iter_add.
Qed.

(** Four bytes as one big-endian word. *)
Definition be32 (b0 b1 b2 b3 : Z) : Z :=
  Z.lxor (Z.lxor (Z.lxor (Z.shiftl b0 24) (Z.shiftl b1 16)) (Z.shiftl b2 8)) b3.
(** [v.to_be_bytes()] *)
Definition be32_bytes (v : Z) : bytes :=
  [v / 2 ^ 24; (v / 2 ^ 16) mod 256; (v / 2 ^ 8) mod 256; v mod 256].

Lemma crc_word c b0 b1 b2 b3 : wf_bytes [b0; b1; b2; b3] ->
  fold_left crc_byte [b0; b1; b2; b3] c = crc_bits 32 (Z.lxor c (be32 b0 b1 b2 b3)).
Proof.
  intros H. wf_split. simpl fold_left.
  change (crc_byte c b0) with (crc_bits 8 (Z.lxor c (Z.shiftl b0 24))).
  do 3 rewrite crc_byte_shift by (done || lia). unfold be32. rewrite Z.shiftl_0_r.
  by rewrite !Z.lxor_assoc.
Qed.

Lemma lxor_add_low a b n : 0 <= n -> 0 <= b < 2 ^ n -> Z.lxor (Z.shiftl a n) b = a * 2 ^ n + b.
Proof.
  intros. rewrite <- Z.shiftl_mul_pow2 by done. symmetry. apply Z.add_nocarry_lxor.
  by apply land_shiftl_small.
Qed.

Lemma be32_eq b0 b1 b2 b3 : wf_bytes [b0; b1; b2; b3] ->
  be32 b0 b1 b2 b3 = b0 * 2 ^ 24 + b1 * 2 ^ 16 + b2 * 2 ^ 8 + b3.
Proof.
  intros H. wf_split. unfold is_byte in *. unfold be32. rewrite !Z.lxor_assoc.
  rewrite (lxor_add_low b2 b3 8) by lia. rewrite (lxor_add_low b1 _ 16) by lia.
  rewrite (lxor_add_low b0 _ 24) by lia. lia.
Qed.

Lemma be32_u32 b0 b1 b2 b3 : wf_bytes [b0; b1; b2; b3] -> uN 32 (be32 b0 b1 b2 b3).
Proof. intros H. rewrite be32_eq by done. wf_split. unfold is_byte, uN in *. lia. Qed.

Lemma be32_inj a0 a1 a2 a3 b0 b1 b2 b3 :
  wf_bytes [a0; a1; a2; a3] -> wf_bytes [b0; b1; b2; b3] ->
  be32 a0 a1 a2 a3 = be32 b0 b1 b2 b3 -> [a0; a1; a2; a3] = [b0; b1; b2; b3].
Proof.
  intros Ha Hb. rewrite !be32_eq by done. wf_split. unfold is_byte in *. intros H.
  assert (a0 = b0 /\ a1 = b1 /\ a2 = b2 /\ a3 = b3) by lia. by intuition subst.
Qed.

Lemma wf_be32_bytes v : uN 32 v -> wf_bytes (be32_bytes v).
Proof.
  unfold uN, be32_bytes; intros Hv.
  repeat (apply wf_cons; split; [unfold is_byte|]); [|apply Z.mod_pos_bound; lia..|apply wf_nil].
  split; [apply Z.div_pos; lia|apply Z.div_lt_upper_bound; lia].
Qed.

Lemma be32_be32_bytes v : uN 32 v ->
  be32 (v / 2 ^ 24) ((v / 2 ^ 16) mod 256) ((v / 2 ^ 8) mod 256) (v mod 256) = v.
Proof.
  intros Hv. rewrite be32_eq by by apply wf_be32_bytes.
  change (2 ^ 24) with (2 ^ 8 * (2 ^ 8 * 2 ^ 8)). change (2 ^ 16) with (2 ^ 8 * 2 ^ 8).
  rewrite <- !Z.div_div by lia. change (2 ^ 8) with 256.
  pose proof (Z.div_mod v 256). pose proof (Z.div_mod (v / 256) 256).
  pose proof (Z.div_mod (v / 256 / 256) 256). lia.
Qed.

(** ** The checksum of a string *)
Lemma crc_byte_u32 c b : uN 32 c -> is_byte b -> uN 32 (crc_byte c b).
Proof. intros. apply crc_bit_u32. Qed.

Lemma crc_fold_u32 bs c : uN 32 c -> wf_bytes bs -> uN 32 (fold_left crc_byte bs c).
Proof.
  revert c; induction bs as [|b bs IH]; simpl; intros c Hc Hb; [done|].
  wf_split. apply IH; [by apply crc_byte_u32|done].
Qed.

Lemma crc32_u32 bs : wf_bytes bs -> uN 32 (crc32_mpeg bs).
Proof. apply crc_fold_u32. unfold uN; lia. Qed.

Lemma crc_byte_inj c c' b : uN 32 c -> uN 32 c' -> is_byte b ->
  crc_byte c b = crc_byte c' b -> c = c'.
Proof.
  intros Hc Hc' Hb H. assert (uN 32 (Z.shiftl b 24)).
  { unfold uN, is_byte in *. rewrite Z.shiftl_mul_pow2 by lia. lia. }
  apply (crc_bits_inj 8) in H; [|by apply uN_lxor..].
  apply (f_equal (fun x => Z.lxor x (Z.shiftl b 24))) in H.
  by rewrite !Z.lxor_assoc, Z.lxor_nilpotent, !Z.lxor_0_r in H.
Qed.

Lemma crc_fold_inj bs c c' : uN 32 c -> uN 32 c' -> wf_bytes bs ->
  fold_left crc_byte bs c = fold_left crc_byte bs c' -> c = c'.
Proof.
  revert c c'; induction bs as [|b bs IH]; simpl; intros c c' Hc Hc' Hb H; [done|].
  wf_split. apply (crc_byte_inj _ _ b); try done. apply IH; auto using crc_byte_u32.
Qed.

Lemma crc32_append bs : wf_bytes bs -> crc32_mpeg (bs ++ be32_bytes (crc32_mpeg bs)) = 0.
Proof.
  intros Hb. pose proof (crc32_u32 bs Hb) as Hc. unfold crc32_mpeg at 1.
  rewrite fold_left_app. fold (crc32_mpeg bs). unfold be32_bytes.
  rewrite crc_word by by apply wf_be32_bytes.
  rewrite be32_be32_bytes by done. rewrite Z.lxor_nilpotent. apply crc_bits_zero.
Qed.

(** Two strings that differ only within four consecutive bytes. *)
Lemma crc32_burst pre w w' suf :
  wf_bytes (pre ++ w ++ suf) -> wf_bytes w' -> length w = 4%nat -> length w' = 4%nat ->
  crc32_mpeg (pre ++ w ++ suf) = crc32_mpeg (pre ++ w' ++ suf) -> w = w'.
Proof.
  intros Hb Hw' Hl Hl' H. wf_split. unfold crc32_mpeg in H. rewrite !fold_left_app in H.
  assert (uN 32 (fold_left crc_byte pre 0xffffffff)) as Hp by (by apply crc32_u32).
  apply crc_fold_inj in H; [|by apply crc_fold_u32..|done].
  destruct w as [|a0 [|a1 [|a2 [|a3 [|]]]]]; try done.
  destruct w' as [|b0 [|b1 [|b2 [|b3 [|]]]]]; try done.
  rewrite !crc_word in H by done.
  apply crc_bits_inj in H; [|by apply uN_lxor, be32_u32..].
  apply be32_inj; [done..|].
  apply (f_equal (Z.lxor (fold_left crc_byte pre 0xffffffff))) in H.
  by rewrite <- !Z.lxor_assoc, Z.lxor_nilpotent, !Z.lxor_0_l in H.
Qed.
