(* ===== verification/Sections.v ===== *)
(** * PSI/SI sections of the demux

    The section header parser with its reserved-bit policy, the CRC verdict
    and the section assembler of [demux/src/parser/sections.rs].

    The assembler is a record threaded through its operations; the two loops
    ([while cursor < payload.len()] and the [loop] of [try_take_pending]) run
    on fuel one above the number of bytes they can consume, and are proved to
    return within it. *)

From S2P Require Import Prelude Common Crc.

(** ** The section header *)
Record SectionHeader := mkSectionHeader {
  table_id : Z;
  syntax : bool;
  section_length : Z;
  total_length : Z;
  table_id_extension : option Z;
  version : option Z;
  current_next_indicator : option bool;
  section_number : option Z;
  last_section_number : option Z
}.

Definition normalize_length_field_bits (bits : Z) : option Z :=
  if (bits =? 0) || (bits =? 12) then Some 12 else None.

(** The five fields of the long form. *)
Definition long_form_fields (section : bytes) (require_reserved_bits : bool)
  : outcome (option (Z * Z * bool * Z * Z)) :=
  b5 ← byte_at section 5;
  if require_reserved_bits && negb (Z.land b5 0xc0 =? 0xc0) then Ret None else
  b3 ← byte_at section 3;
  b4 ← byte_at section 4;
  b6 ← byte_at section 6;
  b7 ← byte_at section 7;
  Ret (Some (be16 b3 b4, Z.land (Z.shiftr b5 1) 0x1f, has_bits b5 0x01, b6, b7)).

Definition parse_section_header_with_reserved_bit_policy (section : bytes)
    (length_field_bits : Z) (require_reserved_bits : bool) : outcome (option SectionHeader) :=
  match normalize_length_field_bits length_field_bits with
  | None => Ret None
  | Some normalized =>
      if negb (normalized =? 12) || (len section <? 3) then Ret None else
      b0 ← byte_at section 0;
      b1 ← byte_at section 1;
      b2 ← byte_at section 2;
      if require_reserved_bits && negb (Z.land b1 0x30 =? 0x30) then Ret None else
      let section_length := len12 b1 b2 in
      if negb (is_valid_arib_section_length b0 section_length) then Ret None else
      let total_length := 3 + section_length in
      if total_length >? MAX_SECTION_PAYLOAD_BYTES then Ret None else
      let syntax := has_bits b1 0x80 in
      if syntax && ((section_length <? 9) || (total_length <? 12)) then Ret None else
      if len section <? total_length then Ret None else
      if syntax then
        f ← long_form_fields section require_reserved_bits;
        match f with
        | None => Ret None
        | Some (ext, ver, cni, num, last) =>
            Ret (Some (mkSectionHeader b0 true section_length total_length
              (Some ext) (Some ver) (Some cni) (Some num) (Some last)))
        end
      else Ret (Some (mkSectionHeader b0 false section_length total_length
                        None None None None None))
  end.

Definition parse_section_header (section : bytes) (length_field_bits : Z) :=
  parse_section_header_with_reserved_bit_policy section length_field_bits true.
Definition parse_raw_section_framing (section : bytes) (length_field_bits : Z) :=
  parse_section_header_with_reserved_bit_policy section length_field_bits false.

Definition section_crc_valid (section : bytes) (length_field_bits : Z) : outcome bool :=
  h ← parse_section_header section length_field_bits;
  match h with
  | None => Ret false
  | Some header =>
      if section_length header <? 4 then Ret false else
      covered ← slice section 0 (total_length header);
      Ret (crc32_mpeg covered =? 0)
  end.

(** ** The assembler *)
Record SectionAssembler := mkSectionAssembler {
  expected_len : option Z;
  buf : bytes;
  oversized_section_drops : Z;
  stale_partial_section_discards : Z;
  oversized_section_drop_counter_saturated : bool;
  stale_partial_section_discard_counter_saturated : bool
}.

Record SectionPushOutcome := mkSectionPushOutcome {
  sections : list bytes;
  oversized_section_drop_delta : Z;
  stale_partial_discard_delta : Z;
  oversized_section_counter_saturated : bool;
  stale_partial_counter_saturated : bool
}.

Definition has_drop_or_discard (o : SectionPushOutcome) : bool :=
  (oversized_section_drop_delta o >? 0) || (stale_partial_discard_delta o >? 0).

Definition assembler_default : SectionAssembler := mkSectionAssembler None [] 0 0 false false.

(** Field updates. *)
Definition with_buffer (a : SectionAssembler) (e : option Z) (b : bytes) : SectionAssembler :=
  mkSectionAssembler e b (oversized_section_drops a) (stale_partial_section_discards a)
    (oversized_section_drop_counter_saturated a)
    (stale_partial_section_discard_counter_saturated a).

Definition assembler_reset (a : SectionAssembler) : SectionAssembler := with_buffer a None [].

Definition increment_oversized_section_drops (a : SectionAssembler) : SectionAssembler :=
  match checked_add u64_max (oversized_section_drops a) 1 with
  | Some next =>
      mkSectionAssembler (expected_len a) (buf a) next (stale_partial_section_discards a)
        (oversized_section_drop_counter_saturated a)
        (stale_partial_section_discard_counter_saturated a)
  | None =>
      mkSectionAssembler (expected_len a) (buf a) (oversized_section_drops a)
        (stale_partial_section_discards a) true
        (stale_partial_section_discard_counter_saturated a)
  end.

Definition increment_stale_partial_section_discards (a : SectionAssembler) : SectionAssembler :=
  match checked_add u64_max (stale_partial_section_discards a) 1 with
  | Some next =>
      mkSectionAssembler (expected_len a) (buf a) (oversized_section_drops a) next
        (oversized_section_drop_counter_saturated a)
        (stale_partial_section_discard_counter_saturated a)
  | None =>
      mkSectionAssembler (expected_len a) (buf a) (oversized_section_drops a)
        (stale_partial_section_discards a) (oversized_section_drop_counter_saturated a) true
  end.

Definition set_expected_len_or_drop (a : SectionAssembler) (e : Z) : SectionAssembler * bool :=
  if e >? MAX_SECTION_PAYLOAD_BYTES
  then (assembler_reset (increment_oversized_section_drops a), false)
  else (with_buffer a (Some e) (buf a), true).

(** [!self.buf.is_empty() || self.expected_len.is_some()] *)
Definition pending (a : SectionAssembler) : bool :=
  negb (len (buf a) =? 0) || bool_decide (is_Some (expected_len a)).

(** [invalid_declared_header], on the first three bytes of a section. *)
Definition invalid_declared_header (require_reserved_bits : bool) (b0 b1 b2 : Z) : bool :=
  let section_length := len12 b1 b2 in
  let total_length := 3 + section_length in
  (require_reserved_bits && negb (Z.land b1 0x30 =? 0x30))
  || negb (is_valid_arib_section_length b0 section_length)
  || (total_length >? MAX_SECTION_PAYLOAD_BYTES)
  || (has_bits b1 0x80 && ((section_length <? 9) || (total_length <? 12))).

(** The choice of parser at a completed section. *)
Definition parse_with_policy (require_reserved_bits : bool) (section : bytes)
  : outcome (option SectionHeader) :=
  if require_reserved_bits then parse_section_header section 12
  else parse_raw_section_framing section 12.

(** The head of the [loop] body: [None] for the early return that follows a
    rejected header. *)
Definition pending_header (a : SectionAssembler) (r : bool)
  : outcome (SectionAssembler * bool) :=
  if bool_decide (expected_len a = None) && (3 <=? len (buf a)) then
    b0 ← byte_at (buf a) 0;
    b1 ← byte_at (buf a) 1;
    b2 ← byte_at (buf a) 2;
    let rejected a := (assembler_reset (increment_oversized_section_drops a), false) in
    if invalid_declared_header r b0 b1 b2 then Ret (rejected a)
    else
      let '(a', ok) := set_expected_len_or_drop a (3 + len12 b1 b2) in
      Ret (if ok then (a', true) else rejected a')
  else Ret (a, true).

Fixpoint pending_loop (fuel : nat) (a : SectionAssembler) (out : list bytes) (r : bool)
  : outcome (SectionAssembler * list bytes) :=
  match fuel with
  | O => Diverge
  | S fuel =>
      h ← pending_header a r;
      let '(a, go) := h in
      if negb go then Ret (a, out) else
      match expected_len a with
      | None => Ret (a, out)
      | Some e =>
          if len (buf a) <? e then Ret (a, out) else
          remaining ← slice_from (buf a) e;
          section ← slice (buf a) 0 e;
          let a := with_buffer a None remaining in
          parsed ← parse_with_policy r section;
          let '(a, out) :=
            match parsed with
            | Some _ => (a, out ++ [section])
            | None => (increment_oversized_section_drops a, out)
            end in
          if len (buf a) =? 0 then Ret (a, out) else
          b0 ← byte_at (buf a) 0;
          if b0 =? 0xff then Ret (assembler_reset a, out)
          else pending_loop fuel a out r
      end
  end.

(** Each completed section takes at least three bytes from the buffer. *)
Definition try_take_pending (a : SectionAssembler) (out : list bytes) (r : bool)
  : outcome (SectionAssembler * list bytes) :=
  pending_loop (S (length (buf a))) a out r.

(** [while cursor < payload.len()], on an idle assembler. *)
Fixpoint scan_loop (fuel : nat) (a : SectionAssembler) (payload : bytes) (cursor : Z)
    (out : list bytes) (r : bool) : outcome (SectionAssembler * list bytes) :=
  match fuel with
  | O => Diverge
  | S fuel =>
      if negb (cursor <? len payload) then Ret (a, out) else
      c ← byte_at payload cursor;
      if c =? 0xff then Ret (a, out) else
      remaining ← slice_from payload cursor;
      if len remaining <? 3 then Ret (with_buffer a None (buf a ++ remaining), out) else
      b0 ← byte_at remaining 0;
      b1 ← byte_at remaining 1;
      b2 ← byte_at remaining 2;
      let total_length := 3 + len12 b1 b2 in
      if invalid_declared_header r b0 b1 b2
      then scan_loop fuel (increment_oversized_section_drops a) payload (cursor + 1) out r
      else if total_length <=? len remaining then
        parsed ← parse_with_policy r remaining;
        match parsed with
        | Some _ =>
            section ← slice remaining 0 total_length;
            scan_loop fuel a payload (cursor + total_length) (out ++ [section]) r
        | None => scan_loop fuel (increment_oversized_section_drops a) payload (cursor + 1) out r
        end
      else
        let a := with_buffer a (expected_len a) (buf a ++ remaining) in
        Ret (fst (set_expected_len_or_drop a total_length), out)
  end.

(** The tail of a push, from the cursor on. *)
Definition push_from (a : SectionAssembler) (payload : bytes) (cursor : Z) (out : list bytes)
    (r : bool) : outcome (SectionAssembler * list bytes) :=
  if cursor >=? len payload then Ret (a, out)
  else if pending a then
    rest ← slice_from payload cursor;
    try_take_pending (with_buffer a (expected_len a) (buf a ++ rest)) out r
  else scan_loop (S (length payload)) a payload cursor out r.

(** The continuation of the previous section before a unit start. *)
Definition finish_previous (a : SectionAssembler) (payload : bytes) (pointer : Z) (r : bool)
  : outcome (SectionAssembler * list bytes) :=
  if pending a then
    h ← (if pointer >? 0 then
           head ← slice payload 1 (1 + pointer);
           try_take_pending (with_buffer a (expected_len a) (buf a ++ head)) [] r
         else Ret (a, []));
    let '(a, out) := h in
    Ret (if pending a
         then (assembler_reset (increment_stale_partial_section_discards a), out)
         else (a, out))
  else Ret (a, []).

Definition push_payload_with_reserved_bit_policy (a : SectionAssembler)
    (payload_unit_start : bool) (payload : bytes) (r : bool)
  : outcome (SectionAssembler * list bytes) :=
  if len payload =? 0 then Ret (a, [])
  else if payload_unit_start then
    pointer ← byte_at payload 0;
    if 1 + pointer >? len payload then Ret (assembler_reset a, []) else
    h ← finish_previous a payload pointer r;
    let '(a, out) := h in
    push_from a payload (1 + pointer) out r
  else if negb (pending a) then Ret (a, [])
  else push_from a payload 0 [] r.

Definition push_payload_with_outcome_policy (a : SectionAssembler) (payload_unit_start : bool)
    (payload : bytes) (r : bool) : outcome (SectionAssembler * SectionPushOutcome) :=
  h ← push_payload_with_reserved_bit_policy a payload_unit_start payload r;
  let '(a', out) := h in
  Ret (a', mkSectionPushOutcome out
    (saturating_sub (oversized_section_drops a') (oversized_section_drops a))
    (saturating_sub (stale_partial_section_discards a') (stale_partial_section_discards a))
    (negb (oversized_section_drop_counter_saturated a)
     && oversized_section_drop_counter_saturated a')
    (negb (stale_partial_section_discard_counter_saturated a)
     && stale_partial_section_discard_counter_saturated a')).

Definition push_payload_with_outcome (a : SectionAssembler) (payload_unit_start : bool)
    (payload : bytes) : outcome (SectionAssembler * SectionPushOutcome) :=
  push_payload_with_outcome_policy a payload_unit_start payload true.

(** ** What the header parser accepts *)
Definition declared_total (s : bytes) : Z := 3 + len12 (nthz s 1) (nthz s 2).

Definition declared_ok (r : bool) (s : bytes) : Prop :=
  invalid_declared_header r (nthz s 0) (nthz s 1) (nthz s 2) = false.

(** A string that begins with a complete section under a policy. *)
Definition accepts (r : bool) (s : bytes) : Prop :=
  3 <= len s /\ declared_ok r s /\ declared_total s <= len s /\
  (has_bits (nthz s 1) 0x80 = true -> r = true -> Z.land (nthz s 5) 0xc0 = 0xc0).

#[global] Instance accepts_dec r s : Decision (accepts r s).
Proof. unfold accepts, declared_ok; apply _. Defined.

(** The fields of the header, as arithmetic on the bytes. *)
Definition header_fields (s : bytes) : SectionHeader :=
  let long := Z.testbit (nthz s 1) 7 in
  let when {A} (v : A) := if long then Some v else None in
  {| table_id := nthz s 0;
     syntax := long;
     section_length := (nthz s 1 mod 16) * 256 + nthz s 2;
     total_length := 3 + (nthz s 1 mod 16) * 256 + nthz s 2;
     table_id_extension := when (nthz s 3 * 256 + nthz s 4);
     version := when ((nthz s 5 / 2) mod 32);
     current_next_indicator := when (Z.testbit (nthz s 5) 0);
     section_number := when (nthz s 6);
     last_section_number := when (nthz s 7) |}.

Lemma long_form_fields_eq s r : 8 <= len s ->
  long_form_fields s r =
  Ret (if r && negb (Z.land (nthz s 5) 0xc0 =? 0xc0) then None
       else Some (nthz s 3 * 256 + nthz s 4, (nthz s 5 / 2) mod 32, Z.testbit (nthz s 5) 0,
                  nthz s 6, nthz s 7)).
Proof.
  intros H. unfold long_form_fields. in_range; cbn [mbind outcome_bind].
  case_test; [done|]. change 0x1f with (Z.ones 5).
  rewrite land_ones_mod, Z.shiftr_div_pow2 by lia.
  rewrite <- (has_bits_land_ones (nthz s 5) 0) by lia. done.
Qed.

Lemma declared_ok_inv r s : declared_ok r s ->
  (r = true -> Z.land (nthz s 1) 0x30 = 0x30) /\
  is_valid_arib_section_length (nthz s 0) (len12 (nthz s 1) (nthz s 2)) = true /\
  declared_total s <= 4096 /\
  (has_bits (nthz s 1) 0x80 = true -> 12 <= declared_total s).
Proof.
  unfold declared_ok, invalid_declared_header, MAX_SECTION_PAYLOAD_BYTES,
    MAX_ARIB_SECTION_TOTAL_BYTES, MAX_ARIB_EIT_SECTION_LENGTH, declared_total.
  intros H. breflect. destruct (has_bits (nthz s 1) 0x80), r; simpl in *; breflect;
    split_and!; try done; intros; lia.
Qed.

Lemma len12_fields s : wf_bytes s ->
  len12 (nthz s 1) (nthz s 2) = (nthz s 1 mod 16) * 256 + nthz s 2.
Proof. intros; apply len12_eq; auto with tv. Qed.

Lemma parse_policy_eq s r : wf_bytes s ->
  parse_section_header_with_reserved_bit_policy s 12 r
  = Ret (if decide (accepts r s) then Some (header_fields s) else None).
Proof.
  intros Hs. unfold parse_section_header_with_reserved_bit_policy. simpl normalize_length_field_bits.
  cbn [negb Z.eqb orb]. cbv iota beta.
  destruct (Z.ltb_spec (len s) 3) as [H3|H3]; simpl.
  { rewrite decide_False; [done|]. unfold accepts; lia. }
  in_range; cbn [mbind outcome_bind].
  destruct (invalid_declared_header r (nthz s 0) (nthz s 1) (nthz s 2)) eqn:E.
  { rewrite decide_False by (unfold accepts, declared_ok; rewrite E; intros (_ & ? & _); done).
    unfold invalid_declared_header in E.
    destruct (r && _); [done|]. destruct (is_valid_arib_section_length _ _); [|done].
    destruct (_ >? _); [done|]. simpl in E |- *. by rewrite E. }
  assert (declared_ok r s) as Hok by done. pose proof (declared_ok_inv r s Hok) as (_ & _ & _ & H12).
  unfold invalid_declared_header in E. breflect.
  repeat match goal with H : _ = _ |- _ => progress rewrite H end. cbn [negb].
  rewrite Z.gtb_ltb, (proj2 (Z.ltb_ge _ _)) by done. fold (declared_total s).
  assert (syntax (header_fields s) = has_bits (nthz s 1) 0x80) as Hsyn
    by (symmetry; apply (has_bits_land_ones _ 7); lia).
  assert (total_length (header_fields s) = declared_total s) as Htot
    by (unfold declared_total; rewrite len12_fields by done; simpl; lia).
  assert (section_length (header_fields s) = len12 (nthz s 1) (nthz s 2)) as Hlen
    by (by rewrite len12_fields).
  destruct (Z.ltb_spec (len s) (declared_total s)) as [Hl|Hl].
  { rewrite decide_False; [done|]. unfold accepts; lia. }
  rewrite <- Htot, <- Hlen, <- Hsyn. rewrite <- Hsyn in H12.
  assert (syntax (header_fields s) && r && negb (Z.land (nthz s 5) 0xc0 =? 0xc0) = false
          <-> accepts r s) as Hacc.
  { unfold accepts. rewrite <- Hsyn. destruct (syntax _), r; simpl;
      destruct (Z.eqb_spec (Z.land (nthz s 5) 0xc0) 0xc0); simpl; intuition congruence. }
  destruct (syntax (header_fields s)) eqn:E7; cbn [andb] in Hacc.
  - rewrite long_form_fields_eq by (specialize (H12 eq_refl); lia).
    cbn [mbind outcome_bind]. destruct (r && negb (Z.land (nthz s 5) 0xc0 =? 0xc0)).
    + rewrite decide_False; [done|]. intros Ha. by apply Hacc in Ha.
    + rewrite decide_True by by apply Hacc. unfold header_fields in *.
      cbn [syntax] in E7. by rewrite E7.
  - rewrite decide_True by by apply Hacc. unfold header_fields in *.
    cbn [syntax] in E7. by rewrite E7.
Qed.

Lemma parse_with_policy_eq s r : wf_bytes s ->
  parse_with_policy r s = Ret (if decide (accepts r s) then Some (header_fields s) else None).
Proof. intros; destruct r; by apply parse_policy_eq. Qed.

(** ** The assembler's invariant

    Nothing pending, one or two bytes of a header, or a header with the total
    length it declares and fewer bytes than that. *)
Definition declared (a : SectionAssembler) : Prop :=
  match expected_len a with
  | None => True
  | Some e => 3 <= len (buf a) /\ e = declared_total (buf a) /\ e <= 4096
  end.

Definition asm_inv (a : SectionAssembler) : Prop :=
  wf_bytes (buf a) /\ declared a /\
  match expected_len a with
  | None => len (buf a) < 3
  | Some e => len (buf a) < e
  end.

(** A section handed out: exactly as long as it declares, and accepted by the
    parser under the policy of the push. *)
Definition complete_section (r : bool) (s : bytes) : Prop :=
  wf_bytes s /\ accepts r s /\ declared_total s = len s.

Lemma declared_total_ge s : wf_bytes s -> 3 <= declared_total s.
Proof.
  intros H. unfold declared_total.
  pose proof (len12_range (nthz s 1) (nthz s 2) (wf_nthz s 2 H)). lia.
Qed.

Lemma declared_total_app s t : 3 <= len s -> declared_total (s ++ t) = declared_total s.
Proof. intros. unfold declared_total. by rewrite !nthz_app_l by lia. Qed.

Lemma declared_ok_app r s t : 3 <= len s -> declared_ok r (s ++ t) <-> declared_ok r s.
Proof. intros. unfold declared_ok. by rewrite !nthz_app_l by lia. Qed.

Lemma with_buffer_buf a e b : buf (with_buffer a e b) = b.
Proof. done. Qed.
Lemma with_buffer_expected a e b : expected_len (with_buffer a e b) = e.
Proof. done. Qed.
Lemma increment_drops_buf a : buf (increment_oversized_section_drops a) = buf a.
Proof. unfold increment_oversized_section_drops. by case_match. Qed.
Lemma increment_drops_expected a :
  expected_len (increment_oversized_section_drops a) = expected_len a.
Proof. unfold increment_oversized_section_drops. by case_match. Qed.
Create Rewrite HintDb tv_asm.
#[export] Hint Rewrite with_buffer_buf with_buffer_expected increment_drops_buf
  increment_drops_expected : tv_asm.

Lemma asm_inv_reset a : asm_inv (assembler_reset a).
Proof. split_and!; simpl; auto with tv; done. Qed.
#[export] Hint Resolve asm_inv_reset : tv.

Lemma asm_inv_idle a : expected_len a = None -> buf a = [] -> asm_inv a.
Proof.
  unfold asm_inv, declared. intros -> ->. split_and!; auto with tv. rewrite len_nil. lia.
Qed.

Lemma pending_false a : pending a = false -> expected_len a = None /\ buf a = [].
Proof.
  unfold pending. intros H. breflect.
  assert (expected_len a = None) by (by apply eq_None_not_Some). split; [done|].
  by apply len_zero.
Qed.

Lemma declared_extend a t : declared a -> declared (with_buffer a (expected_len a) (buf a ++ t)).
Proof.
  unfold declared; simpl. destruct (expected_len a); [|done]. intros (? & ? & ?).
  rewrite declared_total_app by done. lens.
Qed.

(** The head of the loop either rejects the pending bytes or leaves them with
    the length they declare. *)
Lemma pending_header_ok a r : wf_bytes (buf a) -> declared a ->
  returns (pending_header a r) (fun '(a', go) =>
    if go then buf a' = buf a /\ declared a' /\
               (expected_len a' = None -> len (buf a) < 3)
    else asm_inv a').
Proof.
  intros Hw Hd. unfold pending_header.
  destruct (bool_decide (expected_len a = None) && (3 <=? len (buf a))) eqn:E.
  - breflect. in_range; cbn [mbind outcome_bind].
    destruct (invalid_declared_header _ _ _ _) eqn:Ei; [apply returns_ret; auto with tv|].
    pose proof (declared_ok_inv r (buf a) Ei) as (_ & _ & Hmax & _).
    unfold set_expected_len_or_drop. fold (declared_total (buf a)).
    change MAX_SECTION_PAYLOAD_BYTES with 4096.
    rewrite Z.gtb_ltb, (proj2 (Z.ltb_ge _ _)) by lia. apply returns_ret.
    unfold declared; autorewrite with tv_asm. split_and!; try done; lia.
  - apply returns_ret. split_and!; [done|done|]. intros H.
    apply andb_false_iff in E as [E|E]; breflect; [done|lia].
Qed.

Lemma takez_complete b e r : wf_bytes b -> 3 <= e <= len b -> e = declared_total b ->
  accepts r (takez e b) -> complete_section r (takez e b).
Proof.
  intros Hw He Hd Ha. split_and!; [auto with tv|done|].
  rewrite len_takez by lia. rewrite Hd at 2. unfold declared_total.
  by rewrite !nthz_takez by lia.
Qed.

(** A completed section leaves the buffer and joins the output or is dropped. *)
Lemma take_section_ok a a1 b e r out : buf a1 = dropz e b -> expected_len a1 = None ->
  wf_bytes b -> 3 <= e <= len b -> e = declared_total b -> Forall (complete_section r) out ->
  a = (match (if decide (accepts r (takez e b)) then Some (header_fields (takez e b)) else None) with
       | Some _ => (a1, out ++ [takez e b])
       | None => (increment_oversized_section_drops a1, out)
       end) ->
  buf a.1 = dropz e b /\ expected_len a.1 = None /\ Forall (complete_section r) a.2.
Proof.
  intros Hb He Hw Hl Hd Ho ->. destruct (decide _) as [Ha|Ha]; simpl; autorewrite with tv_asm;
    split_and!; try done.
  apply Forall_app; split; [done|]. apply Forall_singleton. by apply takez_complete.
Qed.

Lemma pending_loop_ok fuel a out r :
  (length (buf a) < fuel)%nat -> wf_bytes (buf a) -> declared a ->
  Forall (complete_section r) out ->
  returns (pending_loop fuel a out r)
    (fun '(a', out') => asm_inv a' /\ Forall (complete_section r) out').
Proof.
  revert a out. induction fuel as [|fuel IH]; intros a out Hf Hw Hd Ho; [lia|]. simpl.
  destruct (pending_header_ok a r Hw Hd) as ([a' go] & -> & Hh). cbn [mbind outcome_bind].
  destruct go; simpl; [|by apply returns_ret].
  destruct Hh as (Hb & Hd' & Hnone). rewrite Hb.
  destruct (expected_len a') as [e|] eqn:Ee.
  2: { apply returns_ret. unfold asm_inv. rewrite Ee, Hb. auto. }
  pose proof Hd' as H. unfold declared in H. rewrite Ee, Hb in H. destruct H as (H3 & He & Hm).
  pose proof (declared_total_ge (buf a) Hw).
  destruct (Z.ltb_spec (len (buf a)) e) as [Hl|Hl].
  { apply returns_ret. unfold asm_inv. rewrite Ee, Hb. auto. }
  in_range; cbn [mbind outcome_bind]. rewrite Z.sub_0_r, dropz_0.
  rewrite parse_with_policy_eq by auto with tv; cbn [mbind outcome_bind].
  match goal with |- context [let '(_, _) := ?m in _] =>
    destruct (take_section_ok m (with_buffer a' None (dropz e (buf a))) (buf a) e r out)
      as (Hb2 & He2 & Ho2); try done; try lia; destruct m as [a2 out2]; simpl in * end.
  rewrite Hb2. destruct (Z.eqb_spec (len (dropz e (buf a))) 0) as [E0|E0].
  { apply returns_ret. split; [|done]. apply asm_inv_idle; [done|].
    rewrite Hb2. by apply len_zero. }
  in_range; cbn [mbind outcome_bind].
  case_test; [apply returns_ret; auto with tv|].
  apply IH; rewrite ?Hb2; auto with tv.
  - rewrite dropz_eq, length_drop. unfold len in *. lia.
  - unfold declared. by rewrite He2.
Qed.

Lemma try_take_pending_ok a out r : wf_bytes (buf a) -> declared a ->
  Forall (complete_section r) out ->
  returns (try_take_pending a out r)
    (fun '(a', out') => asm_inv a' /\ Forall (complete_section r) out').
Proof. intros. apply pending_loop_ok; [lia|done..]. Qed.

Lemma takez_accepts r s : accepts r s -> wf_bytes s ->
  complete_section r (takez (declared_total s) s).
Proof.
  intros (H3 & Hok & Hl & H5) Hw. pose proof (declared_total_ge s Hw).
  pose proof (declared_ok_inv r s Hok) as (_ & _ & Hm & H12).
  remember (declared_total s) as t eqn:Et. apply takez_complete; try done.
  unfold accepts, declared_ok, declared_total.
  rewrite !nthz_takez, len_takez by lia. fold (declared_total s). split_and!; try (done || lia).
  intros Hs Hr. rewrite nthz_takez by (specialize (H12 Hs); lia). by apply H5.
Qed.

Lemma scan_loop_ok fuel a payload cursor out r :
  len payload - cursor < Z.of_nat fuel -> 0 <= cursor <= len payload -> wf_bytes payload ->
  expected_len a = None -> buf a = [] -> Forall (complete_section r) out ->
  returns (scan_loop fuel a payload cursor out r)
    (fun '(a', out') => asm_inv a' /\ Forall (complete_section r) out').
Proof.
  revert a cursor out. induction fuel as [|fuel IH]; intros a cursor out Hf Hc Hw He Hb Ho; simpl.
  { exfalso; lia. }
  destruct (Z.ltb_spec cursor (len payload)) as [Hl|Hl]; simpl;
    [|apply returns_ret; auto using asm_inv_idle].
  in_range; cbn [mbind outcome_bind].
  case_test; [apply returns_ret; auto using asm_inv_idle|].
  set (rem := dropz cursor payload). assert (wf_bytes rem) as Hwr by (subst rem; auto with tv).
  assert (len rem = len payload - cursor) as Hlr by (subst rem; lens).
  destruct (Z.ltb_spec (len rem) 3) as [H3|H3].
  { apply returns_ret. split; [|done]. unfold asm_inv, declared; simpl. rewrite Hb. auto. }
  in_range; cbn [mbind outcome_bind]. fold (declared_total rem).
  pose proof (declared_total_ge rem Hwr).
  destruct (invalid_declared_header _ _ _ _) eqn:Ei.
  { apply IH; autorewrite with tv_asm; try done; lia. }
  pose proof (declared_ok_inv r rem Ei) as (_ & _ & Hm & _).
  destruct (Z.leb_spec (declared_total rem) (len rem)) as [Ht|Ht].
  - rewrite parse_with_policy_eq by done; cbn [mbind outcome_bind].
    destruct (decide (accepts r rem)) as [Ha|Ha].
    + in_range; cbn [mbind outcome_bind]. rewrite Z.sub_0_r, dropz_0.
      apply IH; autorewrite with tv_asm; try done; try lia.
      apply Forall_app; split; [done|]. apply Forall_singleton. by apply takez_accepts.
    + apply IH; autorewrite with tv_asm; try done; lia.
  - apply returns_ret. split; [|done]. unfold set_expected_len_or_drop.
    change MAX_SECTION_PAYLOAD_BYTES with 4096.
    rewrite Z.gtb_ltb, (proj2 (Z.ltb_ge _ _)) by lia.
    unfold asm_inv, declared; simpl. rewrite Hb. simpl. split_and!; try done; lia.
Qed.

Lemma push_from_ok a payload cursor out r :
  0 <= cursor -> wf_bytes payload -> asm_inv a -> Forall (complete_section r) out ->
  returns (push_from a payload cursor out r)
    (fun '(a', out') => asm_inv a' /\ Forall (complete_section r) out').
Proof.
  intros Hc Hw (Hwb & Hd & Hi) Ho. unfold push_from.
  destruct (Z.geb_spec cursor (len payload)); [by apply returns_ret|].
  destruct (pending a) eqn:Ep.
  - in_range; cbn [mbind outcome_bind]. apply try_take_pending_ok; [|by apply declared_extend|done].
    apply wf_app; auto with tv.
  - apply pending_false in Ep as [? ?]. apply scan_loop_ok; try done; [unfold len; lia|lia].
Qed.

Lemma finish_previous_ok a payload pointer r :
  0 <= pointer -> 1 + pointer <= len payload -> wf_bytes payload -> asm_inv a ->
  returns (finish_previous a payload pointer r)
    (fun '(a', out') => asm_inv a' /\ pending a' = false /\ Forall (complete_section r) out').
Proof.
  intros Hp Hl Hw (Hwb & Hd & Hi). unfold finish_previous.
  destruct (pending a) eqn:Ep; [|apply returns_ret; by repeat constructor].
  eapply returns_bind with (P := fun '(a', out') => asm_inv a' /\ Forall (complete_section r) out').
  - case_test; [|apply returns_ret; by repeat constructor].
    in_range; cbn [mbind outcome_bind].
    apply try_take_pending_ok; [|by apply declared_extend|done].
    apply wf_app; auto with tv.
  - intros [a' out'] [Hi' Ho]. apply returns_ret. destruct (pending a') eqn:Ep'; auto with tv.
Qed.

Lemma push_payload_ok a pusi payload r : wf_bytes payload -> asm_inv a ->
  returns (push_payload_with_reserved_bit_policy a pusi payload r)
    (fun '(a', out) => asm_inv a' /\ Forall (complete_section r) out).
Proof.
  intros Hw Hi. unfold push_payload_with_reserved_bit_policy.
  destruct (Z.eqb_spec (len payload) 0); [by apply returns_ret|].
  destruct pusi.
  - pose proof (wf_nthz payload 0 Hw) as Hb. unfold is_byte in Hb. pose_lens.
    in_range; cbn [mbind outcome_bind].
    destruct (Z.gtb_spec (1 + nthz payload 0) (len payload)); [apply returns_ret; auto with tv|].
    eapply returns_bind; [apply finish_previous_ok; (done || lia)|].
    intros [a' out] (Hi' & _ & Ho). apply push_from_ok; (done || lia).
  - case_test; [by apply returns_ret|]. by apply push_from_ok.
Qed.

Lemma push_policy_ok a pusi payload r : wf_bytes payload -> asm_inv a ->
  returns (push_payload_with_outcome_policy a pusi payload r)
    (fun '(a', o) => asm_inv a' /\ Forall (complete_section r) (sections o)).
Proof.
  intros Hw Hi. unfold push_payload_with_outcome_policy.
  eapply returns_bind; [by apply push_payload_ok|]. intros [a' out] Ho. by apply returns_ret.
Qed.

(** C13. The assembler is safe on every packet sequence: whatever the payload,
    the unit-start flag and the reserved-bit policy of a push, it returns
    without panicking and within the fuel of its loops, keeps the assembler in
    a legal state (at most 4095 bytes pending, fewer than the pending header
    declares), and hands out only sections that are exactly as long as they
    declare and that the header parser accepts under the same policy. *)
Theorem section_push_safe (a : SectionAssembler) (pusi : bool) (payload : bytes) (r : bool) :
  wf_bytes payload -> asm_inv a ->
  returns (push_payload_with_outcome_policy a pusi payload r)
    (fun '(a', o) => asm_inv a' /\ len (buf a') < 4096 /\
       Forall (fun s => len s <= 4096 /\ len s = declared_total s /\
                 parse_with_policy r s = Ret (Some (header_fields s))) (sections o)).
Proof.
  intros Hw Hi. unfold push_payload_with_outcome_policy.
  eapply returns_bind; [by apply push_payload_ok|].
  intros [a' out] [Hi' Ho]. apply returns_ret. split_and!; [done| |].
  - destruct Hi' as (_ & Hd & Hl). unfold declared in Hd. destruct (expected_len a'); lia.
  - eapply Forall_impl; [|exact Ho]. intros s (Hws & Ha & Ht).
    pose proof Ha as (_ & Hok & _). pose proof (declared_ok_inv r s Hok) as (_ & _ & Hm & _).
    split_and!; [lia|done|]. rewrite parse_with_policy_eq by done. by rewrite decide_True.
Qed.

(** ** Reassembly

    An assembler that holds a proper prefix of a section, with the counters
    of [a]. *)
Definition holding (a : SectionAssembler) (sec pre : bytes) : SectionAssembler :=
  with_buffer a (if 3 <=? len pre then Some (len sec) else None) pre.

Section Reassembly.
  Context (r : bool) (sec : bytes).
  Hypothesis (Hsec : complete_section r sec).
  Hypothesis (Hid : nthz sec 0 <> 0xff).

Lemma sec_len : 3 <= len sec <= 4096.
Proof.
  destruct Hsec as (Hw & Ha & Ht). pose proof (declared_total_ge sec Hw).
  destruct Ha as (_ & Hok & _). pose proof (declared_ok_inv r sec Hok). lia.
Qed.

Lemma sec_header_valid :
  invalid_declared_header r (nthz sec 0) (nthz sec 1) (nthz sec 2) = false.
Proof. destruct Hsec as (_ & (_ & Hok & _) & _). exact Hok. Qed.

Lemma sec_total : 3 + len12 (nthz sec 1) (nthz sec 2) = len sec.
Proof. destruct Hsec as (_ & _ & Ht). exact Ht. Qed.

(** The loop head on a buffer that begins like the section. *)
Lemma pending_header_prefix a pre b rest : pre ++ rest = b -> takez (Z.min (len b) (len sec)) b
    = takez (Z.min (len b) (len sec)) sec ->
  pending_header (with_buffer a (if 3 <=? len pre then Some (len sec) else None) b) r
  = Ret (with_buffer a (if 3 <=? len b then Some (len sec) else None) b, true).
Proof.
  intros Hb Hp. pose proof sec_len. unfold pending_header. autorewrite with tv_asm.
  assert (len b = len pre + len rest) as Hlb by (subst b; lens). pose_lens.
  destruct (Z.leb_spec 3 (len pre)).
  { rewrite bool_decide_false by done. by replace (3 <=? len b) with true by lia. }
  rewrite bool_decide_true by done. destruct (Z.leb_spec 3 (len b)) as [Hb3|Hb3]; simpl; [|done].
  assert (forall i, 0 <= i < 3 -> nthz b i = nthz sec i) as Hn.
  { intros i Hi. rewrite <- (nthz_takez b (Z.min (len b) (len sec))) by lia.
    rewrite Hp. apply nthz_takez; lia. }
  in_range; cbn [mbind outcome_bind]. rewrite !Hn by lia.
  rewrite sec_header_valid, sec_total. unfold set_expected_len_or_drop.
  change MAX_SECTION_PAYLOAD_BYTES with 4096.
  by rewrite Z.gtb_ltb, (proj2 (Z.ltb_ge _ _)) by lia.
Qed.

(** Too few bytes: the buffer grows and nothing is handed out. *)
Lemma take_pending_prefix a pre rest out : pre ++ rest = takez (len (pre ++ rest)) sec ->
  len (pre ++ rest) < len sec ->
  try_take_pending (with_buffer (holding a sec pre) (expected_len (holding a sec pre)) (pre ++ rest))
    out r = Ret (holding a sec (pre ++ rest), out).
Proof.
  intros Hp Hl. unfold try_take_pending. cbn [pending_loop].
  change (with_buffer (holding a sec pre) ?e ?b) with (with_buffer a e b).
  unfold holding at 1; autorewrite with tv_asm.
  rewrite (pending_header_prefix a pre _ rest).
  - cbn [mbind outcome_bind negb]. autorewrite with tv_asm.
    destruct (Z.leb_spec 3 (len (pre ++ rest))) as [H3|H3].
    + rewrite (proj2 (Z.ltb_lt _ _)) by done. unfold holding.
      by rewrite (proj2 (Z.leb_le _ _)) by done.
    + unfold holding. by rewrite (proj2 (Z.leb_gt _ _)) by done.
  - done.
  - rewrite Z.min_l by lia. rewrite <- Hp. apply takez_all; lia.
Qed.

(** Stuffing: nothing, or a string that starts with 0xff. *)
Definition stuffing (t : bytes) : Prop := t = [] \/ (nthz t 0 = 0xff /\ 0 < len t).

Lemma sec_parses : parse_with_policy r sec = Ret (Some (header_fields sec)).
Proof.
  destruct Hsec as (Hw & Ha & _). rewrite parse_with_policy_eq by done. by rewrite decide_True.
Qed.

(** Enough bytes: exactly the section is handed out. *)
Lemma take_pending_complete a pre rest t out : pre ++ rest = sec ++ t -> stuffing t ->
  try_take_pending (with_buffer (holding a sec pre) (expected_len (holding a sec pre)) (pre ++ rest))
    out r = Ret (with_buffer a None [], out ++ [sec]).
Proof.
  intros Hp Ht. pose proof sec_len. unfold try_take_pending. cbn [pending_loop].
  change (with_buffer (holding a sec pre) ?e ?b) with (with_buffer a e b).
  unfold holding; autorewrite with tv_asm.
  assert (len (pre ++ rest) = len sec + len t) as Hl by (rewrite Hp; lens). pose_lens.
  rewrite (pending_header_prefix a pre _ rest); [|done|].
  2: { rewrite Z.min_r by lia. rewrite Hp, takez_app_exact. by rewrite takez_all by lia. }
  cbn [mbind outcome_bind negb]. autorewrite with tv_asm.
  rewrite (proj2 (Z.leb_le 3 _)), (proj2 (Z.ltb_ge _ _)) by lia.
  rewrite slice_from_ok, slice_ok by lia. cbn [mbind outcome_bind].
  rewrite Z.sub_0_r, dropz_0, Hp, takez_app_exact, dropz_app_exact.
  rewrite sec_parses. cbn [mbind outcome_bind]. autorewrite with tv_asm.
  destruct Ht as [->|[Hff Ht]]; [done|].
  rewrite (proj2 (Z.eqb_neq _ _)) by lia. in_range. cbn [mbind outcome_bind].
  by rewrite Hff.
Qed.

Definition idle (a : SectionAssembler) : Prop := expected_len a = None /\ buf a = [].

Lemma idle_holding a : idle a -> with_buffer a None [] = a.
Proof. destruct a; intros [He Hb]; simpl in *; by subst. Qed.

Lemma idle_pending a : idle a -> pending a = false.
Proof. intros [He Hb]. unfold pending. by rewrite He, Hb. Qed.

Lemma holding_pending a pre : pre <> [] -> pending (holding a sec pre) = true.
Proof.
  intros H. unfold pending, holding; simpl. destruct (Z.eqb_spec (len pre) 0) as [E|E]; [|done].
  by apply len_zero in E.
Qed.

(** The scan on a payload whose tail is a prefix of the section, or the
    section with stuffing. *)
Lemma scan_prefix fuel a payload cursor pre out : idle a -> 0 <= cursor < len payload ->
  dropz cursor payload = pre -> pre = takez (len pre) sec -> len pre < len sec ->
  scan_loop (S fuel) a payload cursor out r = Ret (holding a sec pre, out).
Proof.
  intros [He Hb] Hc Hd Hp Hl. pose proof sec_len. cbn [scan_loop].
  rewrite (proj2 (Z.ltb_lt _ _)) by lia. cbn [negb].
  rewrite byte_at_ok, slice_from_ok by lia. cbn [mbind outcome_bind]. rewrite Hd.
  assert (len pre = len payload - cursor) as Hlp by (rewrite <- Hd; lens).
  assert (forall i, 0 <= i < len pre -> nthz pre i = nthz sec i) as Hn
    by (intros i Hi; rewrite Hp; apply nthz_takez; lia).
  replace (nthz payload cursor) with (nthz sec 0).
  2: { rewrite <- (Hn 0), <- Hd, nthz_dropz by lia. f_equal; lia. }
  rewrite (proj2 (Z.eqb_neq _ _)) by done. unfold holding.
  destruct (Z.ltb_spec (len pre) 3) as [Hs|Hs].
  { rewrite Hb. by rewrite (proj2 (Z.leb_gt _ _)) by lia. }
  in_range; cbn [mbind outcome_bind]. rewrite !Hn by lia.
  rewrite sec_header_valid, sec_total, (proj2 (Z.leb_gt _ _)) by lia.
  rewrite (proj2 (Z.leb_le _ _)) by lia.
  unfold set_expected_len_or_drop. change MAX_SECTION_PAYLOAD_BYTES with 4096.
  by rewrite Z.gtb_ltb, (proj2 (Z.ltb_ge _ _)), Hb by lia.
Qed.

Lemma scan_step_section fuel a payload cursor t out : 0 <= cursor ->
  dropz cursor payload = sec ++ t -> wf_bytes payload ->
  scan_loop (S fuel) a payload cursor out r =
  scan_loop fuel a payload (cursor + len sec) (out ++ [sec]) r.
Proof.
  intros Hc Hd Hw. pose proof sec_len.
  assert (cursor < len payload).
  { destruct (Z.lt_ge_cases cursor (len payload)); [done|].
    rewrite dropz_all in Hd by lia. apply (f_equal len) in Hd. lens. }
  assert (len (sec ++ t) = len payload - cursor) as Hlp by (rewrite <- Hd; lens).
  cbn [scan_loop]. rewrite (proj2 (Z.ltb_lt _ _)) by lia. cbn [negb].
  rewrite byte_at_ok, slice_from_ok by lia. cbn [mbind outcome_bind].
  assert (forall i, 0 <= i < len sec -> nthz (sec ++ t) i = nthz sec i) as Hn
    by (intros; apply nthz_app_l; lia).
  replace (nthz payload cursor) with (nthz sec 0).
  2: { rewrite <- (Hn 0), <- Hd, nthz_dropz by lia. f_equal; lia. }
  assert (wf_bytes (sec ++ t)) by (rewrite <- Hd; auto with tv).
  rewrite (proj2 (Z.eqb_neq _ _)), Hd by done. rewrite len_app in *. pose_lens.
  rewrite (proj2 (Z.ltb_ge _ _)) by lia. in_range; cbn [mbind outcome_bind].
  rewrite !Hn, sec_header_valid, sec_total, (proj2 (Z.leb_le _ _)) by lia.
  rewrite parse_with_policy_eq by done. rewrite decide_True.
  - cbn [mbind outcome_bind]. in_range. cbn [mbind outcome_bind].
    by rewrite Z.sub_0_r, dropz_0, takez_app_exact.
  - destruct Hsec as (_ & (Hs3 & Hok & Hle & H5) & Htot). unfold accepts.
    rewrite declared_total_app, declared_ok_app, len_app by lia. split_and!; try done; try lia.
    rewrite Hn by lia. intros Hs Hr. rewrite Hn; [by apply H5|].
    pose proof (declared_ok_inv r sec Hok) as (_ & _ & _ & H12). specialize (H12 Hs). lia.
Qed.

Lemma scan_stuffing fuel a payload cursor out : 0 <= cursor -> stuffing (dropz cursor payload) ->
  scan_loop (S fuel) a payload cursor out r = Ret (a, out).
Proof.
  intros Hc Ht. cbn [scan_loop]. destruct (Z.ltb_spec cursor (len payload)) as [Hl|Hl]; [|done].
  cbn [negb]. rewrite byte_at_ok by lia. cbn [mbind outcome_bind].
  destruct Ht as [E|[E _]]; [apply (f_equal len) in E; rewrite len_dropz, len_nil in E; lia|].
  rewrite nthz_dropz, Z.add_0_r in E by lia. by rewrite E.
Qed.
End Reassembly.

(** A run of packets through the assembler, the outputs concatenated. *)
Fixpoint push_all (a : SectionAssembler) (packets : list (bool * bytes)) (r : bool)
  : outcome (SectionAssembler * list bytes) :=
  match packets with
  | [] => Ret (a, [])
  | (pusi, payload) :: packets =>
      h ← push_payload_with_reserved_bit_policy a pusi payload r;
      let '(a, out) := h in
      t ← push_all a packets r;
      let '(a, out') := t in
      Ret (a, out ++ out')
  end.

Lemma push_idle_continuations a cs r : idle a -> push_all a (map (pair false) cs) r = Ret (a, []).
Proof.
  intros Ha. induction cs as [|c cs IH]; [done|]. simpl.
  unfold push_payload_with_reserved_bit_policy. rewrite idle_pending by done.
  destruct (len c =? 0); cbn [negb mbind outcome_bind]; by rewrite IH.
Qed.

Definition all_ff (t : bytes) : Prop := Forall (eq 0xff) t.

Lemma all_ff_stuffing t : all_ff t -> stuffing t.
Proof. intros [|x t' <- _]; [by left|right]. split; [done|lens]. Qed.

Section Fragments.
  Context (r : bool) (sec : bytes) (a : SectionAssembler).
  Hypothesis (Hsec : complete_section r sec).
  Hypothesis (Hid : nthz sec 0 <> 0xff).
  Hypothesis (Ha : idle a).

Lemma push_continuation pre c rest t : pre <> [] -> len pre < len sec -> c <> [] ->
  pre ++ c ++ rest = sec ++ t -> all_ff t ->
  (len (pre ++ c) < len sec /\
   push_payload_with_reserved_bit_policy (holding a sec pre) false c r
     = Ret (holding a sec (pre ++ c), [])) \/
  push_payload_with_reserved_bit_policy (holding a sec pre) false c r = Ret (a, [sec]).
Proof.
  intros Hpre Hl Hc Hcat Ht. rewrite app_assoc in Hcat.
  unfold push_payload_with_reserved_bit_policy.
  assert (0 < len c) by (destruct c; [done|lens]).
  rewrite (proj2 (Z.eqb_neq _ _)), holding_pending by (done || lia). cbn [negb].
  unfold push_from. rewrite Z.geb_leb, (proj2 (Z.leb_gt _ _)), holding_pending by (done || lia).
  rewrite slice_from_ok, dropz_0 by lia. cbn [mbind outcome_bind].
  change (buf (holding a sec pre)) with pre.
  destruct (Z.lt_ge_cases (len (pre ++ c)) (len sec)) as [Hlt|Hge].
  - left. split; [done|]. apply take_pending_prefix; [done|by apply (prefix_split _ rest _ t)|done].
  - right. destruct (app_split_ge _ _ _ _ Hcat Hge) as (t1 & E & ->).
    apply Forall_app in Ht as [Ht1 _].
    rewrite (take_pending_complete r sec Hsec _ _ _ t1) by auto using all_ff_stuffing.
    by rewrite idle_holding.
Qed.

Lemma push_continuations cs pre t : pre <> [] -> len pre < len sec ->
  pre ++ concat cs = sec ++ t -> all_ff t ->
  push_all (holding a sec pre) (map (pair false) cs) r = Ret (a, [sec]).
Proof.
  revert pre. induction cs as [|c cs IH]; intros pre Hpre Hl Hcat Ht; cbn [map push_all concat] in *.
  { exfalso. apply (f_equal len) in Hcat. rewrite !len_app, len_nil in Hcat. pose_lens. lia. }
  destruct (decide (c = [])) as [->|Hc].
  { change (push_payload_with_reserved_bit_policy (holding a sec pre) false [] r)
      with (Ret (holding a sec pre, @nil bytes)). cbn [mbind outcome_bind].
    by rewrite (IH pre). }
  destruct (push_continuation pre c (concat cs) t Hpre Hl Hc Hcat Ht) as [[Hlt ->]| ->];
    cbn [mbind outcome_bind].
  - rewrite IH; [done| |done|by rewrite <- app_assoc|done]. by destruct pre.
  - by rewrite push_idle_continuations.
Qed.

Lemma push_start c0 rest t : c0 <> [] -> wf_bytes c0 -> c0 ++ rest = sec ++ t -> all_ff t ->
  (len c0 < len sec /\
   push_payload_with_reserved_bit_policy a true (0 :: c0) r = Ret (holding a sec c0, [])) \/
  push_payload_with_reserved_bit_policy a true (0 :: c0) r = Ret (a, [sec]).
Proof.
  intros Hc Hw Hcat Ht. assert (0 < len c0) by (destruct c0; [done|lens]).
  assert (len (0 :: c0) = 1 + len c0) as Hl by apply len_cons.
  assert (dropz 1 (0 :: c0) = c0) as Hd by (by rewrite dropz_cons, dropz_0 by lia).
  unfold push_payload_with_reserved_bit_policy.
  rewrite (proj2 (Z.eqb_neq _ _)), byte_at_ok by lia. cbn [mbind outcome_bind].
  change (nthz (0 :: c0) 0) with 0. rewrite Z.add_0_r, Z.gtb_ltb, (proj2 (Z.ltb_ge _ _)) by lia.
  unfold finish_previous, push_from. rewrite idle_pending by done. cbn [mbind outcome_bind].
  rewrite Z.geb_leb, (proj2 (Z.leb_gt _ _)), idle_pending by (done || lia).
  destruct (Z.lt_ge_cases (len c0) (len sec)) as [Hlt|Hge].
  - left. split; [done|]. apply scan_prefix; try done; [lia|by apply (prefix_split _ rest _ t)].
  - right. destruct (app_split_ge _ _ _ _ Hcat Hge) as (t1 & E & ->).
    apply Forall_app in Ht as [Ht1 _]. cbn [length].
    rewrite (scan_step_section r sec Hsec Hid _ _ _ _ t1); [|lia|by rewrite Hd|].
    2: { apply wf_cons; split; [unfold is_byte; lia|done]. }
    rewrite scan_stuffing; [done|pose proof (sec_len r sec Hsec); lia|].
    rewrite dropz_cons by (pose proof (sec_len r sec Hsec); lia).
    replace (1 + len sec - 1) with (len sec) by lia. rewrite E, dropz_app_exact.
    by apply all_ff_stuffing.
Qed.

Lemma push_fragments c0 cs t : c0 <> [] -> wf_bytes c0 -> concat (c0 :: cs) = sec ++ t ->
  all_ff t -> push_all a ((true, 0 :: c0) :: map (pair false) cs) r = Ret (a, [sec]).
Proof.
  intros Hc Hw Hcat Ht. cbn [concat push_all] in *.
  destruct (push_start c0 (concat cs) t Hc Hw Hcat Ht) as [[Hlt ->]| ->];
    cbn [mbind outcome_bind].
  - by rewrite (push_continuations cs c0 t).
  - by rewrite push_idle_continuations.
Qed.
End Fragments.

(** ** The scan depends only on the bytes after the cursor *)
Lemma byte_at_shift p b c : 0 <= c -> byte_at (p ++ b) (len p + c) = byte_at b c.
Proof.
  intros Hc. unfold byte_at. rewrite len_app. pose_lens.
  replace (0 <=? len p + c) with true by lia. replace (0 <=? c) with true by lia.
  replace (len p + c <? len p + len b) with (c <? len b) by lia.
  rewrite nthz_app_r by lia. by replace (len p + c - len p) with c by lia.
Qed.

Lemma dropz_shift {A} (p b : list A) c : 0 <= c -> dropz (len p + c) (p ++ b) = dropz c b.
Proof.
  intros. pose_lens. rewrite <- (dropz_dropz c (len p)) by lia. by rewrite dropz_app_exact.
Qed.

Lemma slice_from_shift {A} (p b : list A) c : 0 <= c ->
  slice_from (p ++ b) (len p + c) = slice_from b c.
Proof.
  intros Hc. unfold slice_from, slice. rewrite dropz_shift, len_app by done. pose_lens.
  replace (0 <=? len p + c) with true by lia. replace (0 <=? c) with true by lia.
  replace (len p + c <=? len p + len b) with (c <=? len b) by lia.
  rewrite !Z.leb_refl. by replace (len p + len b - (len p + c)) with (len b - c) by lia.
Qed.

Lemma scan_shift fuel a p b c out r : 0 <= c -> wf_bytes (p ++ b) ->
  scan_loop fuel a (p ++ b) (len p + c) out r = scan_loop fuel a b c out r.
Proof.
  intros Hc Hw. revert a c out Hc. induction fuel as [|fuel IH]; intros a c out Hc; [done|].
  cbn [scan_loop]. rewrite byte_at_shift, slice_from_shift, len_app by done.
  replace (len p + c <? len p + len b) with (c <? len b) by lia.
  destruct (c <? len b) eqn:El; cbn [negb]; [|done]. breflect. in_range; cbn [mbind outcome_bind].
  case_test; [done|]. set (rem := dropz c b). case_test; [done|]. breflect.
  in_range; cbn [mbind outcome_bind].
  assert (wf_bytes rem) as Hwr by (apply wf_app in Hw as [_ Hw]; by apply wf_dropz).
  pose proof (len12_range (nthz rem 1) (nthz rem 2) (wf_nthz rem 2 Hwr)).
  rewrite <- !Z.add_assoc, !IH by lia.
  case_test; [done|]. case_test; [|done].
  destruct (parse_with_policy r rem) as [[h|]| |]; cbn [mbind outcome_bind]; try done.
  breflect. in_range. cbn [mbind outcome_bind]. apply IH; lia.
Qed.

(** The output accumulator is only appended to. *)
Lemma scan_out fuel a p c out r :
  scan_loop fuel a p c out r =
  (h ← scan_loop fuel a p c [] r; Ret (h.1, out ++ h.2)).
Proof.
  revert a c out. induction fuel as [|fuel IH]; intros a c out; [done|]. cbn [scan_loop].
  case_test; [cbn; by rewrite app_nil_r|].
  destruct (byte_at p c); cbn [mbind outcome_bind]; try done.
  case_test; [cbn; by rewrite app_nil_r|].
  destruct (slice_from p c) as [rem| |]; cbn [mbind outcome_bind]; try done.
  case_test; [cbn; by rewrite app_nil_r|].
  destruct (byte_at rem 0), (byte_at rem 1), (byte_at rem 2); cbn [mbind outcome_bind]; try done.
  case_test; [apply IH|]. case_test; [|cbn; by rewrite app_nil_r].
  destruct (parse_with_policy r rem) as [[h|]| |]; cbn [mbind outcome_bind];
    [|apply IH|done|done].
  destruct (slice rem 0 _) as [s| |]; cbn [mbind outcome_bind]; [|done|done].
  rewrite (IH _ _ (out ++ [s])), (IH _ _ ([] ++ [s])).
  destruct (scan_loop _ _ _ _ [] _); cbn [mbind outcome_bind]; try done. cbn.
  by rewrite <- app_assoc.
Qed.

(** More fuel than needed changes nothing. *)
Lemma scan_fuel fuel fuel' a p c out r : len p - c < Z.of_nat fuel -> (fuel <= fuel')%nat ->
  0 <= c <= len p -> wf_bytes p ->
  scan_loop fuel' a p c out r = scan_loop fuel a p c out r.
Proof.
  revert fuel' a c out. induction fuel as [|fuel IH]; intros fuel' a c out Hf Hle Hc Hw;
    [exfalso; lia|].
  destruct fuel' as [|fuel']; [exfalso; lia|]. cbn [scan_loop].
  destruct (c <? len p) eqn:El; cbn [negb]; [|done]. breflect. in_range; cbn [mbind outcome_bind].
  case_test; [done|]. set (rem := dropz c p). case_test; [done|]. breflect.
  in_range; cbn [mbind outcome_bind].
  assert (wf_bytes rem) as Hwr by (by apply wf_dropz).
  assert (len rem = len p - c) by (subst rem; lens).
  pose proof (len12_range (nthz rem 1) (nthz rem 2) (wf_nthz rem 2 Hwr)).
  case_test; [apply IH; (done || lia)|]. case_test; [|done]. breflect.
  destruct (parse_with_policy r rem) as [[h|]| |]; cbn [mbind outcome_bind]; try done.
  - in_range. cbn [mbind outcome_bind]. apply IH; (done || lia).
  - apply IH; (done || lia).
Qed.

Lemma push_from_idle_shift a p b out r : idle a -> wf_bytes (p ++ b) -> 0 < len p ->
  push_from a (p ++ b) (len p) out r =
  (h ← push_from a (0 :: b) 1 [] r; Ret (h.1, out ++ h.2)).
Proof.
  intros Ha Hw Hp. unfold push_from. rewrite !idle_pending by done.
  rewrite len_app, len_cons. pose_lens.
  replace (len p >=? len p + len b) with (len b <=? 0) by lia.
  replace (1 >=? 1 + len b) with (len b <=? 0) by lia.
  destruct (Z.leb_spec (len b) 0); [cbn; by rewrite app_nil_r|].
  apply wf_app in Hw as [Hwp Hwb]. rewrite scan_out.
  assert (scan_loop (S (length (p ++ b))) a (p ++ b) (len p) [] r
          = scan_loop (S (length (0 :: b))) a (0 :: b) 1 [] r) as ->; [|done].
  replace (len p) with (len p + 0) by lia. rewrite scan_shift by (rewrite ?wf_app; done || lia).
  change (0 :: b) with ([0] ++ b). change 1 with (len [0] + 0).
  assert (wf_bytes ([0] ++ b)) by (apply wf_app; split; [by apply (bool_decide_unpack _)|done]).
  rewrite (scan_shift _ _ [0]) by (done || lia).
  rewrite (scan_fuel (S (length b))); try done; try lia;
    [|unfold len; lia|rewrite length_app; unfold len in *; lia].
  symmetry. apply scan_fuel; try done; try lia; [unfold len; lia|simpl; lia].
Qed.

Lemma push_carry r a sec pre rest body :
  complete_section r sec -> idle a -> sec = pre ++ rest -> pre <> [] -> rest <> [] ->
  len rest <= 255 -> wf_bytes body ->
  push_payload_with_reserved_bit_policy (holding a sec pre) true (len rest :: rest ++ body) r
  = (h ← push_payload_with_reserved_bit_policy a true (0 :: body) r; Ret (h.1, sec :: h.2)).
Proof.
  intros Hsec Ha Hs Hpre Hrest Hl Hw.
  assert (0 < len rest) by (destruct rest; [done|lens]).
  assert (wf_bytes ((len rest :: rest) ++ body)) as Hwp.
  { apply wf_app; split; [|done]. apply wf_cons; split; [unfold is_byte; lia|].
    destruct Hsec as [Hws _]. rewrite Hs in Hws. by apply wf_app in Hws as [_ ?]. }
  assert (len (len rest :: rest ++ body) = 1 + len rest + len body) as Hlp by lens. pose_lens.
  unfold push_payload_with_reserved_bit_policy.
  rewrite (proj2 (Z.eqb_neq _ _)), byte_at_ok by lia. cbn [mbind outcome_bind].
  change (nthz (len rest :: rest ++ body) 0) with (len rest).
  rewrite Z.gtb_ltb, (proj2 (Z.ltb_ge _ _)) by lia.
  unfold finish_previous at 1. rewrite holding_pending by done.
  rewrite Z.gtb_ltb, (proj2 (Z.ltb_lt _ _)), slice_ok by lia. cbn [mbind outcome_bind].
  rewrite dropz_cons, dropz_0 by lia. replace (1 + len rest - 1) with (len rest) by lia.
  rewrite takez_app_exact. change (buf (holding a sec pre)) with pre.
  rewrite (take_pending_complete r sec Hsec a pre rest []); [|by rewrite app_nil_r|by left].
  rewrite idle_holding by done. cbn [app mbind outcome_bind]. rewrite idle_pending by done.
  change (len rest :: rest ++ body) with ((len rest :: rest) ++ body).
  rewrite <- (len_cons (len rest) rest). rewrite push_from_idle_shift by (done || lens).
  rewrite len_cons, (proj2 (Z.eqb_neq _ _)), byte_at_ok by lens. cbn [mbind outcome_bind].
  change (nthz (0 :: body) 0) with 0. rewrite Z.gtb_ltb, (proj2 (Z.ltb_ge _ _)) by lia.
  unfold finish_previous. by rewrite idle_pending.
Qed.

(** C6. Reassembly is the inverse of fragmentation: a section cut into
    arbitrary pieces, the first carried by a unit-start packet and the others
    by continuation packets, with any amount of 0xff stuffing after it, comes
    out once, byte for byte, and leaves the assembler and its drop counters as
    they were. *)
Theorem section_reassembly (r : bool) (a : SectionAssembler) (sec : bytes) (c0 : bytes)
    (cs : list bytes) (n : nat) :
  complete_section r sec -> nthz sec 0 <> 0xff -> idle a -> c0 <> [] ->
  concat (c0 :: cs) = sec ++ replicate n 0xff ->
  push_all a ((true, 0 :: c0) :: map (pair false) cs) r = Ret (a, [sec]).
Proof.
  intros Hsec Hid Ha Hc Hcat. apply (push_fragments r sec a Hsec Hid Ha c0 cs (replicate n 0xff));
    try done; [|by apply Forall_replicate].
  assert (wf_bytes (c0 ++ concat cs)) as Hw.
  { cbn [concat] in Hcat. rewrite Hcat. apply wf_app; split; [apply Hsec|].
    apply Forall_replicate. unfold is_byte; lia. }
  by apply wf_app in Hw as [? _].
Qed.

(** C25. A unit-start packet whose pointer field covers the missing tail of the
    pending section first completes that section, then behaves as the packet
    would on an assembler with nothing pending: no bytes of the old section
    leak into the new one, and none are lost. *)
Theorem section_pointer_carry (r : bool) (a : SectionAssembler) (sec pre rest body : bytes) :
  complete_section r sec -> idle a -> sec = pre ++ rest -> pre <> [] -> rest <> [] ->
  len rest <= 255 -> wf_bytes body ->
  push_payload_with_reserved_bit_policy (holding a sec pre) true (len rest :: rest ++ body) r
  = (h ← push_payload_with_reserved_bit_policy a true (0 :: body) r; Ret (h.1, sec :: h.2)).
Proof. apply push_carry. Qed.

(** ** The CRC verdict *)
Lemma section_crc_valid_eq s : wf_bytes s ->
  section_crc_valid s 12 = Ret (bool_decide (accepts true s /\ 7 <= declared_total s /\
    crc32_mpeg (takez (declared_total s) s) = 0)).
Proof.
  intros Hw. unfold section_crc_valid, parse_section_header. rewrite parse_policy_eq by done.
  cbn [mbind outcome_bind]. destruct (decide (accepts true s)) as [Ha|Ha].
  2: { rewrite bool_decide_false; [done|]. tauto. }
  assert (total_length (header_fields s) = declared_total s) as ->.
  { unfold declared_total. rewrite len12_fields by done. simpl; lia. }
  assert (section_length (header_fields s) = declared_total s - 3) as ->.
  { unfold declared_total. rewrite len12_fields by done. simpl; lia. }
  pose proof (declared_total_ge s Hw). pose proof Ha as (_ & _ & Hl & _).
  destruct (Z.ltb_spec (declared_total s - 3) 4).
  { rewrite bool_decide_false; [done|]. lia. }
  in_range. cbn [mbind outcome_bind]. rewrite Z.sub_0_r, dropz_0. f_equal.
  destruct (Z.eqb_spec (crc32_mpeg (takez (declared_total s) s)) 0);
    [rewrite bool_decide_true|rewrite bool_decide_false]; try done; [|tauto].
  split_and!; try done; lia.
Qed.

Lemma takez_burst (pre w suf : bytes) t : len pre + len w <= t -> t <= len (pre ++ w ++ suf) ->
  takez t (pre ++ w ++ suf) = pre ++ w ++ takez (t - len pre - len w) suf.
Proof.
  intros Ht Hl. rewrite !takez_eq. unfold len in *. rewrite app_assoc.
  rewrite take_app_ge by (rewrite length_app; lia). rewrite <- app_assoc, length_app.
  do 2 f_equal. f_equal. lia.
Qed.


(** ** Witnesses: a time section and a program association section. *)
Definition tdt_section : bytes := [0x70; 0x70; 0x05; 0xe0; 0x7a; 0x12; 0x34; 0x56].
Definition pat_body : bytes :=
  [0x00; 0xb0; 0x0d; 0x7f; 0xe0; 0xc1; 0x00; 0x00; 0x00; 0x01; 0xe1; 0x00].
Definition pat_section : bytes := pat_body ++ be32_bytes (crc32_mpeg pat_body).

#[global] Instance complete_section_dec r s : Decision (complete_section r s).
Proof. unfold complete_section; apply _. Defined.

Lemma section_push_safe_witness :
  returns (push_payload_with_outcome_policy assembler_default true (0 :: tdt_section) true)
    (fun '(a', o) => asm_inv a' /\ len (buf a') < 4096 /\
       Forall (fun s => len s <= 4096 /\ len s = declared_total s /\
                 parse_with_policy true s = Ret (Some (header_fields s))) (sections o)).
Proof.
  apply (section_push_safe assembler_default true (0 :: tdt_section) true).
  - by apply (bool_decide_unpack _).
  - by apply asm_inv_idle.
Defined.

Lemma section_reassembly_witness :
  push_all assembler_default
    [(true, [0; 0x70; 0x70]); (false, [0x05; 0xe0; 0x7a; 0x12]); (false, [0x34; 0x56; 0xff; 0xff])]
    true = Ret (assembler_default, [tdt_section]).
Proof.
  apply (section_reassembly true assembler_default tdt_section [0x70; 0x70]
    [[0x05; 0xe0; 0x7a; 0x12]; [0x34; 0x56; 0xff; 0xff]] 2);
    [dec_true|discriminate|split; reflexivity|discriminate|reflexivity].
Defined.

Lemma section_pointer_carry_witness :
  push_payload_with_reserved_bit_policy (holding assembler_default tdt_section [0x70; 0x70; 0x05])
    true (len [0xe0; 0x7a; 0x12; 0x34; 0x56] :: [0xe0; 0x7a; 0x12; 0x34; 0x56] ++ pat_section) true
  = Ret (assembler_default, [tdt_section; pat_section]).
Proof.
  rewrite (section_pointer_carry true assembler_default tdt_section [0x70; 0x70; 0x05]
      [0xe0; 0x7a; 0x12; 0x34; 0x56] pat_section).
  - vm_compute. reflexivity.
  - dec_true.
  - split; reflexivity.
  - reflexivity.
  - discriminate.
  - discriminate.
  - vm_compute. discriminate.
  - dec_true.
Defined.

