(* ===== verification/TsPacket.v ===== *)
(** * The validated transport packet

    [TsPacketView::validate] and its wrappers of
    [demux/src/parser/packet_pipeline.rs]: the one place where the demux
    decides the PID, the flags, the adaptation field and the payload of a
    packet before anything is delivered. *)

From stdpp Require Import gmap.
From S2P Require Import Prelude Common Multi2 Descramble.

(** ** Packet identifiers of the demux *)
Record PacketPid := mkPacketPid { packet_pid_inner : TransportStreamPid }.

#[global] Instance PacketPid_eq_dec : EqDecision PacketPid.
Proof. solve_decision. Defined.
#[global] Instance PacketPid_countable : Countable PacketPid.
Proof.
  refine (inj_countable' (fun p => pid_value (packet_pid_inner p))
    (fun v => mkPacketPid (mkPid v)) _).
  by intros [[v]].
Defined.

Definition packet_pid_to_i32 (p : PacketPid) : Z := to_i32_for_aidl_boundary (packet_pid_inner p).
Definition from_descrambler_pid_for_service_runtime_boundary (pid : DescramblerPid) : PacketPid :=
  mkPacketPid (to_transport_stream_pid_for_packet_pid_bridge pid).
Definition matches_config_tpid (p : PacketPid) (tpid : option Z) : bool :=
  matches_i32_config (packet_pid_inner p) tpid.

(** ** The view *)
Inductive TsPacketValidationError :=
| WrongLength
| MissingSyncByte
| InvalidAdaptationControl
| InvalidAdaptationLength.

Record TsPacketView := mkTsPacketView {
  view_pid : PacketPid;
  view_transport_error_indicator : bool;
  view_payload_unit_start : bool;
  view_priority : bool;
  view_scrambling_control : Z;
  view_continuity_counter : Z;
  view_discontinuity_indicator : bool;
  view_random_access_indicator : bool;
  view_pcr_flag : bool;
  view_pcr_base_90khz : option Z;
  view_opcr_flag : bool;
  view_splicing_point_flag : bool;
  view_private_data_flag : bool;
  view_adaptation_extension_flag : bool;
  view_payload : option bytes
}.

(** The locals that the adaptation field assigns. *)
Record AdaptationFlags := mkAdaptationFlags {
  af_discontinuity : bool;
  af_random_access : bool;
  af_pcr_base : option Z;
  af_opcr : bool;
  af_splicing : bool;
  af_private : bool;
  af_extension : bool
}.
Definition no_adaptation : AdaptationFlags :=
  mkAdaptationFlags false false None false false false false.

Definition verr {A} : outcome (result A TsPacketValidationError) := Ret (Err InvalidAdaptationLength).

(** [if (flags & 0x10) != 0]: the program clock reference. *)
Definition read_pcr (packet : bytes) (flags cursor adaptation_end : Z)
  : outcome (result (option Z * Z) TsPacketValidationError) :=
  if has_bits flags 0x10 then
    if cursor + 6 >? adaptation_end then verr else
    b0 ← byte_at packet cursor;
    b1 ← byte_at packet (cursor + 1);
    b2 ← byte_at packet (cursor + 2);
    b3 ← byte_at packet (cursor + 3);
    b4 ← byte_at packet (cursor + 4);
    let base := Z.lor (Z.lor (Z.lor (Z.lor (Z.shiftl b0 25) (Z.shiftl b1 17)) (Z.shiftl b2 9))
                         (Z.shiftl b3 1)) (Z.shiftr b4 7) in
    Ret (Ok (Some base, cursor + 6))
  else Ret (Ok (None, cursor)).

(** [if (flags & 0x08) != 0] and [if (flags & 0x04) != 0]: a field of fixed
    width; the code tests [cursor >= adaptation_end] for a width of one. *)
Definition skip_fixed (flags mask width cursor adaptation_end : Z)
  : outcome (result (bool * Z) TsPacketValidationError) :=
  if has_bits flags mask then
    if cursor + width >? adaptation_end then verr
    else Ret (Ok (true, cursor + width))
  else Ret (Ok (false, cursor)).

(** [if (flags & 0x02) != 0] and [if (flags & 0x01) != 0]: a field with a
    leading length byte. *)
Definition skip_counted (packet : bytes) (flags mask cursor adaptation_end : Z)
  : outcome (result (bool * Z) TsPacketValidationError) :=
  if has_bits flags mask then
    if cursor >=? adaptation_end then verr else
    field_len ← byte_at packet cursor;
    if cursor + 1 + field_len >? adaptation_end then verr
    else Ret (Ok (true, cursor + 1 + field_len))
  else Ret (Ok (false, cursor)).

Definition read_adaptation (packet : bytes) (adaptation_len : Z)
  : outcome (result AdaptationFlags TsPacketValidationError) :=
  if adaptation_len >? 0 then
    flags ← byte_at packet 5;
    let adaptation_end := 5 + adaptation_len in
    '(pcr, cursor) ←? read_pcr packet flags 6 adaptation_end;
    '(opcr, cursor) ←? skip_fixed flags 0x08 6 cursor adaptation_end;
    '(splicing, cursor) ←? skip_fixed flags 0x04 1 cursor adaptation_end;
    '(private, cursor) ←? skip_counted packet flags 0x02 cursor adaptation_end;
    '(extension, cursor) ←? skip_counted packet flags 0x01 cursor adaptation_end;
    Ret (Ok (mkAdaptationFlags (has_bits flags 0x80) (has_bits flags 0x40) pcr opcr splicing
               private extension))
  else Ret (Ok no_adaptation).

(** The adaptation branch: the flags and the offset behind the field. *)
Definition adaptation_branch (packet : bytes) (adaptation_control : Z)
  : outcome (result (AdaptationFlags * Z) TsPacketValidationError) :=
  if (adaptation_control =? 2) || (adaptation_control =? 3) then
    if 4 >=? len packet then verr else
    adaptation_len ← byte_at packet 4;
    if 4 + 1 + adaptation_len >? len packet then verr else
    af ←? read_adaptation packet adaptation_len;
    Ret (Ok (af, 5 + adaptation_len))
  else Ret (Ok (no_adaptation, 4)).

Definition view_validate (packet : bytes) : outcome (result TsPacketView TsPacketValidationError) :=
  if negb (len packet =? TS_PACKET_SIZE) then Ret (Err WrongLength) else
  b0 ← byte_at packet 0;
  if negb (b0 =? 0x47) then Ret (Err MissingSyncByte) else
  b1 ← byte_at packet 1;
  b2 ← byte_at packet 2;
  b3 ← byte_at packet 3;
  let scrambling_control := Z.land (Z.shiftr b3 6) 0x03 in
  let adaptation_control := Z.land (Z.shiftr b3 4) 0x03 in
  if adaptation_control =? 0 then Ret (Err InvalidAdaptationControl) else
  '(af, offset) ←? adaptation_branch packet adaptation_control;
  payload ← (if (adaptation_control =? 2) || negb (offset <? len packet) then Ret None
             else rest ← slice_from packet offset; Ret (Some rest));
  Ret (Ok {| view_pid := mkPacketPid (from_mpeg_ts_header_bytes b1 b2);
             view_transport_error_indicator := has_bits b1 0x80;
             view_payload_unit_start := has_bits b1 0x40;
             view_priority := has_bits b1 0x20;
             view_scrambling_control := scrambling_control;
             view_continuity_counter := Z.land b3 0x0f;
             view_discontinuity_indicator := af_discontinuity af;
             view_random_access_indicator := af_random_access af;
             view_pcr_flag := bool_decide (is_Some (af_pcr_base af));
             view_pcr_base_90khz := af_pcr_base af;
             view_opcr_flag := af_opcr af;
             view_splicing_point_flag := af_splicing af;
             view_private_data_flag := af_private af;
             view_adaptation_extension_flag := af_extension af;
             view_payload := payload |}).

(** [ValidatedTsPacket]: the bytes next to their view. *)
Record ValidatedTsPacket := mkValidatedTsPacket {
  packet_bytes : bytes;
  packet_view : TsPacketView
}.

Definition validated_validate (packet : bytes)
  : outcome (result ValidatedTsPacket TsPacketValidationError) :=
  if negb (len packet =? TS_PACKET_SIZE) then Ret (Err WrongLength) else
  view ←? view_validate packet;
  Ret (Ok (mkValidatedTsPacket packet view)).

Definition validated_pid (v : ValidatedTsPacket) : PacketPid := view_pid (packet_view v).
Definition validated_scrambling_control (v : ValidatedTsPacket) : Z :=
  view_scrambling_control (packet_view v).

Inductive PacketDescramblePolicyFailure :=
| PolicyNoKey
| PolicyScrambledPidNotRegistered
| PolicyTransportErrorRecord
| PolicyInvalidTsc
| PolicyScrambledNullPid
| PolicyScrambledWithoutPayload
| PolicyBadToken
| PolicyMulti2Fail
| PolicyInvalidPacket.

(** ** Safety of the field walk *)
Definition u33 (v : Z) : Prop := 0 <= v < 2 ^ 33.

Lemma pcr_bits_eq b0 b1 b2 b3 b4 : is_byte b0 -> is_byte b1 -> is_byte b2 -> is_byte b3 ->
  is_byte b4 ->
  Z.lor (Z.lor (Z.lor (Z.lor (Z.shiftl b0 25) (Z.shiftl b1 17)) (Z.shiftl b2 9))
           (Z.shiftl b3 1)) (Z.shiftr b4 7)
  = b0 * 2 ^ 25 + b1 * 2 ^ 17 + b2 * 2 ^ 9 + b3 * 2 + b4 / 128.
Proof.
  unfold is_byte; intros. rewrite <- !Z.lor_assoc. rewrite Z.shiftr_div_pow2 by lia.
  change (2 ^ 7) with 128.
  assert (0 <= b4 / 128 < 2) by (split; [apply Z.div_pos|apply Z.div_lt_upper_bound]; lia).
  rewrite (lor_shiftl_add b3 _ 1), (lor_shiftl_add b2 _ 9), (lor_shiftl_add b1 _ 17),
    (lor_shiftl_add b0 _ 25) by lia. lia.
Qed.

Section Walk.
  Context (p : bytes) (fin : Z).
  Hypothesis (Hp : wf_bytes p).
  Hypothesis (Hend : fin <= len p).

Lemma read_pcr_ok flags cursor : 0 <= cursor ->
  returns_ok (read_pcr p flags cursor fin) (fun '(pcr, c) =>
    cursor <= c /\ match pcr with Some v => u33 v | None => True end).
Proof.
  intros Hc. unfold read_pcr. case_test; [|apply returns_ok_ret; split; [lia|done]].
  case_test; [apply returns_ok_err|]. breflect. in_range. cbn [mbind outcome_bind].
  rewrite pcr_bits_eq by auto with tv. apply returns_ok_ret. split; [lia|].
  pose proof (wf_nthz p cursor Hp). pose proof (wf_nthz p (cursor + 1) Hp).
  pose proof (wf_nthz p (cursor + 2) Hp). pose proof (wf_nthz p (cursor + 3) Hp).
  pose proof (wf_nthz p (cursor + 4) Hp). unfold is_byte, u33 in *.
  assert (0 <= nthz p (cursor + 4) / 128 < 2)
    by (split; [apply Z.div_pos|apply Z.div_lt_upper_bound]; lia). lia.
Qed.

Lemma skip_fixed_ok flags mask width cursor : 0 <= cursor -> 0 <= width ->
  returns_ok (skip_fixed flags mask width cursor fin) (fun '(_, c) => cursor <= c).
Proof.
  intros. unfold skip_fixed. case_test; [|apply returns_ok_ret; lia].
  case_test; [apply returns_ok_err|apply returns_ok_ret; lia].
Qed.

Lemma skip_counted_ok flags mask cursor : 0 <= cursor ->
  returns_ok (skip_counted p flags mask cursor fin) (fun '(_, c) => cursor <= c).
Proof.
  intros. unfold skip_counted. case_test; [|apply returns_ok_ret; lia].
  case_test; [apply returns_ok_err|]. breflect. in_range. cbn [mbind outcome_bind].
  pose proof (wf_nthz p cursor Hp). unfold is_byte in *.
  case_test; [apply returns_ok_err|apply returns_ok_ret; lia].
Qed.
End Walk.

Lemma read_adaptation_ok p n : wf_bytes p -> 5 + n <= len p ->
  returns_ok (read_adaptation p n) (fun af =>
    match af_pcr_base af with Some v => u33 v | None => True end).
Proof.
  intros Hp Hn. unfold read_adaptation. case_test; [|by apply returns_ok_ret]. breflect.
  in_range. cbn [mbind outcome_bind].
  eapply returns_ok_bind; [apply read_pcr_ok; (done || lia)|]. intros [pcr c1] [? ?].
  eapply returns_ok_bind; [apply skip_fixed_ok; lia|]. intros [opcr c2] ?.
  eapply returns_ok_bind; [apply skip_fixed_ok; lia|]. intros [spl c3] ?.
  eapply returns_ok_bind; [apply skip_counted_ok; (done || lia)|]. intros [priv c4] ?.
  eapply returns_ok_bind; [apply skip_counted_ok; (done || lia)|]. intros [ext c5] ?.
  by apply returns_ok_ret.
Qed.

Lemma adaptation_branch_ok p : wf_bytes p -> len p = 188 -> fld_afc p <> 0 ->
  returns_ok (adaptation_branch p (fld_afc p)) (fun '(af, offset) =>
    offset = fld_offset p /\ offset <= 188 /\
    match af_pcr_base af with Some v => u33 v | None => True end).
Proof.
  intros Hp Hl Ha. pose proof (fld_afc_range p). unfold adaptation_branch, fld_offset.
  destruct (Z.eqb_spec (fld_afc p) 1) as [->|H1]; [apply returns_ok_ret; done|].
  replace ((fld_afc p =? 2) || (fld_afc p =? 3)) with true by lia.
  case_test; [apply returns_ok_err|]. in_range. cbn [mbind outcome_bind].
  case_test; [apply returns_ok_err|]. breflect.
  eapply returns_ok_bind; [apply read_adaptation_ok; (done || lia)|].
  intros af Haf. apply returns_ok_ret. split_and!; (done || lia).
Qed.

(** What a view says of its packet. *)
Definition view_matches (p : bytes) (v : TsPacketView) : Prop :=
  len p = 188 /\ nthz p 0 = 0x47 /\
  view_pid v = mkPacketPid (mkPid (fld_pid p)) /\
  view_transport_error_indicator v = fld_tei p /\
  view_payload_unit_start v = Z.testbit (nthz p 1) 6 /\
  view_scrambling_control v = fld_tsc p /\
  view_continuity_counter v = nthz p 3 mod 16 /\
  fld_afc p <> 0 /\ fld_offset p <= 188 /\
  view_payload v = (if decide (has_payload p /\ fld_offset p < 188)
                    then Some (dropz (fld_offset p) p) else None) /\
  (view_pcr_flag v = true <-> is_Some (view_pcr_base_90khz v)) /\
  (forall v', view_pcr_base_90khz v = Some v' -> u33 v').

Lemma view_validate_ok p : wf_bytes p ->
  returns_ok (view_validate p) (view_matches p).
Proof.
  intros Hp. unfold view_validate, TS_PACKET_SIZE.
  destruct (Z.eqb_spec (len p) 188) as [Hl|Hl]; simpl; [|apply returns_ok_err].
  in_range; cbn [mbind outcome_bind].
  destruct (Z.eqb_spec (nthz p 0) 0x47) as [H0|H0]; simpl; [|apply returns_ok_err].
  rewrite afc_bits_eq, tsc_bits_eq by auto with tv. fold (fld_afc p) (fld_tsc p).
  destruct (Z.eqb_spec (fld_afc p) 0) as [Ha|Ha]; [apply returns_ok_err|].
  eapply returns_ok_bind; [by apply adaptation_branch_ok|]. intros [af offset] (-> & Ho & Hpcr).
  pose proof (fld_offset_range p Hp).
  assert ((if (fld_afc p =? 2) || negb (fld_offset p <? len p) then Ret None
           else rest ← slice_from p (fld_offset p); Ret (Some rest))
          = Ret (if decide (has_payload p /\ fld_offset p < 188)
                 then Some (dropz (fld_offset p) p) else None)) as ->.
  { unfold has_payload. rewrite Hl. destruct (Z.eqb_spec (fld_afc p) 2);
      [rewrite decide_False by tauto; done|].
    destruct (Z.ltb_spec (fld_offset p) 188); simpl.
    - in_range. by rewrite decide_True.
    - rewrite decide_False by lia. done. }
  cbn [mbind outcome_bind]. apply returns_ok_ret.
  unfold view_matches, from_mpeg_ts_header_bytes; simpl. rewrite pid_bits_eq by auto with tv.
  split_and!; try done.
  - by apply (has_bits_land_ones _ 7).
  - by apply (has_bits_land_ones _ 6).
  - change 15 with (Z.ones 4). by rewrite land_ones_mod.
  - apply bool_decide_eq_true.
  - intros v' E. by rewrite E in Hpcr.
Qed.


(** ** Validation after descrambling

    The walk reads the adaptation field only. *)
Lemma try_bind_ext {A B E} (m m' : outcome (result A E)) (k k' : A -> outcome (result B E)) P :
  m = m' -> returns_ok m P -> (forall a, P a -> k a = k' a) -> try_bind m k = try_bind m' k'.
Proof. intros <- ([a|e] & -> & Ha) Hk; simpl; auto. Qed.

Section Agree.
  Context (p q : bytes) (fin : Z).
  Hypothesis (Hp : wf_bytes p) (Hend : fin <= len p).
  Hypothesis (Hb : forall i, 4 <= i < fin -> byte_at p i = byte_at q i).

Lemma read_pcr_agree flags cursor : 4 <= cursor ->
  read_pcr p flags cursor fin = read_pcr q flags cursor fin.
Proof.
  intros Hc. unfold read_pcr. case_test; [|done]. case_test; [done|]. breflect.
  by rewrite !Hb by lia.
Qed.

Lemma skip_counted_agree flags mask cursor : 4 <= cursor ->
  skip_counted p flags mask cursor fin = skip_counted q flags mask cursor fin.
Proof.
  intros Hc. unfold skip_counted. case_test; [|done]. case_test; [done|]. breflect.
  by rewrite !Hb by lia.
Qed.
End Agree.

Lemma read_adaptation_agree p q n : wf_bytes p -> 5 + n <= len p ->
  (forall i, 4 <= i < 5 + n -> byte_at p i = byte_at q i) ->
  read_adaptation p n = read_adaptation q n.
Proof.
  intros Hp Hn Hb. unfold read_adaptation. case_test; [|done]. breflect.
  rewrite <- (Hb 5) by lia. rewrite byte_at_ok by lia. cbn [mbind outcome_bind].
  eapply try_bind_ext; [by apply read_pcr_agree|apply read_pcr_ok; (done || lia)|].
  intros [pcr c1] [? ?].
  eapply try_bind_ext; [done|apply skip_fixed_ok; lia|]. intros [opcr c2] ?.
  eapply try_bind_ext; [done|apply skip_fixed_ok; lia|]. intros [spl c3] ?.
  eapply try_bind_ext; [apply skip_counted_agree; (done || lia)|apply skip_counted_ok; (done || lia)|].
  intros [priv c4] ?.
  eapply try_bind_ext; [apply skip_counted_agree; (done || lia)|apply skip_counted_ok; (done || lia)|].
  by intros [ext c5] ?.
Qed.

(** The view of a descrambled packet. *)
Definition descrambled_view (v : TsPacketView) (payload : bytes) : TsPacketView :=
  mkTsPacketView (view_pid v) (view_transport_error_indicator v) (view_payload_unit_start v)
    (view_priority v) 0 (view_continuity_counter v) (view_discontinuity_indicator v)
    (view_random_access_indicator v) (view_pcr_flag v) (view_pcr_base_90khz v) (view_opcr_flag v)
    (view_splicing_point_flag v) (view_private_data_flag v) (view_adaptation_extension_flag v)
    (Some payload).

Section DescrambledPacket.
  Context (p : bytes) (key : PreparedMulti2Key).
  Hypothesis (Hp : wf_bytes p) (Hl : len p = 188) (Ho : fld_offset p < 188).
Let q := descrambled_packet p key.
Let adapt := takez (fld_offset p - 4) (dropz 4 p).

Lemma adapt_len : len adapt = fld_offset p - 4.
Proof. pose proof (fld_offset_range p Hp). unfold adapt. lens. Qed.

Lemma descrambled_split : q = ([nthz p 0; nthz p 1; nthz p 2; nthz p 3 mod 64] ++ adapt)
  ++ multi2_decrypt_payload (dropz (fld_offset p) p) key.
Proof. unfold q, descrambled_packet. by rewrite app_assoc. Qed.

Lemma descrambled_head_len :
  len ([nthz p 0; nthz p 1; nthz p 2; nthz p 3 mod 64] ++ adapt) = fld_offset p.
Proof. rewrite len_app, adapt_len. autorewrite with tv_len. lia. Qed.

Lemma descrambled_len : len q = 188.
Proof.
  pose proof (fld_offset_range p Hp).
  rewrite descrambled_split, len_app, descrambled_head_len, len_multi2_decrypt. lens.
Qed.

Lemma descrambled_nthz i : 4 <= i < fld_offset p -> nthz q i = nthz p i.
Proof.
  intros Hi. rewrite descrambled_split, nthz_app_l by (rewrite descrambled_head_len; lia).
  rewrite nthz_app_r by (autorewrite with tv_len; lia). unfold adapt.
  autorewrite with tv_len. rewrite nthz_takez, nthz_dropz by lia. f_equal; lia.
Qed.

Lemma descrambled_byte_at i : 4 <= i < fld_offset p -> byte_at p i = byte_at q i.
Proof.
  intros Hi. rewrite !byte_at_ok by (rewrite ?descrambled_len; lia). by rewrite descrambled_nthz.
Qed.

Lemma mod64_afc b : Z.land (Z.shiftr (b mod 64) 4) 0x03 = Z.land (Z.shiftr b 4) 0x03.
Proof.
  rewrite !afc_bits_eq. change 64 with (16 * 4). rewrite Z.rem_mul_r by lia.
  rewrite Z.mul_comm, Z.div_add, Z.mod_div by lia. rewrite Z.add_0_l. apply Z.mod_mod; lia.
Qed.

Lemma mod64_cc b : Z.land (b mod 64) 0x0f = Z.land b 0x0f.
Proof.
  change 0x0f with (Z.ones 4). rewrite !land_ones_mod by lia.
  change 64 with (16 * 4). rewrite Z.rem_mul_r, Z.mul_comm, Z.mod_add by lia. apply Z.mod_mod; lia.
Qed.

Lemma mod64_tsc b : Z.land (Z.shiftr (b mod 64) 6) 0x03 = 0.
Proof.
  rewrite Z.shiftr_div_pow2 by lia. rewrite Z.div_small; [done|].
  apply Z.mod_pos_bound; lia.
Qed.

Lemma adaptation_branch_agree : fld_afc p <> 0 ->
  adaptation_branch q (fld_afc p) = adaptation_branch p (fld_afc p).
Proof.
  intros Ha. pose proof (fld_afc_range p). unfold adaptation_branch.
  destruct (Z.eqb_spec (fld_afc p) 1) as [->|H1]; [done|].
  assert (fld_offset p = 5 + nthz p 4) as Hoff.
  { unfold fld_offset. destruct (Z.eqb_spec (fld_afc p) 1); [lia|done]. }
  pose proof (wf_nthz p 4 Hp) as H4. unfold is_byte in H4.
  rewrite descrambled_len, Hl. rewrite <- (descrambled_byte_at 4) by lia.
  rewrite byte_at_ok by lia. cbn [mbind outcome_bind].
  case_test; [|done]. case_test; [done|]. case_test; [done|]. breflect.
  rewrite <- (read_adaptation_agree p q); try done; [lia|].
  intros i Hi. apply descrambled_byte_at. lia.
Qed.

Lemma descrambled_validates v : has_payload p -> view_validate p = Ret (Ok v) ->
  view_validate q = Ret (Ok (descrambled_view v (multi2_decrypt_payload (dropz (fld_offset p) p) key))).
Proof.
  intros Hpl. unfold view_validate. rewrite descrambled_len, Hl.
  cbn [negb]. simpl (188 =? TS_PACKET_SIZE). cbn [negb].
  rewrite !byte_at_ok by (rewrite ?descrambled_len; lia). cbn [mbind outcome_bind].
  change (nthz q 0) with (nthz p 0). change (nthz q 1) with (nthz p 1).
  change (nthz q 2) with (nthz p 2). change (nthz q 3) with (nthz p 3 mod 64).
  rewrite mod64_afc, mod64_cc, mod64_tsc, !afc_bits_eq. fold (fld_afc p).
  case_test; [done|]. case_test; [done|]. breflect.
  rewrite adaptation_branch_agree by done.
  destruct (adaptation_branch_ok p Hp Hl) as ([[af offset]|] & -> & Hbr); [done| |done].
  destruct Hbr as (-> & _ & _). cbn [try_bind].
  rewrite has_payload_afc, (proj2 (Z.ltb_lt _ _)) by done. cbn [negb orb].
  pose proof (fld_offset_range p Hp).
  rewrite !slice_from_ok by (rewrite ?descrambled_len; lia). cbn [mbind outcome_bind].
  intros [= <-]. unfold descrambled_view; simpl. repeat f_equal.
  rewrite descrambled_split. rewrite <- descrambled_head_len at 1. apply dropz_app_exact.
Qed.
End DescrambledPacket.

(** C10. The demux and the descrambler read the same header.  On a packet the
    demux validated, the descrambler's verdict carries the demux's PID and
    follows the demux's scrambling control; it rejects the framing only of a
    packet without the payload its adaptation control announces; and what it
    descrambles in place validates again, with the same view except for a
    cleared scrambling control and the decrypted payload. *)
Theorem demux_descrambler_agree (p : bytes) (v : TsPacketView) (T : gset DescramblerPid)
    (K : DescramblerKeySlot) :
  wf_bytes p -> view_validate p = Ret (Ok v) ->
  returns (descramble_ts_packet_in_place p T K) (fun '(r, p') =>
    match r with
    | Ok (Descrambled pid parity offset) =>
        view_pid v = mkPacketPid (mkPid pid) /\
        view_scrambling_control v = parity_tsc parity /\
        exists key payload, key_for K parity = Some key /\ view_payload v = Some payload /\
          view_validate p' = Ret (Ok (descrambled_view v (multi2_decrypt_payload payload key)))
    | Ok (PassedThrough pid reason) =>
        p' = p /\ view_pid v = mkPacketPid (mkPid pid) /\ view_scrambling_control v = 0 /\
        (reason = ClearAdaptationOnly -> view_payload v = None)
    | Err InvalidAdaptationField => p' = p /\ view_payload v = None
    | Err TransportErrorRecord => p' = p /\ view_transport_error_indicator v = true
    | Err InvalidTsc => p' = p /\ view_scrambling_control v = 1
    | Err e => p' = p /\ e <> InvalidPacketSize /\ e <> BadSyncByte /\ e <> InvalidAfc
    end).
Proof.
  intros Hp Hv. pose proof (returns_inv _ _ _ (view_validate_ok p Hp) Hv) as Hm. simpl in Hm.
  destruct Hm as (Hl & H0 & Epid & Etei & _ & Etsc & _ & Hafc & Hoff & Epl & _).
  eapply returns_mono; [by apply descramble_ok|]. intros [r p'] Hs. pose proof (fld_tsc_range p Hp).
  remember (r, p') as x eqn:Ex.
  destruct Hs as [e Hw _ _ _ He| |reason ? ? ? Hr| | | | | |key Hw]; injection Ex as <- <-;
    try (by rewrite Etei); try (by rewrite Etsc); try done.
  - rewrite (proj2 He) by done. split; [done|]. rewrite Epl, decide_False; [done|].
    unfold well_framed in Hw. pose proof (fld_afc_range p). unfold has_payload. lia.
  - split_and!; try congruence. intros ->. rewrite Epl, decide_False; [done|].
    intros [Hpl _]. rewrite (decide_True (P := has_payload p) _ _ Hpl) in Hr. by case_decide.
  - assert (fld_offset p < 188) as Hlt by (unfold well_framed, has_payload in *; unfold fld_offset in *;
      destruct (fld_afc p =? 1) eqn:?; lia).
    rewrite decide_True in Epl by done. split_and!; [done| |].
    + rewrite Etsc. unfold tsc_parity. destruct (Z.eqb_spec (fld_tsc p) 2); simpl; lia.
    + exists key, (dropz (fld_offset p) p). split_and!; try done. by apply descrambled_validates.
Qed.

(** ** Witnesses: the scrambled sample packet. *)
Definition sample_scrambled : bytes :=
  match prepare kat_key with
  | Ok key => scramble_packet sample_packet Odd key
  | Err _ => []
  end.
Definition sample_view : TsPacketView :=
  match view_validate sample_scrambled with
  | Ret (Ok v) => v
  | _ => mkTsPacketView (mkPacketPid (mkPid 0)) false false false 0 0 false false false None
           false false false false None
  end.


Lemma demux_descrambler_agree_witness :
  exists r p', descramble_ts_packet_in_place sample_scrambled sample_targets sample_slot = Ret (r, p')
    /\ r = Ok (Descrambled 0x100 Odd 12) /\ p' = sample_packet.
Proof.
  destruct (demux_descrambler_agree sample_scrambled sample_view sample_targets sample_slot)
    as ([r p'] & E & _).
  - dec_true.
  - vm_compute. reflexivity.
  - exists r, p'. split; [exact E|]. revert E. vm_compute. intros [= <- <-]. split; reflexivity.
Defined.
