(* ===== verification/TsCore.v ===== *)
(** * Continuity and PES reassembly

    [demux/src/parser/ts_core.rs]: the continuity tracker, the PES header
    parser and the PES assembler.

    The parser is staged over a growing buffer: it answers [Incomplete] until
    the bytes decide, and the assembler relies on its verdicts being stable
    under more bytes.  That stability is the lemma behind every reassembly
    theorem of this file. *)

From stdpp Require Import gmap.
From S2P Require Import Prelude Common TsPacket.

Definition MAX_PES_BUFFER_BYTES : Z := 1024 * 1024.

(** ** Continuity *)
Inductive ContinuityOutcome :=
| FirstPacket
| InOrder
| Duplicate
| CounterCollision
| Discontinuity.

Record ContinuityState := mkContinuityState {
  last_counter : option Z;
  last_packet : option bytes
}.
Definition continuity_default : ContinuityState := mkContinuityState None None.

Record ContinuityTracker := mkContinuityTracker {
  states : gmap PacketPid ContinuityState
}.

(** The body of [observe] on the entry of the PID; [last_counter + 1] is a
    checked [u8] addition. *)
Definition observe_state (state : ContinuityState) (continuity_counter : Z) (packet : bytes)
  : outcome (ContinuityState * ContinuityOutcome) :=
  match last_counter state with
  | None => Ret (mkContinuityState (Some continuity_counter) (Some packet), FirstPacket)
  | Some last =>
      if continuity_counter =? last then
        if bool_decide (last_packet state = Some packet) then Ret (state, Duplicate)
        else Ret (mkContinuityState (last_counter state) (Some packet), CounterCollision)
      else if last + 1 >? u8_max then Panic
      else
        let expected := Z.land (last + 1) 0x0f in
        let state' := mkContinuityState (Some continuity_counter) (Some packet) in
        Ret (state', if continuity_counter =? expected then InOrder else Discontinuity)
  end.

Definition observe (t : ContinuityTracker) (pid : PacketPid) (continuity_counter : Z)
    (has_payload : bool) (packet : bytes) : outcome (ContinuityTracker * ContinuityOutcome) :=
  if negb has_payload then Ret (t, InOrder)
  else
    let state := default continuity_default (states t !! pid) in
    r ← observe_state state continuity_counter packet;
    let '(state', o) := r in
    Ret (mkContinuityTracker (<[pid := state']> (states t)), o).

Definition reset_pid (t : ContinuityTracker) (pid : PacketPid) : ContinuityTracker :=
  mkContinuityTracker (delete pid (states t)).

(** ** PES headers *)
Record PesPacket := mkPesPacket {
  pes_pid : PacketPid;
  pes_stream_id : Z;
  pes_pts_90khz : option Z;
  pes_dts_90khz : option Z;
  pes_is_private_data : bool;
  pes_data_alignment_indicator : bool;
  pes_raw_bytes : bytes;
  pes_payload : bytes
}.

Record PesHeaderSummary := mkPesHeaderSummary {
  sum_stream_id : Z;
  sum_payload_offset : Z;
  sum_pts_90khz : option Z;
  sum_dts_90khz : option Z;
  sum_is_pes_private_data : bool;
  sum_data_alignment_indicator : bool;
  sum_expected_len : option Z
}.

Definition pes_stream_has_optional_header (stream_id : Z) : bool :=
  negb (bool_decide (stream_id ∈ [0xbc; 0xbe; 0xbf; 0xf0; 0xf1; 0xf2; 0xf8; 0xff])).

Definition pts_dts_field_value (field : bytes) (expected_prefix : Z) : outcome (option Z) :=
  if len field <? 5 then Ret None else
  f0 ← byte_at field 0;
  if negb (Z.shiftr f0 4 =? expected_prefix) then Ret None else
  f2 ← byte_at field 2;
  f4 ← byte_at field 4;
  if (Z.land f0 0x01 =? 0) || (Z.land f2 0x01 =? 0) || (Z.land f4 0x01 =? 0) then Ret None else
  f1 ← byte_at field 1;
  f3 ← byte_at field 3;
  Ret (Some (Z.lor (Z.lor (Z.lor (Z.lor (Z.shiftl (Z.land (Z.shiftr f0 1) 0x07) 30)
                                    (Z.shiftl f1 22))
                             (Z.shiftl (Z.shiftr f2 1) 15))
                      (Z.shiftl f3 7))
               (Z.shiftr f4 1))).

(** [None] is the failure; the cursor is threaded. *)
Definition advance_optional_field (cursor length header_len : Z) : option Z :=
  match checked_add usize_max cursor length with
  | None => None
  | Some fin => if fin >? header_len then None else Some fin
  end.

(** The fixed-width fields of the [for] loop, in order. *)
Fixpoint advance_fields (flags2 : Z) (fields : list (Z * Z)) (cursor header_len : Z) : option Z :=
  match fields with
  | [] => Some cursor
  | (flag, length) :: fields =>
      if has_bits flags2 flag then
        cursor ← advance_optional_field cursor length header_len;
        advance_fields flags2 fields cursor header_len
      else advance_fields flags2 fields cursor header_len
  end.

(** A field present when its extension flag is set. *)
Definition advance_if (present : bool) (cursor length header_len : Z) : option Z :=
  if present then advance_optional_field cursor length header_len else Some cursor.

(** The extension flags and what they announce. *)
Definition pes_extension (cursor : Z) (optional_header : bytes) : option bool :=
  let n := len optional_header in
  extension_flags ← get_byte optional_header cursor;
  cursor ← checked_add usize_max cursor 1;
  if negb (Z.land extension_flags 0x0e =? 0x0e) then None else
  let is_private_data := has_bits extension_flags 0x80 in
  cursor ← advance_if is_private_data cursor 16 n;
  cursor ← (if has_bits extension_flags 0x40 then
              pack_header_len ← get_byte optional_header cursor;
              cursor ← checked_add usize_max cursor 1;
              advance_optional_field cursor pack_header_len n
            else Some cursor);
  cursor ← advance_if (has_bits extension_flags 0x20) cursor 2 n;
  cursor ← advance_if (has_bits extension_flags 0x10) cursor 2 n;
  if has_bits extension_flags 0x01 then
    extension_length ← get_byte optional_header cursor;
    if Z.land extension_length 0x80 =? 0 then None else
    cursor ← checked_add usize_max cursor 1;
    _ ← advance_optional_field cursor (Z.land extension_length 0x7f) n;
    Some is_private_data
  else Some is_private_data.

Definition pes_private_data_presence (flags2 : Z) (optional_header : bytes) : option bool :=
  let flags := Z.land (Z.shiftr flags2 6) 0x03 in
  cursor ← (if flags =? 0 then Some 0
            else if flags =? 2 then Some 5
            else if flags =? 3 then Some 10
            else None);
  cursor ← advance_optional_field cursor 0 (len optional_header);
  cursor ← advance_fields flags2 [(0x20, 6); (0x10, 3); (0x08, 1); (0x04, 1); (0x02, 2)]
             cursor (len optional_header);
  if Z.land flags2 0x01 =? 0 then Some false
  else pes_extension cursor optional_header.

Inductive PesHeaderParseStatus :=
| Incomplete
| Malformed
| Complete (summary : PesHeaderSummary).

Definition pes_expected_len (packet_length : Z) : option Z :=
  if packet_length =? 0 then None else Some (6 + packet_length).

(** The timestamps: [None] for a malformed field. *)
Definition pes_timestamps (b : bytes) (pts_dts_flags : Z)
  : outcome (option (option Z * option Z)) :=
  if pts_dts_flags =? 2 then
    f ← slice b 9 14;
    v ← pts_dts_field_value f 2;
    Ret (match v with Some pts => Some (Some pts, None) | None => None end)
  else if pts_dts_flags =? 3 then
    f ← slice b 9 14;
    v ← pts_dts_field_value f 3;
    match v with
    | None => Ret None
    | Some pts =>
        g ← slice b 14 19;
        w ← pts_dts_field_value g 1;
        Ret (match w with Some dts => Some (Some pts, Some dts) | None => None end)
    end
  else Ret (Some (None, None)).

(** The part of the header after the fixed nine bytes. *)
Definition parse_optional_fields (b : bytes)
    (stream_id packet_length flags1 flags2 header_data_len : Z) : outcome PesHeaderParseStatus :=
  let payload_offset := 9 + header_data_len in
  if negb (Z.land flags1 0xc0 =? 0x80) then Ret Malformed else
  if negb (packet_length =? 0) && (packet_length <? 3 + header_data_len) then Ret Malformed else
  let pts_dts_flags := Z.land (Z.shiftr flags2 6) 0x03 in
  if pts_dts_flags =? 1 then Ret Malformed else
  if (pts_dts_flags =? 2) && (header_data_len <? 5) then Ret Malformed else
  if (pts_dts_flags =? 3) && (header_data_len <? 10) then Ret Malformed else
  if len b <? payload_offset then Ret Incomplete else
  ts ← pes_timestamps b pts_dts_flags;
  match ts with
  | None => Ret Malformed
  | Some (pts, dts) =>
      optional_header ← slice b 9 payload_offset;
      match pes_private_data_presence flags2 optional_header with
      | None => Ret Malformed
      | Some is_private =>
          Ret (Complete (mkPesHeaderSummary stream_id payload_offset pts dts is_private
            (has_bits flags1 0x04) (pes_expected_len packet_length)))
      end
  end.

Definition parse_optional_header (b : bytes) (stream_id packet_length : Z)
  : outcome PesHeaderParseStatus :=
  flags1 ← byte_at b 6;
  flags2 ← byte_at b 7;
  header_data_len ← byte_at b 8;
  parse_optional_fields b stream_id packet_length flags1 flags2 header_data_len.

Definition parse_pes_header_status (b : bytes) : outcome PesHeaderParseStatus :=
  if len b <? 6 then Ret Incomplete else
  start ← slice b 0 3;
  if negb (bool_decide (start = [0x00; 0x00; 0x01])) then Ret Malformed else
  stream_id ← byte_at b 3;
  b4 ← byte_at b 4;
  b5 ← byte_at b 5;
  let packet_length := be16 b4 b5 in
  if (packet_length =? 0) && negb ((0xe0 <=? stream_id) && (stream_id <=? 0xef))
  then Ret Malformed else
  if negb (pes_stream_has_optional_header stream_id) then
    Ret (Complete (mkPesHeaderSummary stream_id 6 None None false false
      (pes_expected_len packet_length)))
  else if len b <? 9 then Ret Incomplete
  else parse_optional_header b stream_id packet_length.

Definition parse_pes_header_summary (b : bytes) : outcome (option PesHeaderSummary) :=
  s ← parse_pes_header_status b;
  Ret (match s with Complete summary => Some summary | Incomplete | Malformed => None end).

(** ** The PES assembler *)
Inductive PesDropReason :=
| ContinuationWithoutStart
| MalformedPes
| OversizedPes
| FlushDiscard.

Record PesAssembler := mkPesAssembler {
  pa_pid : option PacketPid;
  pa_buf : bytes;
  pa_expected_len : option Z;
  pa_unbounded_summary : option PesHeaderSummary;
  pa_next_header : option bytes;
  pa_overflow_drop_count : Z;
  pa_overflow_generation : Z;
  pa_overflow_drop_counter_saturated : bool;
  pa_overflow_generation_counter_saturated : bool;
  pa_last_drop_reason : option PesDropReason
}.

Definition pes_assembler_default : PesAssembler :=
  mkPesAssembler None [] None None None 0 0 false false None.

(** Update of the assembly fields; the drop diagnostics are kept. *)
Definition with_assembly (a : PesAssembler) (pid : option PacketPid) (b : bytes)
    (e : option Z) (u : option PesHeaderSummary) (h : option bytes) : PesAssembler :=
  mkPesAssembler pid b e u h (pa_overflow_drop_count a) (pa_overflow_generation a)
    (pa_overflow_drop_counter_saturated a) (pa_overflow_generation_counter_saturated a)
    (pa_last_drop_reason a).

Definition reset_state_only (a : PesAssembler) : PesAssembler :=
  with_assembly a None [] None None None.

(** The drop diagnostics of [reset_with_drop]. *)
Definition record_drop (a : PesAssembler) (reason : PesDropReason) : PesAssembler :=
  let '(count, count_sat) :=
    match checked_add u64_max (pa_overflow_drop_count a) 1 with
    | Some next => (next, pa_overflow_drop_counter_saturated a)
    | None => (pa_overflow_drop_count a, true)
    end in
  let '(gen, gen_sat) :=
    match checked_add u64_max (pa_overflow_generation a) 1 with
    | Some next => (next, pa_overflow_generation_counter_saturated a)
    | None => (pa_overflow_generation a, true)
    end in
  mkPesAssembler (pa_pid a) (pa_buf a) (pa_expected_len a) (pa_unbounded_summary a)
    (pa_next_header a) count gen count_sat gen_sat (Some reason).

Definition reset_with_drop (a : PesAssembler) (reason : PesDropReason) : PesAssembler :=
  let a :=
    if bool_decide (is_Some (pa_pid a)) || negb (len (pa_buf a) =? 0)
       || bool_decide (is_Some (pa_expected_len a))
       || bool_decide (is_Some (pa_unbounded_summary a))
    then record_drop a reason else a in
  reset_state_only a.

Definition take_drop_diagnostic (a : PesAssembler) : PesAssembler * option (PesDropReason * Z) :=
  (mkPesAssembler (pa_pid a) (pa_buf a) (pa_expected_len a) (pa_unbounded_summary a)
     (pa_next_header a) (pa_overflow_drop_count a) (pa_overflow_generation a)
     (pa_overflow_drop_counter_saturated a) (pa_overflow_generation_counter_saturated a) None,
   match pa_last_drop_reason a with
   | Some reason => Some (reason, pa_overflow_generation a)
   | None => None
   end).

(** [truncate] *)
Definition truncate (b : bytes) (expected : option Z) : bytes :=
  match expected with Some e => takez e b | None => b end.

Definition take_completed (a : PesAssembler) : outcome (PesAssembler * option PesPacket) :=
  match pa_pid a with
  | None => Ret (a, None)
  | Some pid =>
      parsed ← parse_pes_header_summary (pa_buf a);
      match (match parsed with Some s => Some s | None => pa_unbounded_summary a end) with
      | None => Ret (a, None)
      | Some summary =>
          if match sum_expected_len summary with
             | Some e => len (pa_buf a) <? e
             | None => false
             end
          then Ret (a, None)
          else
            let raw := truncate (pa_buf a) (sum_expected_len summary) in
            payload ← (if starts_with raw [0x00; 0x00; 0x01]
                       then slice_from raw (Z.min (sum_payload_offset summary) (len raw))
                       else Ret raw);
            Ret (with_assembly a None [] None None (pa_next_header a),
                 Some (mkPesPacket pid (sum_stream_id summary) (sum_pts_90khz summary)
                   (sum_dts_90khz summary) (sum_is_pes_private_data summary)
                   (sum_data_alignment_indicator summary) raw payload))
      end
  end.

(** The unit-start and continuation guards at the head of [push]; [None] is the
    early return. *)
Definition push_guard (a : PesAssembler) (pid : PacketPid) (payload_unit_start : bool)
  : PesAssembler * bool :=
  if payload_unit_start then
    if bool_decide (is_Some (pa_unbounded_summary a)) && bool_decide (pa_pid a = Some pid)
       && bool_decide (pa_next_header a = None)
    then (with_assembly a (pa_pid a) (pa_buf a) (pa_expected_len a) (pa_unbounded_summary a)
            (Some []), true)
    else
      let a := if bool_decide (is_Some (pa_unbounded_summary a))
               then reset_with_drop a MalformedPes else reset_state_only a in
      (with_assembly a (Some pid) (pa_buf a) (pa_expected_len a) (pa_unbounded_summary a)
         (pa_next_header a), true)
  else if negb (bool_decide (pa_pid a = Some pid))
  then (reset_with_drop a ContinuationWithoutStart, false)
  else (a, true).

(** The payload goes into the next header or into the buffer; the flag is
    false after an early return.  [264 - header.len()] is a checked
    subtraction. *)
Definition push_bytes (a : PesAssembler) (pid : PacketPid) (payload : bytes)
  : outcome (PesAssembler * list PesPacket * bool) :=
  match pa_next_header a with
  | Some header =>
      let a := with_assembly a (pa_pid a) (pa_buf a) (pa_expected_len a)
                 (pa_unbounded_summary a) None in
      match checked_sub 264 (len header) with
      | None => Panic
      | Some room =>
          let copied := Z.min room (len payload) in
          front ← slice payload 0 copied;
          let header := header ++ front in
          s ← parse_pes_header_status header;
          match s with
          | Incomplete =>
              Ret (with_assembly a (pa_pid a) (pa_buf a) (pa_expected_len a)
                     (pa_unbounded_summary a) (Some header), [], false)
          | Malformed => Ret (reset_with_drop a MalformedPes, [], false)
          | Complete _ =>
              r ← take_completed a;
              let '(a, packet) := r in
              rest ← slice_from payload copied;
              Ret (with_assembly a (Some pid) (header ++ rest) (pa_expected_len a)
                     (pa_unbounded_summary a) (pa_next_header a),
                   option_list packet, true)
          end
      end
  | None =>
      Ret (with_assembly a (pa_pid a) (pa_buf a ++ payload) (pa_expected_len a)
             (pa_unbounded_summary a) (pa_next_header a), [], true)
  end.

(** Header of the buffer, oversize guard and completion at the tail of [push]. *)
Definition push_finish (a : PesAssembler) (out : list PesPacket)
  : outcome (PesAssembler * list PesPacket) :=
  h ← (if bool_decide (pa_expected_len a = None) then
         s ← parse_pes_header_status (pa_buf a);
         Ret (match s with
              | Complete summary =>
                  (with_assembly a (pa_pid a) (pa_buf a) (sum_expected_len summary)
                     (if bool_decide (sum_expected_len summary = None) then Some summary else None)
                     (pa_next_header a), true)
              | Incomplete => (a, true)
              | Malformed => (reset_with_drop a MalformedPes, false)
              end)
       else Ret (a, true));
  let '(a, go) := h in
  if negb go then Ret (a, out) else
  if len (pa_buf a) >? MAX_PES_BUFFER_BYTES then Ret (reset_with_drop a OversizedPes, out) else
  match pa_expected_len a with
  | Some e =>
      if e <=? len (pa_buf a) then
        r ← take_completed a;
        let '(a, packet) := r in
        Ret (a, out ++ option_list packet)
      else Ret (a, out)
  | None => Ret (a, out)
  end.

Definition pes_push (a : PesAssembler) (pid : PacketPid) (payload_unit_start : bool)
    (payload : bytes) : outcome (PesAssembler * list PesPacket) :=
  let '(a, go) := push_guard a pid payload_unit_start in
  if negb go then Ret (a, []) else
  r ← push_bytes a pid payload;
  let '(a, out, go) := r in
  if negb go then Ret (a, out) else push_finish a out.

(** ** Continuity: the tracker is a memory of the last payload packet

    The history of a tracker: observations and resets. *)
Inductive continuity_event :=
| Observe (pid : PacketPid) (counter : Z) (has_payload : bool) (packet : bytes)
| Reset (pid : PacketPid).

Definition track (t : ContinuityTracker) (e : continuity_event) : outcome ContinuityTracker :=
  match e with
  | Observe pid counter has_payload packet =>
      r ← observe t pid counter has_payload packet; Ret (fst r)
  | Reset pid => Ret (reset_pid t pid)
  end.

Fixpoint track_all (t : ContinuityTracker) (h : list continuity_event) : outcome ContinuityTracker :=
  match h with
  | [] => Ret t
  | e :: h => t ← track t e; track_all t h
  end.

(** The last packet with payload seen on a PID since it was reset. *)
Fixpoint last_seen (pid : PacketPid) (h : list continuity_event) (seen : option (Z * bytes))
  : option (Z * bytes) :=
  match h with
  | [] => seen
  | Observe pid' counter has_payload packet :: h =>
      last_seen pid h (if has_payload && bool_decide (pid' = pid) then Some (counter, packet) else seen)
  | Reset pid' :: h => last_seen pid h (if bool_decide (pid' = pid) then None else seen)
  end.

(** The verdict on a packet, from the last one. *)
Definition classify (seen : option (Z * bytes)) (counter : Z) (packet : bytes)
  : ContinuityOutcome :=
  match seen with
  | None => FirstPacket
  | Some (last, prev) =>
      let d := (counter - last) mod 16 in
      if d =? 0 then if bool_decide (prev = packet) then Duplicate else CounterCollision
      else if d =? 1 then InOrder else Discontinuity
  end.

Definition valid_event (e : continuity_event) : Prop :=
  match e with Observe _ counter _ _ => 0 <= counter < 16 | Reset _ => True end.

Definition state_of (seen : option (Z * bytes)) : ContinuityState :=
  match seen with
  | None => continuity_default
  | Some (c, p) => mkContinuityState (Some c) (Some p)
  end.

(** A tracker remembers exactly [seen] of each PID. *)
Definition remembers (t : ContinuityTracker) (seen : PacketPid -> option (Z * bytes)) : Prop :=
  forall pid, default continuity_default (states t !! pid) = state_of (seen pid).

Definition seen_ok (s : option (Z * bytes)) : Prop :=
  match s with Some (c, _) => 0 <= c < 16 | None => True end.

Lemma succ_mod16 a b : 0 <= a < 16 -> 0 <= b < 16 ->
  (a =? Z.land (b + 1) 0x0f) = ((a - b) mod 16 =? 1) /\ (a =? b) = ((a - b) mod 16 =? 0).
Proof.
  intros Ha Hb. change 0x0f with (Z.ones 4). rewrite land_ones_mod by lia.
  change (2 ^ 4) with 16. pose proof (Z.div_mod (a - b) 16). pose proof (Z.mod_pos_bound (a - b) 16).
  pose proof (Z.div_mod (b + 1) 16). pose proof (Z.mod_pos_bound (b + 1) 16).
  split; apply eq_true_iff_eq; rewrite !Z.eqb_eq; nia.
Qed.

Lemma observe_state_ok seen counter packet : seen_ok seen -> 0 <= counter < 16 ->
  observe_state (state_of seen) counter packet
  = Ret (state_of (Some (counter, packet)), classify seen counter packet).
Proof.
  intros Hs Hc. destruct seen as [[last prev]|]; [|done]. unfold observe_state; simpl in *.
  destruct (succ_mod16 counter last Hc Hs) as [-> ->].
  destruct (Z.eqb_spec ((counter - last) mod 16) 0) as [E|E].
  - assert (counter = last) as -> by (apply Z.mod_divide in E as [k Hk]; lia).
    repeat case_bool_decide; simplify_eq; done.
  - rewrite Z.gtb_ltb, (proj2 (Z.ltb_ge _ _)) by (unfold u8_max; lia). done.
Qed.

Lemma observe_ok t seen pid counter has_payload packet :
  remembers t seen -> seen_ok (seen pid) -> 0 <= counter < 16 ->
  exists t', observe t pid counter has_payload packet
    = Ret (t', if has_payload then classify (seen pid) counter packet else InOrder) /\
    remembers t' (fun pid' => if has_payload && bool_decide (pid = pid')
                              then Some (counter, packet) else seen pid').
Proof.
  intros Hr Hs Hc. unfold observe. destruct has_payload; simpl; [|by eauto].
  rewrite (Hr pid), observe_state_ok by done. cbn [mbind outcome_bind].
  eexists; split; [done|]. intros pid'. simpl. case_bool_decide as E; subst.
  - by rewrite lookup_insert_eq.
  - rewrite lookup_insert_ne by done. apply Hr.
Qed.

Lemma track_all_ok h t seen : remembers t seen -> (forall pid, seen_ok (seen pid)) ->
  Forall valid_event h ->
  exists t', track_all t h = Ret t' /\ remembers t' (fun pid => last_seen pid h (seen pid)) /\
    (forall pid, seen_ok (last_seen pid h (seen pid))).
Proof.
  revert t seen. induction h as [|e h IH]; intros t seen Hr Hs Hv; simpl; [by eauto|].
  apply Forall_cons_iff in Hv as [He Hv]. destruct e as [pid counter hp packet|pid]; simpl in *.
  - destruct (observe_ok t seen pid counter hp packet) as (t' & -> & Hr'); try done.
    cbn [mbind outcome_bind fst]. destruct (IH t' _ Hr') as (t'' & E & Hr'' & Hs''); try done.
    + intros pid'. case_test; [done|apply Hs].
    + exists t''. split; [exact E|]. auto.
  - destruct (IH (reset_pid t pid) (fun pid' => if bool_decide (pid = pid') then None else seen pid'))
      as (t'' & E & Hr'' & Hs''); try done.
    + intros pid'. simpl. case_bool_decide as Epid; subst.
      * by rewrite lookup_delete_eq.
      * rewrite lookup_delete_ne by done. apply Hr.
    + intros pid'. case_bool_decide; [done|apply Hs].
    + exists t''. split; [exact E|]. auto.
Qed.

(** C15. After any history of observations and resets, the verdict on the next
    packet is a function of the last packet with payload on the same PID since
    its reset and of nothing else: first packet; same counter and same bytes,
    a duplicate; same counter and other bytes, a collision; the next counter
    modulo 16, in order; anything else, a discontinuity.  Packets without
    payload are in order and leave no trace. *)
Theorem continuity_verdict (h : list continuity_event) (pid : PacketPid) (counter : Z)
    (has_payload : bool) (packet : bytes) :
  Forall valid_event h -> 0 <= counter < 16 ->
  exists t, track_all (mkContinuityTracker ∅) h = Ret t /\
    returns (observe t pid counter has_payload packet) (fun '(_, o) =>
      o = if has_payload then classify (last_seen pid h None) counter packet else InOrder).
Proof.
  intros Hv Hc.
  destruct (track_all_ok h (mkContinuityTracker ∅) (fun _ => None)) as (t & E & Hr & Hs); try done.
  exists t. split; [done|].
  destruct (observe_ok t _ pid counter has_payload packet Hr (Hs pid) Hc) as (t' & -> & _).
  by apply returns_ret.
Qed.

Lemma continuity_verdict_witness :
  exists t, track_all (mkContinuityTracker ∅)
      [Observe (mkPacketPid (mkPid 256)) 15 true [1]; Observe (mkPacketPid (mkPid 257)) 3 true [2]]
      = Ret t /\
    returns (observe t (mkPacketPid (mkPid 256)) 0 true [3]) (fun '(_, o) => o = InOrder).
Proof.
  apply (continuity_verdict
    [Observe (mkPacketPid (mkPid 256)) 15 true [1]; Observe (mkPacketPid (mkPid 257)) 3 true [2]]
    (mkPacketPid (mkPid 256)) 0 true [3]); [|lia].
  repeat constructor; simpl; lia.
Defined.

(** ** The PES header parser

    Reading inside the buffer is unaffected by what follows it. *)
Lemma byte_at_app b t i : 0 <= i < len b -> byte_at (b ++ t) i = byte_at b i.
Proof. intros. rewrite !byte_at_ok by lens. by rewrite nthz_app_l. Qed.

Lemma slice_app {A} (b t : list A) i j : 0 <= i <= j -> j <= len b ->
  slice (b ++ t) i j = slice b i j.
Proof.
  intros. rewrite !slice_ok by lens. rewrite dropz_app_le by lia.
  by rewrite takez_app_le by lens.
Qed.

Lemma pts_dts_field_value_total f prefix : wf_bytes f ->
  returns (pts_dts_field_value f prefix) (fun v =>
    match v with Some v => u33 v | None => True end).
Proof.
  intros Hf. unfold pts_dts_field_value. case_test; [by apply returns_ret|]. breflect.
  in_range; cbn [mbind outcome_bind].
  case_test; [by apply returns_ret|]. case_test; [by apply returns_ret|].
  apply returns_ret. apply uN_lor; [lia| |].
  2: { apply uN_shiftr; [lia..|]. apply uN_byte_widen; [lia|auto with tv]. }
  assert (forall i k, is_byte (nthz f i) -> 0 <= k <= 25 -> uN 33 (Z.shiftl (nthz f i) k)) as Hsh.
  { intros i k Hb Hk. unfold is_byte, uN in *. rewrite Z.shiftl_mul_pow2 by lia.
    pose proof (Z.pow_le_mono_r 2 k 25). pose proof (Z.pow_pos_nonneg 2 k). nia. }
  repeat (apply uN_lor; [lia| |]); try (apply Hsh; [auto with tv|lia]).
  - pose proof (land_mask_range (Z.shiftr (nthz f 0) 1) 3). change (Z.ones 3) with 7 in *.
    unfold uN. rewrite Z.shiftl_mul_pow2 by lia. lia.
  - pose proof (wf_nthz f 2 Hf) as Hb. unfold is_byte in Hb.
    rewrite Z.shiftr_div_pow2, Z.shiftl_mul_pow2 by lia. unfold uN.
    assert (0 <= nthz f 2 / 2 ^ 1 < 128) by (split; [apply Z.div_pos|apply Z.div_lt_upper_bound]; lia).
    lia.
Qed.

Lemma pes_timestamps_total b flags : wf_bytes b ->
  (flags = 2 -> 14 <= len b) -> (flags = 3 -> 19 <= len b) ->
  returns (pes_timestamps b flags) (fun ts => forall t, pes_timestamps (b ++ t) flags = Ret ts).
Proof.
  intros Hb H2 H3. unfold pes_timestamps.
  destruct (Z.eqb_spec flags 2) as [E|E]; [|destruct (Z.eqb_spec flags 3) as [E'|E']].
  - specialize (H2 E). rewrite slice_ok by lia. cbn [mbind outcome_bind].
    edestruct (pts_dts_field_value_total (takez (14 - 9) (dropz 9 b)) 2) as (v & Ev & _);
      [auto with tv|]. rewrite Ev. cbn [mbind outcome_bind]. apply returns_ret. intros t.
    rewrite slice_app, slice_ok by lia. cbn [mbind outcome_bind]. by rewrite Ev.
  - specialize (H3 E'). rewrite (slice_ok b 9 14) by lia. cbn [mbind outcome_bind].
    edestruct (pts_dts_field_value_total (takez (14 - 9) (dropz 9 b)) 3) as (v & Ev & _);
      [auto with tv|]. rewrite Ev. cbn [mbind outcome_bind].
    assert (forall t, slice (b ++ t) 9 14 = Ret (takez (14 - 9) (dropz 9 b))) as E9
      by (intros; by rewrite slice_app, slice_ok by lia).
    destruct v as [pts|].
    2: { apply returns_ret. intros t. rewrite E9. cbn [mbind outcome_bind]. by rewrite Ev. }
    rewrite (slice_ok b 14 19) by lia. cbn [mbind outcome_bind].
    edestruct (pts_dts_field_value_total (takez (19 - 14) (dropz 14 b)) 1) as (w & Ew & _);
      [auto with tv|]. rewrite Ew. cbn [mbind outcome_bind]. apply returns_ret. intros t.
    rewrite E9. cbn [mbind outcome_bind]. rewrite Ev. cbn [mbind outcome_bind].
    rewrite slice_app, slice_ok by lia. cbn [mbind outcome_bind]. by rewrite Ew.
  - by apply returns_ret.
Qed.

(** What a complete summary says of the buffer. *)
Definition summary_ok (b : bytes) (s : PesHeaderSummary) : Prop :=
  6 <= sum_payload_offset s <= len b /\ 6 <= len b /\ sum_payload_offset s <= 264 /\
  takez 3 b = [0x00; 0x00; 0x01] /\ sum_stream_id s = nthz b 3 /\
  sum_expected_len s = pes_expected_len (nthz b 4 * 256 + nthz b 5) /\
  match sum_expected_len s with
  | Some e => sum_payload_offset s <= e <= 65541
  | None => True
  end.

(** A verdict of the parser: final unless incomplete, and complete within the
    264 bytes of the longest header. *)
Definition status_ok (parse : bytes -> outcome PesHeaderParseStatus) (b : bytes)
    (s : PesHeaderParseStatus) : Prop :=
  match s with
  | Incomplete => len b < 264
  | Malformed => forall t, parse (b ++ t) = Ret Malformed
  | Complete sum => summary_ok b sum /\ forall t, parse (b ++ t) = Ret (Complete sum)
  end.

Lemma pes_expected_len_bound n e : 0 <= n <= 65535 -> pes_expected_len n = Some e ->
  n <> 0 /\ e = 6 + n /\ e <= 65541.
Proof. unfold pes_expected_len. intros Hn. destruct (Z.eqb_spec n 0); intros [= <-]; lia. Qed.

Lemma parse_optional_fields_ok b sid n f1 f2 hdl : wf_bytes b -> 0 <= hdl < 256 ->
  returns (parse_optional_fields b sid n f1 f2 hdl) (fun s =>
    match s with
    | Incomplete => len b < 9 + hdl
    | Malformed => forall t, parse_optional_fields (b ++ t) sid n f1 f2 hdl = Ret Malformed
    | Complete sum =>
        sum_payload_offset sum = 9 + hdl /\ 9 + hdl <= len b /\ sum_stream_id sum = sid /\
        sum_expected_len sum = pes_expected_len n /\ (n <> 0 -> 9 + hdl <= 6 + n) /\
        forall t, parse_optional_fields (b ++ t) sid n f1 f2 hdl = Ret (Complete sum)
    end).
Proof.
  intros Hb Hh. unfold parse_optional_fields.
  case_test; [by apply returns_ret|].
  destruct (negb (n =? 0) && (n <? 3 + hdl)) eqn:Elen; [by apply returns_ret|].
  case_test; [by apply returns_ret|].
  destruct ((Z.land (Z.shiftr f2 6) 3 =? 2) && (hdl <? 5)) eqn:E2; [by apply returns_ret|].
  destruct ((Z.land (Z.shiftr f2 6) 3 =? 3) && (hdl <? 10)) eqn:E3; [by apply returns_ret|].
  destruct (Z.ltb_spec (len b) (9 + hdl)) as [Hs|Hs]; [by apply returns_ret|].
  assert (forall t, (len (b ++ t) <? 9 + hdl) = false) as Hl by (intros; lens).
  destruct (pes_timestamps_total b (Z.land (Z.shiftr f2 6) 3) Hb) as (ts & Ets & Hts); [lia|lia|].
  rewrite Ets. cbn [mbind outcome_bind]. destruct ts as [[pts dts]|].
  2: { apply returns_ret. intros t. by rewrite Hl, Hts. }
  rewrite slice_ok by lia. cbn [mbind outcome_bind].
  destruct (pes_private_data_presence f2 _) eqn:Ep; apply returns_ret.
  - split_and!; try done; [lia|]. intros t. rewrite Hl, Hts. cbn [mbind outcome_bind].
    rewrite slice_app, slice_ok by lia. cbn [mbind outcome_bind]. by rewrite Ep.
  - intros t. rewrite Hl, Hts. cbn [mbind outcome_bind].
    rewrite slice_app, slice_ok by lia. cbn [mbind outcome_bind]. by rewrite Ep.
Qed.

Lemma parse_optional_header_app b t sid n : 9 <= len b ->
  parse_optional_header (b ++ t) sid n =
  parse_optional_fields (b ++ t) sid n (nthz b 6) (nthz b 7) (nthz b 8).
Proof.
  intros. unfold parse_optional_header. rewrite !byte_at_app, !byte_at_ok by lia. done.
Qed.

Lemma parse_status_app b t : wf_bytes b -> 6 <= len b ->
  takez 3 b = [0x00; 0x00; 0x01] ->
  let n := nthz b 4 * 256 + nthz b 5 in
  parse_pes_header_status (b ++ t) =
  if (n =? 0) && negb ((0xe0 <=? nthz b 3) && (nthz b 3 <=? 0xef)) then Ret Malformed else
  if negb (pes_stream_has_optional_header (nthz b 3)) then
    Ret (Complete (mkPesHeaderSummary (nthz b 3) 6 None None false false (pes_expected_len n)))
  else if len (b ++ t) <? 9 then Ret Incomplete
  else parse_optional_header (b ++ t) (nthz b 3) n.
Proof.
  intros Hb Hl Hs n. unfold parse_pes_header_status.
  rewrite (proj2 (Z.ltb_ge _ _)) by lens. rewrite slice_app, slice_ok by lia.
  rewrite !byte_at_app, !byte_at_ok by lia. cbn [mbind outcome_bind].
  rewrite dropz_0, Z.sub_0_r. rewrite Hs. done.
Qed.

Lemma parse_status_start b t : 6 <= len b -> takez 3 b <> [0x00; 0x00; 0x01] ->
  parse_pes_header_status (b ++ t) = Ret Malformed.
Proof.
  intros Hl Hs. unfold parse_pes_header_status.
  rewrite (proj2 (Z.ltb_ge _ _)) by lens. rewrite slice_app, slice_ok by lia.
  cbn [mbind outcome_bind]. rewrite dropz_0, Z.sub_0_r. by rewrite bool_decide_false.
Qed.

Lemma parse_status_ok b : wf_bytes b ->
  returns (parse_pes_header_status b) (status_ok parse_pes_header_status b).
Proof.
  intros Hb. destruct (Z.lt_ge_cases (len b) 6) as [Hs|Hs].
  { unfold parse_pes_header_status. rewrite (proj2 (Z.ltb_lt _ _)) by lia. apply returns_ret.
    simpl. lia. }
  destruct (decide (takez 3 b = [0x00; 0x00; 0x01])) as [E|E].
  2: { rewrite <- (app_nil_r b) at 1. rewrite parse_status_start by done. apply returns_ret.
       intros t. by apply parse_status_start. }
  pose proof (fun t => parse_status_app b t Hb Hs E) as Hp. cbv zeta in Hp.
  set (n := nthz b 4 * 256 + nthz b 5) in *.
  assert (0 <= n <= 65535) as Hn.
  { pose proof (wf_nthz b 4 Hb). pose proof (wf_nthz b 5 Hb). unfold is_byte in *. lia. }
  assert (forall e, pes_expected_len n = Some e -> n <> 0 /\ e = 6 + n /\ e <= 65541) as He
    by (intros; by apply pes_expected_len_bound).
  rewrite <- (app_nil_r b) at 1. rewrite Hp, app_nil_r.
  destruct (_ && _) eqn:E0; [by apply returns_ret|].
  destruct (negb (pes_stream_has_optional_header _)) eqn:Eo.
  { apply returns_ret. split; [|done]. unfold summary_ok; simpl. split_and!; try done; try lia.
    destruct (pes_expected_len n) eqn:Ee; [|done]. destruct (He _ eq_refl) as (? & ? & ?). lia. }
  destruct (Z.ltb_spec (len b) 9) as [H9|H9]; [apply returns_ret; simpl; lia|].
  assert (forall t, (len (b ++ t) <? 9) = false) as Hl9 by (intros; lens).
  rewrite <- (app_nil_r b) at 1. rewrite parse_optional_header_app, app_nil_r by lia.
  pose proof (wf_nthz b 8 Hb) as H8. unfold is_byte in H8.
  destruct (parse_optional_fields_ok b (nthz b 3) n (nthz b 6) (nthz b 7) (nthz b 8) Hb H8)
    as (s & -> & Hst). apply returns_ret. destruct s as [| |sum]; simpl in *; [lia| |].
  - intros t. by rewrite Hp, Hl9, parse_optional_header_app by lia.
  - destruct Hst as (Ho & Hle & Hsid & Hexp & Hn0 & Ht). split.
    + unfold summary_ok. rewrite Ho, Hexp. split_and!; try done; try lia.
      destruct (pes_expected_len n) eqn:Ee; [|done]. destruct (He _ eq_refl) as (? & ? & ?). lia.
    + intros t. by rewrite Hp, Hl9, parse_optional_header_app by lia.
Qed.

Lemma parse_status_inv b s : wf_bytes b -> parse_pes_header_status b = Ret s ->
  status_ok parse_pes_header_status b s.
Proof. intros Hb. exact (returns_inv _ _ s (parse_status_ok b Hb)). Qed.

Lemma parse_complete_extend b t sum : wf_bytes b ->
  parse_pes_header_status b = Ret (Complete sum) ->
  parse_pes_header_status (b ++ t) = Ret (Complete sum).
Proof. intros Hb H. by destruct (parse_status_inv b _ Hb H). Qed.

Lemma parse_malformed_extend b t : wf_bytes b -> parse_pes_header_status b = Ret Malformed ->
  parse_pes_header_status (b ++ t) = Ret Malformed.
Proof. intros Hb H. by apply (parse_status_inv b _ Hb H). Qed.

(** A header is complete as soon as its last byte is there. *)
Lemma parse_incomplete_short b t sum : wf_bytes b -> wf_bytes t ->
  parse_pes_header_status b = Ret Incomplete ->
  parse_pes_header_status (b ++ t) = Ret (Complete sum) -> len b < sum_payload_offset sum.
Proof.
  intros Hb Ht Hi Hc.
  assert (summary_ok (b ++ t) sum) as Hsum
    by (apply parse_status_inv in Hc as [? _]; [done|by apply wf_app]).
  destruct Hsum as ((Ho6 & _) & _).
  destruct (Z.lt_ge_cases (len b) 6) as [Hs|Hs]; [lia|].
  destruct (decide (takez 3 b = [0x00; 0x00; 0x01])) as [E|E];
    [|by rewrite parse_status_start in Hc].
  rewrite (parse_status_app b t Hb Hs E) in Hc. cbv zeta in Hc.
  rewrite <- (app_nil_r b) in Hi. rewrite (parse_status_app b [] Hb Hs E) in Hi. cbv zeta in Hi.
  set (n := nthz b 4 * 256 + nthz b 5) in *. rewrite app_nil_r in Hi.
  destruct (_ && _); [done|]. destruct (negb _); [done|].
  destruct (len (b ++ t) <? 9) eqn:E9; [done|]. breflect.
  assert (forall c hdl, wf_bytes c -> 0 <= hdl < 256 ->
    parse_optional_fields c (nthz b 3) n (nthz c 6) (nthz c 7) hdl = Ret (Complete sum) ->
    sum_payload_offset sum = 9 + hdl) as Hoff.
  { intros c hdl Hc' Hh Hr.
    by destruct (returns_inv _ _ _ (parse_optional_fields_ok c _ _ _ _ hdl Hc' Hh) Hr). }
  assert (wf_bytes (b ++ t)) as Hbt by (by apply wf_app).
  pose proof (wf_nthz (b ++ t) 8 Hbt) as H8. unfold is_byte in H8.
  destruct (Z.ltb_spec (len b) 9) as [H9|H9].
  - rewrite <- (app_nil_r (b ++ t)), parse_optional_header_app, app_nil_r in Hc by lia.
    apply Hoff in Hc; try done. lia.
  - rewrite parse_optional_header_app in Hc by lia.
    rewrite nthz_app_l in H8 by lia.
    rewrite <- (nthz_app_l b t 6), <- (nthz_app_l b t 7) in Hc by lia. apply Hoff in Hc; try done.
    rewrite <- (app_nil_r b), parse_optional_header_app, app_nil_r in Hi by lia.
    apply (returns_inv _ _ _ (parse_optional_fields_ok b _ _ _ _ _ Hb H8)) in Hi. simpl in Hi. lia.
Qed.

Lemma parse_complete_shrink b t sum : wf_bytes b -> wf_bytes t ->
  parse_pes_header_status (b ++ t) = Ret (Complete sum) -> sum_payload_offset sum <= len b ->
  parse_pes_header_status b = Ret (Complete sum).
Proof.
  intros Hb Ht Hc Ho. destruct (parse_status_ok b Hb) as ([| |s] & Hs & Hok).
  - pose proof (parse_incomplete_short b t sum Hb Ht Hs Hc). lia.
  - rewrite (parse_malformed_extend b t Hb Hs) in Hc. done.
  - rewrite (parse_complete_extend b t s Hb Hs) in Hc. congruence.
Qed.

(** ** The assembler's invariant *)
Definition pes_inv (a : PesAssembler) : Prop :=
  wf_bytes (pa_buf a) /\ len (pa_buf a) <= MAX_PES_BUFFER_BYTES /\
  match pa_pid a, pa_expected_len a, pa_unbounded_summary a with
  | None, e, u => pa_buf a = [] /\ e = None /\ u = None /\ pa_next_header a = None
  | Some _, Some e, u =>
      u = None /\ pa_next_header a = None /\ len (pa_buf a) < e /\
      exists s, parse_pes_header_status (pa_buf a) = Ret (Complete s) /\ sum_expected_len s = Some e
  | Some _, None, Some s =>
      parse_pes_header_status (pa_buf a) = Ret (Complete s) /\ sum_expected_len s = None
  | Some _, None, None =>
      pa_next_header a = None /\ parse_pes_header_status (pa_buf a) = Ret Incomplete
  end /\
  match pa_next_header a with
  | Some h => wf_bytes h /\ parse_pes_header_status h = Ret Incomplete
  | None => True
  end.

(** A packet handed out: its header is the parser's, the payload is what
    follows the header, and a declared length is met exactly. *)
Definition pes_good (p : PesPacket) : Prop :=
  exists s, parse_pes_header_status (pes_raw_bytes p) = Ret (Complete s) /\
    pes_stream_id p = sum_stream_id s /\ pes_pts_90khz p = sum_pts_90khz s /\
    pes_dts_90khz p = sum_dts_90khz s /\ pes_is_private_data p = sum_is_pes_private_data s /\
    pes_data_alignment_indicator p = sum_data_alignment_indicator s /\
    pes_payload p = dropz (sum_payload_offset s) (pes_raw_bytes p) /\
    match sum_expected_len s with Some e => len (pes_raw_bytes p) = e | None => True end /\
    len (pes_raw_bytes p) <= MAX_PES_BUFFER_BYTES.

Definition pes_idle (a : PesAssembler) : Prop :=
  pa_pid a = None /\ pa_buf a = [] /\ pa_expected_len a = None /\
  pa_unbounded_summary a = None /\ pa_next_header a = None.

Lemma pes_idle_inv a : pes_idle a -> pes_inv a.
Proof.
  destruct a; intros (? & ? & ? & ? & ?); simpl in *; subst.
  split_and!; simpl; auto with tv; done.
Qed.

Lemma reset_idle a : pes_idle (reset_state_only a).
Proof. done. Qed.
Lemma reset_with_drop_idle a r : pes_idle (reset_with_drop a r).
Proof. done. Qed.

(** The packet built from a buffer with a complete header. *)
Definition pes_of (pid : PacketPid) (b : bytes) (s : PesHeaderSummary) : PesPacket :=
  let raw := truncate b (sum_expected_len s) in
  mkPesPacket pid (sum_stream_id s) (sum_pts_90khz s) (sum_dts_90khz s)
    (sum_is_pes_private_data s) (sum_data_alignment_indicator s) raw
    (dropz (sum_payload_offset s) raw).

Lemma truncate_parses b s : wf_bytes b -> parse_pes_header_status b = Ret (Complete s) ->
  match sum_expected_len s with Some e => e <= len b | None => True end ->
  parse_pes_header_status (truncate b (sum_expected_len s)) = Ret (Complete s) /\
  wf_bytes (truncate b (sum_expected_len s)) /\
  summary_ok (truncate b (sum_expected_len s)) s /\
  match sum_expected_len s with Some e => len (truncate b (sum_expected_len s)) = e
  | None => truncate b (sum_expected_len s) = b end.
Proof.
  intros Hb Hp Hl. pose proof (parse_status_inv b _ Hb Hp) as [Hs _].
  assert (parse_pes_header_status (truncate b (sum_expected_len s)) = Ret (Complete s)) as Ht.
  { destruct Hs as (Ho & H6 & _ & Hst & _ & _ & He). unfold truncate.
    destruct (sum_expected_len s) as [e|]; [|done].
    apply (parse_complete_shrink _ (dropz e b)); auto with tv; [by rewrite takez_dropz|].
    rewrite len_takez; lia. }
  assert (wf_bytes (truncate b (sum_expected_len s))) as Hw
    by (unfold truncate; case_match; auto with tv).
  split_and!; try done; [by destruct (parse_status_inv _ _ Hw Ht)|].
  destruct Hs as (Ho & _ & _ & _ & _ & _ & He). unfold truncate.
  destruct (sum_expected_len s) as [e|]; [|done]. rewrite len_takez; lia.
Qed.

Lemma take_completed_eq a pid s : pa_pid a = Some pid -> wf_bytes (pa_buf a) ->
  parse_pes_header_status (pa_buf a) = Ret (Complete s) ->
  match sum_expected_len s with Some e => e <= len (pa_buf a) | None => True end ->
  take_completed a =
  Ret (with_assembly a None [] None None (pa_next_header a), Some (pes_of pid (pa_buf a) s)).
Proof.
  intros Hpid Hb Hp Hl. destruct (truncate_parses _ s Hb Hp Hl) as (Ht & Hw & Hs & _).
  unfold take_completed, parse_pes_header_summary. rewrite Hpid, Hp. cbn [mbind outcome_bind].
  replace (match sum_expected_len s with Some e => len (pa_buf a) <? e | None => false end)
    with false by (destruct (sum_expected_len s); lia).
  set (raw := truncate _ _) in *. destruct Hs as (Ho & H6 & _ & Hst & _).
  assert (starts_with raw [0; 0; 1] = true) as ->.
  { unfold starts_with. apply bool_decide_eq_true. rewrite takez_eq in Hst. exact Hst. }
  rewrite Z.min_l, slice_from_ok by lia. done.
Qed.

Lemma pes_of_good pid b s : wf_bytes b -> len b <= MAX_PES_BUFFER_BYTES ->
  parse_pes_header_status b = Ret (Complete s) ->
  match sum_expected_len s with Some e => e <= len b | None => True end ->
  pes_good (pes_of pid b s).
Proof.
  intros Hb Hm Hp Hl. destruct (truncate_parses b s Hb Hp Hl) as (Ht & Hw & Hs & He).
  exists s. simpl. split_and!; try done.
  - by destruct (sum_expected_len s).
  - unfold truncate in *. destruct (sum_expected_len s); [lia|done].
Qed.

(** ** Safety of a push *)
Lemma push_guard_ok a pid pusi : pes_inv a ->
  let '(a', go) := push_guard a pid pusi in
  pes_inv a' /\ (go = true -> pa_pid a' = Some pid).
Proof.
  intros Hi. unfold push_guard. destruct pusi.
  - destruct (_ && _ && _) eqn:E.
    + apply andb_prop in E as [E Hn]. apply andb_prop in E as [Hu Hpid].
      apply bool_decide_eq_true in Hu as [s Hu]. apply bool_decide_eq_true in Hpid.
      split; [|done]. destruct Hi as (Hw & Hm & Hs & _).
      unfold pes_inv; simpl. rewrite Hpid, Hu in *.
      destruct (pa_expected_len a); [by destruct Hs|].
      split_and!; auto with tv; apply Hs.
    + split; [|done].
      replace (if bool_decide (is_Some (pa_unbounded_summary a)) then _ else _)
        with (with_assembly (if bool_decide (is_Some (pa_unbounded_summary a))
          then reset_with_drop a MalformedPes else reset_state_only a) None [] None None None)
        by (by case_bool_decide).
      by split_and!; simpl; auto with tv.
  - destruct (negb _) eqn:E.
    + split; [apply pes_idle_inv, reset_with_drop_idle|done].
    + breflect. auto.
Qed.

(** Between the two halves of [push]: a header already known is the buffer's. *)
Definition pes_mid (a : PesAssembler) : Prop :=
  is_Some (pa_pid a) /\ wf_bytes (pa_buf a) /\ pa_next_header a = None /\
  match pa_expected_len a, pa_unbounded_summary a with
  | Some e, u => u = None /\ exists s,
      parse_pes_header_status (pa_buf a) = Ret (Complete s) /\ sum_expected_len s = Some e
  | None, Some s =>
      parse_pes_header_status (pa_buf a) = Ret (Complete s) /\ sum_expected_len s = None
  | None, None => True
  end.

Lemma push_bytes_ok a pid payload : pes_inv a -> pa_pid a = Some pid -> wf_bytes payload ->
  returns (push_bytes a pid payload) (fun '(a', out, go) =>
    Forall pes_good out /\ if go : bool then pes_mid a' else pes_inv a').
Proof.
  intros (Hw & Hm & Hs & Hh) Hpid Hp. unfold push_bytes. rewrite Hpid in Hs |- *.
  destruct (pa_next_header a) as [h|] eqn:En.
  - destruct Hh as [Hwh Hih]. pose proof (parse_status_inv h _ Hwh Hih) as Hlh. simpl in Hlh.
    destruct (pa_expected_len a) as [e|] eqn:Ee; [by destruct Hs as (_ & ? & _)|].
    destruct (pa_unbounded_summary a) as [s|] eqn:Eu; [|by destruct Hs]. destruct Hs as [Hps Hse].
    unfold checked_sub. rewrite (proj2 (Z.leb_le _ _)) by lia. pose_lens.
    set (copied := Z.min (264 - len h) (len payload)). assert (0 <= copied <= len payload) by lia.
    in_range. cbn [mbind outcome_bind]. rewrite Z.sub_0_r, dropz_0.
    assert (wf_bytes (h ++ takez copied payload)) as Hwn by (apply wf_app; auto with tv).
    destruct (parse_status_ok _ Hwn) as (st & Est & Hst). rewrite Est. cbn [mbind outcome_bind].
    destruct st as [| |sum].
    + apply returns_ret. split; [done|]. unfold pes_inv; simpl. auto.
    + apply returns_ret. split; [done|]. apply pes_idle_inv, reset_with_drop_idle.
    + erewrite take_completed_eq; simpl; try done; [|by rewrite Hse]. cbn [mbind outcome_bind].
      in_range. cbn [mbind outcome_bind]. apply returns_ret. split.
      * apply Forall_singleton. apply pes_of_good; try done. by rewrite Hse.
      * split_and!; simpl; try done. apply wf_app; auto with tv.
  - apply returns_ret. split; [done|]. unfold pes_mid; simpl.
    split_and!; try done; [apply wf_app; auto|].
    destruct (pa_expected_len a) as [e|].
    + destruct Hs as (-> & _ & _ & s & Hps & Hse). split; [done|]. exists s.
      split; [by apply parse_complete_extend|done].
    + destruct (pa_unbounded_summary a); [|done]. destruct Hs as [Hps Hse].
      split; [by apply parse_complete_extend|done].
Qed.

(** With the header in hand: oversize guard and completion. *)
Definition push_complete (a : PesAssembler) (out : list PesPacket)
  : outcome (PesAssembler * list PesPacket) :=
  if len (pa_buf a) >? MAX_PES_BUFFER_BYTES then Ret (reset_with_drop a OversizedPes, out) else
  match pa_expected_len a with
  | Some e =>
      if e <=? len (pa_buf a) then
        r ← take_completed a;
        let '(a, packet) := r in
        Ret (a, out ++ option_list packet)
      else Ret (a, out)
  | None => Ret (a, out)
  end.

Lemma push_complete_ok a out : pes_mid a -> Forall pes_good out ->
  (pa_expected_len a = None -> pa_unbounded_summary a = None ->
   parse_pes_header_status (pa_buf a) = Ret Incomplete) ->
  returns (push_complete a out) (fun '(a', out') => pes_inv a' /\ Forall pes_good out').
Proof.
  intros ([pid Hpid] & Hw & Hn & Hs) Ho Hinc. unfold push_complete.
  case_test; [apply returns_ret; split; [apply pes_idle_inv, reset_with_drop_idle|done]|]. breflect.
  destruct (pa_expected_len a) as [e|] eqn:Ee.
  - destruct Hs as (Hu & s & Hps & Hse). destruct (Z.leb_spec e (len (pa_buf a))) as [Hl|Hl].
    + erewrite take_completed_eq; try done; [|by rewrite Hse]. cbn [mbind outcome_bind].
      apply returns_ret. split; [apply pes_idle_inv; by rewrite Hn|].
      apply Forall_app; split; [done|]. apply Forall_singleton.
      apply pes_of_good; try done. by rewrite Hse.
    + apply returns_ret. split; [|done]. unfold pes_inv. rewrite Hpid, Ee, Hn.
      split_and!; try done. eauto.
  - apply returns_ret. split; [|done]. unfold pes_inv. rewrite Hpid, Ee, Hn.
    destruct (pa_unbounded_summary a); split_and!; try done; auto; apply Hs.
Qed.

Lemma push_finish_ok a out : pes_mid a -> Forall pes_good out ->
  returns (push_finish a out) (fun '(a', out') => pes_inv a' /\ Forall pes_good out').
Proof.
  intros Hm Ho. unfold push_finish. pose proof Hm as (Hpid & Hw & Hn & Hs).
  case_bool_decide as Ee.
  - destruct (parse_status_ok _ Hw) as (st & Est & _). rewrite Est. cbn [mbind outcome_bind].
    destruct st as [| |sum]; cbn [negb].
    + apply push_complete_ok; try done.
    + apply returns_ret. split; [apply pes_idle_inv, reset_with_drop_idle|done].
    + apply push_complete_ok; [|done|].
      * split_and!; try done. simpl. destruct (sum_expected_len sum) as [e|] eqn:Es.
        -- rewrite bool_decide_false by done. eauto.
        -- by rewrite bool_decide_true.
      * simpl. intros Hs1. by rewrite Hs1, bool_decide_true.
  - cbn [mbind outcome_bind negb]. apply push_complete_ok; try done.
Qed.

Lemma pes_push_ok a pid pusi payload : pes_inv a -> wf_bytes payload ->
  returns (pes_push a pid pusi payload)
    (fun '(a', out) => pes_inv a' /\ Forall pes_good out).
Proof.
  intros Hi Hp. unfold pes_push. pose proof (push_guard_ok a pid pusi Hi) as Hg.
  destruct (push_guard a pid pusi) as [a1 go]. destruct Hg as [Hi1 Hgo].
  destruct go; cbn [negb]; [|by apply returns_ret].
  eapply returns_bind; [by apply push_bytes_ok; [|apply Hgo|]|].
  intros [[a2 out] go2] [Ho Hs]. destruct go2; cbn [negb]; [|by apply returns_ret].
  by apply push_finish_ok.
Qed.

(** C14. The PES assembler is safe on every packet sequence: a push never
    panics (the room left for a next header, [264 - header.len()], is never
    negative), keeps the assembler's invariant and its 1 MiB bound, and hands
    out only packets whose raw bytes start with the header their fields come
    from, whose payload is what follows that header, and which are exactly as
    long as they declare. *)
Theorem pes_push_safe (a : PesAssembler) (pid : PacketPid) (pusi : bool) (payload : bytes) :
  pes_inv a -> wf_bytes payload ->
  returns (pes_push a pid pusi payload)
    (fun '(a', out) => pes_inv a' /\ Forall pes_good out).
Proof. apply pes_push_ok. Qed.

(** ** Reassembly

    The assembler of [a] while it collects [b] on a PID. *)
Definition exp_of (b : bytes) : option Z :=
  match parse_pes_header_status b with Ret (Complete s) => sum_expected_len s | _ => None end.
Definition unb_of (b : bytes) : option PesHeaderSummary :=
  match parse_pes_header_status b with
  | Ret (Complete s) => if bool_decide (sum_expected_len s = None) then Some s else None
  | _ => None
  end.
Definition collecting (a : PesAssembler) (pid : PacketPid) (b : bytes) : PesAssembler :=
  with_assembly a (Some pid) b (exp_of b) (unb_of b) None.

Section Collect.
  Context (a : PesAssembler) (pid : PacketPid) (s : PesHeaderSummary) (pes t : bytes).
  Hypothesis (Hwf : wf_bytes (pes ++ t)).
  Hypothesis (Hpes : parse_pes_header_status pes = Ret (Complete s)).

(** No prefix is malformed, and a complete one has the summary of the whole. *)
Lemma prefix_status b rest : b ++ rest = pes ++ t ->
  parse_pes_header_status b = Ret Incomplete \/ parse_pes_header_status b = Ret (Complete s).
Proof.
  intros E. assert (wf_bytes b) as Hb by (rewrite <- E in Hwf; by apply wf_app in Hwf as [? _]).
  assert (parse_pes_header_status (b ++ rest) = Ret (Complete s)) as Hc.
  { rewrite E. apply parse_complete_extend; [by apply wf_app in Hwf as [? _]|done]. }
  destruct (parse_status_ok b Hb) as ([| |s'] & Hs & _); [by left| |right].
  - by rewrite (parse_malformed_extend b rest Hb Hs) in Hc.
  - rewrite (parse_complete_extend b rest s' Hb Hs) in Hc. congruence.
Qed.

(** The tail of a push that extends [pre] by [c]. *)
Lemma push_finish_collect pre c rest out : pre ++ c ++ rest = pes ++ t ->
  len (pre ++ c) <= MAX_PES_BUFFER_BYTES ->
  push_finish (with_assembly a (Some pid) (pre ++ c) (exp_of pre) (unb_of pre) None) out =
  push_complete (collecting a pid (pre ++ c)) out.
Proof.
  intros E Hm. unfold push_finish, collecting, exp_of, unb_of.
  change (pa_buf (with_assembly _ _ ?b _ _ _)) with b.
  destruct (prefix_status (pre ++ c) rest) as [H|H]; [by rewrite <- app_assoc| |];
    destruct (prefix_status pre (c ++ rest) E) as [H'|H']; rewrite H, H'; simpl.
  - done.
  - exfalso. assert (wf_bytes pre) as Hp
      by (rewrite <- E in Hwf; by apply wf_app in Hwf as [? _]).
    rewrite (parse_complete_extend pre c s Hp H') in H. done.
  - done.
  - case_bool_decide as E0; simpl; [|done]. by rewrite E0.
Qed.

Lemma push_continue pre c rest : pre ++ c ++ rest = pes ++ t ->
  len (pre ++ c) <= MAX_PES_BUFFER_BYTES ->
  pes_push (collecting a pid pre) pid false c = push_complete (collecting a pid (pre ++ c)) [].
Proof.
  intros E Hm. unfold pes_push, push_guard. cbn [pa_pid collecting with_assembly].
  rewrite bool_decide_true by done. cbn [negb]. unfold push_bytes. cbn [pa_next_header collecting
    with_assembly mbind outcome_bind negb]. by apply (push_finish_collect pre c rest).
Qed.

Lemma push_begin c rest : pes_idle a -> c ++ rest = pes ++ t ->
  len c <= MAX_PES_BUFFER_BYTES ->
  pes_push a pid true c = push_complete (collecting a pid c) [].
Proof.
  intros (Hpid & Hb & He & Hu & Hn) E Hm. unfold pes_push, push_guard. rewrite Hu.
  rewrite bool_decide_false by done. cbn [andb negb]. unfold push_bytes.
  cbn [pa_next_header with_assembly reset_state_only mbind outcome_bind negb].
  apply (push_finish_collect [] c rest); [done|done].
Qed.

(** Still collecting: too short, or no declared length. *)
Lemma push_complete_wait b rest out : b ++ rest = pes ++ t -> len b <= MAX_PES_BUFFER_BYTES ->
  match sum_expected_len s with Some e => len b < e | None => True end ->
  push_complete (collecting a pid b) out = Ret (collecting a pid b, out).
Proof.
  intros E Hm Hl. unfold push_complete. cbn [pa_buf pa_expected_len collecting with_assembly].
  rewrite Z.gtb_ltb, (proj2 (Z.ltb_ge _ _)) by done. unfold exp_of.
  destruct (prefix_status b rest E) as [-> | ->]; [done|].
  destruct (sum_expected_len s); [|done]. by rewrite (proj2 (Z.leb_gt _ _)).
Qed.

Lemma pes_of_truncate : sum_expected_len s = Some (len pes) -> forall t',
  pes_of pid (pes ++ t') s = pes_of pid pes s.
Proof.
  intros He t'. unfold pes_of, truncate. rewrite He, takez_app_exact. by rewrite takez_all by lia.
Qed.

(** Enough bytes: the packet is handed out and nothing is left. *)
Lemma push_complete_done t1 t2 out : pes_idle a -> t = t1 ++ t2 ->
  sum_expected_len s = Some (len pes) -> len (pes ++ t1) <= MAX_PES_BUFFER_BYTES ->
  push_complete (collecting a pid (pes ++ t1)) out = Ret (a, out ++ [pes_of pid pes s]).
Proof.
  intros Hi -> He Hm. apply wf_app in Hwf as [Hw1 Hwt]. apply wf_app in Hwt as [Hwt _].
  assert (parse_pes_header_status (pes ++ t1) = Ret (Complete s)) as Hc
    by (by apply parse_complete_extend).
  assert (exp_of (pes ++ t1) = Some (len pes)) as Hx by (unfold exp_of; by rewrite Hc).
  unfold push_complete.
  change (pa_buf (collecting a pid (pes ++ t1))) with (pes ++ t1).
  change (pa_expected_len (collecting a pid (pes ++ t1))) with (exp_of (pes ++ t1)).
  rewrite Hx, Z.gtb_ltb, (proj2 (Z.ltb_ge _ _)), (proj2 (Z.leb_le _ _)) by (done || lens).
  erewrite take_completed_eq; [| done | by apply wf_app | exact Hc |].
  2: { rewrite He. change (pa_buf (collecting a pid (pes ++ t1))) with (pes ++ t1). lens. }
  cbn [mbind outcome_bind option_list].
  change (pa_buf (collecting a pid (pes ++ t1))) with (pes ++ t1).
  rewrite pes_of_truncate by done. do 2 f_equal.
  destruct a, Hi as (? & ? & ? & ? & ?); simpl in *; by subst.
Qed.
End Collect.

Fixpoint pes_push_all (a : PesAssembler) (pid : PacketPid) (packets : list (bool * bytes))
  : outcome (PesAssembler * list PesPacket) :=
  match packets with
  | [] => Ret (a, [])
  | (pusi, payload) :: packets =>
      h ← pes_push a pid pusi payload;
      let '(a, out) := h in
      r ← pes_push_all a pid packets;
      let '(a, out') := r in
      Ret (a, out ++ out')
  end.

Lemma reset_idle_id a r : pes_idle a -> reset_with_drop a r = a.
Proof. destruct a; intros (? & ? & ? & ? & ?); simpl in *; by subst. Qed.

Lemma pes_idle_continuations a pid cs : pes_idle a ->
  pes_push_all a pid (map (pair false) cs) = Ret (a, []).
Proof.
  intros Hi. induction cs as [|c cs IH]; [done|]. simpl.
  unfold pes_push at 1, push_guard. destruct Hi as (Hp & Hrest) eqn:E.
  rewrite Hp, bool_decide_false by done. cbn [negb].
  rewrite reset_idle_id by done. cbn [negb mbind outcome_bind]. by rewrite IH.
Qed.

Lemma bounded_run a pid s pes t cs pre : pes_idle a -> wf_bytes (pes ++ t) ->
  parse_pes_header_status pes = Ret (Complete s) -> sum_expected_len s = Some (len pes) ->
  len (pes ++ t) <= MAX_PES_BUFFER_BYTES -> pre ++ concat cs = pes ++ t -> len pre < len pes ->
  pes_push_all (collecting a pid pre) pid (map (pair false) cs) = Ret (a, [pes_of pid pes s]).
Proof.
  intros Hi Hw Hp He Hm. revert pre. induction cs as [|c cs IH]; intros pre E Hl;
    cbn [concat map pes_push_all] in *.
  { exfalso. apply (f_equal len) in E. rewrite !len_app, len_nil in E. pose_lens. lia. }
  assert (len (pre ++ c) <= MAX_PES_BUFFER_BYTES) as Hmc.
  { rewrite app_assoc in E. apply (f_equal len) in E. rewrite (len_app (pre ++ c)) in E. pose_lens. lia. }
  rewrite (push_continue a pid s pes t Hw Hp pre c (concat cs) E Hmc). rewrite app_assoc in E.
  destruct (Z.lt_ge_cases (len (pre ++ c)) (len pes)) as [Hlt|Hge].
  - rewrite (push_complete_wait a pid s pes t Hw Hp (pre ++ c) (concat cs)); try done;
      [|by rewrite He]. cbn [mbind outcome_bind]. by rewrite IH.
  - destruct (app_split_ge _ _ _ _ E Hge) as (t1 & E1 & E2).
    rewrite E1, (push_complete_done a pid s pes t Hw Hp t1 (concat cs)); try done; [|by rewrite <- E1].
    cbn [mbind outcome_bind]. by rewrite pes_idle_continuations.
Qed.

Lemma unbounded_run a pid s pes cs pre : wf_bytes pes ->
  parse_pes_header_status pes = Ret (Complete s) -> sum_expected_len s = None ->
  len pes <= MAX_PES_BUFFER_BYTES -> pre ++ concat cs = pes ->
  pes_push_all (collecting a pid pre) pid (map (pair false) cs) = Ret (collecting a pid pes, []).
Proof.
  intros Hw Hp He Hm. assert (wf_bytes (pes ++ [])) as Hw0 by (by rewrite app_nil_r).
  revert pre. induction cs as [|c cs IH]; intros pre E; cbn [concat map pes_push_all] in *.
  { by rewrite app_nil_r in E; subst. }
  assert (pre ++ c ++ concat cs = pes ++ []) as E0 by (by rewrite app_nil_r).
  assert (len (pre ++ c) <= MAX_PES_BUFFER_BYTES) as Hmc.
  { rewrite app_assoc in E. apply (f_equal len) in E. rewrite (len_app (pre ++ c)) in E. pose_lens. lia. }
  rewrite (push_continue a pid s pes [] Hw0 Hp pre c (concat cs) E0 Hmc). rewrite app_assoc in E0, E.
  rewrite (push_complete_wait a pid s pes [] Hw0 Hp (pre ++ c) (concat cs)); try done;
    [|by rewrite He]. cbn [mbind outcome_bind]. by rewrite IH.
Qed.

(** The output of the tail is only appended to. *)
Lemma push_finish_out a out :
  push_finish a out = (h ← push_finish a []; Ret (h.1, out ++ h.2)).
Proof.
  unfold push_finish. destruct (if bool_decide _ then _ else _) as [[a' go]| |];
    cbn [mbind outcome_bind]; try done.
  destruct go; cbn [negb]; [|cbn; by rewrite app_nil_r].
  case_test; [cbn; by rewrite app_nil_r|].
  case_test; [|cbn; by rewrite app_nil_r]. case_test; [|cbn; by rewrite app_nil_r].
  destruct (take_completed a') as [[a2 p]| |]; cbn [mbind outcome_bind]; done.
Qed.

(** A complete next header closes the unbounded packet before it. *)
Lemma push_bytes_next a pid s pes s' nh : wf_bytes pes -> wf_bytes nh ->
  parse_pes_header_status pes = Ret (Complete s) -> sum_expected_len s = None ->
  parse_pes_header_status nh = Ret (Complete s') ->
  push_bytes (with_assembly a (Some pid) pes None (Some s) (Some [])) pid nh =
  Ret (with_assembly a (Some pid) nh None None None, [pes_of pid pes s], true).
Proof.
  intros Hw Hwn Hp He Hn. unfold push_bytes.
  change (pa_next_header (with_assembly _ _ _ _ _ ?h)) with h. cbv beta iota zeta.
  replace (checked_sub 264 (len [])) with (Some 264) by done.
  set (copied := Z.min 264 (len nh)).
  assert (0 <= copied <= len nh) by (subst copied; pose_lens; lia).
  rewrite slice_ok by lia. cbn [mbind outcome_bind app]. rewrite Z.sub_0_r, dropz_0.
  pose proof (parse_status_inv nh _ Hwn Hn) as [(Ho & _ & H264 & _) _].
  rewrite (parse_complete_shrink (takez copied nh) (dropz copied nh) s'); auto with tv;
    [|by rewrite takez_dropz|rewrite len_takez by lia; lia].
  cbn [mbind outcome_bind].
  erewrite take_completed_eq; [|done|done|exact Hp|by rewrite He].
  cbn [mbind outcome_bind]. rewrite slice_from_ok by lia. cbn [mbind outcome_bind option_list].
  by rewrite takez_dropz.
Qed.

Lemma push_next_unbounded a pid s pes s' nh : pes_idle a -> wf_bytes pes -> wf_bytes nh ->
  parse_pes_header_status pes = Ret (Complete s) -> sum_expected_len s = None ->
  parse_pes_header_status nh = Ret (Complete s') ->
  pes_push (collecting a pid pes) pid true nh =
  (h ← pes_push a pid true nh; Ret (h.1, pes_of pid pes s :: h.2)).
Proof.
  intros Hi Hw Hwn Hp He Hn.
  assert (collecting a pid pes = with_assembly a (Some pid) pes None (Some s) None) as ->.
  { unfold collecting, exp_of, unb_of. by rewrite Hp, He, bool_decide_true. }
  assert (forall b, pes_push a pid true b =
    push_finish (with_assembly a (Some pid) b None None None) []) as Hidle.
  { intros b. destruct Hi as (_ & _ & _ & Hui & _). unfold pes_push, push_guard.
    rewrite Hui, bool_decide_false by done. done. }
  rewrite Hidle. etransitivity; [|exact (push_finish_out _ [pes_of pid pes s])].
  unfold pes_push.
  replace (push_guard (with_assembly a (Some pid) pes None (Some s) None) pid true)
    with (with_assembly a (Some pid) pes None (Some s) (Some []), true)
    by (unfold push_guard; simpl; by rewrite !bool_decide_true by done).
  cbn [negb]. rewrite (push_bytes_next a pid s pes s' nh Hw Hwn Hp He Hn). done.
Qed.

(** C7. Reassembly of bounded packets: a PES packet cut into arbitrary pieces
    over one unit-start and any number of continuation packets comes out once,
    with its raw bytes unchanged, and trailing bytes beyond its declared
    length are cut off; the assembler ends as it began. *)
Theorem pes_bounded_reassembly (a : PesAssembler) (pid : PacketPid) (s : PesHeaderSummary)
    (pes t c0 : bytes) (cs : list bytes) :
  pes_idle a -> wf_bytes (pes ++ t) -> len (pes ++ t) <= MAX_PES_BUFFER_BYTES ->
  parse_pes_header_status pes = Ret (Complete s) -> sum_expected_len s = Some (len pes) ->
  concat (c0 :: cs) = pes ++ t ->
  pes_push_all a pid ((true, c0) :: map (pair false) cs) = Ret (a, [pes_of pid pes s]) /\
  pes_raw_bytes (pes_of pid pes s) = pes.
Proof.
  intros Hi Hw Hm Hp He E. split; [|simpl; unfold truncate; rewrite He; apply takez_all; lia].
  cbn [concat pes_push_all] in *.
  assert (len c0 <= MAX_PES_BUFFER_BYTES) as Hmc.
  { apply (f_equal len) in E. rewrite (len_app c0) in E. pose_lens. lia. }
  rewrite (push_begin a pid s pes t Hw Hp c0 (concat cs) Hi E Hmc).
  destruct (Z.lt_ge_cases (len c0) (len pes)) as [Hlt|Hge].
  - rewrite (push_complete_wait a pid s pes t Hw Hp c0 (concat cs)); try done; [|by rewrite He].
    cbn [mbind outcome_bind]. by rewrite (bounded_run a pid s pes t).
  - destruct (app_split_ge _ _ _ _ E Hge) as (t1 & E1 & E2).
    rewrite E1, (push_complete_done a pid s pes t Hw Hp t1 (concat cs)); try done;
      [|by rewrite <- E1]. cbn [mbind outcome_bind]. by rewrite pes_idle_continuations.
Qed.

Lemma pes_push_all_app a pid l k a' out : pes_push_all a pid l = Ret (a', out) ->
  pes_push_all a pid (l ++ k) = (h ← pes_push_all a' pid k; Ret (h.1, out ++ h.2)).
Proof.
  revert a out. induction l as [|[pusi c] l IH]; intros a out H; cbn [app pes_push_all] in *.
  { simplify_eq. by destruct (pes_push_all a' pid k) as [[? ?]| |]. }
  destruct (pes_push a pid pusi c) as [[a1 o1]| |]; cbn [mbind outcome_bind] in *; try done.
  destruct (pes_push_all a1 pid l) as [[a2 o2]| |] eqn:E; cbn [mbind outcome_bind] in *; try done.
  injection H as -> <-. rewrite (IH a1 o2) by done.
  destruct (pes_push_all a' pid k) as [[a3 o3]| |]; cbn [mbind outcome_bind fst snd]; try done.
  by rewrite app_assoc.
Qed.

(** C28. Reassembly of unbounded packets (video with a zero length): the pieces
    are collected without output, and the next unit start with a complete
    header hands out exactly the collected packet and otherwise does what it
    would do on an idle assembler. *)
Theorem pes_unbounded_reassembly (a : PesAssembler) (pid : PacketPid) (s s' : PesHeaderSummary)
    (pes c0 nh : bytes) (cs : list bytes) :
  pes_idle a -> wf_bytes pes -> wf_bytes nh -> len pes <= MAX_PES_BUFFER_BYTES ->
  parse_pes_header_status pes = Ret (Complete s) -> sum_expected_len s = None ->
  parse_pes_header_status nh = Ret (Complete s') -> concat (c0 :: cs) = pes ->
  pes_push_all a pid (((true, c0) :: map (pair false) cs) ++ [(true, nh)]) =
    (h ← pes_push a pid true nh; Ret (h.1, pes_of pid pes s :: h.2)) /\
  pes_raw_bytes (pes_of pid pes s) = pes.
Proof.
  intros Hi Hw Hwn Hm Hp He Hn E. split; [|simpl; unfold truncate; by rewrite He].
  assert (wf_bytes (pes ++ [])) as Hw0 by (by rewrite app_nil_r).
  assert (pes_push_all a pid ((true, c0) :: map (pair false) cs) = Ret (collecting a pid pes, []))
    as Hrun.
  { cbn [concat pes_push_all] in *.
    assert (c0 ++ concat cs = pes ++ []) as E0 by (by rewrite app_nil_r).
    assert (len c0 <= MAX_PES_BUFFER_BYTES) as Hmc.
    { apply (f_equal len) in E. rewrite (len_app c0) in E. pose_lens. lia. }
    rewrite (push_begin a pid s pes [] Hw0 Hp c0 (concat cs) Hi E0 Hmc).
    rewrite (push_complete_wait a pid s pes [] Hw0 Hp c0 (concat cs)); try done; [|by rewrite He].
    cbn [mbind outcome_bind]. by rewrite (unbounded_run a pid s pes). }
  rewrite (pes_push_all_app _ _ _ _ _ _ Hrun). cbn [pes_push_all].
  rewrite (push_next_unbounded a pid s pes s' nh) by done.
  destruct (pes_push a pid true nh) as [[a2 o2]| |]; cbn [mbind outcome_bind fst snd]; try done.
  by rewrite app_nil_r.
Qed.

(** ** Time stamps and headers as a sender writes them *)

(** The five-byte field of a 33-bit stamp: marker bits set. *)
Definition pts_field (prefix v : Z) : bytes :=
  [prefix * 16 + (v / 2 ^ 30) * 2 + 1; (v / 2 ^ 22) mod 256; ((v / 2 ^ 15) mod 128) * 2 + 1;
   (v / 2 ^ 7) mod 256; (v mod 128) * 2 + 1].

Lemma odd_shiftr x : Z.shiftr (x * 2 + 1) 1 = x.
Proof. rewrite Z.shiftr_div_pow2 by lia. change (2 ^ 1) with 2. rewrite Z.div_add_l by lia. change (1 / 2) with 0. lia. Qed.
Lemma odd_land x : (Z.land (x * 2 + 1) 0x01 =? 0) = false.
Proof.
  change 0x01 with (Z.ones 1). rewrite land_ones_mod by lia. change (2 ^ 1) with 2.
  rewrite Z.add_comm, Z.mod_add by lia. done.
Qed.

Lemma pts_split v : u33 v ->
  v = (v / 2 ^ 30) * 2 ^ 30 + ((v / 2 ^ 22) mod 256) * 2 ^ 22 + ((v / 2 ^ 15) mod 128) * 2 ^ 15
      + ((v / 2 ^ 7) mod 256) * 2 ^ 7 + v mod 128.
Proof.
  intros Hv. change (2 ^ 30) with (128 * 256 * 128 * 256). change (2 ^ 22) with (128 * 256 * 128).
  change (2 ^ 15) with (128 * 256). change (2 ^ 7) with 128.
  rewrite <- !Z.div_div by lia.
  pose proof (Z.div_mod v 128). pose proof (Z.div_mod (v / 128) 256).
  pose proof (Z.div_mod (v / 128 / 256) 128). pose proof (Z.div_mod (v / 128 / 256 / 128) 256). lia.
Qed.

Lemma pts_field_value prefix v t : u33 v -> 0 <= prefix < 16 ->
  pts_dts_field_value (pts_field prefix v ++ t) prefix = Ret (Some v).
Proof.
  intros Hv Hp. unfold pts_dts_field_value. rewrite (proj2 (Z.ltb_ge _ _)) by (unfold pts_field; lens).
  rewrite !byte_at_ok by (unfold pts_field; lens). cbn [mbind outcome_bind].
  set (h := v / 2 ^ 30). assert (0 <= h < 8) as Hh.
  { unfold u33, h in *. split; [apply Z.div_pos|apply Z.div_lt_upper_bound]; lia. }
  change (nthz (pts_field prefix v ++ t) 0) with (prefix * 16 + h * 2 + 1).
  change (nthz (pts_field prefix v ++ t) 1) with ((v / 2 ^ 22) mod 256).
  change (nthz (pts_field prefix v ++ t) 2) with (((v / 2 ^ 15) mod 128) * 2 + 1).
  change (nthz (pts_field prefix v ++ t) 3) with ((v / 2 ^ 7) mod 256).
  change (nthz (pts_field prefix v ++ t) 4) with ((v mod 128) * 2 + 1).
  assert (prefix * 16 + h * 2 + 1 = (prefix * 8 + h) * 2 + 1) as -> by lia.
  rewrite !odd_land, !odd_shiftr. cbn [orb].
  replace (Z.shiftr ((prefix * 8 + h) * 2 + 1) 4) with prefix.
  2: { rewrite Z.shiftr_div_pow2 by lia. apply Z.div_unique with (h * 2 + 1); lia. }
  rewrite Z.eqb_refl. cbn [negb]. do 2 f_equal.
  pose proof (land_ones_mod (prefix * 8 + h) 3) as HL. change (Z.ones 3) with 7 in HL.
  rewrite HL by lia. change (2 ^ 3) with 8.
  rewrite Z.add_comm, Z.mod_add, (Z.mod_small h) by lia. rewrite <- !Z.lor_assoc.
  pose proof (Z.mod_pos_bound v 128). pose proof (Z.mod_pos_bound (v / 2 ^ 7) 256).
  pose proof (Z.mod_pos_bound (v / 2 ^ 15) 128). pose proof (Z.mod_pos_bound (v / 2 ^ 22) 256).
  rewrite (lor_shiftl_add _ _ 7), (lor_shiftl_add _ _ 15), (lor_shiftl_add _ _ 22),
    (lor_shiftl_add _ _ 30) by lia.
  etransitivity; [|symmetry; exact (pts_split v Hv)]. unfold h. lia.
Qed.

(** A PES header with a presentation stamp and, optionally, a decoding stamp. *)
Definition stamps (pts : Z) (dts : option Z) : bytes :=
  match dts with
  | None => pts_field 2 pts
  | Some d => pts_field 3 pts ++ pts_field 1 d
  end.
Definition stamp_flags (dts : option Z) : Z := match dts with Some _ => 0xc0 | None => 0x80 end.
Definition pes_header (sid n : Z) (align : bool) (pts : Z) (dts : option Z) (stuff : bytes) : bytes :=
  [0x00; 0x00; 0x01; sid; n / 256; n mod 256; if align then 0x84 else 0x80;
   stamp_flags dts; len (stamps pts dts ++ stuff)] ++ stamps pts dts ++ stuff.

Lemma slice_mid {A} (l m t : list A) :
  slice (l ++ m ++ t) (len l) (len l + len m) = Ret m.
Proof.
  pose_lens. rewrite slice_ok by lens. rewrite dropz_app_exact.
  replace (len l + len m - len l) with (len m) by lia. by rewrite takez_app_exact.
Qed.

Lemma pes_stamps_parsed hdr pts dts rest : len hdr = 9 -> u33 pts ->
  match dts with Some d => u33 d | None => True end ->
  pes_timestamps (hdr ++ stamps pts dts ++ rest) (Z.land (Z.shiftr (stamp_flags dts) 6) 3)
  = Ret (Some (Some pts, dts)).
Proof.
  intros Hl Hp Hd. assert (forall p v, len (pts_field p v) = 5) as H5 by done.
  destruct dts as [d|]; cbn [stamps].
  - unfold pes_timestamps. change (Z.land (Z.shiftr (stamp_flags (Some d)) 6) 3) with 3. cbn [Z.eqb Pos.eqb].
    rewrite <- !app_assoc. pose proof (slice_mid hdr (pts_field 3 pts) (pts_field 1 d ++ rest)) as S1.
    rewrite Hl, H5 in S1. change (9 + 5) with 14 in S1. rewrite S1. cbn [mbind outcome_bind].
    rewrite <- (app_nil_r (pts_field 3 pts)) at 1. rewrite pts_field_value by (done || lia).
    cbn [mbind outcome_bind].
    pose proof (slice_mid (hdr ++ pts_field 3 pts) (pts_field 1 d) rest) as S2.
    rewrite len_app, Hl, !H5, <- app_assoc in S2. change (9 + 5 + 5) with 19 in S2.
    change (9 + 5) with 14 in S2. rewrite S2. cbn [mbind outcome_bind].
    rewrite <- (app_nil_r (pts_field 1 d)) at 1. by rewrite pts_field_value by (done || lia).
  - unfold pes_timestamps. change (Z.land (Z.shiftr (stamp_flags None) 6) 3) with 2. cbn [Z.eqb Pos.eqb].
    pose proof (slice_mid hdr (pts_field 2 pts) rest) as S1.
    rewrite Hl, H5 in S1. change (9 + 5) with 14 in S1. rewrite S1. cbn [mbind outcome_bind].
    rewrite <- (app_nil_r (pts_field 2 pts)) at 1. by rewrite pts_field_value by (done || lia).
Qed.

Lemma no_private_data dts oh : len oh <= 255 ->
  match dts with Some _ => 10 | None => 5 end <= len oh ->
  pes_private_data_presence (stamp_flags dts) oh = Some false.
Proof.
  intros Hl H. set (k := match dts with Some _ => 10 | None => 5 end) in *.
  assert (advance_optional_field k 0 (len oh) = Some k) as Ha.
  { unfold advance_optional_field. replace (checked_add u64_max k 0) with (Some k) by (by destruct dts).
    by rewrite Z.gtb_ltb, (proj2 (Z.ltb_ge _ _)) by lia. }
  unfold pes_private_data_presence.
  transitivity (advance_optional_field k 0 (len oh) ≫= fun _ => Some false); [by destruct dts|].
  by rewrite Ha.
Qed.

(** The optional fields of such a header, in a buffer that holds them. *)
Lemma parse_header_fields sid n align pts dts stuff payload hdr : len hdr = 9 ->
  0 <= n <= 65535 -> u33 pts -> match dts with Some d => u33 d | None => True end ->
  match dts with Some _ => 10 | None => 5 end <= len (stamps pts dts ++ stuff) <= 255 ->
  (n <> 0 -> 3 + len (stamps pts dts ++ stuff) <= n) ->
  parse_optional_fields (hdr ++ (stamps pts dts ++ stuff) ++ payload) sid n
    (if (align : bool) then 0x84 else 0x80) (stamp_flags dts) (len (stamps pts dts ++ stuff)) =
  Ret (Complete (mkPesHeaderSummary sid (9 + len (stamps pts dts ++ stuff)) (Some pts) dts false
    align (pes_expected_len n))).
Proof.
  intros Hl Hn Hp Hd Hb Hfit. set (body := stamps pts dts ++ stuff) in *. unfold parse_optional_fields.
  replace (negb (Z.land (if align then 0x84 else 0x80) 0xc0 =? 0x80)) with false by (by destruct align).
  replace (negb (n =? 0) && (n <? 3 + len body)) with false by lia.
  replace (Z.land (Z.shiftr (stamp_flags dts) 6) 3 =? 1) with false by (by destruct dts).
  replace ((Z.land (Z.shiftr (stamp_flags dts) 6) 3 =? 2) && (len body <? 5)) with false
    by (destruct dts; simpl; lia).
  replace ((Z.land (Z.shiftr (stamp_flags dts) 6) 3 =? 3) && (len body <? 10)) with false
    by (destruct dts; simpl; lia).
  rewrite (proj2 (Z.ltb_ge _ _)) by (pose_lens; lens).
  assert (pes_timestamps (hdr ++ body ++ payload) (Z.land (Z.shiftr (stamp_flags dts) 6) 3)
    = Ret (Some (Some pts, dts))) as -> by (unfold body; rewrite <- app_assoc; by apply pes_stamps_parsed).
  cbn [mbind outcome_bind].
  pose proof (slice_mid hdr body payload) as S. rewrite Hl in S. rewrite S. cbn [mbind outcome_bind].
  rewrite no_private_data by lia. by destruct align.
Qed.

(** C29. The PES header parser reads back what a sender writes: for every stream
    with an optional header, every pair of 33-bit time stamps, any stuffing
    that fits the header and any payload behind it, the summary has the time
    stamps, the alignment flag, the payload offset and the declared length of
    the header. *)
Theorem pes_header_roundtrip (sid n pts : Z) (align : bool) (dts : option Z) (stuff payload : bytes) :
  is_byte sid -> pes_stream_has_optional_header sid = true -> 0 <= n <= 65535 ->
  (n = 0 -> 0xe0 <= sid <= 0xef) -> u33 pts ->
  match dts with Some d => u33 d | None => True end ->
  len (stamps pts dts ++ stuff) <= 255 ->
  (n <> 0 -> 3 + len (stamps pts dts ++ stuff) <= n) ->
  parse_pes_header_status (pes_header sid n align pts dts stuff ++ payload) =
  Ret (Complete (mkPesHeaderSummary sid (9 + len (stamps pts dts ++ stuff)) (Some pts) dts false
    align (pes_expected_len n))).
Proof.
  intros Hsid Hopt Hn Hv Hp Hd Hl Hfit. set (body := stamps pts dts ++ stuff) in *.
  assert (match dts with Some _ => 10 | None => 5 end <= len body) as Hmin.
  { subst body. unfold stamps. destruct dts; rewrite !len_app; simpl (len (pts_field _ _)); pose_lens.
    - change (len (pts_field 3 pts)) with 5. change (len (pts_field 1 z)) with 5. lia.
    - change (len (pts_field 2 pts)) with 5. lia. }
  assert (is_byte (n / 256) /\ is_byte (n mod 256)) as [Hn1 Hn2].
  { unfold is_byte. split; [split; [apply Z.div_pos|apply Z.div_lt_upper_bound]; lia|].
    apply Z.mod_pos_bound; lia. }
  assert (be16 (n / 256) (n mod 256) = n) as Hbe
    by (unfold be16; pose proof (Z.div_mod n 256); lia).
  set (hdr := [0x00; 0x00; 0x01; sid; n / 256; n mod 256; if align then 0x84 else 0x80;
    stamp_flags dts; len body]).
  assert (pes_header sid n align pts dts stuff ++ payload = hdr ++ body ++ payload) as ->
    by (unfold pes_header; by rewrite <- app_assoc).
  assert (len (hdr ++ body ++ payload) = 9 + len body + len payload) as Hlen by (subst hdr; lens).
  pose_lens. unfold parse_pes_header_status.
  rewrite (proj2 (Z.ltb_ge _ _)) by lia. rewrite slice_ok, !byte_at_ok by lia.
  cbn [mbind outcome_bind].
  rewrite dropz_0, Z.sub_0_r, takez_eq.
  change (take (Z.to_nat 3) (hdr ++ body ++ payload)) with [0x00; 0x00; 0x01].
  change (nthz (hdr ++ body ++ payload) 3) with sid.
  change (nthz (hdr ++ body ++ payload) 4) with (n / 256).
  change (nthz (hdr ++ body ++ payload) 5) with (n mod 256).
  rewrite bool_decide_true, Hbe, Hopt by done. cbn [negb].
  replace ((n =? 0) && negb ((0xe0 <=? sid) && (sid <=? 0xef))) with false by lia.
  rewrite (proj2 (Z.ltb_ge _ _)) by lia.
  unfold parse_optional_header. rewrite !byte_at_ok by lia. cbn [mbind outcome_bind].
  change (nthz (hdr ++ body ++ payload) 6) with (if align then 0x84 else 0x80).
  change (nthz (hdr ++ body ++ payload) 7) with (stamp_flags dts).
  change (nthz (hdr ++ body ++ payload) 8) with (len body).
  by apply parse_header_fields.
Qed.

(** ** Witnesses: a bounded audio packet and an unbounded video packet. *)
Definition w_pid : PacketPid := mkPacketPid (mkPid 0x110).
Definition audio_pes : bytes := pes_header 0xc0 12 true 90000 None [0xff] ++ [1; 2; 3].
Definition video_pes : bytes := pes_header 0xe0 0 false 90000 (Some 86400) [] ++ [1; 2; 3; 4; 5].
Definition summary_of (b : bytes) : PesHeaderSummary :=
  match parse_pes_header_status b with
  | Ret (Complete s) => s
  | _ => mkPesHeaderSummary 0 0 None None false false None
  end.

Lemma pes_push_safe_witness :
  returns (pes_push pes_assembler_default w_pid true audio_pes)
    (fun '(a', out) => pes_inv a' /\ Forall pes_good out).
Proof.
  apply (pes_push_safe pes_assembler_default w_pid true audio_pes); [by apply pes_idle_inv|dec_true].
Defined.

Lemma pes_bounded_reassembly_witness :
  pes_push_all pes_assembler_default w_pid
    ((true, takez 8 audio_pes) :: map (pair false) [[]; dropz 8 audio_pes ++ [9; 9]])
  = Ret (pes_assembler_default, [pes_of w_pid audio_pes (summary_of audio_pes)]).
Proof.
  apply (pes_bounded_reassembly pes_assembler_default w_pid (summary_of audio_pes) audio_pes [9; 9]
    (takez 8 audio_pes) [[]; dropz 8 audio_pes ++ [9; 9]]);
    first [dec_true | vm_compute; reflexivity | by split_and!].
Defined.

Lemma pes_unbounded_reassembly_witness :
  pes_push_all pes_assembler_default w_pid
    (((true, takez 8 video_pes) :: map (pair false) [dropz 8 video_pes]) ++ [(true, audio_pes)])
  = Ret (pes_assembler_default,
      [pes_of w_pid video_pes (summary_of video_pes); pes_of w_pid audio_pes (summary_of audio_pes)]).
Proof.
  rewrite (proj1 (pes_unbounded_reassembly pes_assembler_default w_pid (summary_of video_pes)
    (summary_of audio_pes) video_pes (takez 8 video_pes) audio_pes [dropz 8 video_pes]
    ltac:(by split_and!) ltac:(dec_true) ltac:(dec_true) ltac:(dec_true)
    ltac:(vm_compute; reflexivity) ltac:(vm_compute; reflexivity) ltac:(vm_compute; reflexivity)
    ltac:(vm_compute; reflexivity))).
  vm_compute. reflexivity.
Defined.

Lemma pes_header_roundtrip_witness :
  parse_pes_header_status (pes_header 0xe0 0 true 90000 (Some 86400) [0xff] ++ [1]) =
  Ret (Complete (mkPesHeaderSummary 0xe0 20 (Some 90000) (Some 86400) false true None)).
Proof.
  apply (pes_header_roundtrip 0xe0 0 90000 true (Some 86400) [0xff] [1]);
    try (vm_compute; intuition (congruence || discriminate)).
Defined.
