(* ===== verification/RecordIndex.v ===== *)
(** * Record index events

    [demux/src/parser/record_index.rs]: for each recorded packet, the
    transport-level index flags, the PES time stamp and the start codes of the
    elementary stream, with the state carried across packet boundaries. *)

From stdpp Require Import gmap.
From S2P Require Import Prelude Common TsPacket TsCore.

(** ** Constants *)
Definition INVALID_FIRST_MB_IN_SLICE : Z := -1.
Definition RECORD_INDEX_PTS_ABSENT : Z := -1.
Definition SC_INDEX_MASK_ABSENT : Z := 0.
Definition AVC_SC_I_SLICE : Z := 1.
Definition AVC_SC_P_SLICE : Z := 2.
Definition AVC_SC_B_SLICE : Z := 4.
Definition AVC_SC_SI_SLICE : Z := 8.
Definition AVC_SC_SP_SLICE : Z := 16.
Definition HEVC_SC_SPS : Z := 1.
Definition HEVC_SC_AUD : Z := 2.
Definition HEVC_SC_BLA_W_LP : Z := 4.
Definition HEVC_SC_BLA_W_RADL : Z := 8.
Definition HEVC_SC_BLA_N_LP : Z := 16.
Definition HEVC_SC_IDR_W_RADL : Z := 32.
Definition HEVC_SC_IDR_N_LP : Z := 64.
Definition HEVC_SC_TRAIL_CRA : Z := 128.
Definition VVC_SC_IDR_W_RADL : Z := 1.
Definition VVC_SC_IDR_N_LP : Z := 2.
Definition VVC_SC_CRA : Z := 4.
Definition VVC_SC_GDR : Z := 8.
Definition VVC_SC_VPS : Z := 16.
Definition VVC_SC_SPS : Z := 32.
Definition VVC_SC_AUD : Z := 64.
Definition RECORD_SC_TYPE_NONE : Z := 0.
Definition RECORD_SC_TYPE_SC : Z := 1.
Definition RECORD_SC_TYPE_SC_HEVC : Z := 2.
Definition RECORD_SC_TYPE_SC_AVC : Z := 3.
Definition RECORD_SC_TYPE_SC_VVC : Z := 4.

Definition DEMUX_TS_INDEX_FIRST_PACKET : Z := 2 ^ 0.
Definition DEMUX_TS_INDEX_PAYLOAD_UNIT_START : Z := 2 ^ 1.
Definition DEMUX_TS_INDEX_CHANGE_TO_NOT_SCRAMBLED : Z := 2 ^ 2.
Definition DEMUX_TS_INDEX_CHANGE_TO_EVEN_SCRAMBLED : Z := 2 ^ 3.
Definition DEMUX_TS_INDEX_CHANGE_TO_ODD_SCRAMBLED : Z := 2 ^ 4.
Definition DEMUX_TS_INDEX_DISCONTINUITY : Z := 2 ^ 5.
Definition DEMUX_TS_INDEX_RANDOM_ACCESS : Z := 2 ^ 6.
Definition DEMUX_TS_INDEX_PRIORITY : Z := 2 ^ 7.
Definition DEMUX_TS_INDEX_PCR : Z := 2 ^ 8.
Definition DEMUX_TS_INDEX_OPCR : Z := 2 ^ 9.
Definition DEMUX_TS_INDEX_SPLICING_POINT : Z := 2 ^ 10.
Definition DEMUX_TS_INDEX_PRIVATE_DATA : Z := 2 ^ 11.
Definition DEMUX_TS_INDEX_ADAPTATION_EXTENSION : Z := 2 ^ 12.

Definition or_all (l : list Z) : Z := foldl Z.lor 0 l.

Definition supported_record_ts_index_mask : Z :=
  or_all [DEMUX_TS_INDEX_FIRST_PACKET; DEMUX_TS_INDEX_PAYLOAD_UNIT_START;
    DEMUX_TS_INDEX_CHANGE_TO_NOT_SCRAMBLED; DEMUX_TS_INDEX_CHANGE_TO_EVEN_SCRAMBLED;
    DEMUX_TS_INDEX_CHANGE_TO_ODD_SCRAMBLED; DEMUX_TS_INDEX_DISCONTINUITY;
    DEMUX_TS_INDEX_RANDOM_ACCESS; DEMUX_TS_INDEX_PRIORITY; DEMUX_TS_INDEX_PCR;
    DEMUX_TS_INDEX_OPCR; DEMUX_TS_INDEX_SPLICING_POINT; DEMUX_TS_INDEX_PRIVATE_DATA;
    DEMUX_TS_INDEX_ADAPTATION_EXTENSION].

Definition supported_record_sc_index_mask (sc_index_type : Z) : Z :=
  if sc_index_type =? RECORD_SC_TYPE_NONE then 0
  else if sc_index_type =? RECORD_SC_TYPE_SC then or_all [1; 2; 4; 8]
  else if sc_index_type =? RECORD_SC_TYPE_SC_AVC then
    or_all [AVC_SC_I_SLICE; AVC_SC_P_SLICE; AVC_SC_B_SLICE; AVC_SC_SI_SLICE; AVC_SC_SP_SLICE]
  else if sc_index_type =? RECORD_SC_TYPE_SC_HEVC then
    or_all [HEVC_SC_SPS; HEVC_SC_AUD; HEVC_SC_BLA_W_LP; HEVC_SC_BLA_W_RADL; HEVC_SC_BLA_N_LP;
      HEVC_SC_IDR_W_RADL; HEVC_SC_IDR_N_LP; HEVC_SC_TRAIL_CRA]
  else if sc_index_type =? RECORD_SC_TYPE_SC_VVC then
    or_all [VVC_SC_IDR_W_RADL; VVC_SC_IDR_N_LP; VVC_SC_CRA; VVC_SC_GDR; VVC_SC_VPS; VVC_SC_SPS;
      VVC_SC_AUD]
  else 0.

(** ** State and events *)
Record RecordStartCodeInfo := mkRecordStartCodeInfo {
  sc_mask : Z;
  sc_first_mb_in_slice : Z
}.

Record RecordEventState := mkRecordEventState {
  last_transport_scrambling_control : option Z;
  sc_prefix_carry : bytes;
  pes_header_carry : bytes
}.
Definition record_state_default : RecordEventState := mkRecordEventState None [] [].

Record TsRecordEventData := mkTsRecordEventData {
  ev_pid : PacketPid;
  ev_ts_index_mask : Z;
  ev_sc_index_type : Z;
  ev_sc_index_mask_bits : Z;
  ev_byte_number : Z;
  ev_pts : Z;
  ev_first_mb_in_slice : Z
}.

Definition reset_payload_state (s : RecordEventState) : RecordEventState :=
  mkRecordEventState (last_transport_scrambling_control s) [] [].

Definition payload_with_sc_carry (s : RecordEventState) (payload : bytes)
  : outcome (RecordEventState * bytes) :=
  let merged := sc_prefix_carry s ++ payload in
  let keep := Z.min (len merged) 3 in
  carry ← (if keep >? 0 then slice_from merged (len merged - keep) else Ret []);
  Ret (mkRecordEventState (last_transport_scrambling_control s) carry (pes_header_carry s), merged).

Definition pes_start : bytes := [0x00; 0x00; 0x01].

Definition is_pes_start_prefix_fragment (payload : bytes) : bool :=
  bool_decide (payload = [0x00]) || bool_decide (payload = [0x00; 0x00]).
Definition starts_with_complete_or_partial_pes_prefix (b : bytes) : bool :=
  starts_with b pes_start || is_pes_start_prefix_fragment b.

(** ** PES helpers *)
Definition pes_time_fields (payload : bytes) : outcome (option Z * option Z) :=
  s ← parse_pes_header_summary payload;
  Ret (match s with
       | None => (None, None)
       | Some summary =>
           if match sum_expected_len summary with
              | Some e => len payload <? e
              | None => false
              end
           then (None, None) else (sum_pts_90khz summary, sum_dts_90khz summary)
       end).

(** The stamp has 33 bits, so [value as i64] is the identity. *)
Definition record_packet_pts (payload : bytes) : outcome (option Z) :=
  if starts_with payload pes_start then t ← pes_time_fields payload; Ret (fst t) else Ret None.

Inductive PesPayloadKind :=
| NotPes
| PesMalformed
| ElementaryStream (b : bytes).

Definition looks_like_record_index_pes_stream (stream_id : Z) : bool :=
  bool_decide (stream_id ∈ [0xbc; 0xbd; 0xbe; 0xbf; 0xf0; 0xf1; 0xf2; 0xf8; 0xff])
  || ((0xc0 <=? stream_id) && (stream_id <=? 0xdf))
  || ((0xe0 <=? stream_id) && (stream_id <=? 0xef)).

Definition pes_payload_kind (payload : bytes) : outcome PesPayloadKind :=
  if negb (starts_with payload pes_start) then Ret NotPes else
  match get_byte payload 3 with
  | None => Ret NotPes
  | Some stream_id =>
      if negb (looks_like_record_index_pes_stream stream_id) then Ret NotPes else
      s ← parse_pes_header_summary payload;
      Ret (match s with
           | None => PesMalformed
           | Some summary =>
               if match sum_expected_len summary with
                  | Some e => len payload <? e
                  | None => false
                  end
               then PesMalformed
               else if sum_payload_offset summary <=? len payload
                    then ElementaryStream (dropz (sum_payload_offset summary) payload)
                    else PesMalformed
           end)
  end.

Definition observe_pts (s : RecordEventState) (payload : bytes) (payload_unit_start : bool)
  : outcome (RecordEventState * option Z) :=
  let with_carry c :=
    mkRecordEventState (last_transport_scrambling_control s) (sc_prefix_carry s) c in
  let head := takez (Z.min (len payload) 19) payload in
  if payload_unit_start || starts_with payload pes_start then
    if starts_with payload pes_start then
      pts ← record_packet_pts payload;
      Ret (match pts with
           | Some v => (with_carry [], Some v)
           | None => (with_carry head, None)
           end)
    else if is_pes_start_prefix_fragment payload then Ret (with_carry payload, None)
    else Ret (with_carry [], None)
  else if len (pes_header_carry s) =? 0 then Ret (s, None)
  else
    let carry := pes_header_carry s ++ head in
    if negb (starts_with_complete_or_partial_pes_prefix carry) then Ret (with_carry [], None) else
    let carry := if len carry >? 32 then takez 32 carry else carry in
    pts ← record_packet_pts carry;
    Ret (with_carry (if bool_decide (is_Some pts) || (19 <=? len carry) then [] else carry), pts).

(** ** Start codes *)
Fixpoint find_sc_loop (fuel : nat) (b : bytes) (i : Z) : outcome (option (Z * Z)) :=
  match fuel with
  | O => Diverge
  | S fuel =>
      if negb (i + 3 <? len b) then Ret None else
      b0 ← byte_at b i;
      b1 ← byte_at b (i + 1);
      b2 ← byte_at b (i + 2);
      b3 ← byte_at b (i + 3);
      if (b0 =? 0) && (b1 =? 0) && (b2 =? 1) then Ret (Some (i, 3))
      else if (b0 =? 0) && (b1 =? 0) && (i + 4 <? len b) && (b2 =? 0) && (b3 =? 1)
      then Ret (Some (i, 4))
      else find_sc_loop fuel b (i + 1)
  end.

Definition find_sc_prefix (b : bytes) : outcome (option (Z * Z)) :=
  find_sc_loop (S (length b)) b 0.

Definition info_if (mask first_mb : Z) : option RecordStartCodeInfo :=
  if mask =? 0 then None else Some (mkRecordStartCodeInfo mask first_mb).

Definition parse_generic_sc_index (nal : bytes) : outcome (option RecordStartCodeInfo) :=
  match get_byte nal 0 with
  | None => Ret None
  | Some code =>
      mask ← (if (code =? 0x00) && (3 <=? len nal) then
                n1 ← byte_at nal 1;
                n2 ← byte_at nal 2;
                let k := Z.land (Z.shiftr (be16 n1 n2) 3) 0x07 in
                Ret (if k =? 1 then 1 else if k =? 2 then 2 else if k =? 3 then 4 else 0)
              else Ret (if code =? 0xb3 then 8 else 0));
      Ret (info_if mask INVALID_FIRST_MB_IN_SLICE)
  end.

Definition parse_hevc_sc_index (nal : bytes) : outcome (option RecordStartCodeInfo) :=
  if len nal <? 2 then Ret None else
  n0 ← byte_at nal 0;
  let nal_type := Z.land (Z.shiftr n0 1) 0x3f in
  let mask :=
    if nal_type =? 33 then HEVC_SC_SPS
    else if nal_type =? 35 then HEVC_SC_AUD
    else if nal_type =? 16 then HEVC_SC_BLA_W_LP
    else if nal_type =? 17 then HEVC_SC_BLA_W_RADL
    else if nal_type =? 18 then HEVC_SC_BLA_N_LP
    else if nal_type =? 19 then HEVC_SC_IDR_W_RADL
    else if nal_type =? 20 then HEVC_SC_IDR_N_LP
    else if (nal_type <=? 9) || (nal_type =? 21) then HEVC_SC_TRAIL_CRA
    else 0 in
  Ret (info_if mask INVALID_FIRST_MB_IN_SLICE).

Definition parse_vvc_sc_index (nal : bytes) : outcome (option RecordStartCodeInfo) :=
  if len nal <? 2 then Ret None else
  n1 ← byte_at nal 1;
  let nal_type := Z.land (Z.shiftr n1 3) 0x1f in
  let mask :=
    if nal_type =? 14 then VVC_SC_VPS
    else if nal_type =? 15 then VVC_SC_SPS
    else if nal_type =? 20 then VVC_SC_AUD
    else if nal_type =? 7 then VVC_SC_GDR
    else if nal_type =? 8 then VVC_SC_IDR_W_RADL
    else if nal_type =? 9 then VVC_SC_IDR_N_LP
    else if nal_type =? 10 then VVC_SC_CRA
    else 0 in
  Ret (info_if mask INVALID_FIRST_MB_IN_SLICE).

(** Emulation prevention: the [for] loop with its run of zeros. *)
Fixpoint nal_to_rbsp_from (zero_run : Z) (b : bytes) : bytes :=
  match b with
  | [] => []
  | byte :: b =>
      if (2 <=? zero_run) && (byte =? 0x03) then nal_to_rbsp_from 0 b
      else byte :: nal_to_rbsp_from (if byte =? 0x00 then zero_run + 1 else 0) b
  end.
Definition nal_to_rbsp (b : bytes) : bytes := nal_to_rbsp_from 0 b.

(** ** The bit reader: the state is the bit offset *)
Definition read_bit (b : bytes) (bit_offset : Z) : option (Z * Z) :=
  byte ← get_byte b (bit_offset / 8);
  let bit := 7 - bit_offset mod 8 in
  Some (Z.land (Z.shiftr byte bit) 1, bit_offset + 1).

Fixpoint read_bits_loop (count : nat) (b : bytes) (bit_offset value : Z) : option (Z * Z) :=
  match count with
  | O => Some (value, bit_offset)
  | S count =>
      r ← read_bit b bit_offset;
      read_bits_loop count b (snd r) (Z.lor (wrap32 (Z.shiftl value 1)) (fst r))
  end.
Definition read_bits (b : bytes) (bit_offset : Z) (count : nat) : option (Z * Z) :=
  read_bits_loop count b bit_offset 0.

(** [while self.read_bit()? == 0]: at most 32 turns, then the code gives up. *)
Fixpoint leading_zeros (fuel : nat) (b : bytes) (bit_offset : Z) (count : nat)
  : option (nat * Z) :=
  match fuel with
  | O => None
  | S fuel =>
      r ← read_bit b bit_offset;
      if fst r =? 0 then
        if (31 <? S count)%nat then None else leading_zeros fuel b (snd r) (S count)
      else Some (count, snd r)
  end.

Definition read_ue (b : bytes) (bit_offset : Z) : option (Z * Z) :=
  z ← leading_zeros 33 b bit_offset 0;
  suffix ← (if (fst z =? 0)%nat then Some (0, snd z) else read_bits b (snd z) (fst z));
  Some (2 ^ Z.of_nat (fst z) - 1 + fst suffix, snd suffix).

(** [as i32] on a [u32]. *)
Definition u32_as_i32 (v : Z) : Z := if v <=? i32_max then v else v - 2 ^ 32.

Definition parse_avc_sc_index (nal : bytes) : outcome (option RecordStartCodeInfo) :=
  match get_byte nal 0 with
  | None => Ret None
  | Some header =>
      let nal_type := Z.land header 0x1f in
      if negb ((1 <=? nal_type) && (nal_type <=? 5)) then Ret None else
      body ← slice_from nal 1;
      let rbsp := nal_to_rbsp body in
      Ret (fm ← read_ue rbsp 0;
           st ← read_ue rbsp (snd fm);
           let slice_type := fst st mod 5 in
           let mask := if slice_type =? 0 then AVC_SC_P_SLICE
                       else if slice_type =? 1 then AVC_SC_B_SLICE
                       else if slice_type =? 2 then AVC_SC_I_SLICE
                       else if slice_type =? 3 then AVC_SC_SP_SLICE
                       else AVC_SC_SI_SLICE in
           info_if mask (u32_as_i32 (fst fm)))
  end.

Definition parse_sc (sc_index_type : Z) (nal : bytes) : outcome (option RecordStartCodeInfo) :=
  if sc_index_type =? RECORD_SC_TYPE_SC then parse_generic_sc_index nal
  else if sc_index_type =? RECORD_SC_TYPE_SC_AVC then parse_avc_sc_index nal
  else if sc_index_type =? RECORD_SC_TYPE_SC_HEVC then parse_hevc_sc_index nal
  else if sc_index_type =? RECORD_SC_TYPE_SC_VVC then parse_vvc_sc_index nal
  else Ret None.

(** [while let Some(..) = find_sc_prefix(..)] *)
Fixpoint sc_scan (fuel : nat) (es : bytes) (sc_index_type configured_mask offset : Z)
    (observed first_mb : Z) : outcome (Z * Z) :=
  match fuel with
  | O => Diverge
  | S fuel =>
      rest ← slice_from es offset;
      found ← find_sc_prefix rest;
      match found with
      | None => Ret (observed, first_mb)
      | Some (relative, prefix_len) =>
          let nal_start := offset + relative + prefix_len in
          nal ← slice_from es nal_start;
          parsed ← parse_sc sc_index_type nal;
          let '(observed, first_mb) :=
            match parsed with
            | Some info =>
                (Z.lor observed (sc_mask info),
                 if (first_mb =? INVALID_FIRST_MB_IN_SLICE) && has_bits (sc_mask info) configured_mask
                 then sc_first_mb_in_slice info else first_mb)
            | None => (observed, first_mb)
            end in
          let offset := saturating_add usize_max nal_start 1 in
          if offset >=? len es then Ret (observed, first_mb)
          else sc_scan fuel es sc_index_type configured_mask offset observed first_mb
      end
  end.

Definition record_sc_info (payload : bytes) (sc_index_type configured_mask : Z)
  : outcome (option RecordStartCodeInfo) :=
  if (sc_index_type =? RECORD_SC_TYPE_NONE) || (configured_mask =? 0) then Ret None else
  kind ← pes_payload_kind payload;
  match kind with
  | PesMalformed => Ret None
  | _ =>
      let es := match kind with ElementaryStream b => b | _ => payload end in
      r ← sc_scan (S (length es)) es sc_index_type configured_mask 0 0 INVALID_FIRST_MB_IN_SLICE;
      let '(observed, first_mb) := r in
      Ret (if observed =? 0 then None else Some (mkRecordStartCodeInfo observed first_mb))
  end.

(** ** The event of a packet *)
Definition flag_if (b : bool) (mask : Z) : Z := if b then mask else 0.

(** The transport flags before the scrambling change. *)
Definition observed_flags (v : TsPacketView) (cumulative_bytes : Z) : Z :=
  or_all [flag_if (cumulative_bytes =? 0) DEMUX_TS_INDEX_FIRST_PACKET;
    flag_if (view_payload_unit_start v) DEMUX_TS_INDEX_PAYLOAD_UNIT_START;
    flag_if (view_priority v) DEMUX_TS_INDEX_PRIORITY;
    flag_if (view_discontinuity_indicator v) DEMUX_TS_INDEX_DISCONTINUITY;
    flag_if (view_random_access_indicator v) DEMUX_TS_INDEX_RANDOM_ACCESS;
    flag_if (view_pcr_flag v) DEMUX_TS_INDEX_PCR;
    flag_if (view_opcr_flag v) DEMUX_TS_INDEX_OPCR;
    flag_if (view_splicing_point_flag v) DEMUX_TS_INDEX_SPLICING_POINT;
    flag_if (view_private_data_flag v) DEMUX_TS_INDEX_PRIVATE_DATA;
    flag_if (view_adaptation_extension_flag v) DEMUX_TS_INDEX_ADAPTATION_EXTENSION].

(** The scrambling change against the last scrambling control. *)
Definition scrambling_flag (last : option Z) (sc : Z) : Z :=
  match last with
  | Some previous =>
      if negb (previous =? sc) then
        if sc =? 0 then DEMUX_TS_INDEX_CHANGE_TO_NOT_SCRAMBLED
        else if sc =? 2 then DEMUX_TS_INDEX_CHANGE_TO_EVEN_SCRAMBLED
        else if sc =? 3 then DEMUX_TS_INDEX_CHANGE_TO_ODD_SCRAMBLED else 0
      else 0
  | None =>
      if negb (sc =? 0) then
        if sc =? 2 then DEMUX_TS_INDEX_CHANGE_TO_EVEN_SCRAMBLED
        else if sc =? 3 then DEMUX_TS_INDEX_CHANGE_TO_ODD_SCRAMBLED else 0
      else 0
  end.

(** Time stamp and start codes of a clear payload. *)
Definition observe_payload (s : RecordEventState) (v : TsPacketView) (payload : bytes)
    (sc_index_type configured_sc : Z)
  : outcome (RecordEventState * Z * option RecordStartCodeInfo) :=
  if view_scrambling_control v =? 0 then
    r ← observe_pts s payload (view_payload_unit_start v);
    let '(s, pts) := r in
    m ← payload_with_sc_carry s payload;
    let '(s, sc_payload) := m in
    info ← record_sc_info sc_payload sc_index_type configured_sc;
    Ret (s, default RECORD_INDEX_PTS_ABSENT pts, info)
  else Ret (reset_payload_state s, RECORD_INDEX_PTS_ABSENT, None).

Definition build_ts_record_event_data_from_validated (p : ValidatedTsPacket)
    (cumulative_bytes configured_ts sc_index_type configured_sc : Z) (s : RecordEventState)
  : outcome (RecordEventState * option TsRecordEventData) :=
  let v := packet_view p in
  if view_transport_error_indicator v then Ret (s, None) else
  let payload := default [] (view_payload v) in
  let s := if view_discontinuity_indicator v then reset_payload_state s else s in
  let observed := Z.lor (observed_flags v cumulative_bytes)
    (scrambling_flag (last_transport_scrambling_control s) (view_scrambling_control v)) in
  let s := mkRecordEventState (Some (view_scrambling_control v)) (sc_prefix_carry s)
             (pes_header_carry s) in
  r ← observe_payload s v payload sc_index_type configured_sc;
  let '(s, pts, info) := r in
  let first_mb := match info with Some i => sc_first_mb_in_slice i | None => INVALID_FIRST_MB_IN_SLICE end in
  let ts_index_mask := Z.land observed configured_ts in
  let sc_index_mask_bits :=
    match info with Some i => Z.land (sc_mask i) configured_sc | None => SC_INDEX_MASK_ABSENT end in
  Ret (s,
    if (ts_index_mask =? 0) && (sc_index_mask_bits =? 0) then None
    else if cumulative_bytes <=? i64_max then
      Some (mkTsRecordEventData (view_pid v) ts_index_mask sc_index_type sc_index_mask_bits
              cumulative_bytes pts first_mb)
    else None).

Record RecordIndexParser := mkRecordIndexParser { processed_packets : Z }.

Definition push_validated_ts_packet (parser : RecordIndexParser) (p : ValidatedTsPacket)
    (cumulative_bytes configured_ts sc_index_type configured_sc : Z) (s : RecordEventState)
  : outcome (RecordIndexParser * RecordEventState * option TsRecordEventData) :=
  r ← build_ts_record_event_data_from_validated p cumulative_bytes configured_ts sc_index_type
        configured_sc s;
  let '(s, ev) := r in
  Ret (mkRecordIndexParser (saturating_add u64_max (processed_packets parser) 1), s, ev).

(** ** The bit reader reads the bits of the string, most significant first *)
Definition byte_bits (x : Z) : list bool :=
  [Z.testbit x 7; Z.testbit x 6; Z.testbit x 5; Z.testbit x 4;
   Z.testbit x 3; Z.testbit x 2; Z.testbit x 1; Z.testbit x 0].
Definition bit_list (b : bytes) : list bool := concat (map byte_bits b).

Lemma byte_bits_lookup x n : (n < 8)%nat -> byte_bits x !! n = Some (Z.testbit x (7 - Z.of_nat n)).
Proof. intros H. do 8 (destruct n as [|n]; [done|]). lia. Qed.

Lemma bit_list_lookup b n :
  bit_list b !! n = (fun x => Z.testbit x (7 - Z.of_nat (n mod 8))) <$> b !! (n / 8)%nat.
Proof.
  revert n. induction b as [|x b IH]; intros n; [done|]. cbn [bit_list map concat].
  destruct (decide (n < 8)%nat) as [Hn|Hn].
  - rewrite lookup_app_l by (simpl; lia). rewrite Nat.mod_small, Nat.div_small by lia.
    by rewrite byte_bits_lookup by lia.
  - rewrite lookup_app_r by (simpl; lia). fold (bit_list b). rewrite IH.
    change (length (byte_bits x)) with 8%nat.
    assert (n = n - 8 + 1 * 8)%nat as En by lia.
    assert (n / 8 = S ((n - 8) / 8))%nat as -> by (rewrite En at 1; rewrite Nat.div_add; lia).
    assert (n mod 8 = (n - 8) mod 8)%nat as -> by (rewrite En at 1; by rewrite Nat.Div0.mod_add).
    done.
Qed.

Lemma land_1_testbit x n : 0 <= n -> Z.land (Z.shiftr x n) 1 = Z.b2z (Z.testbit x n).
Proof.
  intros H. change 1 with (Z.ones 1) at 1. rewrite land_ones_mod, Z.shiftr_div_pow2 by lia.
  symmetry. by apply Z.testbit_spec'.
Qed.

Lemma get_byte_lookup b i : 0 <= i -> get_byte b i = b !! Z.to_nat i.
Proof.
  intros Hi. unfold get_byte. rewrite (proj2 (Z.leb_le _ _)) by lia. simpl.
  destruct (Z.ltb_spec i (len b)) as [H|H].
  - unfold nthz, len in *. symmetry.
    destruct (b !! Z.to_nat i) as [x|] eqn:E.
    + by rewrite (nth_lookup_Some _ _ 0 x E).
    + apply lookup_ge_None in E. lia.
  - symmetry. apply lookup_ge_None. unfold len in H. lia.
Qed.

Lemma read_bit_eq b o : 0 <= o ->
  read_bit b o = (fun x => (Z.b2z x, o + 1)) <$> bit_list b !! Z.to_nat o.
Proof.
  intros Ho. unfold read_bit. rewrite get_byte_lookup by (apply Z.div_pos; lia).
  rewrite bit_list_lookup. rewrite Z2Nat.inj_div by lia. change (Z.to_nat 8) with 8%nat.
  destruct (b !! (Z.to_nat o / 8)%nat) as [x|]; [|done].
  cbn [mbind option_bind fmap option_fmap option_map].
  rewrite Nat2Z.inj_mod, Z2Nat.id by lia. change (Z.of_nat 8) with 8.
  pose proof (Z.mod_pos_bound o 8). by rewrite land_1_testbit by lia.
Qed.

(** The bits from an offset on. *)
Definition bits_at (b : bytes) (o : Z) (l : list bool) : Prop :=
  0 <= o /\ exists rest, drop (Z.to_nat o) (bit_list b) = l ++ rest.

Lemma bits_at_cons b o x l : bits_at b o (x :: l) ->
  read_bit b o = Some (Z.b2z x, o + 1) /\ bits_at b (o + 1) l.
Proof.
  intros [Ho [rest Hr]]. split.
  - rewrite read_bit_eq by done.
    assert (bit_list b !! Z.to_nat o = Some x) as ->; [|done].
    rewrite <- (Nat.add_0_r (Z.to_nat o)), <- lookup_drop. by rewrite Hr.
  - split; [lia|]. exists rest. replace (Z.to_nat (o + 1)) with (S (Z.to_nat o)) by lia.
    replace (S (Z.to_nat o)) with (Z.to_nat o + 1)%nat by lia. rewrite <- drop_drop, Hr. done.
Qed.

Lemma bits_at_app b o l k : bits_at b o (l ++ k) -> bits_at b (o + len l) k /\ bits_at b o l.
Proof.
  intros [Ho [rest Hr]]. pose proof (len_nonneg l). split; (split; [lia|]).
  - exists rest. replace (Z.to_nat (o + len l)) with (Z.to_nat o + length l)%nat by (unfold len; lia).
    rewrite <- drop_drop, Hr, <- app_assoc. apply drop_app_length.
  - exists (k ++ rest). by rewrite Hr, <- app_assoc.
Qed.

(** Big-endian value of a bit string, and the low [k] bits of a number. *)
Definition bits_val (v : Z) (l : list bool) : Z := foldl (fun v x => v * 2 + Z.b2z x) v l.
Fixpoint bits_msb (k : nat) (x : Z) : list bool :=
  match k with O => [] | S k => Z.testbit x (Z.of_nat k) :: bits_msb k x end.

Lemma length_bits_msb k x : length (bits_msb k x) = k.
Proof. induction k; simpl; congruence. Qed.

Lemma bits_val_msb k v x : 0 <= x ->
  bits_val v (bits_msb k x) = v * 2 ^ Z.of_nat k + x mod 2 ^ Z.of_nat k.
Proof.
  intros Hx. revert v. induction k as [|k IH]; intros v; simpl bits_msb.
  { simpl. rewrite Z.mod_1_r. lia. }
  cbn [bits_val foldl]. fold (bits_val (v * 2 + Z.b2z (Z.testbit x (Z.of_nat k))) (bits_msb k x)).
  rewrite IH. rewrite Nat2Z.inj_succ, Z.pow_succ_r by lia.
  pose proof (Z.pow_pos_nonneg 2 (Z.of_nat k)).
  rewrite (Z.mul_comm 2 (2 ^ Z.of_nat k)), Z.rem_mul_r by lia.
  rewrite <- Z.testbit_spec' by lia. lia.
Qed.

Lemma bits_val_bound v l : 0 <= v -> 0 <= bits_val v l < (v + 1) * 2 ^ len l.
Proof.
  revert v. induction l as [|x l IH]; intros v Hv.
  { unfold len; simpl. lia. }
  cbn [bits_val foldl]. fold (bits_val (v * 2 + Z.b2z x) l). rewrite len_cons.
  pose proof (len_nonneg l). pose proof (Z.pow_pos_nonneg 2 (len l)).
  rewrite Z.pow_add_r by lia. destruct (IH (v * 2 + Z.b2z x)); destruct x; simpl Z.b2z in *; nia.
Qed.

Lemma read_bits_loop_ok b l o v : bits_at b o l -> 0 <= v -> (v + 1) * 2 ^ len l <= 2 ^ 32 ->
  read_bits_loop (length l) b o v = Some (bits_val v l, o + len l).
Proof.
  revert o v. induction l as [|x l IH]; intros o v Hb Hv Hm; cbn [length read_bits_loop].
  { unfold len; simpl. do 2 f_equal; lia. }
  apply bits_at_cons in Hb as [-> Hb]. cbn [mbind option_bind fst snd].
  rewrite len_cons, Z.pow_add_r in Hm by (pose_lens; lia). pose proof (len_nonneg l).
  pose proof (Z.pow_pos_nonneg 2 (len l)).
  assert (Z.lor (wrap32 (Z.shiftl v 1)) (Z.b2z x) = v * 2 + Z.b2z x) as ->.
  { unfold wrap32. rewrite Z.mod_small by (rewrite Z.shiftl_mul_pow2 by lia; nia).
    apply (lor_shiftl_add v (Z.b2z x) 1); [lia|]. destruct x; simpl; lia. }
  rewrite IH; [|done|destruct x; simpl; lia|destruct x; simpl Z.b2z; nia].
  rewrite len_cons. cbn [bits_val foldl]. f_equal. f_equal; lia.
Qed.

(** ** Exp-Golomb codes *)
Definition ue_bits (v : Z) : list bool :=
  let k := Z.to_nat (Z.log2 (v + 1)) in
  replicate k false ++ true :: bits_msb k (v + 1).

Lemma leading_zeros_ok b k l o c fuel : bits_at b o (replicate k false ++ true :: l) ->
  (c + k <= 31)%nat -> (k < fuel)%nat ->
  leading_zeros fuel b o c = Some ((c + k)%nat, o + Z.of_nat k + 1) /\
  bits_at b (o + Z.of_nat k + 1) l.
Proof.
  revert o c fuel. induction k as [|k IH]; intros o c fuel Hb Hc Hf;
    (destruct fuel as [|fuel]; [lia|]); cbn [replicate app leading_zeros] in *;
    apply bits_at_cons in Hb as [-> Hb]; cbn [mbind option_bind fst snd Z.b2z Z.eqb].
  - replace (o + Z.of_nat 0 + 1) with (o + 1) by lia. split; [|done]. do 2 f_equal. lia.
  - rewrite (proj2 (Nat.ltb_ge _ _)) by lia.
    destruct (IH (o + 1) (S c) fuel Hb) as [-> Hb']; [lia..|].
    replace (o + Z.of_nat (S k) + 1) with (o + 1 + Z.of_nat k + 1) by lia. split; [|done].
    do 2 f_equal. lia.
Qed.

Lemma log2_split v : 0 < v -> v mod 2 ^ Z.log2 v = v - 2 ^ Z.log2 v /\ 2 ^ Z.log2 v <= v.
Proof.
  intros Hv. pose proof (Z.log2_spec v Hv) as [H1 H2]. rewrite Z.pow_succ_r in H2 by apply Z.log2_nonneg.
  split; [|done]. symmetry. apply Z.mod_unique with 1; lia.
Qed.

Lemma read_ue_ok b o v rest : bits_at b o (ue_bits v ++ rest) -> 0 <= v <= 2 ^ 32 - 2 ->
  read_ue b o = Some (v, o + len (ue_bits v)) /\ bits_at b (o + len (ue_bits v)) rest.
Proof.
  intros Hb Hv. split; [|by apply bits_at_app in Hb as [? _]].
  unfold ue_bits in *. set (k := Z.to_nat (Z.log2 (v + 1))) in *.
  assert (Z.of_nat k = Z.log2 (v + 1)) as Hk by (unfold k; rewrite Z2Nat.id; [done|apply Z.log2_nonneg]).
  assert (k <= 31)%nat as Hk31.
  { assert (Z.log2 (v + 1) < 32) by (apply Z.log2_lt_pow2; lia). lia. }
  rewrite <- app_assoc in Hb. cbn [app] in Hb.
  destruct (leading_zeros_ok b k _ o 0 33 Hb) as [Hz Hb']; [lia..|].
  destruct (log2_split (v + 1)) as [Hmod Hle]; [lia|]. rewrite <- Hk in Hmod, Hle.
  assert (len (replicate k false ++ true :: bits_msb k (v + 1)) = 2 * Z.of_nat k + 1) as Hlen.
  { rewrite len_app, len_cons. unfold len. rewrite length_replicate, length_bits_msb. lia. }
  rewrite Hlen. unfold read_ue. rewrite Hz. cbn [mbind option_bind fst snd].
  destruct (Nat.eqb_spec (0 + k) 0) as [E|E].
  - assert (k = 0%nat) as E0 by lia. rewrite E0 in *. cbn [mbind option_bind fst snd].
    simpl in Hmod, Hle |- *. rewrite Z.mod_1_r in Hmod. do 2 f_equal; lia.
  - apply bits_at_app in Hb' as [_ Hb']. unfold read_bits.
    rewrite <- (length_bits_msb k (v + 1)) at 1. cbn [Nat.add].
    rewrite (read_bits_loop_ok _ _ _ _ Hb'); [|lia|].
    + cbn [mbind option_bind fst snd]. rewrite bits_val_msb, Hmod by lia.
      unfold len. rewrite length_bits_msb. cbn [Nat.add]. do 2 f_equal; lia.
    + unfold len. rewrite length_bits_msb. rewrite Z.add_0_l, Z.mul_1_l.
      apply Z.pow_le_mono_r; lia.
Qed.

(** ** Emulation prevention

    The encoder that the reader undoes: an 0x03 before any byte up to 0x03 that
    would follow two zeros. *)
Fixpoint emulate (zero_run : Z) (b : bytes) : bytes :=
  match b with
  | [] => []
  | x :: b =>
      let next run := if x =? 0x00 then run + 1 else 0 in
      if (2 <=? zero_run) && (x <=? 0x03) then 0x03 :: x :: emulate (next 0) b
      else x :: emulate (next zero_run) b
  end.

Lemma rbsp_emulate b z : nal_to_rbsp_from z (emulate z b) = b.
Proof.
  revert z. induction b as [|x b IH]; intros z; [done|]. cbn [emulate].
  destruct ((2 <=? z) && (x <=? 3)) eqn:E.
  - breflect. cbn [nal_to_rbsp_from]. rewrite (proj2 (Z.leb_le _ _)) by done.
    simpl (_ && _). cbv iota. cbn [andb Z.leb Z.compare Pos.compare Pos.compare_cont]. by rewrite IH.
  - cbn [nal_to_rbsp_from]. replace ((2 <=? z) && (x =? 3)) with false by lia. by rewrite IH.
Qed.

(** The index bit of a slice type. *)
Definition avc_slice_mask (slice_type : Z) : Z :=
  nth (Z.to_nat (slice_type mod 5))
    [AVC_SC_P_SLICE; AVC_SC_B_SLICE; AVC_SC_I_SLICE; AVC_SC_SP_SLICE; AVC_SC_SI_SLICE] 0.

(** C30. The AVC start-code parser reads back a written slice header: for every
    coded-slice NAL header, every macroblock address and slice type, every
    continuation of the slice data, with emulation prevention applied to the
    whole, the event has the slice's type bit and its first macroblock. *)
Theorem avc_slice_header_roundtrip (header first_mb slice_type : Z) (rbsp : bytes) (rest : list bool) :
  1 <= Z.land header 0x1f <= 5 -> 0 <= first_mb <= i32_max -> 0 <= slice_type <= 9 ->
  bit_list rbsp = ue_bits first_mb ++ ue_bits slice_type ++ rest ->
  parse_avc_sc_index (header :: emulate 0 rbsp) =
  Ret (Some (mkRecordStartCodeInfo (avc_slice_mask slice_type) first_mb)).
Proof.
  intros Hh Hf Hs Hb. unfold parse_avc_sc_index. rewrite get_byte_ok by lens.
  change (nthz (header :: emulate 0 rbsp) 0) with header.
  replace (negb ((1 <=? Z.land header 31) && (Z.land header 31 <=? 5))) with false by lia.
  rewrite slice_from_ok by lens. cbn [mbind outcome_bind]. rewrite dropz_cons, dropz_0 by lia.
  unfold nal_to_rbsp. rewrite rbsp_emulate.
  destruct (read_ue_ok rbsp 0 first_mb (ue_bits slice_type ++ rest)) as [-> Hb2].
  - split; [lia|]. exists []. by rewrite app_nil_r.
  - unfold i32_max in Hf; lia.
  - cbn [mbind option_bind fst snd].
    destruct (read_ue_ok rbsp _ slice_type rest Hb2) as [-> _]; [lia|].
    cbn [mbind option_bind fst snd]. unfold u32_as_i32, avc_slice_mask.
    rewrite (proj2 (Z.leb_le _ _)) by lia. pose proof (Z.mod_pos_bound slice_type 5).
    assert (slice_type mod 5 = 0 \/ slice_type mod 5 = 1 \/ slice_type mod 5 = 2 \/
            slice_type mod 5 = 3 \/ slice_type mod 5 = 4) as Hm by lia.
    by destruct Hm as [-> | [-> | [-> | [-> | ->]]]].
Qed.

(** An IDR slice of macroblock 0, type I (7): bits 1, 0001000. *)
Lemma avc_slice_header_roundtrip_witness :
  parse_avc_sc_index (0x65 :: emulate 0 [0x88; 0x00; 0x00; 0x01]) =
  Ret (Some (mkRecordStartCodeInfo AVC_SC_I_SLICE 0)).
Proof.
  apply (avc_slice_header_roundtrip 0x65 0 7 [0x88; 0x00; 0x00; 0x01]
    (bit_list [0x00; 0x00; 0x01])); try (vm_compute; intuition congruence).
Defined.

(** ** The start-code scan *)

(** A start code with at least one byte behind it. *)
Definition sc_at (b : bytes) (i n : Z) : Prop :=
  0 <= i /\ i + n < len b /\
  (n = 3 /\ nthz b i = 0 /\ nthz b (i + 1) = 0 /\ nthz b (i + 2) = 1 \/
   n = 4 /\ nthz b i = 0 /\ nthz b (i + 1) = 0 /\ nthz b (i + 2) = 0 /\ nthz b (i + 3) = 1).

Lemma find_sc_loop_ok fuel b i : 0 <= i -> len b - i < Z.of_nat fuel -> (0 < fuel)%nat ->
  returns (find_sc_loop fuel b i) (fun r =>
    match r with
    | Some (j, n) => i <= j /\ sc_at b j n /\ forall j' n', i <= j' < j -> ~ sc_at b j' n'
    | None => forall j' n', i <= j' -> ~ sc_at b j' n'
    end).
Proof.
  revert i. induction fuel as [|fuel IH]; intros i Hi Hf H0; [lia|]. cbn [find_sc_loop].
  destruct (Z.ltb_spec (i + 3) (len b)) as [Hl|Hl]; cbn [negb].
  2: { apply returns_ret. intros j' n' Hj (_ & Hlt & Hn). lia. }
  in_range. cbn [mbind outcome_bind].
  destruct ((nthz b i =? 0) && (nthz b (i + 1) =? 0) && (nthz b (i + 2) =? 1)) eqn:E3.
  { apply returns_ret. breflect. split_and!; [lia| |intros; lia]. unfold sc_at. lia. }
  destruct ((nthz b i =? 0) && (nthz b (i + 1) =? 0) && (i + 4 <? len b) && (nthz b (i + 2) =? 0)
            && (nthz b (i + 3) =? 1)) eqn:E4.
  { apply returns_ret. breflect. split_and!; [lia| |intros; lia]. unfold sc_at. lia. }
  assert (forall n', ~ sc_at b i n') as Hno by (intros n' (_ & Hlt & Hn); lia).
  destruct (IH (i + 1)) as (r & -> & Hr); [lia..|]. apply returns_ret.
  destruct r as [[j n]|].
  - destruct Hr as (Hij & Hsc & Hfirst). split_and!; [lia|done|]. intros j' n' Hj.
    destruct (decide (j' = i)) as [->|]; [apply Hno|apply Hfirst; lia].
  - intros j' n' Hj. destruct (decide (j' = i)) as [->|]; [apply Hno|apply Hr; lia].
Qed.

(** C31. The start-code search returns the first start code that is followed
    by a byte, and nothing exactly when there is none. *)
Theorem find_sc_prefix_first (b : bytes) :
  returns (find_sc_prefix b) (fun r =>
    match r with
    | Some (i, n) => sc_at b i n /\ forall j m, j < i -> ~ sc_at b j m
    | None => forall j m, ~ sc_at b j m
    end).
Proof.
  destruct (find_sc_loop_ok (S (length b)) b 0) as (r & E & Hr); [lia|unfold len; lia|lia|].
  exists r. split; [exact E|]. destruct r as [[i n]|].
  - destruct Hr as (_ & Hsc & Hf). split; [done|]. intros j m Hj Hs. apply (Hf j m); [|done].
    destruct Hs; lia.
  - intros j m Hs. apply (Hr j m); [|done]. by destruct Hs.
Qed.

Lemma find_sc_prefix_ok b : returns (find_sc_prefix b) (fun r =>
  match r with Some (i, n) => 0 <= i /\ 3 <= n /\ i + n < len b | None => True end).
Proof.
  destruct (find_sc_loop_ok (S (length b)) b 0) as (r & E & Hr); [lia|unfold len; lia|lia|].
  exists r. split; [exact E|]. destruct r as [[i n]|]; [|done].
  destruct Hr as (_ & (H0 & Hl & Hn) & _). lia.
Qed.

Lemma parse_sc_total t nal : returns (parse_sc t nal) (fun _ => True).
Proof.
  unfold parse_sc, parse_generic_sc_index, parse_avc_sc_index, parse_hevc_sc_index,
    parse_vvc_sc_index.
  repeat case_test; try (by apply returns_ret); breflect;
    repeat (first [rewrite byte_at_ok by (pose_lens; lia) | rewrite slice_from_ok by lia];
            cbn [mbind outcome_bind]); try (by apply returns_ret).
  all: unfold get_byte in *; repeat case_match; simplify_eq; breflect.
  all: try (rewrite slice_from_ok by lia; cbn [mbind outcome_bind]; by apply returns_ret).
  all: by apply returns_ret.
Qed.

(** ** Bounds of the pieces of an event *)
Definition opt_u33 (v : option Z) : Prop := match v with Some v => u33 v | None => True end.

Lemma pes_timestamps_u33 b flags ts : wf_bytes b -> pes_timestamps b flags = Ret (Some ts) ->
  opt_u33 (fst ts).
Proof.
  intros Hb. unfold pes_timestamps.
  assert (forall i j f prefix v, slice b i j = Ret f -> pts_dts_field_value f prefix = Ret (Some v) ->
    u33 v) as Hu.
  { intros i j f prefix v Hs Hv. assert (wf_bytes f) as Hf.
    { unfold slice in Hs. case_match; simplify_eq. auto with tv. }
    exact (returns_inv _ _ _ (pts_dts_field_value_total f prefix Hf) Hv). }
  case_test; [|case_test; [|by intros [= <-]]];
    destruct (slice b 9 14) as [f| |] eqn:E9; cbn [mbind outcome_bind]; try done.
  - destruct (pts_dts_field_value f 2) as [[v|]| |] eqn:Ev; cbn [mbind outcome_bind]; try done.
    intros [= <-]. by apply (Hu 9 14 f 2).
  - destruct (pts_dts_field_value f 3) as [[v|]| |] eqn:Ev; cbn [mbind outcome_bind]; try done.
    destruct (slice b 14 19) as [g| |]; cbn [mbind outcome_bind]; try done.
    destruct (pts_dts_field_value g 1) as [[w|]| |]; cbn [mbind outcome_bind]; try done.
    intros [= <-]. by apply (Hu 9 14 f 3).
Qed.

Lemma parse_summary_u33 b s : wf_bytes b -> parse_pes_header_status b = Ret (Complete s) ->
  opt_u33 (sum_pts_90khz s).
Proof.
  intros Hb. unfold parse_pes_header_status, parse_optional_header, parse_optional_fields.
  repeat first [ done | case_test | progress cbn [mbind outcome_bind]
    | match goal with
      | |- context [slice b 0 3] => destruct (slice b 0 3)
      | |- context [byte_at b ?i] => destruct (byte_at b i)
      end ].
  all: try (by intros [= <-]).
  match goal with |- context [pes_timestamps b ?f] =>
    destruct (pes_timestamps b f) as [[[pts dts]|]| |] eqn:Et end; cbn [mbind outcome_bind]; try done.
  apply pes_timestamps_u33 in Et; [|done].
  destruct (slice b 9 _); cbn [mbind outcome_bind]; try done.
  case_match; [|done]. by intros [= <-].
Qed.

Lemma record_packet_pts_ok b : wf_bytes b -> returns (record_packet_pts b) opt_u33.
Proof.
  intros Hb. unfold record_packet_pts. case_test; [|by apply returns_ret].
  unfold pes_time_fields, parse_pes_header_summary.
  destruct (parse_status_ok b Hb) as (s & Es & _). rewrite Es. cbn [mbind outcome_bind].
  apply returns_ret. destruct s as [| |s]; [done..|]. cbn [fst].
  case_match; [done|]. by apply (parse_summary_u33 b).
Qed.

Definition carry_inv (s : RecordEventState) : Prop :=
  wf_bytes (sc_prefix_carry s) /\ len (sc_prefix_carry s) <= 3 /\
  wf_bytes (pes_header_carry s) /\ len (pes_header_carry s) <= 19.

Lemma observe_pts_ok s payload pusi : carry_inv s -> wf_bytes payload ->
  returns (observe_pts s payload pusi) (fun '(s', pts) => carry_inv s' /\ opt_u33 pts).
Proof.
  intros (Hs1 & Hs2 & Hp1 & Hp2) Hw. unfold observe_pts.
  assert (forall c, wf_bytes c -> len c <= 19 -> carry_inv (mkRecordEventState
    (last_transport_scrambling_control s) (sc_prefix_carry s) c)) as Hc by (intros; by split_and!).
  assert (carry_inv (mkRecordEventState (last_transport_scrambling_control s) (sc_prefix_carry s) []))
    as Hnil by (apply Hc; [auto with tv|rewrite len_nil; lia]).
  set (head := takez (Z.min (len payload) 19) payload).
  assert (wf_bytes head) as Hwh by (subst head; auto with tv).
  assert (len head <= 19) as Hlh by (subst head; pose_lens; rewrite len_takez by lia; lia).
  case_test.
  - case_test.
    + destruct (record_packet_pts_ok payload Hw) as (pts & -> & Hpts). cbn [mbind outcome_bind].
      apply returns_ret. destruct pts; split; auto.
    + case_test; apply returns_ret; (split; [|done]); [|done]. apply Hc; [done|].
      unfold is_pes_start_prefix_fragment in *. apply orb_prop in E1 as [E1|E1]; breflect; subst;
        rewrite ?len_cons, len_nil; lia.
  - case_test; [by apply returns_ret|]. case_test; [by apply returns_ret|].
    set (carry := if len (pes_header_carry s ++ head) >? 32 then _ else _).
    assert (wf_bytes carry) as Hwc.
    { subst carry. assert (wf_bytes (pes_header_carry s ++ head)) by (by apply wf_app).
      case_test; auto with tv. }
    destruct (record_packet_pts_ok carry Hwc) as (pts & -> & Hpts). cbn [mbind outcome_bind].
    apply returns_ret. split; [|done]. case_test; [done|]. breflect. apply Hc; [done|lia].
Qed.

Lemma payload_with_sc_carry_ok s payload : carry_inv s -> wf_bytes payload ->
  returns (payload_with_sc_carry s payload) (fun '(s', m) =>
    carry_inv s' /\ m = sc_prefix_carry s ++ payload /\ wf_bytes m).
Proof.
  intros (Hs1 & Hs2 & Hp1 & Hp2) Hw. unfold payload_with_sc_carry.
  set (m := sc_prefix_carry s ++ payload). assert (wf_bytes m) by (by apply wf_app).
  pose proof (len_nonneg m). case_test; breflect.
  - rewrite slice_from_ok by lia. cbn [mbind outcome_bind]. apply returns_ret.
    unfold carry_inv; cbn [sc_prefix_carry pes_header_carry].
    split_and!; auto with tv. rewrite len_dropz by lia. lia.
  - cbn [mbind outcome_bind]. apply returns_ret.
    unfold carry_inv; cbn [sc_prefix_carry pes_header_carry].
    split_and!; auto with tv. rewrite len_nil. lia.
Qed.

Lemma sc_scan_total fuel es t cm offset obs fm : 0 <= offset <= len es ->
  len es - offset < Z.of_nat fuel -> len es < usize_max ->
  returns (sc_scan fuel es t cm offset obs fm) (fun _ => True).
Proof.
  revert offset obs fm. induction fuel as [|fuel IH]; intros offset obs fm Ho Hf Hm; [lia|].
  cbn [sc_scan]. rewrite slice_from_ok by lia. cbn [mbind outcome_bind].
  destruct (find_sc_prefix_ok (dropz offset es)) as (r & -> & Hr). cbn [mbind outcome_bind].
  destruct r as [[i n]|]; [|by apply returns_ret]. destruct Hr as (Hi & Hn & Hl).
  rewrite len_dropz in Hl by lia. rewrite slice_from_ok by lia. cbn [mbind outcome_bind].
  destruct (parse_sc_total t (dropz (offset + i + n) es)) as (info & -> & _).
  cbn [mbind outcome_bind]. case_match. case_test; [by apply returns_ret|]. breflect.
  unfold saturating_add in *. rewrite Z.min_r in * by lia. apply IH; lia.
Qed.

Lemma record_sc_info_total payload t cm : wf_bytes payload -> len payload < usize_max ->
  returns (record_sc_info payload t cm) (fun _ => True).
Proof.
  intros Hw Hl. unfold record_sc_info. case_test; [by apply returns_ret|].
  assert (returns (pes_payload_kind payload) (fun k =>
    match k with ElementaryStream b => len b <= len payload | _ => True end)) as (k & -> & Hk).
  { unfold pes_payload_kind, parse_pes_header_summary. case_test; [by apply returns_ret|].
    case_test; [|by apply returns_ret]. case_test; [by apply returns_ret|].
    destruct (parse_status_ok payload Hw) as (s & -> & Hs). cbn [mbind outcome_bind].
    apply returns_ret. destruct s as [| |s]; [done..|].
    destruct (match sum_expected_len s with Some e => len payload <? e | None => false end); [done|].
    destruct (Z.leb_spec (sum_payload_offset s) (len payload)); [|done]. destruct Hs as [(Ho & _) _]. rewrite len_dropz; lia. }
  cbn [mbind outcome_bind].
  assert (forall es, len es <= len payload ->
    returns (r ← sc_scan (S (length es)) es t cm 0 0 INVALID_FIRST_MB_IN_SLICE;
      let '(observed, first_mb) := r in
      Ret (if observed =? 0 then None else Some (mkRecordStartCodeInfo observed first_mb)))
      (fun _ => True)) as Hes.
  { intros es Hes. pose_lens. destruct (sc_scan_total (S (length es)) es t cm 0 0
      INVALID_FIRST_MB_IN_SLICE) as ([o f] & -> & _); [lia|unfold len; lia|lia|].
    cbn [mbind outcome_bind]. by apply returns_ret. }
  destruct k; [apply Hes; lia|by apply returns_ret|by apply Hes].
Qed.

(** ** The event of a packet *)

(** What an event says: it is about the packet, within the configured masks,
    not empty, and carries a time stamp only of a clear packet. *)
Definition event_sound (v : TsPacketView) (bytes_before configured_ts sc_type configured_sc : Z)
    (e : TsRecordEventData) : Prop :=
  ev_pid e = view_pid v /\ ev_byte_number e = bytes_before /\ bytes_before <= i64_max /\
  ev_sc_index_type e = sc_type /\
  Z.land (ev_ts_index_mask e) configured_ts = ev_ts_index_mask e /\
  Z.land (ev_sc_index_mask_bits e) configured_sc = ev_sc_index_mask_bits e /\
  (ev_ts_index_mask e <> 0 \/ ev_sc_index_mask_bits e <> 0) /\
  (ev_pts e = RECORD_INDEX_PTS_ABSENT \/ u33 (ev_pts e)) /\
  (view_scrambling_control v <> 0 ->
     ev_pts e = RECORD_INDEX_PTS_ABSENT /\ ev_sc_index_mask_bits e = 0).

Lemma observe_payload_ok s v payload t cs : carry_inv s -> wf_bytes payload ->
  len payload <= 188 ->
  returns (observe_payload s v payload t cs) (fun '(s', pts, info) =>
    carry_inv s' /\ (pts = RECORD_INDEX_PTS_ABSENT \/ u33 pts) /\
    last_transport_scrambling_control s' = last_transport_scrambling_control s /\
    (view_scrambling_control v <> 0 ->
       pts = RECORD_INDEX_PTS_ABSENT /\ info = None /\ sc_prefix_carry s' = [] /\
       pes_header_carry s' = [])).
Proof.
  intros Hs Hw Hl. unfold observe_payload. case_test; breflect.
  - assert (returns (observe_pts s payload (view_payload_unit_start v)) (fun '(s', pts) =>
      carry_inv s' /\ opt_u33 pts /\
      last_transport_scrambling_control s' = last_transport_scrambling_control s))
      as ([s1 pts] & -> & Hs1 & Hpts & Hl1).
    { destruct (observe_pts_ok s payload (view_payload_unit_start v) Hs Hw)
        as ([s1 pts] & E1 & H1 & H2). exists (s1, pts). split_and!; try done.
      revert E1. unfold observe_pts.
      repeat first [ case_test | match goal with |- context [record_packet_pts ?x] =>
        destruct (record_packet_pts x) end | progress cbn [mbind outcome_bind] ];
        try done; intros [= <- <-]; done. }
    cbn [mbind outcome_bind].
    destruct (payload_with_sc_carry_ok s1 payload Hs1 Hw) as ([s2 m] & E2 & Hs2 & -> & Hwm).
    assert (last_transport_scrambling_control s2 = last_transport_scrambling_control s1) as Hl2.
    { revert E2. unfold payload_with_sc_carry. case_test; [|by intros [= <-]].
      destruct (slice_from _ _); cbn [mbind outcome_bind]; intros E2; by simplify_eq. }
    rewrite E2. cbn [mbind outcome_bind].
    destruct (record_sc_info_total (sc_prefix_carry s1 ++ payload) t cs Hwm) as (info & -> & _).
    { destruct Hs1 as (_ & Hc & _). rewrite len_app. unfold u64_max. lia. }
    cbn [mbind outcome_bind]. apply returns_ret. split_and!; [done| |congruence|done].
    destruct pts; [by right|by left].
  - apply returns_ret. split_and!; try done; [|by left].
    unfold carry_inv; simpl. split_and!; auto with tv; rewrite len_nil; lia.
Qed.

Lemma land_sub a b : Z.land (Z.land a b) b = Z.land a b.
Proof. by rewrite <- Z.land_assoc, Z.land_diag. Qed.

(** C32. Record events: indexing a packet never panics; a packet with the
    transport-error indicator makes no event and leaves the carried state
    untouched; otherwise the carried bytes stay within three bytes of start
    code and nineteen of PES header, and an event, when there is one, is sound:
    within the configured masks, not empty, at the recorded byte offset, and
    with time stamp and start codes only from a packet in the clear. *)
Theorem record_event_sound (p : ValidatedTsPacket) (s : RecordEventState)
    (bytes_before configured_ts sc_type configured_sc : Z) :
  carry_inv s ->
  match view_payload (packet_view p) with Some b => wf_bytes b /\ len b <= 188 | None => True end ->
  returns (build_ts_record_event_data_from_validated p bytes_before configured_ts sc_type
             configured_sc s) (fun '(s', ev) =>
    (view_transport_error_indicator (packet_view p) = true -> s' = s /\ ev = None) /\
    carry_inv s' /\
    match ev with
    | Some e => event_sound (packet_view p) bytes_before configured_ts sc_type configured_sc e
    | None => True
    end).
Proof.
  intros Hs Hp. unfold build_ts_record_event_data_from_validated.
  case_test; [by apply returns_ret|].
  set (s0 := if view_discontinuity_indicator _ then reset_payload_state s else s).
  assert (carry_inv s0) as Hs0.
  { subst s0. case_test; [|done]. unfold carry_inv; simpl.
    split_and!; auto with tv; rewrite len_nil; lia. }
  set (s1 := mkRecordEventState _ (sc_prefix_carry s0) (pes_header_carry s0)).
  destruct (observe_payload_ok s1 (packet_view p) (default [] (view_payload (packet_view p)))
    sc_type configured_sc) as ([[s2 pts] info] & -> & Hs2 & Hpts & _ & Hsc); [done| | |].
  - destruct (view_payload (packet_view p)); [apply Hp|apply wf_nil].
  - destruct (view_payload (packet_view p)); [apply Hp|simpl; rewrite len_nil; lia].
  - cbn [mbind outcome_bind]. apply returns_ret. split; [done|]. split; [done|].
    case_test; [done|]. case_test; [|done]. breflect.
    unfold event_sound; cbn [ev_pid ev_byte_number ev_sc_index_type ev_ts_index_mask
      ev_sc_index_mask_bits ev_pts].
    split_and!; try done.
    + apply land_sub.
    + destruct info; [apply land_sub|done].
    + apply andb_false_iff in E0 as [E0|E0]; breflect; [by left|by right].
    + intros Hne. destruct (Hsc Hne) as (-> & -> & _). done.
Qed.

(** A clear random-access packet whose payload starts an AVC access unit. *)
Definition sample_record_packet : ValidatedTsPacket :=
  mkValidatedTsPacket []
    (mkTsPacketView (mkPacketPid (mkPid 0x111)) false true false 0 3 false true false None false
       false false false (Some ([0; 0; 1; 0x65; 0x88; 0x80; 0x11] ++ replicate 20 0x55))).

Lemma record_event_sound_witness :
  returns (build_ts_record_event_data_from_validated sample_record_packet 376 0x42
             RECORD_SC_TYPE_SC_AVC 1 record_state_default) (fun '(s', ev) =>
    carry_inv s' /\ ev = Some (mkTsRecordEventData (mkPacketPid (mkPid 0x111)) 0x42 3 1 376 (-1) 0)).
Proof.
  destruct (record_event_sound sample_record_packet record_state_default 376 0x42
    RECORD_SC_TYPE_SC_AVC 1) as ([s' ev] & E & _ & Hs & _).
  - split_and!; dec_true.
  - split; dec_true.
  - exists (s', ev). split; [exact E|]. split; [exact Hs|].
    revert E. vm_compute. intros [= _ <-]. reflexivity.
Defined.

(** The state is kept over three bytes only: a start code whose NAL header byte
    is the last byte of one payload is indexed when the stream is in one piece
    and lost when it is cut there. *)
Definition index_two (first second : bytes) (t mask : Z)
  : outcome (option RecordStartCodeInfo * option RecordStartCodeInfo) :=
  '(s, m) ← payload_with_sc_carry record_state_default first;
  i ← record_sc_info m t mask;
  '(s, m) ← payload_with_sc_carry s second;
  j ← record_sc_info m t mask;
  Ret (i, j).

Lemma split_start_code_lost :
  let first := [0x11; 0x22; 0; 0; 1; 0x65] in
  let second := [0x88; 0x80; 0x10; 0x20] in
  record_sc_info (first ++ second) RECORD_SC_TYPE_SC_AVC AVC_SC_I_SLICE =
    Ret (Some (mkRecordStartCodeInfo AVC_SC_I_SLICE 0)) /\
  index_two first second RECORD_SC_TYPE_SC_AVC AVC_SC_I_SLICE = Ret (None, None).
Proof. split; vm_compute; reflexivity. Qed.
