(* ===== verification/Pipeline.v ===== *)
(** * The packet pipeline

    [PacketPipeline] of [demux/src/parser/packet_pipeline.rs]: the one owner of
    continuity, section and PES assembly, record-index and resynchronisation
    state of a demux.  Every map is keyed as in the code, a [retain] is a
    filter of the map, and each operation threads the whole pipeline.

    The [inner] wrappers around assembler and tracker are collapsed. *)

From stdpp Require Import gmap.
From S2P Require Import Prelude Common Sections TsPacket TsCore RecordIndex.

(** ** Origins ([demux/src/lib.rs]) and settings ([demux/src/config.rs]) *)
Inductive TsInputOrigin :=
| Frontend (frontend_generation : Z)
| PlaybackDvr (dvr_id queue_identity queue_epoch : Z)
| SourceFilter (source_filter_id source_filter_generation : Z).

#[global] Instance TsInputOrigin_eq_dec : EqDecision TsInputOrigin.
Proof. solve_decision. Defined.
#[global] Instance TsInputOrigin_countable : Countable TsInputOrigin.
Proof.
  refine (inj_countable'
    (fun o => match o with
     | Frontend g => inl g
     | PlaybackDvr d q e => inr (inl (d, q, e))
     | SourceFilter i g => inr (inr (i, g))
     end)
    (fun x => match x with
     | inl g => Frontend g
     | inr (inl (d, q, e)) => PlaybackDvr d q e
     | inr (inr (i, g)) => SourceFilter i g
     end) _).
  by intros [].
Defined.

Record RecordIndexSettings := mkRecordIndexSettings {
  ts_index_mask : Z;
  sc_index_type : Z;
  sc_index_mask : Z
}.

(** [ConfigInputPid] *)
Record ConfigInputPid := mkConfigInputPid { config_pid_inner : TransportStreamPid }.
Definition validate_tpid (pid : Z) : option ConfigInputPid :=
  match validate_i32 pid with Ok p => Some (mkConfigInputPid p) | Err _ => None end.
Definition from_config_pid (pid : ConfigInputPid) : PacketPid := mkPacketPid (config_pid_inner pid).

(** ** Reports *)
Inductive PipelineDropReason :=
| MalformedPacket
| AssemblyDrop
| ResidualBytes
| PesAssemblerOverflow
| SectionGenerationOverflow
| PesGenerationOverflow.

Inductive PipelineAssemblySuppressionReason :=
| TransportErrorIndicator
| DuplicatePacket
| ContinuityCounterCollision
| NoPayload
| KeylessScrambledWithoutDescrambler.
#[global] Instance suppression_eq_dec : EqDecision PipelineAssemblySuppressionReason.
Proof. solve_decision. Defined.

Inductive PipelineDeliveryAction :=
| RawPacket (filter_id : Z)
| RecordPacket (filter_id : Z)
| DvrMirror (dvr_id : Z)
| SectionPayload (filter_id : Z)
| PesPayload (filter_id : Z)
| AvPayload (filter_id : Z).

(** The events the pipeline itself makes; status and AV media events are added
    by the layers above. *)
Inductive PipelineGeneratedEvent :=
| EvDataReady (filter_id : Z)
| EvSection (filter_id : Z) (raw : bool)
| EvPes (filter_id : Z) (raw : bool)
| EvRecord (filter_id : Z)
| EvRecordIndex (filter_id : Z) (data : TsRecordEventData)
| EvSectionPayloadReady (filter_id : Z) (pid : PacketPid) (generation : Z) (raw : bool) (b : bytes)
| EvPesPacketReady (filter_id : Z) (pid : PacketPid) (generation : Z) (raw : bool)
    (packet : PesPacket).

(** The diagnostics the pipeline itself makes. *)
Inductive PipelineDiagnostic :=
| MalformedTsPacket (reason : TsPacketValidationError)
| TeiAssemblySuppressed (pid : PacketPid)
| DuplicatePacketAssemblySuppressed (pid : PacketPid)
| ContinuityCounterCollisionAssemblySuppressed (pid : PacketPid) (origin : TsInputOrigin)
| ContinuityDiscontinuityAssemblyReset (pid : PacketPid) (origin : TsInputOrigin)
| NoPayloadAssemblySuppressed (pid : PacketPid)
| KeylessScrambledAssemblySuppressed (pid : PacketPid)
| SectionAssemblyDrop (pid : PacketPid)
| DiagSectionGenerationOverflow (pid : PacketPid) (filter_ids : list Z)
| DiagPesGenerationOverflow (pid : PacketPid) (filter_ids : list Z)
| PesAssemblerDrop (pid : PacketPid) (reason : PesDropReason).

Record PipelineReport := mkPipelineReport {
  accepted_packets : Z;
  dropped_packets : Z;
  malformed_packets : Z;
  drop_reasons : list PipelineDropReason;
  assembly_suppression_reasons : list PipelineAssemblySuppressionReason;
  delivery_actions : list PipelineDeliveryAction;
  generated_events : list PipelineGeneratedEvent;
  diagnostics : list PipelineDiagnostic
}.
Definition report_default : PipelineReport := mkPipelineReport 0 0 0 [] [] [] [] [].

(** [report.dropped_packets += 1] with its reason and diagnostic. *)
Definition report_drop (r : PipelineReport) (reason : PipelineDropReason) (d : PipelineDiagnostic) :=
  mkPipelineReport (accepted_packets r) (dropped_packets r + 1) (malformed_packets r)
    (drop_reasons r ++ [reason]) (assembly_suppression_reasons r) (delivery_actions r)
    (generated_events r) (diagnostics r ++ [d]).
Definition report_suppress (r : PipelineReport) (s : PipelineAssemblySuppressionReason)
    (d : PipelineDiagnostic) :=
  mkPipelineReport (accepted_packets r) (dropped_packets r) (malformed_packets r) (drop_reasons r)
    (assembly_suppression_reasons r ++ [s]) (delivery_actions r) (generated_events r)
    (diagnostics r ++ [d]).
Definition report_diagnose (r : PipelineReport) (d : PipelineDiagnostic) :=
  mkPipelineReport (accepted_packets r) (dropped_packets r) (malformed_packets r) (drop_reasons r)
    (assembly_suppression_reasons r) (delivery_actions r) (generated_events r) (diagnostics r ++ [d]).
Definition report_events (r : PipelineReport) (es : list PipelineGeneratedEvent) :=
  mkPipelineReport (accepted_packets r) (dropped_packets r) (malformed_packets r) (drop_reasons r)
    (assembly_suppression_reasons r) (delivery_actions r) (generated_events r ++ es) (diagnostics r).
Definition report_actions (r : PipelineReport) (l : list PipelineDeliveryAction) :=
  mkPipelineReport (accepted_packets r) (dropped_packets r) (malformed_packets r) (drop_reasons r)
    (assembly_suppression_reasons r) l (generated_events r) (diagnostics r).

Record PipelineDiagnosticCounters := mkCounters {
  malformed_ts_packets : Z;
  tei_packets_observed : Z;
  duplicate_packets_observed : Z;
  continuity_discontinuities_observed : Z;
  counter_saturated : bool
}.
Definition counters_default : PipelineDiagnosticCounters := mkCounters 0 0 0 0 false.

(** [increment]: the new value and the saturation flag. *)
Definition increment (value : Z) (saturated : bool) : Z * bool :=
  match checked_add u64_max value 1 with
  | Some next => (next, if next =? u64_max then true else saturated)
  | None => (u64_max, true)
  end.

Definition note_malformed_ts (c : PipelineDiagnosticCounters) :=
  let '(v, s) := increment (malformed_ts_packets c) (counter_saturated c) in
  mkCounters v (tei_packets_observed c) (duplicate_packets_observed c)
    (continuity_discontinuities_observed c) s.
Definition note_tei (c : PipelineDiagnosticCounters) :=
  let '(v, s) := increment (tei_packets_observed c) (counter_saturated c) in
  mkCounters (malformed_ts_packets c) v (duplicate_packets_observed c)
    (continuity_discontinuities_observed c) s.
Definition note_duplicate (c : PipelineDiagnosticCounters) :=
  let '(v, s) := increment (duplicate_packets_observed c) (counter_saturated c) in
  mkCounters (malformed_ts_packets c) (tei_packets_observed c) v
    (continuity_discontinuities_observed c) s.
Definition note_continuity_discontinuity (c : PipelineDiagnosticCounters) :=
  let '(v, s) := increment (continuity_discontinuities_observed c) (counter_saturated c) in
  mkCounters (malformed_ts_packets c) (tei_packets_observed c) (duplicate_packets_observed c) v s.

(** ** The pipeline *)
Abbreviation AssemblerKey := (TsInputOrigin * PacketPid * Z)%type.
Abbreviation PidKey := (TsInputOrigin * PacketPid)%type.
Abbreviation FlushKey := (TsInputOrigin * Z * PacketPid)%type.

Record PacketPipeline := mkPipeline {
  section_assemblers : gmap AssemblerKey SectionAssembler;
  pes_assemblers : gmap AssemblerKey PesAssembler;
  section_assembler_generations : gmap PidKey Z;
  pes_assembler_generations : gmap PidKey Z;
  filter_section_flush_generations : gmap FlushKey Z;
  filter_pes_flush_generations : gmap FlushKey Z;
  continuity_trackers : gmap TsInputOrigin ContinuityTracker;
  record_index_parsers : gmap Z RecordIndexParser;
  record_event_states : gmap Z RecordEventState;
  record_index_settings : gmap Z RecordIndexSettings;
  resync : TsPacketCompletionBuffer;
  diagnostic_counters : PipelineDiagnosticCounters
}.

Definition PIPELINE_GENERATION_INITIAL : Z := 0.
Definition pipeline_default : PacketPipeline :=
  mkPipeline ∅ ∅ ∅ ∅ ∅ ∅ ∅ ∅ ∅ ∅ buffer_default counters_default.

(** The six assembly maps together. *)
Definition with_assembly_maps (p : PacketPipeline) sa pa sg pg sf pf : PacketPipeline :=
  mkPipeline sa pa sg pg sf pf (continuity_trackers p) (record_index_parsers p)
    (record_event_states p) (record_index_settings p) (resync p) (diagnostic_counters p).
Definition with_continuity (p : PacketPipeline) (m : gmap TsInputOrigin ContinuityTracker) :=
  mkPipeline (section_assemblers p) (pes_assemblers p) (section_assembler_generations p)
    (pes_assembler_generations p) (filter_section_flush_generations p)
    (filter_pes_flush_generations p) m (record_index_parsers p) (record_event_states p)
    (record_index_settings p) (resync p) (diagnostic_counters p).
Definition with_counters (p : PacketPipeline) (c : PipelineDiagnosticCounters) :=
  mkPipeline (section_assemblers p) (pes_assemblers p) (section_assembler_generations p)
    (pes_assembler_generations p) (filter_section_flush_generations p)
    (filter_pes_flush_generations p) (continuity_trackers p) (record_index_parsers p)
    (record_event_states p) (record_index_settings p) (resync p) c.
Definition with_record_index (p : PacketPipeline) parsers states settings :=
  mkPipeline (section_assemblers p) (pes_assemblers p) (section_assembler_generations p)
    (pes_assembler_generations p) (filter_section_flush_generations p)
    (filter_pes_flush_generations p) (continuity_trackers p) parsers states settings (resync p)
    (diagnostic_counters p).

(** *** Resets *)
Definition reset_assembly_for_origin_pid (p : PacketPipeline) (origin : TsInputOrigin)
    (pid : PacketPid) : PacketPipeline :=
  with_assembly_maps p
    (filter (fun kv => kv.1.1.1 <> origin \/ kv.1.1.2 <> pid) (section_assemblers p))
    (filter (fun kv => kv.1.1.1 <> origin \/ kv.1.1.2 <> pid) (pes_assemblers p))
    (filter (fun kv => kv.1.1 <> origin \/ kv.1.2 <> pid) (section_assembler_generations p))
    (filter (fun kv => kv.1.1 <> origin \/ kv.1.2 <> pid) (pes_assembler_generations p))
    (filter (fun kv => kv.1.1.1 <> origin \/ kv.1.2 <> pid) (filter_section_flush_generations p))
    (filter (fun kv => kv.1.1.1 <> origin \/ kv.1.2 <> pid) (filter_pes_flush_generations p)).

Definition reset_origin (p : PacketPipeline) (origin : TsInputOrigin) : PacketPipeline :=
  let p := with_assembly_maps p
    (filter (fun kv => kv.1.1.1 <> origin) (section_assemblers p))
    (filter (fun kv => kv.1.1.1 <> origin) (pes_assemblers p))
    (filter (fun kv => kv.1.1 <> origin) (section_assembler_generations p))
    (filter (fun kv => kv.1.1 <> origin) (pes_assembler_generations p))
    (filter (fun kv => kv.1.1.1 <> origin) (filter_section_flush_generations p))
    (filter (fun kv => kv.1.1.1 <> origin) (filter_pes_flush_generations p)) in
  with_continuity p (delete origin (continuity_trackers p)).

Definition clear_filter_state (p : PacketPipeline) (filter_id : Z) : PacketPipeline :=
  with_assembly_maps p
    (filter (fun kv => kv.1.2 <> filter_id) (section_assemblers p))
    (filter (fun kv => kv.1.2 <> filter_id) (pes_assemblers p))
    (section_assembler_generations p) (pes_assembler_generations p)
    (filter (fun kv => kv.1.1.2 <> filter_id) (filter_section_flush_generations p))
    (filter (fun kv => kv.1.1.2 <> filter_id) (filter_pes_flush_generations p)).

Definition drop_generations_for_pid_origin (p : PacketPipeline) (origin : TsInputOrigin)
    (pid : PacketPid) (section pes : bool) : PacketPipeline :=
  let p := if section then
      with_assembly_maps p (section_assemblers p) (pes_assemblers p)
        (filter (fun kv => ~ (kv.1.1 = origin /\ kv.1.2 = pid)) (section_assembler_generations p))
        (pes_assembler_generations p)
        (filter (fun kv => ~ (kv.1.1.1 = origin /\ kv.1.2 = pid)) (filter_section_flush_generations p))
        (filter_pes_flush_generations p)
    else p in
  if pes then
    with_assembly_maps p (section_assemblers p) (pes_assemblers p)
      (section_assembler_generations p)
      (filter (fun kv => ~ (kv.1.1 = origin /\ kv.1.2 = pid)) (pes_assembler_generations p))
      (filter_section_flush_generations p)
      (filter (fun kv => ~ (kv.1.1.1 = origin /\ kv.1.2 = pid)) (filter_pes_flush_generations p))
  else p.

Definition tracker_default : ContinuityTracker := mkContinuityTracker ∅.

Definition reset_continuity_pid (p : PacketPipeline) (origin : TsInputOrigin) (pid : PacketPid) :=
  with_continuity p
    (<[origin := reset_pid (default tracker_default (continuity_trackers p !! origin)) pid]>
       (continuity_trackers p)).

Definition check_continuity (p : PacketPipeline) (origin : TsInputOrigin) (pid : PacketPid)
    (counter : Z) (has_payload : bool) (packet : bytes)
  : outcome (PacketPipeline * ContinuityOutcome) :=
  r ← observe (default tracker_default (continuity_trackers p !! origin)) pid counter has_payload
        packet;
  let '(t, o) := r in
  Ret (with_continuity p (<[origin := t]> (continuity_trackers p)), o).

(** *** Generations *)
Definition current_section_generation (p : PacketPipeline) (origin : TsInputOrigin) (pid : PacketPid) :=
  default PIPELINE_GENERATION_INITIAL (section_assembler_generations p !! (origin, pid)).
Definition current_pes_generation (p : PacketPipeline) (origin : TsInputOrigin) (pid : PacketPid) :=
  default PIPELINE_GENERATION_INITIAL (pes_assembler_generations p !! (origin, pid)).

(** [entry().or_insert(0)], then a checked increment: the map and the result. *)
Definition bump (m : gmap PidKey Z) (k : PidKey) : gmap PidKey Z * option Z :=
  let generation := default 0 (m !! k) in
  match checked_add u64_max generation 1 with
  | None => (<[k := generation]> m, None)
  | Some next => (<[k := next]> m, Some next)
  end.

Definition bump_section_generation (p : PacketPipeline) (origin : TsInputOrigin) (pid : PacketPid)
  : PacketPipeline * option Z :=
  let '(m, g) := bump (section_assembler_generations p) (origin, pid) in
  (with_assembly_maps p (section_assemblers p) (pes_assemblers p) m (pes_assembler_generations p)
     (filter_section_flush_generations p) (filter_pes_flush_generations p), g).
Definition bump_pes_generation (p : PacketPipeline) (origin : TsInputOrigin) (pid : PacketPid)
  : PacketPipeline * option Z :=
  let '(m, g) := bump (pes_assembler_generations p) (origin, pid) in
  (with_assembly_maps p (section_assemblers p) (pes_assemblers p) (section_assembler_generations p)
     m (filter_section_flush_generations p) (filter_pes_flush_generations p), g).

(** *** Preflight: [accept_validated_ts_packet] *)
Inductive PipelineInputKind :=
| KindFrontend (frontend_generation : Z)
| KindPlaybackDvr (dvr_id queue_identity queue_epoch : Z)
| KindSourceFilter (source_filter_id source_filter_generation : Z).

Definition origin_of (kind : PipelineInputKind) : TsInputOrigin :=
  match kind with
  | KindFrontend g => Frontend g
  | KindPlaybackDvr d q e => PlaybackDvr d q e
  | KindSourceFilter i g => SourceFilter i g
  end.

Definition malformed_ts_packet_report (reason : TsPacketValidationError) : PipelineReport :=
  mkPipelineReport 0 1 1 [MalformedPacket] [] [] [] [MalformedTsPacket reason].
Definition note_malformed_ts_packet (p : PacketPipeline) : PacketPipeline :=
  with_counters p (note_malformed_ts (diagnostic_counters p)).

(** The flags of the packet, before its continuity is checked. *)
Definition accept_flags (p : PacketPipeline) (origin : TsInputOrigin) (v : TsPacketView)
    (r : PipelineReport) : PacketPipeline * PipelineReport :=
  let pid := view_pid v in
  let '(p, r) :=
    if view_transport_error_indicator v
    then (with_counters p (note_tei (diagnostic_counters p)),
          report_suppress r TransportErrorIndicator (TeiAssemblySuppressed pid))
    else (p, r) in
  if view_discontinuity_indicator v then
    let p := with_counters p (note_continuity_discontinuity (diagnostic_counters p)) in
    let r := report_diagnose r (ContinuityDiscontinuityAssemblyReset pid origin) in
    (reset_assembly_for_origin_pid (reset_continuity_pid p origin pid) origin pid, r)
  else (p, r).

(** What the continuity verdict does. *)
Definition accept_continuity (p : PacketPipeline) (origin : TsInputOrigin) (pid : PacketPid)
    (o : ContinuityOutcome) (r : PipelineReport) : PacketPipeline * PipelineReport :=
  match o with
  | Duplicate =>
      (with_counters p (note_duplicate (diagnostic_counters p)),
       report_suppress r DuplicatePacket (DuplicatePacketAssemblySuppressed pid))
  | CounterCollision =>
      let p := with_counters p (note_continuity_discontinuity (diagnostic_counters p)) in
      (reset_assembly_for_origin_pid p origin pid,
       report_suppress r ContinuityCounterCollision
         (ContinuityCounterCollisionAssemblySuppressed pid origin))
  | Discontinuity =>
      let p := with_counters p (note_continuity_discontinuity (diagnostic_counters p)) in
      (reset_assembly_for_origin_pid p origin pid,
       report_diagnose r (ContinuityDiscontinuityAssemblyReset pid origin))
  | FirstPacket | InOrder => (p, r)
  end.

Definition accept_validated_ts_packet (p : PacketPipeline) (packet : ValidatedTsPacket)
    (kind : PipelineInputKind) : outcome (PacketPipeline * PipelineReport) :=
  let origin := origin_of kind in
  let v := packet_view packet in
  let pid := validated_pid packet in
  let '(p, r) := accept_flags p origin v report_default in
  c ← check_continuity p origin pid (view_continuity_counter v)
        (bool_decide (is_Some (view_payload v))) (packet_bytes packet);
  let '(p, o) := c in
  let '(p, r) := accept_continuity p origin pid o r in
  let r := if bool_decide (view_payload v = None)
           then report_suppress r NoPayload (NoPayloadAssemblySuppressed pid) else r in
  Ret (p, mkPipelineReport (accepted_packets r + 1) (dropped_packets r) (malformed_packets r)
            (drop_reasons r) (assembly_suppression_reasons r) (delivery_actions r)
            (generated_events r) (diagnostics r)).

(** *** Planning *)
Inductive PipelineOpenKind := OpenRaw | OpenPcr | OpenRecord | OpenSection | OpenPes | OpenAv | OpenOther.
#[global] Instance open_kind_eq_dec : EqDecision PipelineOpenKind.
Proof. solve_decision. Defined.

Record PipelineFilterView := mkFilterView {
  fv_filter_id : Z;
  fv_tpid : option Z;
  fv_started : bool;
  fv_source_filter : option (Z * Z);
  fv_open_kind : PipelineOpenKind;
  fv_section_raw : bool;
  fv_pes_raw : bool;
  fv_wants_record_index : bool
}.

Definition accepts_packet_pid_from_origin (f : PipelineFilterView) (pid : PacketPid)
    (origin : TsInputOrigin) : bool :=
  if negb (fv_started f) || negb (matches_config_tpid pid (fv_tpid f)) then false
  else match origin with
       | Frontend _ | PlaybackDvr _ _ _ => bool_decide (fv_source_filter f = None)
       | SourceFilter i g => bool_decide (fv_source_filter f = Some (i, g))
       end.

Definition packet_actions_of (f : PipelineFilterView) : list PipelineDeliveryAction :=
  match fv_open_kind f with
  | OpenRaw => [RawPacket (fv_filter_id f)]
  | OpenRecord =>
      DvrMirror (fv_filter_id f) ::
      (if fv_wants_record_index f then [RecordPacket (fv_filter_id f)] else [])
  | _ => []
  end.

Definition plan_packet_delivery (pid : PacketPid) (origin : TsInputOrigin)
    (filters : list PipelineFilterView) : list PipelineDeliveryAction :=
  filters ≫= fun f =>
    if accepts_packet_pid_from_origin f pid origin then packet_actions_of f else [].

Definition plan_section_filters (pid : PacketPid) (origin : TsInputOrigin)
    (filters : list PipelineFilterView) : list Z :=
  filters ≫= fun f =>
    if accepts_packet_pid_from_origin f pid origin && bool_decide (fv_open_kind f = OpenSection)
    then [fv_filter_id f] else [].

Definition plan_pes_actions (pid : PacketPid) (origin : TsInputOrigin)
    (filters : list PipelineFilterView) : list PipelineDeliveryAction :=
  filters ≫= fun f =>
    if accepts_packet_pid_from_origin f pid origin then
      match fv_open_kind f with
      | OpenAv => [AvPayload (fv_filter_id f)]
      | OpenPes => [PesPayload (fv_filter_id f)]
      | _ => []
      end
    else [].

(** [filters.iter().find(|filter| filter.filter_id == id).map(..).unwrap_or(false)] *)
Definition find_flag (get : PipelineFilterView -> bool) (filters : list PipelineFilterView) (id : Z)
  : bool :=
  match List.find (fun f => fv_filter_id f =? id) filters with
  | Some f => get f
  | None => false
  end.

Definition event_of_action (filters : list PipelineFilterView) (a : PipelineDeliveryAction)
  : list PipelineGeneratedEvent :=
  match a with
  | RawPacket id => [EvDataReady id]
  | RecordPacket id => [EvRecord id]
  | SectionPayload id => [EvSection id (find_flag fv_section_raw filters id)]
  | PesPayload id | AvPayload id => [EvPes id (find_flag fv_pes_raw filters id)]
  | DvrMirror _ => []
  end.

Definition plan_ts_packet_report (packet : ValidatedTsPacket) (origin : TsInputOrigin)
    (filters : list PipelineFilterView) : PipelineReport :=
  let v := packet_view packet in
  let pid := validated_pid packet in
  let r := mkPipelineReport 1 0 0 [] [] (plan_packet_delivery pid origin filters) [] [] in
  let sections := plan_section_filters pid origin filters in
  let pes := plan_pes_actions pid origin filters in
  let r :=
    if bool_decide (is_Some (view_payload v)) && negb (view_transport_error_indicator v) then
      if negb (view_scrambling_control v =? 0) then
        if negb (bool_decide (sections = [])) || negb (len pes =? 0)
        then report_suppress r KeylessScrambledWithoutDescrambler
               (KeylessScrambledAssemblySuppressed pid)
        else r
      else report_actions r (delivery_actions r ++ map SectionPayload sections ++ pes)
    else r in
  report_events r (delivery_actions r ≫= event_of_action filters).

(** *** Assembly *)
Definition assemble_section_for_filter (p : PacketPipeline) (origin : TsInputOrigin)
    (pid : PacketPid) (filter_id : Z) (raw payload_unit_start : bool) (payload : bytes)
  : outcome (PacketPipeline * SectionPushOutcome) :=
  let a := default assembler_default (section_assemblers p !! (origin, pid, filter_id)) in
  r ← push_payload_with_outcome_policy a payload_unit_start payload (negb raw);
  let '(a, o) := r in
  Ret (with_assembly_maps p (<[(origin, pid, filter_id) := a]> (section_assemblers p))
         (pes_assemblers p) (section_assembler_generations p) (pes_assembler_generations p)
         (filter_section_flush_generations p) (filter_pes_flush_generations p), o).

Definition assemble_pes_for_filter (p : PacketPipeline) (origin : TsInputOrigin) (filter_id : Z)
    (pid : PacketPid) (payload_unit_start : bool) (payload : bytes)
  : outcome (PacketPipeline * list PesPacket) :=
  let a := default pes_assembler_default (pes_assemblers p !! (origin, pid, filter_id)) in
  r ← pes_push a pid payload_unit_start payload;
  let '(a, packets) := r in
  Ret (with_assembly_maps p (section_assemblers p)
         (<[(origin, pid, filter_id) := a]> (pes_assemblers p)) (section_assembler_generations p)
         (pes_assembler_generations p) (filter_section_flush_generations p)
         (filter_pes_flush_generations p), packets).

(** [get_mut(..).and_then(take_drop_diagnostic)] *)
Definition take_pes_diagnostic (p : PacketPipeline) (k : AssemblerKey)
  : PacketPipeline * option (PesDropReason * Z) :=
  match pes_assemblers p !! k with
  | None => (p, None)
  | Some a =>
      let '(a, d) := take_drop_diagnostic a in
      (with_assembly_maps p (section_assemblers p) (<[k := a]> (pes_assemblers p))
         (section_assembler_generations p) (pes_assembler_generations p)
         (filter_section_flush_generations p) (filter_pes_flush_generations p), d)
  end.

Fixpoint section_loop (p : PacketPipeline) (r : PipelineReport) (origin : TsInputOrigin)
    (pid : PacketPid) (generation : Z) (pusi : bool) (payload : bytes) (ids : list (Z * bool))
  : outcome (PacketPipeline * PipelineReport) :=
  match ids with
  | [] => Ret (p, r)
  | (id, raw) :: ids =>
      a ← assemble_section_for_filter p origin pid id raw pusi payload;
      let '(p, o) := a in
      let r := if has_drop_or_discard o then report_drop r AssemblyDrop (SectionAssemblyDrop pid)
               else r in
      let r := report_events r (map (EvSectionPayloadReady id pid generation raw) (sections o)) in
      section_loop p r origin pid generation pusi payload ids
  end.

Fixpoint pes_loop (p : PacketPipeline) (r : PipelineReport) (origin : TsInputOrigin)
    (pid : PacketPid) (generation : Z) (pusi : bool) (payload : bytes)
    (filters : list PipelineFilterView) (ids : list Z)
  : outcome (PacketPipeline * PipelineReport) :=
  match ids with
  | [] => Ret (p, r)
  | id :: ids =>
      a ← assemble_pes_for_filter p origin id pid pusi payload;
      let '(p, packets) := a in
      let '(p, d) := take_pes_diagnostic p (origin, pid, id) in
      let r := match d with
               | Some (reason, _) => report_drop r PesAssemblerOverflow (PesAssemblerDrop pid reason)
               | None => r
               end in
      let r := report_events r
        (map (EvPesPacketReady id pid generation (find_flag fv_pes_raw filters id)) packets) in
      pes_loop p r origin pid generation pusi payload filters ids
  end.

Definition section_action_id (a : PipelineDeliveryAction) : option Z :=
  match a with SectionPayload id => Some id | _ => None end.
Definition pes_action_id (a : PipelineDeliveryAction) : option Z :=
  match a with PesPayload id | AvPayload id => Some id | _ => None end.

(** Remove the actions of a kind. *)
Definition drop_actions (get : PipelineDeliveryAction -> option Z) (r : PipelineReport) :=
  report_actions r (filter (fun a => get a = None) (delivery_actions r)).

(** The section half. *)
Definition assemble_sections (p : PacketPipeline) (r : PipelineReport) (origin : TsInputOrigin)
    (pid : PacketPid) (pusi : bool) (payload : bytes) (filters : list PipelineFilterView)
  : outcome (PacketPipeline * PipelineReport) :=
  let ids := omap section_action_id (delivery_actions r) in
  if negb (len ids =? 0) then
    let '(p, generation) :=
      if pusi then bump_section_generation p origin pid
      else (p, Some (current_section_generation p origin pid)) in
    match generation with
    | Some g =>
        section_loop p r origin pid g pusi payload
          (map (fun id => (id, find_flag fv_section_raw filters id)) ids)
    | None =>
        let r := report_drop r SectionGenerationOverflow (DiagSectionGenerationOverflow pid ids) in
        Ret (reset_assembly_for_origin_pid p origin pid, drop_actions section_action_id r)
    end
  else Ret (drop_generations_for_pid_origin p origin pid true false, r).

(** The PES half. *)
Definition assemble_pes (p : PacketPipeline) (r : PipelineReport) (origin : TsInputOrigin)
    (pid : PacketPid) (pusi : bool) (payload : bytes) (filters : list PipelineFilterView)
  : outcome (PacketPipeline * PipelineReport) :=
  let ids := omap pes_action_id (delivery_actions r) in
  if negb (len ids =? 0) then
    let '(p, generation) :=
      if pusi then bump_pes_generation p origin pid
      else (p, Some (current_pes_generation p origin pid)) in
    match generation with
    | Some g => pes_loop p r origin pid g pusi payload filters ids
    | None =>
        let r := report_drop r PesGenerationOverflow (DiagPesGenerationOverflow pid ids) in
        Ret (reset_assembly_for_origin_pid p origin pid, drop_actions pes_action_id r)
    end
  else Ret (drop_generations_for_pid_origin p origin pid false true, r).

(** Raw, record and DVR actions, and their events. *)
Definition is_raw_action (a : PipelineDeliveryAction) : bool :=
  match a with RawPacket _ | RecordPacket _ | DvrMirror _ => true | _ => false end.
Definition is_raw_event (e : PipelineGeneratedEvent) : bool :=
  match e with EvDataReady _ | EvRecord _ => true | _ => false end.
Definition retain_raw (r : PipelineReport) : PipelineReport :=
  mkPipelineReport (accepted_packets r) (dropped_packets r) (malformed_packets r) (drop_reasons r)
    (assembly_suppression_reasons r) (filter (fun a => is_raw_action a = true) (delivery_actions r))
    (filter (fun e => is_raw_event e = true) (generated_events r)) (diagnostics r).

Definition plan_and_assemble_ts_packet_report_after_preflight (p : PacketPipeline)
    (packet : ValidatedTsPacket) (origin : TsInputOrigin) (filters : list PipelineFilterView)
    (preflight : list PipelineAssemblySuppressionReason)
  : outcome (PacketPipeline * PipelineReport) :=
  let v := packet_view packet in
  let pid := validated_pid packet in
  let r := plan_ts_packet_report packet origin filters in
  if view_transport_error_indicator v || bool_decide (TransportErrorIndicator ∈ preflight)
  then Ret (reset_assembly_for_origin_pid p origin pid, r)
  else if bool_decide (DuplicatePacket ∈ preflight)
          || bool_decide (ContinuityCounterCollision ∈ preflight)
  then Ret (p, retain_raw r)
  else match view_payload v with
  | None => Ret (p, r)
  | Some payload =>
      if negb (view_scrambling_control v =? 0) then
        Ret (if bool_decide (KeylessScrambledWithoutDescrambler ∈ assembly_suppression_reasons r)
             then reset_assembly_for_origin_pid p origin pid else p, r)
      else
        s ← assemble_sections p r origin pid (view_payload_unit_start v) payload filters;
        let '(p, r) := s in
        assemble_pes p r origin pid (view_payload_unit_start v) payload filters
  end.

(** *** A packet's whole way through the pipeline

    The core of [push_validated_ts_packet_from_origin_inner] of
    [runtime/demux.rs]: preflight, then planning and assembly with the
    preflight's suppressions, the merge of both reports, and the choice of PES
    packets by the stream id a filter is configured with ([None] in [streams]
    for a filter without one, no entry for an unknown filter). *)
Definition PES_STREAM_ID_WILDCARD : Z := 0xffff.

Definition accepts_pes_stream_id (configured : option Z) (stream_id : Z) : bool :=
  match configured with
  | None => true
  | Some c => (c =? PES_STREAM_ID_WILDCARD) || (c =? stream_id)
  end.

Definition keeps_event (streams : gmap Z (option Z)) (e : PipelineGeneratedEvent) : bool :=
  match e with
  | EvPesPacketReady id _ _ _ packet =>
      match streams !! id with
      | Some configured => accepts_pes_stream_id configured (pes_stream_id packet)
      | None => false
      end
  | _ => true
  end.

Definition kind_of (origin : TsInputOrigin) : PipelineInputKind :=
  match origin with
  | Frontend g => KindFrontend g
  | PlaybackDvr d q e => KindPlaybackDvr d q e
  | SourceFilter i g => KindSourceFilter i g
  end.

Definition merge_reports (streams : gmap Z (option Z)) (r d : PipelineReport) : PipelineReport :=
  mkPipelineReport (accepted_packets r) (saturating_add u64_max (dropped_packets r) (dropped_packets d))
    (saturating_add u64_max (malformed_packets r) (malformed_packets d))
    (drop_reasons r ++ drop_reasons d)
    (assembly_suppression_reasons r ++ assembly_suppression_reasons d)
    (delivery_actions r ++ delivery_actions d)
    (filter (fun e => keeps_event streams e = true) (generated_events r ++ generated_events d))
    (diagnostics r ++ diagnostics d).

Definition process_packet (p : PacketPipeline) (packet : ValidatedTsPacket)
    (origin : TsInputOrigin) (filters : list PipelineFilterView) (streams : gmap Z (option Z))
  : outcome (PacketPipeline * PipelineReport) :=
  a ← accept_validated_ts_packet p packet (kind_of origin);
  let '(p, r) := a in
  if accepted_packets r =? 0 then Ret (p, r)
  else
    d ← plan_and_assemble_ts_packet_report_after_preflight p packet origin filters
          (assembly_suppression_reasons r);
    let '(p, d) := d in
    Ret (p, merge_reports streams r d).

(** *** Filters and record index *)
Record FilterPipelineConfig := mkFilterPipelineConfig {
  fpc_tpid : option Z;
  fpc_raw : bool;
  fpc_record_index : option RecordIndexSettings
}.

Definition record_index_parser_new : RecordIndexParser := mkRecordIndexParser 0.

Definition forget_record_index (p : PacketPipeline) (filter_id : Z) : PacketPipeline :=
  with_record_index p (delete filter_id (record_index_parsers p))
    (delete filter_id (record_event_states p)) (delete filter_id (record_index_settings p)).

Definition configure_filter (p : PacketPipeline) (filter_id : Z) (config : FilterPipelineConfig)
  : PacketPipeline :=
  let p := clear_filter_state p filter_id in
  match fpc_record_index config with
  | Some settings =>
      with_record_index p (<[filter_id := record_index_parser_new]> (record_index_parsers p))
        (<[filter_id := record_state_default]> (record_event_states p))
        (<[filter_id := settings]> (record_index_settings p))
  | None => forget_record_index p filter_id
  end.

Definition start_filter (p : PacketPipeline) (filter_id : Z) : PacketPipeline := p.
Definition stop_filter (p : PacketPipeline) (filter_id : Z) : PacketPipeline := p.
Definition remove_filter (p : PacketPipeline) (filter_id : Z) : PacketPipeline :=
  forget_record_index (clear_filter_state p filter_id) filter_id.

Definition record_index_event_after_record_commit (p : PacketPipeline) (filter_id : Z)
    (packet : ValidatedTsPacket) (byte_number : Z)
  : outcome (PacketPipeline * option PipelineGeneratedEvent) :=
  match record_index_settings p !! filter_id with
  | None => Ret (p, None)
  | Some settings =>
      let parser := default record_index_parser_new (record_index_parsers p !! filter_id) in
      let state := default record_state_default (record_event_states p !! filter_id) in
      r ← RecordIndex.push_validated_ts_packet parser packet byte_number (ts_index_mask settings)
            (sc_index_type settings) (sc_index_mask settings) state;
      let '(parser, state, data) := r in
      Ret (with_record_index p (<[filter_id := parser]> (record_index_parsers p))
             (<[filter_id := state]> (record_event_states p)) (record_index_settings p),
           match data with Some data => Some (EvRecordIndex filter_id data) | None => None end)
  end.

Definition reset_record_index_partial_state (p : PacketPipeline) (filter_id : Z) : PacketPipeline :=
  if bool_decide (is_Some (record_index_settings p !! filter_id)) then
    with_record_index p (<[filter_id := record_index_parser_new]> (record_index_parsers p))
      (<[filter_id := record_state_default]> (record_event_states p)) (record_index_settings p)
  else p.

Definition reset_record_index_without_parsing (p : PacketPipeline) (filter_id : Z)
    (reset_partial_state : bool) : PacketPipeline :=
  if negb (bool_decide (is_Some (record_index_settings p !! filter_id))) then p
  else if reset_partial_state then reset_record_index_partial_state p filter_id else p.

Definition reset_record_index_state (p : PacketPipeline) (filter_id : Z) : PacketPipeline :=
  if bool_decide (is_Some (record_index_settings p !! filter_id))
  then reset_record_index_partial_state p filter_id else p.

(** *** Flush and boundary *)
Definition mark_filter_flush_generation_for_origin (p : PacketPipeline) (filter_id : Z)
    (pid : ConfigInputPid) (origin : TsInputOrigin) : PacketPipeline :=
  let pipeline_pid := from_config_pid pid in
  with_assembly_maps p (section_assemblers p) (pes_assemblers p)
    (section_assembler_generations p) (pes_assembler_generations p)
    (<[(origin, filter_id, pipeline_pid) := current_section_generation p origin pipeline_pid]>
       (filter_section_flush_generations p))
    (<[(origin, filter_id, pipeline_pid) := current_pes_generation p origin pipeline_pid]>
       (filter_pes_flush_generations p)).

Definition clear_filter_state_after_flush (p : PacketPipeline) (filter_id : Z) : PacketPipeline :=
  reset_record_index_state (clear_filter_state p filter_id) filter_id.

Definition flush_filter (p : PacketPipeline) (filter_id : Z)
    (origins : list (TsInputOrigin * ConfigInputPid)) : PacketPipeline :=
  clear_filter_state_after_flush
    (foldl (fun p '(origin, pid) => mark_filter_flush_generation_for_origin p filter_id pid origin)
       p origins) filter_id.

Record PipelineResetReport := mkPipelineResetReport {
  cleared : bool;
  residual_packets : Z;
  residual_malformed_bytes : Z
}.

Definition reset_boundary (p : PacketPipeline) : PacketPipeline * PipelineResetReport :=
  let '(residual, _) := drain_for_boundary (resync p) in
  let p := mkPipeline ∅ ∅ ∅ ∅ ∅ ∅ ∅ (record_index_parsers p) (record_event_states p)
             (record_index_settings p) (resync p) (diagnostic_counters p) in
  let p := foldl reset_record_index_partial_state p (elements (dom (record_index_settings p))) in
  (mkPipeline (section_assemblers p) (pes_assemblers p) (section_assembler_generations p)
     (pes_assembler_generations p) (filter_section_flush_generations p)
     (filter_pes_flush_generations p) (continuity_trackers p) (record_index_parsers p)
     (record_event_states p) (record_index_settings p) buffer_default (diagnostic_counters p),
   mkPipelineResetReport true (len (drain_packets residual)) (drain_malformed_bytes residual)).

(** ** Filtered maps *)
Section Filtered.
  Context `{Countable K} {A : Type}.
  Implicit Types (m : gmap K A).

Lemma filter_keep (P : K * A -> Prop) `{!forall x, Decision (P x)} m k :
  (forall x, P (k, x)) -> filter P m !! k = m !! k.
Proof.
  intros HP. destruct (m !! k) as [x|] eqn:E.
  - by apply map_lookup_filter_Some.
  - apply map_lookup_filter_None. by left.
Qed.

Lemma filter_gone (P : K * A -> Prop) `{!forall x, Decision (P x)} m k :
  (forall x, ~ P (k, x)) -> filter P m !! k = None.
Proof. intros HP. apply map_lookup_filter_None. right. intros x _. apply HP. Qed.

Lemma map_Forall_filtered (Q : K -> A -> Prop) (P : K * A -> Prop) `{!forall x, Decision (P x)} m :
  map_Forall Q m -> map_Forall Q (filter P m).
Proof. intros Hm k x Hk. apply map_lookup_filter_Some in Hk as [Hk _]. by apply Hm. Qed.
End Filtered.

Lemma list_filter_Forall {A} (Q P : A -> Prop) `{!forall x, Decision (P x)} l :
  Forall Q l -> Forall Q (filter P l).
Proof.
  intros HQ. apply list.Forall_forall. intros x Hx. apply list_elem_of_filter in Hx as [_ Hx].
  rewrite list.Forall_forall in HQ. auto.
Qed.

(** ** Isolation: what a packet of one origin and PID may touch *)
Definition continuity_of (p : PacketPipeline) (o : TsInputOrigin) (q : PacketPid)
  : option ContinuityState :=
  states (default tracker_default (continuity_trackers p !! o)) !! q.

Record frame (o : TsInputOrigin) (q : PacketPid) (p p' : PacketPipeline) : Prop := {
  frame_sections : forall o' q' f, (o', q') <> (o, q) ->
    section_assemblers p' !! (o', q', f) = section_assemblers p !! (o', q', f);
  frame_pes : forall o' q' f, (o', q') <> (o, q) ->
    pes_assemblers p' !! (o', q', f) = pes_assemblers p !! (o', q', f);
  frame_section_generations : forall o' q', (o', q') <> (o, q) ->
    section_assembler_generations p' !! (o', q') = section_assembler_generations p !! (o', q');
  frame_pes_generations : forall o' q', (o', q') <> (o, q) ->
    pes_assembler_generations p' !! (o', q') = pes_assembler_generations p !! (o', q');
  frame_section_flush : forall o' f q', (o', q') <> (o, q) ->
    filter_section_flush_generations p' !! (o', f, q')
      = filter_section_flush_generations p !! (o', f, q');
  frame_pes_flush : forall o' f q', (o', q') <> (o, q) ->
    filter_pes_flush_generations p' !! (o', f, q') = filter_pes_flush_generations p !! (o', f, q');
  frame_continuity : forall o' q', (o', q') <> (o, q) -> continuity_of p' o' q' = continuity_of p o' q';
  frame_record : record_index_parsers p' = record_index_parsers p /\
    record_event_states p' = record_event_states p /\
    record_index_settings p' = record_index_settings p /\ resync p' = resync p
}.

#[global] Instance frame_refl o q : Reflexive (frame o q).
Proof. by split. Qed.
#[global] Instance frame_trans o q : Transitive (frame o q).
Proof.
  intros p1 p2 p3 [S1 P1 G1 H1 F1 E1 C1 (A1 & B1 & D1 & R1)] [S2 P2 G2 H2 F2 E2 C2 (A2 & B2 & D2 & R2)].
  split; [intros; rewrite ?S2, ?P2, ?G2, ?H2, ?F2, ?E2, ?C2 by done; auto..|].
  split_and!; congruence.
Qed.

(** The keys of another origin or PID. *)
Lemma other_key (o o' : TsInputOrigin) (q q' : PacketPid) : (o', q') <> (o, q) -> o' <> o \/ q' <> q.
Proof. intros H. destruct (decide (o' = o)), (decide (q' = q)); subst; auto. Qed.

Ltac frame_maps :=
  split; intros;
  repeat match goal with H : (?o', ?q') <> (?o, ?q) |- _ => apply other_key in H end;
  cbn; try done; try (apply filter_keep; intros; cbn; tauto).

Lemma frame_reset_assembly o q p : frame o q p (reset_assembly_for_origin_pid p o q).
Proof. frame_maps. Qed.

Lemma frame_drop_generations o q p b c : frame o q p (drop_generations_for_pid_origin p o q b c).
Proof. destruct b, c; frame_maps. Qed.

Lemma frame_counters o q p c : frame o q p (with_counters p c).
Proof. by split. Qed.

Lemma frame_with_tracker o q p t :
  (forall q', q' <> q -> states t !! q' = continuity_of p o q') ->
  frame o q p (with_continuity p (<[o := t]> (continuity_trackers p))).
Proof.
  intros Ht. split; intros; cbn; try done. apply other_key in H. unfold continuity_of; cbn.
  destruct (decide (o' = o)) as [->|Hne].
  - rewrite lookup_insert_eq. cbn. apply Ht. tauto.
  - by rewrite lookup_insert_ne by done.
Qed.

Lemma frame_reset_continuity o q p : frame o q p (reset_continuity_pid p o q).
Proof. apply frame_with_tracker. intros q' Hq. cbn. by rewrite lookup_delete_ne. Qed.

Lemma frame_section_insert o q p f a : frame o q p (with_assembly_maps p
  (<[(o, q, f) := a]> (section_assemblers p)) (pes_assemblers p) (section_assembler_generations p)
  (pes_assembler_generations p) (filter_section_flush_generations p) (filter_pes_flush_generations p)).
Proof. split; intros; cbn; try done. apply lookup_insert_ne. congruence. Qed.

Lemma frame_pes_insert o q p f a : frame o q p (with_assembly_maps p
  (section_assemblers p) (<[(o, q, f) := a]> (pes_assemblers p)) (section_assembler_generations p)
  (pes_assembler_generations p) (filter_section_flush_generations p) (filter_pes_flush_generations p)).
Proof. split; intros; cbn; try done. apply lookup_insert_ne. congruence. Qed.

Lemma bump_other m k k' : k' <> k -> (bump m k).1 !! k' = m !! k'.
Proof. intros Hk. unfold bump. case_match; cbn; by apply lookup_insert_ne. Qed.

Lemma frame_bump_section o q p : frame o q p (bump_section_generation p o q).1.
Proof.
  unfold bump_section_generation. destruct (bump _ _) as [m g] eqn:E.
  split; intros; cbn; try done. replace m with (fst (m, g)) by done. rewrite <- E. by apply bump_other.
Qed.
Lemma frame_bump_pes o q p : frame o q p (bump_pes_generation p o q).1.
Proof.
  unfold bump_pes_generation. destruct (bump _ _) as [m g] eqn:E.
  split; intros; cbn; try done. replace m with (fst (m, g)) by done. rewrite <- E. by apply bump_other.
Qed.

(** ** The pipeline's invariant *)
Definition counter_ok (s : ContinuityState) : Prop :=
  match last_counter s with Some c => 0 <= c < 16 | None => True end.
Definition generation_ok (g : Z) : Prop := 0 <= g <= u64_max.

Record pipeline_inv (p : PacketPipeline) : Prop := {
  inv_sections : map_Forall (fun _ => asm_inv) (section_assemblers p);
  inv_pes : map_Forall (fun _ => pes_inv) (pes_assemblers p);
  inv_section_generations : map_Forall (fun _ => generation_ok) (section_assembler_generations p);
  inv_pes_generations : map_Forall (fun _ => generation_ok) (pes_assembler_generations p);
  inv_continuity : map_Forall (fun _ t => map_Forall (fun _ => counter_ok) (states t))
    (continuity_trackers p)
}.

Lemma pipeline_default_inv : pipeline_inv pipeline_default.
Proof. split; apply map_Forall_empty. Qed.

Lemma tracker_inv p o : pipeline_inv p ->
  map_Forall (fun _ => counter_ok) (states (default tracker_default (continuity_trackers p !! o))).
Proof.
  intros H. destruct (continuity_trackers p !! o) as [t|] eqn:E; cbn.
  - by apply (inv_continuity p H o).
  - apply map_Forall_empty.
Qed.

Lemma inv_reset_assembly p o q : pipeline_inv p -> pipeline_inv (reset_assembly_for_origin_pid p o q).
Proof. intros []. split; cbn; auto using map_Forall_filtered. Qed.
Lemma inv_drop_generations p o q b c : pipeline_inv p ->
  pipeline_inv (drop_generations_for_pid_origin p o q b c).
Proof. intros []. destruct b, c; split; cbn; auto using map_Forall_filtered. Qed.
Lemma inv_counters p c : pipeline_inv p -> pipeline_inv (with_counters p c).
Proof. by intros []. Qed.
Lemma inv_with_tracker p o t : pipeline_inv p -> map_Forall (fun _ => counter_ok) (states t) ->
  pipeline_inv (with_continuity p (<[o := t]> (continuity_trackers p))).
Proof. intros [] Ht. split; cbn; auto. by apply map_Forall_insert_2. Qed.
Lemma inv_reset_continuity p o q : pipeline_inv p -> pipeline_inv (reset_continuity_pid p o q).
Proof.
  intros Hp. apply inv_with_tracker; [done|]. cbn. apply map_Forall_delete. by apply tracker_inv.
Qed.
Lemma inv_reset_origin p o : pipeline_inv p -> pipeline_inv (reset_origin p o).
Proof. intros []. split; cbn; auto using map_Forall_filtered. by apply map_Forall_delete. Qed.

Lemma bump_ok m k : map_Forall (fun _ => generation_ok) m ->
  map_Forall (fun _ => generation_ok) (bump m k).1.
Proof.
  intros Hm. unfold bump. assert (generation_ok (default 0 (m !! k))) as Hg.
  { destruct (m !! k) eqn:E; cbn; [by apply (Hm k)|unfold generation_ok, u64_max; lia]. }
  destruct (checked_add u64_max (default 0 (m !! k)) 1) eqn:E; cbn; apply map_Forall_insert_2; auto.
  apply checked_add_Some in E as [-> ?]. unfold generation_ok in *. lia.
Qed.

Lemma inv_bump_section p o q : pipeline_inv p -> pipeline_inv (bump_section_generation p o q).1.
Proof.
  intros []. unfold bump_section_generation. destruct (bump _ _) as [m g] eqn:E.
  split; cbn; auto. replace m with (fst (m, g)) by done. rewrite <- E. by apply bump_ok.
Qed.
Lemma inv_bump_pes p o q : pipeline_inv p -> pipeline_inv (bump_pes_generation p o q).1.
Proof.
  intros []. unfold bump_pes_generation. destruct (bump _ _) as [m g] eqn:E.
  split; cbn; auto. replace m with (fst (m, g)) by done. rewrite <- E. by apply bump_ok.
Qed.

(** A step of the pipeline that keeps the invariant and the frame. *)
Definition step_ok (o : TsInputOrigin) (q : PacketPid) (p p' : PacketPipeline) : Prop :=
  pipeline_inv p' /\ frame o q p p'.

Lemma step_trans o q p1 p2 p3 : step_ok o q p1 p2 -> step_ok o q p2 p3 -> step_ok o q p1 p3.
Proof. intros [_ F1] [I2 F2]. split; [done|by transitivity p2]. Qed.
Lemma step_refl o q p : pipeline_inv p -> step_ok o q p p.
Proof. by split. Qed.
Lemma step_reset o q p : pipeline_inv p -> step_ok o q p (reset_assembly_for_origin_pid p o q).
Proof. split; [by apply inv_reset_assembly|apply frame_reset_assembly]. Qed.
Lemma step_counters o q p c : pipeline_inv p -> step_ok o q p (with_counters p c).
Proof. split; [by apply inv_counters|apply frame_counters]. Qed.
Lemma step_drop_generations o q p b c : pipeline_inv p ->
  step_ok o q p (drop_generations_for_pid_origin p o q b c).
Proof. split; [by apply inv_drop_generations|apply frame_drop_generations]. Qed.
Lemma step_continuity_reset o q p : pipeline_inv p -> step_ok o q p (reset_continuity_pid p o q).
Proof. split; [by apply inv_reset_continuity|apply frame_reset_continuity]. Qed.
Lemma step_bump_section o q p : pipeline_inv p -> step_ok o q p (bump_section_generation p o q).1.
Proof. split; [by apply inv_bump_section|apply frame_bump_section]. Qed.
Lemma step_bump_pes o q p : pipeline_inv p -> step_ok o q p (bump_pes_generation p o q).1.
Proof. split; [by apply inv_bump_pes|apply frame_bump_pes]. Qed.
#[export] Hint Resolve step_refl step_reset step_counters step_drop_generations
  step_continuity_reset step_bump_section step_bump_pes : tv.

Lemma step_inv o q p p' : step_ok o q p p' -> pipeline_inv p'.
Proof. by intros []. Qed.

(** *** The preflight *)
Lemma observe_state_keeps s c b : counter_ok s -> 0 <= c < 16 ->
  returns (observe_state s c b) (fun '(s', _) => counter_ok s').
Proof.
  intros Hs Hc. unfold observe_state, counter_ok in *.
  destruct (last_counter s) as [l|] eqn:E; [|by apply returns_ret].
  case_test; [case_test; apply returns_ret; simpl; by rewrite ?E|].
  case_test; [unfold u8_max in *; lia|]. by apply returns_ret.
Qed.

Lemma observe_keeps t q c has b : map_Forall (fun _ => counter_ok) (states t) -> 0 <= c < 16 ->
  returns (observe t q c has b) (fun '(t', _) =>
    map_Forall (fun _ => counter_ok) (states t') /\
    (forall q', q' <> q -> states t' !! q' = states t !! q')).
Proof.
  intros Ht Hc. unfold observe. case_test; [by apply returns_ret|].
  eapply returns_bind; [apply observe_state_keeps; [|done]|].
  - destruct (states t !! q) eqn:Eq; cbn; [by apply (Ht q)|done].
  - intros [s o] Hs. apply returns_ret. cbn. split; [by apply map_Forall_insert_2|].
    intros. by apply lookup_insert_ne.
Qed.

Lemma check_continuity_ok p o q c has b : pipeline_inv p -> 0 <= c < 16 ->
  returns (check_continuity p o q c has b) (fun '(p', _) => step_ok o q p p').
Proof.
  intros Hp Hc. unfold check_continuity.
  eapply returns_bind; [apply observe_keeps; [by apply tracker_inv|done]|].
  intros [t out] [Ht Hq]. apply returns_ret. split; [by apply inv_with_tracker|].
  by apply frame_with_tracker.
Qed.

Lemma accept_flags_ok p o v r : pipeline_inv p ->
  step_ok o (view_pid v) p (accept_flags p o v r).1.
Proof.
  intros Hp. unfold accept_flags.
  set (pr := if view_transport_error_indicator v then _ else _).
  assert (step_ok o (view_pid v) p pr.1) as Ht.
  { unfold pr. case_match; cbn; auto with tv. }
  destruct pr as [p1 r1]. cbn in Ht |- *. case_match; cbn; [|done].
  apply (step_trans _ _ _ _ _ Ht). apply step_inv in Ht.
  eapply step_trans; [by apply step_counters|].
  eapply step_trans; [apply step_continuity_reset|apply step_reset];
    by repeat apply inv_reset_continuity || apply inv_counters.
Qed.

Lemma accept_continuity_ok p o q out r : pipeline_inv p ->
  step_ok o q p (accept_continuity p o q out r).1.
Proof.
  intros Hp. destruct out; cbn; auto with tv;
    eapply step_trans; (by apply step_counters) || (by apply step_reset, inv_counters).
Qed.

(** A validated packet: what validation gives. *)
Definition packet_ok (packet : ValidatedTsPacket) : Prop :=
  0 <= view_continuity_counter (packet_view packet) < 16 /\
  match view_payload (packet_view packet) with Some b => wf_bytes b | None => True end.

Lemma validated_packet_ok b packet : wf_bytes b -> validated_validate b = Ret (Ok packet) ->
  packet_ok packet.
Proof.
  intros Hb E. unfold validated_validate in E.
  destruct (negb (len b =? TS_PACKET_SIZE)); [done|].
  destruct (view_validate_ok b Hb) as (r & Er & Hr). rewrite Er in E. destruct r as [v|e]; [|done].
  cbn in E. injection E as <-. destruct Hr as (_ & _ & _ & _ & _ & _ & Hc & _ & _ & Hp & _).
  split; cbn.
  - rewrite Hc. by apply Z.mod_pos_bound.
  - rewrite Hp. case_decide; [|done]. auto with tv.
Qed.

(** Reports that differ in suppressions, drops and diagnostics only. *)
Definition quiet (r r' : PipelineReport) : Prop :=
  accepted_packets r' = accepted_packets r /\ delivery_actions r' = delivery_actions r /\
  generated_events r' = generated_events r.

Lemma accept_flags_quiet p o v r : quiet r (accept_flags p o v r).2.
Proof. unfold accept_flags. repeat case_match; simplify_eq; done. Qed.
Lemma accept_continuity_quiet p o q out r : quiet r (accept_continuity p o q out r).2.
Proof. by destruct out. Qed.

Lemma accept_ok p packet o : pipeline_inv p -> packet_ok packet ->
  returns (accept_validated_ts_packet p packet (kind_of o)) (fun '(p', r) =>
    step_ok o (validated_pid packet) p p' /\ accepted_packets r = 1 /\
    delivery_actions r = [] /\ generated_events r = []).
Proof.
  intros Hp [Hc _]. unfold accept_validated_ts_packet.
  replace (origin_of (kind_of o)) with o by by destruct o.
  pose proof (accept_flags_ok p o (packet_view packet) report_default Hp) as Hf.
  pose proof (accept_flags_quiet p o (packet_view packet) report_default) as Hq.
  destruct (accept_flags _ _ _ _) as [p1 r1]. cbn in Hf, Hq.
  eapply returns_bind; [apply (check_continuity_ok p1); [by eapply step_inv|done]|].
  intros [p2 out] H2.
  pose proof (accept_continuity_ok p2 o (validated_pid packet) out r1 (step_inv _ _ _ _ H2)) as H3.
  pose proof (accept_continuity_quiet p2 o (validated_pid packet) out r1) as Hq3.
  destruct (accept_continuity _ _ _ _ _) as [p3 r3]. cbn in H3, Hq3. apply returns_ret.
  destruct Hq as (A1 & B1 & C1), Hq3 as (A3 & B3 & C3). split.
  - eapply step_trans; [exact Hf|]. by eapply step_trans.
  - case_bool_decide; cbn; rewrite A3, A1, B3, B1, C3, C1; done.
Qed.

(** *** Assembly steps *)
Definition step_asm (o : TsInputOrigin) (q : PacketPid) (p p' : PacketPipeline) : Prop :=
  step_ok o q p p' /\ continuity_trackers p' = continuity_trackers p.

Lemma asm_trans o q p1 p2 p3 : step_asm o q p1 p2 -> step_asm o q p2 p3 -> step_asm o q p1 p3.
Proof. intros [S1 E1] [S2 E2]. split; [by eapply step_trans|congruence]. Qed.
Lemma asm_inv_of o q p p' : step_asm o q p p' -> pipeline_inv p'.
Proof. by intros [[] _]. Qed.
Lemma asm_refl o q p : pipeline_inv p -> step_asm o q p p.
Proof. intros. by split; [apply step_refl|]. Qed.
Lemma asm_reset o q p : pipeline_inv p -> step_asm o q p (reset_assembly_for_origin_pid p o q).
Proof. split; [by apply step_reset|done]. Qed.

Lemma assemble_section_ok p o q id raw pusi payload : pipeline_inv p -> wf_bytes payload ->
  returns (assemble_section_for_filter p o q id raw pusi payload) (fun '(p', out) =>
    step_asm o q p p' /\ Forall (complete_section (negb raw)) (sections out)).
Proof.
  intros Hp Hw. unfold assemble_section_for_filter.
  set (a := default _ _). assert (asm_inv a) as Ha.
  { unfold a. destruct (section_assemblers p !! (o, q, id)) eqn:E; cbn.
    - by apply (inv_sections p Hp (o, q, id)).
    - by apply asm_inv_idle. }
  eapply returns_bind; [by apply push_policy_ok|].
  intros [a' out] [Ha' Hout]. apply returns_ret. split; [|done]. split; [split|done].
  - destruct Hp. split; cbn; auto. by apply map_Forall_insert_2.
  - apply frame_section_insert.
Qed.

Lemma assemble_pes_ok p o q id pusi payload : pipeline_inv p -> wf_bytes payload ->
  returns (assemble_pes_for_filter p o id q pusi payload) (fun '(p', out) =>
    step_asm o q p p' /\ Forall pes_good out).
Proof.
  intros Hp Hw. unfold assemble_pes_for_filter.
  set (a := default _ _). assert (pes_inv a) as Ha.
  { unfold a. destruct (pes_assemblers p !! (o, q, id)) eqn:E; cbn.
    - by apply (inv_pes p Hp (o, q, id)).
    - by apply pes_idle_inv. }
  eapply returns_bind; [by apply pes_push_ok|]. intros [a' out] [Ha' Hout]. apply returns_ret.
  split; [|done]. split; [split|done].
  - destruct Hp. split; cbn; auto. by apply map_Forall_insert_2.
  - apply frame_pes_insert.
Qed.

Lemma take_pes_diagnostic_ok p o q id : pipeline_inv p ->
  step_asm o q p (take_pes_diagnostic p (o, q, id)).1.
Proof.
  intros Hp. unfold take_pes_diagnostic. destruct (pes_assemblers p !! (o, q, id)) as [a|] eqn:E.
  - cbn. split; [split|done]; [|apply frame_pes_insert].
    pose proof (inv_pes p Hp _ _ E) as Ha. destruct Hp. split; cbn; auto. by apply map_Forall_insert_2.
  - by apply asm_refl.
Qed.

(** *** Deliveries go to filters that asked for them *)
Section Deliveries.
  Context (filters : list PipelineFilterView) (q : PacketPid) (o : TsInputOrigin).

(** A started filter of the packet's PID and origin, of one of the kinds. *)
Definition wanted (id : Z) (kinds : list PipelineOpenKind) : Prop :=
  exists f, f ∈ filters /\ fv_filter_id f = id /\
    accepts_packet_pid_from_origin f q o = true /\ fv_open_kind f ∈ kinds.

Definition action_ok (a : PipelineDeliveryAction) : Prop :=
  match a with
  | RawPacket id => wanted id [OpenRaw]
  | RecordPacket id | DvrMirror id => wanted id [OpenRecord]
  | SectionPayload id => wanted id [OpenSection]
  | PesPayload id => wanted id [OpenPes]
  | AvPayload id => wanted id [OpenAv]
  end.

Definition event_ok (e : PipelineGeneratedEvent) : Prop :=
  match e with
  | EvDataReady id => wanted id [OpenRaw]
  | EvRecord id => wanted id [OpenRecord]
  | EvSection id _ => wanted id [OpenSection]
  | EvPes id _ => wanted id [OpenPes; OpenAv]
  | EvRecordIndex _ _ => False
  | EvSectionPayloadReady id pid _ raw b =>
      pid = q /\ wanted id [OpenSection] /\ raw = find_flag fv_section_raw filters id /\
      complete_section (negb raw) b
  | EvPesPacketReady id pid _ raw packet =>
      pid = q /\ wanted id [OpenPes; OpenAv] /\ raw = find_flag fv_pes_raw filters id /\
      pes_good packet
  end.

Definition report_ok (r : PipelineReport) : Prop :=
  Forall action_ok (delivery_actions r) /\ Forall event_ok (generated_events r).

Ltac sub_kinds := intros ?; rewrite !elem_of_cons; tauto.

Lemma wanted_mono id kinds kinds' : kinds ⊆ kinds' -> wanted id kinds -> wanted id kinds'.
Proof. intros Hk (f & ? & ? & ? & ?). exists f. split_and!; auto. Qed.

Lemma Forall_bind {A B} (P : B -> Prop) (g : A -> list B) (l : list A) :
  (forall a, a ∈ l -> Forall P (g a)) -> Forall P (l ≫= g).
Proof.
  intros H. apply list.Forall_forall. intros b Hb. apply list_elem_of_bind in Hb as (a & Hb & Ha).
  pose proof (H a Ha) as Hf. rewrite list.Forall_forall in Hf. auto.
Qed.

Lemma plan_packet_delivery_ok : Forall action_ok (plan_packet_delivery q o filters).
Proof.
  apply Forall_bind. intros f Hf. destruct (accepts_packet_pid_from_origin f q o) eqn:Ea; [|done].
  unfold packet_actions_of.
  destruct (fv_open_kind f) eqn:Ek; try done; [|destruct (fv_wants_record_index f)];
    repeat (apply List.Forall_cons; [exists f; split_and!; try done; rewrite Ek; set_solver|]); done.
Qed.

Lemma plan_sections_ok : Forall action_ok (map SectionPayload (plan_section_filters q o filters)).
Proof.
  apply Forall_fmap, Forall_bind. intros f Hf. case_test; [|done]. breflect.
  apply List.Forall_cons; [|done]. exists f. split_and!; try done. set_solver.
Qed.

Lemma plan_pes_ok : Forall action_ok (plan_pes_actions q o filters).
Proof.
  apply Forall_bind. intros f Hf. destruct (accepts_packet_pid_from_origin f q o) eqn:Ea; [|done].
  destruct (fv_open_kind f) eqn:Ek; try done;
    (apply List.Forall_cons; [exists f; split_and!; try done; rewrite Ek; set_solver|done]).
Qed.

Lemma event_of_action_ok a : action_ok a -> Forall event_ok (event_of_action filters a).
Proof.
  destruct a; cbn; intros H; try done; (apply List.Forall_cons; [|done]);
    (eapply wanted_mono; [|exact H]); sub_kinds.
Qed.

Lemma plan_report_ok packet : validated_pid packet = q ->
  report_ok (plan_ts_packet_report packet o filters) /\
  accepted_packets (plan_ts_packet_report packet o filters) = 1.
Proof.
  intros Hq. unfold plan_ts_packet_report. rewrite Hq. set (r0 := mkPipelineReport _ _ _ _ _ _ _ _).
  assert (Forall action_ok (delivery_actions r0)) as Ha by apply plan_packet_delivery_ok.
  assert (generated_events r0 = []) as He by done.
  assert (accepted_packets r0 = 1) as H1 by done. clearbody r0.
  set (r1 := if _ && _ then _ else _).
  assert (Forall action_ok (delivery_actions r1) /\ generated_events r1 = [] /\
    accepted_packets r1 = 1) as (Ha1 & He1 & Hc1).
  { unfold r1. case_test; [|done]. case_test; [case_test; done|]. cbn. split_and!; try done.
    apply Forall_app; split; [done|]. apply Forall_app; split;
      [apply plan_sections_ok|apply plan_pes_ok]. }
  clearbody r1. split; [split|]; cbn; [done| |done]. rewrite He1. cbn.
  apply Forall_bind. intros a Hin. apply event_of_action_ok. rewrite list.Forall_forall in Ha1. auto.
Qed.

Lemma retain_raw_ok r : report_ok r -> report_ok (retain_raw r).
Proof.
  intros [Ha He]. split; cbn; by apply list_filter_Forall.
Qed.

Lemma drop_actions_ok get r : report_ok r -> report_ok (drop_actions get r).
Proof.
  intros [Ha He]. split; cbn; [by apply list_filter_Forall|done].
Qed.

Lemma report_events_ok r es : report_ok r -> Forall event_ok es -> report_ok (report_events r es).
Proof. intros [Ha He] Hes. split; [done|]. by apply Forall_app. Qed.

Lemma section_ids_ok r : report_ok r ->
  Forall (fun id => wanted id [OpenSection]) (omap section_action_id (delivery_actions r)).
Proof.
  intros [Ha _]. apply list.Forall_forall. intros id Hid. apply list_elem_of_omap in Hid as (a & Hin & E).
  rewrite list.Forall_forall in Ha. specialize (Ha a Hin). destruct a; simplify_eq/=. done.
Qed.

Lemma pes_ids_ok r : report_ok r ->
  Forall (fun id => wanted id [OpenPes; OpenAv]) (omap pes_action_id (delivery_actions r)).
Proof.
  intros [Ha _]. apply list.Forall_forall. intros id Hid. apply list_elem_of_omap in Hid as (a & Hin & E).
  rewrite list.Forall_forall in Ha. specialize (Ha a Hin).
  destruct a; simplify_eq/=; (eapply wanted_mono; [|exact Ha]); sub_kinds.
Qed.
End Deliveries.

(** *** The loops and the halves *)
Section Assemble.
  Context (filters : list PipelineFilterView) (q : PacketPid) (o : TsInputOrigin).
  Context (pusi : bool) (payload : bytes) (Hw : wf_bytes payload).
  #[local] Abbreviation report_ok := (report_ok filters q o).
  #[local] Abbreviation wanted := (wanted filters q o).

(** A step of the assembly with its report. *)
Definition assembled (p : PacketPipeline) (x : PacketPipeline * PipelineReport) : Prop :=
  step_asm o q p x.1 /\ report_ok x.2.

Lemma section_loop_ok g ids p r : pipeline_inv p -> report_ok r ->
  Forall (fun '(id, raw) => wanted id [OpenSection] /\ raw = find_flag fv_section_raw filters id) ids ->
  returns (section_loop p r o q g pusi payload ids) (assembled p).
Proof.
  revert p r. induction ids as [|[id raw] ids IH]; intros p r Hp Hr Hids; cbn.
  { apply returns_ret. split; [by apply asm_refl|done]. }
  apply Forall_cons_iff in Hids as [[Hid Hraw] Hids].
  eapply returns_bind; [by apply assemble_section_ok|]. intros [p1 out] [H1 Hout]. cbn.
  eapply returns_mono.
  - apply IH; [by eapply asm_inv_of| |done]. apply report_events_ok; [by case_test|].
    apply Forall_fmap. eapply Forall_impl; [|exact Hout]. by intros b Hb.
  - intros [p2 r2] [H2 Hr2]. split; [by eapply asm_trans|done].
Qed.

Lemma pes_loop_ok g ids p r : pipeline_inv p -> report_ok r ->
  Forall (fun id => wanted id [OpenPes; OpenAv]) ids ->
  returns (pes_loop p r o q g pusi payload filters ids) (assembled p).
Proof.
  revert p r. induction ids as [|id ids IH]; intros p r Hp Hr Hids; cbn.
  { apply returns_ret. split; [by apply asm_refl|done]. }
  apply Forall_cons_iff in Hids as [Hid Hids].
  eapply returns_bind; [by apply assemble_pes_ok|]. intros [p1 out] [H1 Hout].
  pose proof (take_pes_diagnostic_ok p1 o q id (asm_inv_of _ _ _ _ H1)) as H2.
  destruct (take_pes_diagnostic _ _) as [p2 d]. cbn in H2 |- *. eapply returns_mono.
  - apply IH; [by eapply asm_inv_of| |done]. apply report_events_ok; [by destruct d as [[]|]|].
    apply Forall_fmap. eapply Forall_impl; [|exact Hout]. by intros b Hb.
  - intros [p3 r3] [H3 Hr3]. split; [|done]. eapply asm_trans; [exact H1|]. by eapply asm_trans.
Qed.

Lemma assembled_reset p p1 r get d1 d2 : step_asm o q p p1 -> report_ok r ->
  assembled p (reset_assembly_for_origin_pid p1 o q, drop_actions get (report_drop r d1 d2)).
Proof.
  intros H1 Hr. split; [|by apply drop_actions_ok].
  eapply asm_trans; [exact H1|]. apply asm_reset. by eapply asm_inv_of.
Qed.

Lemma asm_bump_section p : pipeline_inv p -> step_asm o q p (bump_section_generation p o q).1.
Proof.
  intros Hp. split; [by apply step_bump_section|]. unfold bump_section_generation. by case_match.
Qed.
Lemma asm_bump_pes p : pipeline_inv p -> step_asm o q p (bump_pes_generation p o q).1.
Proof.
  intros Hp. split; [by apply step_bump_pes|]. unfold bump_pes_generation. by case_match.
Qed.
Lemma asm_drop_generations p b c : pipeline_inv p ->
  step_asm o q p (drop_generations_for_pid_origin p o q b c).
Proof. intros Hp. split; [by apply step_drop_generations|by destruct b, c]. Qed.

Lemma assemble_sections_ok p r : pipeline_inv p -> report_ok r ->
  returns (assemble_sections p r o q pusi payload filters) (assembled p).
Proof.
  intros Hp Hr. unfold assemble_sections. pose proof (section_ids_ok _ _ _ _ Hr) as Hids.
  case_test; [|apply returns_ret; split; [by apply asm_drop_generations|done]].
  set (pg := if pusi then _ else _). assert (step_asm o q p pg.1) as Hpg.
  { unfold pg. destruct pusi; [by apply asm_bump_section|by apply asm_refl]. }
  destruct pg as [p1 [g|]]; cbn in Hpg |- *; [|by apply returns_ret, assembled_reset].
  eapply returns_mono.
  - apply section_loop_ok; [by eapply asm_inv_of|done|]. apply Forall_fmap.
    eapply Forall_impl; [|exact Hids]. by intros id Hid.
  - intros [p2 r2] [H2 Hr2]. split; [by eapply asm_trans|done].
Qed.

Lemma assemble_pes_half_ok p r : pipeline_inv p -> report_ok r ->
  returns (assemble_pes p r o q pusi payload filters) (assembled p).
Proof.
  intros Hp Hr. unfold assemble_pes. pose proof (pes_ids_ok _ _ _ _ Hr) as Hids.
  case_test; [|apply returns_ret; split; [by apply asm_drop_generations|done]].
  set (pg := if pusi then _ else _). assert (step_asm o q p pg.1) as Hpg.
  { unfold pg. destruct pusi; [by apply asm_bump_pes|by apply asm_refl]. }
  destruct pg as [p1 [g|]]; cbn in Hpg |- *; [|by apply returns_ret, assembled_reset].
  eapply returns_mono; [apply pes_loop_ok; [by eapply asm_inv_of|done|done]|].
  intros [p2 r2] [H2 Hr2]. split; [by eapply asm_trans|done].
Qed.
End Assemble.

Ltac top_if := match goal with |- context [if ?b then _ else _] => destruct b end.

Lemma plan_and_assemble_ok p packet o filters pre : pipeline_inv p -> packet_ok packet ->
  returns (plan_and_assemble_ts_packet_report_after_preflight p packet o filters pre)
    (assembled filters (validated_pid packet) o p).
Proof.
  intros Hp [_ Hpay]. unfold plan_and_assemble_ts_packet_report_after_preflight.
  destruct (plan_report_ok filters (validated_pid packet) o packet eq_refl) as [Hr _].
  revert Hr. generalize (plan_ts_packet_report packet o filters) as r. intros r Hr.
  top_if; [apply returns_ret; split; [by apply asm_reset|done]|].
  top_if; [apply returns_ret; split; [by apply asm_refl|by apply retain_raw_ok]|].
  destruct (view_payload _) as [payload|]; [|apply returns_ret; split; [by apply asm_refl|done]].
  top_if.
  { apply returns_ret. split; [|done]. cbn [fst].
    top_if; [by apply asm_reset|by apply asm_refl]. }
  eapply returns_bind; [by apply assemble_sections_ok|]. intros [p1 r1] [H1 Hr1].
  eapply returns_mono; [apply assemble_pes_half_ok; [done|by eapply asm_inv_of|done]|].
  intros [p2 r2] [H2 Hr2]. split; [by eapply asm_trans|done].
Qed.

Lemma process_packet_ok p packet o filters streams : pipeline_inv p -> packet_ok packet ->
  returns (process_packet p packet o filters streams) (fun '(p', r) =>
    step_ok o (validated_pid packet) p p' /\ report_ok filters (validated_pid packet) o r /\
    accepted_packets r = 1 /\ Forall (fun e => keeps_event streams e = true) (generated_events r)).
Proof.
  intros Hp Hk. unfold process_packet.
  eapply returns_bind; [by apply accept_ok|]. intros [p1 r1] (H1 & Ha1 & Hd1 & He1).
  rewrite Ha1. cbn [Z.eqb]. eapply returns_bind; [apply plan_and_assemble_ok; [by eapply step_inv|done]|].
  intros [p2 r2] [[H2 _] [Hr2 He2]]. apply returns_ret. split_and!.
  - by eapply step_trans.
  - split; cbn; rewrite ?Hd1, ?He1; [done|]. by apply list_filter_Forall.
  - done.
  - apply list.Forall_forall. intros e He. by apply list_elem_of_filter in He as [? _].
Qed.

(** C1. The pipeline is safe on every packet: from a pipeline that satisfies
    the invariant (every section and PES assembler legal, generations within
    64 bits, remembered counters within 4 bits) a validated packet is processed
    without a panic and within the fuel of the assemblers, the invariant holds
    again, and every event goes to a started filter of the packet's PID and
    origin that was opened for that kind of data: a section payload is a
    complete section the filter's policy accepts, a PES payload a complete
    packet whose fields are its header's and whose stream id the filter wants. *)
Theorem packet_processing_safe (p : PacketPipeline) (b : bytes) (packet : ValidatedTsPacket)
    (o : TsInputOrigin) (filters : list PipelineFilterView) (streams : gmap Z (option Z)) :
  pipeline_inv p -> wf_bytes b -> validated_validate b = Ret (Ok packet) ->
  returns (process_packet p packet o filters streams) (fun '(p', r) =>
    pipeline_inv p' /\ accepted_packets r = 1 /\
    Forall (action_ok filters (validated_pid packet) o) (delivery_actions r) /\
    Forall (event_ok filters (validated_pid packet) o) (generated_events r) /\
    Forall (fun e => keeps_event streams e = true) (generated_events r)).
Proof.
  intros Hp Hb Hv. eapply returns_mono.
  - apply process_packet_ok; [done|by eapply validated_packet_ok].
  - intros [p' r] ([Hi _] & [Ha He] & H1 & Hs). done.
Qed.

(** C2. Isolation: whatever a packet does, the assemblers, generations, flush
    marks and continuity of every other origin or PID are those it found, and
    so are the record index and the resynchronisation buffer. *)
Theorem packet_isolation (p : PacketPipeline) (b : bytes) (packet : ValidatedTsPacket)
    (o : TsInputOrigin) (filters : list PipelineFilterView) (streams : gmap Z (option Z)) :
  pipeline_inv p -> wf_bytes b -> validated_validate b = Ret (Ok packet) ->
  returns (process_packet p packet o filters streams) (fun '(p', _) =>
    frame o (validated_pid packet) p p').
Proof.
  intros Hp Hb Hv. eapply returns_mono.
  - apply process_packet_ok; [done|by eapply validated_packet_ok].
  - by intros [p' r] ([_ Hf] & _).
Qed.

(** *** Retransmission *)
Lemma observe_state_remembers s c b : counter_ok s -> 0 <= c < 16 ->
  returns (observe_state s c b) (fun '(s', _) => s' = mkContinuityState (Some c) (Some b)).
Proof.
  intros Hs Hc. unfold observe_state, counter_ok in *.
  destruct s as [[l|] pkt]; simpl in *; [|by apply returns_ret].
  destruct (Z.eqb_spec c l) as [->|Hne].
  - case_bool_decide as Hd; apply returns_ret; simpl; [by subst|done].
  - destruct (l + 1 >? u8_max) eqn:Eg; [unfold u8_max in *; lia|by apply returns_ret].
Qed.

Lemma observe_remembers t q c b : map_Forall (fun _ => counter_ok) (states t) -> 0 <= c < 16 ->
  returns (observe t q c true b) (fun '(t', _) =>
    states t' !! q = Some (mkContinuityState (Some c) (Some b))).
Proof.
  intros Ht Hc. unfold observe. cbn [negb].
  eapply returns_bind; [apply observe_state_remembers; [|done]|].
  - destruct (states t !! q) eqn:Es; cbn; [by apply (Ht q)|done].
  - intros [s out] ->. apply returns_ret. cbn. by rewrite lookup_insert_eq.
Qed.

Lemma check_continuity_remembers p o q c b : pipeline_inv p -> 0 <= c < 16 ->
  returns (check_continuity p o q c true b) (fun '(p', _) =>
    continuity_of p' o q = Some (mkContinuityState (Some c) (Some b))).
Proof.
  intros Hp Hc. unfold check_continuity.
  eapply returns_bind; [apply observe_remembers; [by apply tracker_inv|done]|].
  intros [t out] Ht. apply returns_ret. unfold continuity_of. cbn. by rewrite lookup_insert_eq.
Qed.

(** What a packet with payload leaves in its tracker. *)
Definition remembered (packet : ValidatedTsPacket) : ContinuityState :=
  mkContinuityState (Some (view_continuity_counter (packet_view packet)))
    (Some (packet_bytes packet)).

Lemma accept_continuity_trackers p o q out r :
  continuity_trackers (accept_continuity p o q out r).1 = continuity_trackers p.
Proof. by destruct out. Qed.

Lemma accept_remembers p packet o : pipeline_inv p -> packet_ok packet ->
  is_Some (view_payload (packet_view packet)) ->
  returns (accept_validated_ts_packet p packet (kind_of o)) (fun '(p', _) =>
    continuity_of p' o (validated_pid packet) = Some (remembered packet)).
Proof.
  intros Hp [Hc _] Hs. unfold accept_validated_ts_packet.
  replace (origin_of (kind_of o)) with o by by destruct o.
  pose proof (accept_flags_ok p o (packet_view packet) report_default Hp) as [Hf _].
  destruct (accept_flags _ _ _ _) as [p1 r1]. cbn in Hf.
  rewrite (bool_decide_eq_true_2 (is_Some _)) by done.
  eapply returns_bind; [by apply check_continuity_remembers|]. intros [p2 out] H2.
  pose proof (accept_continuity_trackers p2 o (validated_pid packet) out r1) as H3.
  destruct (accept_continuity _ _ _ _ _) as [p3 r3]. apply returns_ret. cbn in H3.
  unfold continuity_of. by rewrite H3.
Qed.

Lemma process_remembers p packet o filters streams : pipeline_inv p -> packet_ok packet ->
  is_Some (view_payload (packet_view packet)) ->
  returns (process_packet p packet o filters streams) (fun '(p', _) =>
    pipeline_inv p' /\ continuity_of p' o (validated_pid packet) = Some (remembered packet)).
Proof.
  intros Hp Hk Hs. destruct (accept_ok p packet o Hp Hk) as ([p1 r1] & E1 & H1 & Ha & _).
  pose proof (returns_inv _ _ _ (accept_remembers p packet o Hp Hk Hs) E1) as Hr.
  unfold process_packet. rewrite E1. cbn [mbind outcome_bind]. rewrite Ha. cbn [Z.eqb].
  eapply returns_bind; [apply plan_and_assemble_ok; [by eapply step_inv|done]|].
  intros [p2 r2] [[[H2 _] Ht] _]. apply returns_ret. split; [done|].
  unfold continuity_of in *. cbn in Ht. by rewrite Ht.
Qed.

(** The assembly state of two pipelines is the same. *)
Definition same_assembly (p p' : PacketPipeline) : Prop :=
  section_assemblers p' = section_assemblers p /\ pes_assemblers p' = pes_assemblers p /\
  section_assembler_generations p' = section_assembler_generations p /\
  pes_assembler_generations p' = pes_assembler_generations p.

Lemma accept_duplicate p packet o : packet_ok packet ->
  is_Some (view_payload (packet_view packet)) ->
  view_transport_error_indicator (packet_view packet) = false ->
  view_discontinuity_indicator (packet_view packet) = false ->
  continuity_of p o (validated_pid packet) = Some (remembered packet) ->
  returns (accept_validated_ts_packet p packet (kind_of o)) (fun '(p', r) =>
    same_assembly p p' /\ continuity_of p' o (validated_pid packet) = Some (remembered packet) /\
    accepted_packets r = 1 /\ assembly_suppression_reasons r = [DuplicatePacket] /\
    generated_events r = []).
Proof.
  intros _ Hs Htei Hdisc Hm. unfold accept_validated_ts_packet.
  replace (origin_of (kind_of o)) with o by by destruct o. unfold accept_flags.
  rewrite Htei, Hdisc. unfold check_continuity, observe. unfold continuity_of in Hm.
  rewrite (bool_decide_eq_true_2 (is_Some (view_payload (packet_view packet)))) by done. cbn [negb]. rewrite Hm.
  cbn. rewrite Z.eqb_refl.
  rewrite (bool_decide_eq_true_2 (Some (packet_bytes packet) = Some _)) by done. cbn.
  rewrite (bool_decide_eq_false_2 (view_payload _ = None))
    by (intros E; rewrite E in Hs; by destruct Hs).
  apply returns_ret. split_and!; try done. unfold continuity_of. cbn.
  by rewrite lookup_insert_eq; cbn; rewrite lookup_insert_eq.
Qed.


(** ** Resets *)
Lemma filter_insert_out `{Countable K} {A} (P : K * A -> Prop) `{!forall x, Decision (P x)}
    (m : gmap K A) k x :
  (forall y, ~ P (k, y)) -> filter P (<[k := x]> m) = filter P m.
Proof.
  intros Hk. apply map_eq. intros k'. destruct (decide (k' = k)) as [->|Hne].
  - by rewrite !filter_gone.
  - apply option_eq. intros y. rewrite !map_lookup_filter_Some.
    by rewrite lookup_insert_ne by done.
Qed.

Lemma clear_after_mark p f pid o :
  clear_filter_state (mark_filter_flush_generation_for_origin p f pid o) f = clear_filter_state p f.
Proof.
  unfold clear_filter_state, mark_filter_flush_generation_for_origin, with_assembly_maps; cbn.
  f_equal; apply filter_insert_out; cbn; auto.
Qed.

(** [flush_filter] records flush-generation marks and then clears them with the
    rest of the filter's state: the marks it is given make no difference. *)
Lemma flush_marks_erased p f origins :
  flush_filter p f origins = clear_filter_state_after_flush p f.
Proof.
  unfold flush_filter, clear_filter_state_after_flush. f_equal.
  revert p. induction origins as [|[o pid] l IH]; intros p; cbn; [done|].
  by rewrite IH, clear_after_mark.
Qed.

(** Resetting one filter's record index. *)
Lemma reset_partial_parsers p f f' :
  record_index_parsers (reset_record_index_partial_state p f) !! f'
  = if bool_decide (f' = f /\ is_Some (record_index_settings p !! f))
    then Some record_index_parser_new else record_index_parsers p !! f'.
Proof.
  unfold reset_record_index_partial_state. case_bool_decide as Hs; case_bool_decide as Hf; cbn.
  - destruct Hf as [-> _]. by rewrite lookup_insert_eq.
  - apply lookup_insert_ne. intros ->. by apply Hf.
  - by destruct Hf.
  - done.
Qed.


Lemma reset_origin_sections p o o' q f : section_assemblers (reset_origin p o) !! (o', q, f)
  = if decide (o' = o) then None else section_assemblers p !! (o', q, f).
Proof.
  cbn. case_decide; [subst; apply filter_gone; cbn; tauto|apply filter_keep; cbn; tauto].
Qed.

Lemma reset_origin_continuity p o o' q : continuity_of (reset_origin p o) o' q
  = if decide (o' = o) then None else continuity_of p o' q.
Proof.
  unfold continuity_of; cbn. case_decide; subst.
  - by rewrite lookup_delete_eq.
  - by rewrite lookup_delete_ne.
Qed.

(** ** Witnesses *)
Definition tdt_packet : bytes :=
  [0x47; 0x40; 0x14; 0x15; 0x00] ++ tdt_section ++ replicate (Z.to_nat (183 - len tdt_section)) 0xff.
Definition tdt_validated : ValidatedTsPacket :=
  mkValidatedTsPacket tdt_packet
    (match view_validate tdt_packet with Ret (Ok v) => v | _ => sample_view end).
Definition tdt_filter : PipelineFilterView :=
  mkFilterView 7 (Some 0x14) true None OpenSection false false false.

Example tdt_delivered :
  match process_packet pipeline_default tdt_validated (Frontend 1) [tdt_filter] ∅ with
  | Ret (_, r) => generated_events r
  | _ => []
  end = [EvSection 7 false;
         EvSectionPayloadReady 7 (mkPacketPid (mkPid 0x14)) 1 false tdt_section].
Proof. vm_compute. reflexivity. Qed.

Lemma packet_processing_safe_witness :
  returns (process_packet pipeline_default tdt_validated (Frontend 1) [tdt_filter] ∅)
    (fun '(p', r) => pipeline_inv p' /\ accepted_packets r = 1 /\
      Forall (action_ok [tdt_filter] (validated_pid tdt_validated) (Frontend 1)) (delivery_actions r) /\
      Forall (event_ok [tdt_filter] (validated_pid tdt_validated) (Frontend 1)) (generated_events r) /\
      Forall (fun e => keeps_event ∅ e = true) (generated_events r)).
Proof.
  apply (packet_processing_safe pipeline_default tdt_packet tdt_validated (Frontend 1) [tdt_filter] ∅).
  - apply pipeline_default_inv.
  - dec_true.
  - vm_compute. reflexivity.
Defined.

Lemma packet_isolation_witness :
  returns (process_packet pipeline_default tdt_validated (Frontend 1) [tdt_filter] ∅)
    (fun '(p', _) => frame (Frontend 1) (validated_pid tdt_validated) pipeline_default p').
Proof.
  apply (packet_isolation pipeline_default tdt_packet tdt_validated (Frontend 1) [tdt_filter] ∅).
  - apply pipeline_default_inv.
  - dec_true.
  - vm_compute. reflexivity.
Defined.

