(* ===== verification/Ledger.v ===== *)
(** * The resource ledger

    [ResourceLedger] of [resource_ledger/src/lib.rs]: the life cycle of every
    tuner resource, keyed by id and guarded by a generation.  Each operation
    returns the ledger it leaves next to its result, so that a failed call can
    be seen to change nothing.  [lifecycle] is the abstract state machine of one
    incarnation (a generation of an id) that the operations refine. *)

From stdpp Require Import gmap.
From S2P Require Import Prelude.

(** ** Data.  [LedgerId] and [LedgerGeneration] are their integers. *)
Inductive LedgerState := Reserved | Live | Closing | CleanupFailed | Closed | Quarantined.
#[global] Instance ledger_state_eq_dec : EqDecision LedgerState.
Proof. solve_decision. Defined.

Definition is_terminal (s : LedgerState) : bool :=
  match s with Closed | Quarantined => true | _ => false end.

Inductive CleanupStep := StopWorker | ClearQueue | UnregisterRuntime | ReleaseBackend | ReleaseLedger.

Inductive ResourceKind :=
| KFrontend | KDemux | KFilter | KDvr | KDescrambler | KLnb.

Inductive LedgerOperation :=
| OpReserve | OpCommitLive | OpBeginClose | OpCommitClose | OpRollbackOpen | OpMarkCleanupFailed
| OpQuarantine | OpAdvanceCleanupStep.
#[global] Instance ledger_operation_eq_dec : EqDecision LedgerOperation.
Proof. solve_decision. Defined.

Inductive LedgerErrorKind :=
| AlreadyExists (state : LedgerState)
| NotFound
| GenerationMismatch (expected actual : Z)
| InvalidTransition (from : LedgerState) (op : LedgerOperation)
| TerminalState (state : LedgerState) (op : LedgerOperation)
| GenerationOverflow.

Record LedgerError := mkLedgerError { err_id : Z; err_kind : LedgerErrorKind }.

Record LedgerEntry := mkLedgerEntry {
  le_id : Z;
  le_generation : Z;
  le_state : LedgerState;
  le_cleanup_step : option CleanupStep
}.

Record ResourceLedger := mkLedger {
  entries : gmap Z LedgerEntry;
  next_generation : Z
}.
Definition ledger_default : ResourceLedger := mkLedger ∅ 0.

Abbreviation ledger_result := (ResourceLedger * result LedgerEntry LedgerError)%type.

(** ** Operations *)
Definition fail (l : ResourceLedger) (id : Z) (k : LedgerErrorKind) : ledger_result :=
  (l, Err (mkLedgerError id k)).

(** [*entry = ..; Ok( *entry)] through [entry_mut_checked]'s reference. *)
Definition put (l : ResourceLedger) (id : Z) (e : LedgerEntry) : ledger_result :=
  (mkLedger (<[id := e]> (entries l)) (next_generation l), Ok e).

Definition with_state (e : LedgerEntry) (s : LedgerState) (step : option CleanupStep) : LedgerEntry :=
  mkLedgerEntry (le_id e) (le_generation e) s step.

(** The state match every operation ends with. *)
Definition reject (l : ResourceLedger) (id : Z) (s : LedgerState) (op : LedgerOperation)
  : ledger_result :=
  if is_terminal s then fail l id (TerminalState s op) else fail l id (InvalidTransition s op).

Definition entry_checked (l : ResourceLedger) (id generation : Z) (op : LedgerOperation)
  : result LedgerEntry LedgerError :=
  match entries l !! id with
  | None => Err (mkLedgerError id NotFound)
  | Some e =>
      if negb (le_generation e =? generation)
      then Err (mkLedgerError id (GenerationMismatch (le_generation e) generation))
      else Ok e
  end.

Definition entry_mut_checked (l : ResourceLedger) (id generation : Z) (op : LedgerOperation)
  : result LedgerEntry LedgerError :=
  match entries l !! id with
  | None => Err (mkLedgerError id NotFound)
  | Some e =>
      if negb (le_generation e =? generation)
      then Err (mkLedgerError id (GenerationMismatch (le_generation e) generation))
      else if is_terminal (le_state e) && negb (bool_decide (op = OpQuarantine))
      then Err (mkLedgerError id (TerminalState (le_state e) op))
      else Ok e
  end.

Definition reserve (l : ResourceLedger) (id : Z) : ledger_result :=
  match entries l !! id with
  | Some existing => fail l id (AlreadyExists (le_state existing))
  | None =>
      match checked_add u64_max (next_generation l) 1 with
      | None => fail l id GenerationOverflow
      | Some g =>
          let e := mkLedgerEntry id g Reserved None in
          (mkLedger (<[id := e]> (entries l)) g, Ok e)
      end
  end.

Definition commit_live (l : ResourceLedger) (id generation : Z) : ledger_result :=
  match entry_mut_checked l id generation OpCommitLive with
  | Err e => (l, Err e)
  | Ok e =>
      match le_state e with
      | Reserved => put l id (with_state e Live None)
      | s => reject l id s OpCommitLive
      end
  end.

Definition begin_close (l : ResourceLedger) (id generation : Z) (first_step : CleanupStep)
  : ledger_result :=
  match entry_mut_checked l id generation OpBeginClose with
  | Err e => (l, Err e)
  | Ok e =>
      match le_state e with
      | Live | CleanupFailed => put l id (with_state e Closing (Some first_step))
      | s => reject l id s OpBeginClose
      end
  end.

Definition advance_cleanup_step (l : ResourceLedger) (id generation : Z) (step : CleanupStep)
  : ledger_result :=
  match entry_mut_checked l id generation OpAdvanceCleanupStep with
  | Err e => (l, Err e)
  | Ok e =>
      match le_state e with
      | Closing | CleanupFailed => put l id (with_state e (le_state e) (Some step))
      | s => reject l id s OpAdvanceCleanupStep
      end
  end.

Definition mark_cleanup_failed (l : ResourceLedger) (id generation : Z) (failed_step : CleanupStep)
  : ledger_result :=
  match entry_mut_checked l id generation OpMarkCleanupFailed with
  | Err e => (l, Err e)
  | Ok e =>
      match le_state e with
      | Closing | CleanupFailed => put l id (with_state e CleanupFailed (Some failed_step))
      | s => reject l id s OpMarkCleanupFailed
      end
  end.

Definition commit_close (l : ResourceLedger) (id generation : Z) : ledger_result :=
  match entry_mut_checked l id generation OpCommitClose with
  | Err e => (l, Err e)
  | Ok e =>
      match le_state e with
      | Closing | CleanupFailed => put l id (with_state e Closed None)
      | s => reject l id s OpCommitClose
      end
  end.

Definition rollback_open (l : ResourceLedger) (id generation : Z) : ledger_result :=
  match entry_checked l id generation OpRollbackOpen with
  | Err e => (l, Err e)
  | Ok e =>
      match le_state e with
      | Reserved => (mkLedger (delete id (entries l)) (next_generation l), Ok e)
      | s => reject l id s OpRollbackOpen
      end
  end.

Definition quarantine (l : ResourceLedger) (id generation : Z) (step : option CleanupStep)
  : ledger_result :=
  match entry_mut_checked l id generation OpQuarantine with
  | Err e => (l, Err e)
  | Ok e =>
      match le_state e with
      | Closed | Quarantined => fail l id (TerminalState (le_state e) OpQuarantine)
      | _ => put l id (with_state e Quarantined step)
      end
  end.

Definition entry (l : ResourceLedger) (id : Z) : option LedgerEntry := entries l !! id.
Definition ledger_len (l : ResourceLedger) : Z := Z.of_nat (size (entries l)).
Definition ledger_is_empty (l : ResourceLedger) : bool := bool_decide (entries l = ∅).

(** *** Typed ledgers: the marker type fixes the kind. *)
Class LedgerResourceKind (K : Type) := KIND : ResourceKind.
Record TypedResourceLedger (K : Type) := mkTyped { typed_inner : ResourceLedger }.
Arguments mkTyped {K}.
Arguments typed_inner {K}.
Definition typed_default {K} : TypedResourceLedger K := mkTyped ledger_default.
Definition typed_kind {K} `{LedgerResourceKind K} (l : TypedResourceLedger K) : ResourceKind := KIND.
(** Every other operation of the wrappers delegates to [inner]. *)
Definition typed_op {K} (op : ResourceLedger -> ledger_result) (l : TypedResourceLedger K)
  : TypedResourceLedger K * result LedgerEntry LedgerError :=
  let '(inner, r) := op (typed_inner l) in (mkTyped inner, r).

(** *** A request, for traces *)
Inductive request :=
| RReserve (id : Z)
| RCommitLive (id g : Z)
| RBeginClose (id g : Z) (step : CleanupStep)
| RAdvance (id g : Z) (step : CleanupStep)
| RMarkFailed (id g : Z) (step : CleanupStep)
| RCommitClose (id g : Z)
| RRollback (id g : Z)
| RQuarantine (id g : Z) (step : option CleanupStep).

Definition serve (l : ResourceLedger) (r : request) : ledger_result :=
  match r with
  | RReserve id => reserve l id
  | RCommitLive id g => commit_live l id g
  | RBeginClose id g s => begin_close l id g s
  | RAdvance id g s => advance_cleanup_step l id g s
  | RMarkFailed id g s => mark_cleanup_failed l id g s
  | RCommitClose id g => commit_close l id g
  | RRollback id g => rollback_open l id g
  | RQuarantine id g s => quarantine l id g s
  end.
Definition serve_all (l : ResourceLedger) (rs : list request) : ResourceLedger :=
  foldl (fun l r => (serve l r).1) l rs.

(** ** The abstract life cycle of one incarnation *)
(** Not yet drawn, in the ledger, or gone: rolled back, or drawn for another
    id. *)
Inductive phase := Unborn | In (s : LedgerState) | Gone.

Inductive lifecycle : phase -> phase -> Prop :=
| lc_reserve : lifecycle Unborn (In Reserved)
| lc_elsewhere : lifecycle Unborn Gone
| lc_commit_live : lifecycle (In Reserved) (In Live)
| lc_rollback : lifecycle (In Reserved) Gone
| lc_close s : s = Live \/ s = CleanupFailed -> lifecycle (In s) (In Closing)
| lc_fail : lifecycle (In Closing) (In CleanupFailed)
| lc_closed s : s = Closing \/ s = CleanupFailed -> lifecycle (In s) (In Closed)
| lc_quarantine s : is_terminal s = false -> lifecycle (In s) (In Quarantined).

(** The phase of generation [g] of [id]: not yet drawn, in the ledger, or gone. *)
Definition phase_of (l : ResourceLedger) (id g : Z) : phase :=
  match entries l !! id with
  | Some e => if le_generation e =? g then In (le_state e)
              else if next_generation l <? g then Unborn else Gone
  | None => if next_generation l <? g then Unborn else Gone
  end.

(** What the table says of a request on an entry it addresses: the new entry,
    or [None] when it is refused. *)
Definition table (op : request) (e : LedgerEntry) : option (option LedgerEntry) :=
  match op, le_state e with
  | RCommitLive _ _, Reserved => Some (Some (with_state e Live None))
  | RBeginClose _ _ s, (Live | CleanupFailed) => Some (Some (with_state e Closing (Some s)))
  | RAdvance _ _ s, (Closing | CleanupFailed) => Some (Some (with_state e (le_state e) (Some s)))
  | RMarkFailed _ _ s, (Closing | CleanupFailed) => Some (Some (with_state e CleanupFailed (Some s)))
  | RCommitClose _ _, (Closing | CleanupFailed) => Some (Some (with_state e Closed None))
  | RRollback _ _, Reserved => Some None
  | RQuarantine _ _ s, (Reserved | Live | Closing | CleanupFailed) =>
      Some (Some (with_state e Quarantined s))
  | _, _ => None
  end.
Definition op_of (r : request) : LedgerOperation :=
  match r with
  | RReserve _ => OpReserve | RCommitLive _ _ => OpCommitLive | RBeginClose _ _ _ => OpBeginClose
  | RAdvance _ _ _ => OpAdvanceCleanupStep | RMarkFailed _ _ _ => OpMarkCleanupFailed
  | RCommitClose _ _ => OpCommitClose | RRollback _ _ => OpRollbackOpen
  | RQuarantine _ _ _ => OpQuarantine
  end.
Definition target (r : request) : Z :=
  match r with
  | RReserve id | RCommitLive id _ | RBeginClose id _ _ | RAdvance id _ _ | RMarkFailed id _ _
  | RCommitClose id _ | RRollback id _ | RQuarantine id _ _ => id
  end.
Definition target_generation (r : request) : option Z :=
  match r with
  | RReserve _ => None
  | RCommitLive _ g | RBeginClose _ g _ | RAdvance _ g _ | RMarkFailed _ g _ | RCommitClose _ g
  | RRollback _ g | RQuarantine _ g _ => Some g
  end.

(** ** The operations follow the table *)
Lemma reject_eq l id s op : reject l id s op
  = fail l id (if is_terminal s then TerminalState s op else InvalidTransition s op).
Proof. unfold reject. by destruct (is_terminal s). Qed.

(** A request that addresses an entry of its generation. *)
Definition answer (l : ResourceLedger) (r : request) (e : LedgerEntry) : ledger_result :=
  match table r e with
  | Some (Some e') => put l (target r) e'
  | Some None => (mkLedger (delete (target r) (entries l)) (next_generation l), Ok e)
  | None => fail l (target r) (if is_terminal (le_state e) then TerminalState (le_state e) (op_of r)
                               else InvalidTransition (le_state e) (op_of r))
  end.

Lemma serve_absent l r : target_generation r <> None -> entries l !! target r = None ->
  serve l r = fail l (target r) NotFound.
Proof.
  intros Hg He. destruct r; cbn in *; try done;
    unfold commit_live, begin_close, advance_cleanup_step, mark_cleanup_failed, commit_close,
      rollback_open, quarantine, entry_mut_checked, entry_checked; by rewrite He.
Qed.

Lemma serve_other l r e g : target_generation r = Some g -> entries l !! target r = Some e ->
  le_generation e <> g -> serve l r = fail l (target r) (GenerationMismatch (le_generation e) g).
Proof.
  intros Hg He Hne. apply Z.eqb_neq in Hne. destruct r; simplify_eq/=;
    unfold commit_live, begin_close, advance_cleanup_step, mark_cleanup_failed, commit_close,
      rollback_open, quarantine, entry_mut_checked, entry_checked; by rewrite He, Hne.
Qed.

Lemma serve_addressed l r e : target_generation r = Some (le_generation e) ->
  entries l !! target r = Some e -> serve l r = answer l r e.
Proof.
  intros Hg He. unfold answer. destruct r; simplify_eq/=;
    unfold commit_live, begin_close, advance_cleanup_step, mark_cleanup_failed, commit_close,
      rollback_open, quarantine, entry_mut_checked, entry_checked; rewrite He, Z.eqb_refl; cbn;
    destruct e as [i g [] st]; reflexivity.
Qed.

(** C19. Every operation on an existing resource is its row of the transition
    table: an absent id is not found, another generation is a mismatch, an
    allowed transition replaces (or, for a rollback, removes) exactly that
    entry and answers with it, and anything else is refused, as a terminal
    state or an invalid transition, with the ledger as it was.  A reservation
    succeeds exactly for an id the ledger does not hold, closed ids included,
    and draws the next 64-bit generation. *)
Theorem ledger_table (l : ResourceLedger) (r : request) :
  serve l r =
  match target_generation r with
  | None =>
      match entries l !! target r with
      | Some e => fail l (target r) (AlreadyExists (le_state e))
      | None =>
          if next_generation l <? u64_max then
            let e := mkLedgerEntry (target r) (next_generation l + 1) Reserved None in
            (mkLedger (<[target r := e]> (entries l)) (next_generation l + 1), Ok e)
          else fail l (target r) GenerationOverflow
      end
  | Some g =>
      match entries l !! target r with
      | None => fail l (target r) NotFound
      | Some e =>
          if le_generation e =? g then answer l r e
          else fail l (target r) (GenerationMismatch (le_generation e) g)
      end
  end.
Proof.
  destruct (target_generation r) as [g|] eqn:Hg.
  - destruct (entries l !! target r) as [e|] eqn:He; [|by apply serve_absent; [congruence|]].
    destruct (Z.eqb_spec (le_generation e) g) as [<-|Hne]; [by apply serve_addressed|].
    by apply serve_other.
  - destruct r; simplify_eq/=. unfold reserve. destruct (entries l !! id); [done|].
    unfold checked_add. destruct (Z.ltb_spec (next_generation l) u64_max);
      destruct (Z.leb_spec (next_generation l + 1) u64_max); (done || lia).
Qed.

(** ** Invariant and refinement *)
Record ledger_inv (l : ResourceLedger) : Prop := {
  ledger_bound : 0 <= next_generation l <= u64_max;
  ledger_entries : map_Forall (fun id e => le_id e = id /\ 0 < le_generation e <= next_generation l)
    (entries l);
  ledger_distinct : forall i j e e', entries l !! i = Some e -> entries l !! j = Some e' ->
    le_generation e = le_generation e' -> i = j
}.

Lemma ledger_default_inv : ledger_inv ledger_default.
Proof. split; [cbn; unfold u64_max; lia|apply map_Forall_empty|done]. Qed.

(** What a request can do to the ledger. *)
Inductive effect (l : ResourceLedger) (r : request) : ResourceLedger -> Prop :=
| eff_none : effect l r l
| eff_reserve : target_generation r = None -> entries l !! target r = None ->
    next_generation l < u64_max ->
    effect l r (mkLedger (<[target r := mkLedgerEntry (target r) (next_generation l + 1) Reserved None]>
                  (entries l)) (next_generation l + 1))
| eff_update e e' : entries l !! target r = Some e -> target_generation r = Some (le_generation e) ->
    table r e = Some (Some e') ->
    effect l r (mkLedger (<[target r := e']> (entries l)) (next_generation l))
| eff_remove e : entries l !! target r = Some e -> target_generation r = Some (le_generation e) ->
    table r e = Some None -> effect l r (mkLedger (delete (target r) (entries l)) (next_generation l)).

Lemma serve_effect l r : effect l r (serve l r).1.
Proof.
  destruct (target_generation r) as [g|] eqn:Hg.
  - destruct (entries l !! target r) as [e|] eqn:He.
    2: { rewrite serve_absent by congruence. constructor. }
    destruct (decide (le_generation e = g)) as [<-|Hne]; [|rewrite (serve_other l r e g) by done; constructor].
    rewrite (serve_addressed l r e) by done. unfold answer. destruct (table r e) as [[e'|]|] eqn:Ht.
    + by eapply eff_update.
    + by eapply eff_remove.
    + constructor.
  - destruct r; simplify_eq/=. unfold reserve. destruct (entries l !! id) eqn:He; [constructor|].
    destruct (checked_add _ _ _) as [g|] eqn:Ha; [|constructor].
    apply checked_add_Some in Ha as [-> Hb]. by apply (eff_reserve l (RReserve id)); cbn; [..|lia].
Qed.

Lemma table_keeps r e e' : table r e = Some (Some e') ->
  le_id e' = le_id e /\ le_generation e' = le_generation e /\
  (le_state e' = le_state e \/ lifecycle (In (le_state e)) (In (le_state e'))).
Proof.
  destruct e as [i g s st]. destruct r, s; cbn; intros; simplify_eq; cbn; split_and!; try done;
    solve [auto | right; constructor; auto].
Qed.

Lemma table_removes r e : table r e = Some None -> le_state e = Reserved.
Proof. destruct r; cbn; try done; destruct (le_state e); done. Qed.

Lemma serve_inv l r : ledger_inv l -> ledger_inv (serve l r).1.
Proof.
  intros Hi. pose proof Hi as [Hb He Hd]. destruct (serve_effect l r) as [| Hg Hn Hm|e e' Hl Hg Ht|e Hl Hg Ht].
  - done.
  - split; cbn; [lia| |].
    + apply map_Forall_insert_2; [cbn; lia|]. intros i e Hl. destruct (He i e Hl). lia.
    + intros i j e e'. rewrite !lookup_insert_Some.
      intros [[<- <-]|[? Hx]] [[<- <-]|[? Hy]]; cbn; intros Hgen; try done.
      * destruct (He _ _ Hy). lia.
      * destruct (He _ _ Hx). lia.
      * by eapply Hd.
  - destruct (table_keeps _ _ _ Ht) as (Hid & Hge & _). destruct (He _ _ Hl) as [? ?].
    split; cbn; [lia| |].
    + apply map_Forall_insert_2; [cbn; lia|done].
    + intros i j x y. rewrite !lookup_insert_Some.
      intros [[<- <-]|[? Hx]] [[<- <-]|[? Hy]]; intros Hgen; try done; eapply Hd; eauto; congruence.
  - split; cbn; [lia|by apply map_Forall_delete|].
    intros i j x y [_ Hx]%lookup_delete_Some [_ Hy]%lookup_delete_Some. by eapply Hd.
Qed.

Lemma serve_all_inv rs l : ledger_inv l -> ledger_inv (serve_all l rs).
Proof. revert l. induction rs as [|r rs IH]; intros l Hl; cbn; [done|]. by apply IH, serve_inv. Qed.

Lemma phase_insert l id e n i g : phase_of (mkLedger (<[id := e]> (entries l)) n) i g
  = if decide (i = id /\ le_generation e = g) then In (le_state e)
    else if decide (i = id) then (if n <? g then Unborn else Gone)
    else phase_of (mkLedger (entries l) n) i g.
Proof.
  unfold phase_of; cbn. destruct (decide (i = id)) as [->|Hne].
  - rewrite lookup_insert_eq. destruct (Z.eqb_spec (le_generation e) g); case_decide; tauto.
  - rewrite decide_False by tauto. by rewrite lookup_insert_ne by done.
Qed.

Lemma phase_delete l id i g : phase_of (mkLedger (delete id (entries l)) (next_generation l)) i g
  = if decide (i = id) then (if next_generation l <? g then Unborn else Gone) else phase_of l i g.
Proof.
  unfold phase_of; cbn. case_decide; subst; [by rewrite lookup_delete_eq|].
  by rewrite lookup_delete_ne by done.
Qed.

(** Raising the counter by one draws that generation, for whatever id. *)
Lemma phase_raise l i g : ledger_inv l ->
  phase_of (mkLedger (entries l) (next_generation l + 1)) i g = phase_of l i g \/
  g = next_generation l + 1 /\ phase_of l i g = Unborn /\
    phase_of (mkLedger (entries l) (next_generation l + 1)) i g = Gone.
Proof.
  intros [_ He _]. unfold phase_of; cbn. destruct (entries l !! i) as [e|] eqn:Hl.
  - destruct (He _ _ Hl) as [_ ?]. destruct (Z.eqb_spec (le_generation e) g); [by left|].
    destruct (Z.ltb_spec (next_generation l + 1) g), (Z.ltb_spec (next_generation l) g);
      (by left) || (right; split_and!; (done || lia)) || lia.
  - destruct (Z.ltb_spec (next_generation l + 1) g), (Z.ltb_spec (next_generation l) g);
      (by left) || (right; split_and!; (done || lia)) || lia.
Qed.

Lemma phase_of_lookup l id e : entries l !! id = Some e -> phase_of l id (le_generation e) = In (le_state e).
Proof. intros He. unfold phase_of. by rewrite He, Z.eqb_refl. Qed.

Lemma serve_phase l r id g : ledger_inv l ->
  phase_of (serve l r).1 id g = phase_of l id g \/
  lifecycle (phase_of l id g) (phase_of (serve l r).1 id g).
Proof.
  intros Hi. destruct (serve_effect l r) as [| Hg Hn Hm|e e' Hl Hg Ht|e Hl Hg Ht].
  - by left.
  - rewrite phase_insert; cbn. destruct (decide (id = target r /\ _)) as [[-> <-]|Hne].
    + right. replace (phase_of l (target r) (next_generation l + 1)) with Unborn; [constructor|].
      unfold phase_of. rewrite Hn. by rewrite (proj2 (Z.ltb_lt _ _)) by lia.
    + destruct (decide (id = target r)) as [->|].
      * left. unfold phase_of. rewrite Hn.
        destruct (Z.ltb_spec (next_generation l + 1) g), (Z.ltb_spec (next_generation l) g);
          try done; try lia; exfalso; apply Hne; split; (done || lia).
      * destruct (phase_raise l id g Hi) as [->|(-> & -> & ->)]; [by left|right; constructor].
  - destruct (table_keeps _ _ _ Ht) as (_ & Hge & Hs). rewrite phase_insert, Hge.
    destruct (decide (id = target r /\ _)) as [[-> <-]|Hne].
    + rewrite (phase_of_lookup l _ e) by done. destruct Hs as [->|]; auto.
    + left. destruct (decide (id = target r)) as [->|]; [|by destruct l].
      unfold phase_of. rewrite Hl. destruct (Z.eqb_spec (le_generation e) g); [tauto|done].
  - pose proof (table_removes _ _ Ht) as Hr. rewrite phase_delete.
    destruct (decide (id = target r)) as [->|Hne]; [|by left].
    destruct (decide (le_generation e = g)) as [<-|Hg'].
    + right. rewrite (phase_of_lookup l _ e), Hr by done. destruct (ledger_entries l Hi _ _ Hl).
      rewrite (proj2 (Z.ltb_ge _ _)) by lia. constructor.
    + left. unfold phase_of. rewrite Hl. by rewrite (proj2 (Z.eqb_neq _ _)).
Qed.

(** C5. The ledger refines the life cycle: a request moves every incarnation
    of every id by at most one step of the abstract machine (reserved, live,
    closing, possibly failed and retried, closed; rolled back from reserved;
    quarantined from any state that is not terminal), keeps ids, generations and
    the 64-bit counter consistent, and never lets two ids share a generation. *)
Theorem ledger_refines_lifecycle (l : ResourceLedger) (r : request) (id g : Z) :
  ledger_inv l ->
  ledger_inv (serve l r).1 /\
  (phase_of (serve l r).1 id g = phase_of l id g \/
   lifecycle (phase_of l id g) (phase_of (serve l r).1 id g)).
Proof. intros Hi. split; [by apply serve_inv|by apply serve_phase]. Qed.

(** *** No incarnation comes back *)
Definition finished (p : phase) : bool :=
  match p with Unborn => false | In s => is_terminal s | Gone => true end.

Lemma finished_final p p' : finished p = true -> ~ lifecycle p p'.
Proof.
  intros Hf H. inversion H; subst; cbn in Hf; try done;
    match goal with
    | H : _ \/ _ |- _ => destruct H; subst; done
    | H : is_terminal _ = false |- _ => congruence
    end.
Qed.

Lemma finished_stays l rs id g : ledger_inv l -> finished (phase_of l id g) = true ->
  phase_of (serve_all l rs) id g = phase_of l id g.
Proof.
  revert l. induction rs as [|r rs IH]; intros l Hi Hf; cbn; [done|].
  destruct (serve_phase l r id g Hi) as [E|H]; [|by apply finished_final in H].
  rewrite IH, E; [done|by apply serve_inv|by rewrite E].
Qed.

Lemma finished_refused l r g : ledger_inv l -> target_generation r = Some g ->
  finished (phase_of l (target r) g) = true -> exists k, serve l r = fail l (target r) k.
Proof.
  intros Hi Hg Hf. destruct (entries l !! target r) as [e|] eqn:He.
  - destruct (decide (le_generation e = g)) as [<-|Hne]; [|eexists; by apply serve_other].
    rewrite (phase_of_lookup l _ e) in Hf by done. cbn in Hf.
    rewrite (serve_addressed l r e) by done. unfold answer.
    destruct (table r e) as [x|] eqn:Ht; [|by eexists].
    exfalso. destruct e as [i g s st]. cbn in *. destruct r, s; cbn in *; done.
  - eexists. apply serve_absent; [congruence|done].
Qed.

(** C18. No resurrection (ABA safety): once an incarnation is closed,
    quarantined or rolled back, no sequence of requests, reservations of the
    same id included, changes that: its phase stays as it is, and every later
    request with its generation is refused and leaves the ledger unchanged. *)
Theorem ledger_no_resurrection (l : ResourceLedger) (rs : list request) (r : request) (g : Z) :
  ledger_inv l -> target_generation r = Some g -> finished (phase_of l (target r) g) = true ->
  phase_of (serve_all l rs) (target r) g = phase_of l (target r) g /\
  exists k, serve (serve_all l rs) r = fail (serve_all l rs) (target r) k.
Proof.
  intros Hi Hg Hf. pose proof (finished_stays l rs _ _ Hi Hf) as E. split; [done|].
  eapply finished_refused; [by apply serve_all_inv|done|by rewrite E].
Qed.

(** ** Witnesses *)
Definition sample_trace : list request :=
  [RReserve 7; RCommitLive 7 1; RBeginClose 7 1 StopWorker; RMarkFailed 7 1 ClearQueue;
   RReserve 8; RRollback 8 2; RReserve 8].

Example sample_trace_runs :
  entries (serve_all ledger_default sample_trace) !! 7
    = Some (mkLedgerEntry 7 1 CleanupFailed (Some ClearQueue)) /\
  entries (serve_all ledger_default sample_trace) !! 8 = Some (mkLedgerEntry 8 3 Reserved None).
Proof. vm_compute. auto. Qed.

Lemma ledger_refines_lifecycle_witness :
  let l := serve_all ledger_default sample_trace in
  ledger_inv (serve l (RCommitClose 7 1)).1 /\
  (phase_of (serve l (RCommitClose 7 1)).1 7 1 = phase_of l 7 1 \/
   lifecycle (phase_of l 7 1) (phase_of (serve l (RCommitClose 7 1)).1 7 1)).
Proof.
  apply (ledger_refines_lifecycle (serve_all ledger_default sample_trace) (RCommitClose 7 1) 7 1).
  apply serve_all_inv, ledger_default_inv.
Defined.

(** Generation 2 of id 8 was rolled back; id 8 is reserved again as
    generation 3, and a late commit of generation 2 is refused. *)
Lemma ledger_no_resurrection_witness :
  let l := serve_all ledger_default sample_trace in
  phase_of (serve_all l [RCommitLive 8 3]) 8 2 = Gone /\
  exists k, serve (serve_all l [RCommitLive 8 3]) (RCommitLive 8 2)
    = fail (serve_all l [RCommitLive 8 3]) 8 k.
Proof.
  apply (ledger_no_resurrection (serve_all ledger_default sample_trace) [RCommitLive 8 3]
    (RCommitLive 8 2) 2).
  - apply serve_all_inv, ledger_default_inv.
  - vm_compute. reflexivity.
  - vm_compute. reflexivity.
Defined.
