(* ===== verification/AvBacking.v ===== *)
(** * Shared AV backing and handle release

    [demux/src/av/shared_backing.rs], [release_txn.rs], [slot.rs] and the
    metadata of [event.rs].  The filters of a demux share a byte budget and a
    data-id allocator through [Arc]s: they are the shared [AvRuntime], threaded
    through every operation next to the filter's own backing.  The kernel (DMA
    buffer heap, [mmap], [munmap], file metadata, [dup]) is not part of the
    source: each operation takes the answers it gets during the call. *)

From stdpp Require Import gmap.
From S2P Require Import Prelude.

Definition i64_max : Z := 2 ^ 63 - 1.

(** ** Data *)
Inductive ClientHandleState := NotExported | ExportedActive | ClientReleased.
#[global] Instance client_state_eq_dec : EqDecision ClientHandleState.
Proof. solve_decision. Defined.

Inductive AvSharedBackingError :=
| InvariantViolation | AllocationFailed | DuplicateFailed | IdentityFailed | MappingFailed
| UnmappingFailed.

Definition is_retryable_allocation_failure (e : AvSharedBackingError) : bool :=
  match e with
  | AllocationFailed | DuplicateFailed | IdentityFailed | MappingFailed => true
  | InvariantViolation | UnmappingFailed => false
  end.

Record AvFileIdentity := mkIdentity { device : Z; inode : Z; id_size_bytes : Z }.
#[global] Instance identity_eq_dec : EqDecision AvFileIdentity.
Proof. solve_decision. Defined.

Inductive AvHandleReleaseDescriptor := DescEmpty | DescFile (ident : AvFileIdentity).
Inductive AvFilterReleaseState := OpenAv | OpenNonAv | FilterClosed.
#[global] Instance filter_state_eq_dec : EqDecision AvFilterReleaseState.
Proof. solve_decision. Defined.
Inductive AvDataIdState := ActiveShared | ActiveEventLocal | Unknown.
#[global] Instance data_id_state_eq_dec : EqDecision AvDataIdState.
Proof. solve_decision. Defined.
Inductive AvEventLocalHandleLeaseState := LeaseActive | LeaseFinalized.
Inductive AvHandleReleaseKind :=
| KindEmpty
| KindShared
| KindEventLocal (data_id : Z) (lease_state : AvEventLocalHandleLeaseState)
| KindUnknownFile.

Record AvHandleReleaseInput := mkReleaseInput {
  handle_kind : AvHandleReleaseKind;
  in_data_id : Z;
  client_state : ClientHandleState;
  filter_state : AvFilterReleaseState;
  in_data_id_state : AvDataIdState
}.

Inductive AvHandleReleaseOutcome :=
| EmptyHandleAccepted
| ClientHandleReleased
| ClientHandleReleaseAfterClose
| ClientHandleAlreadyReleased
| EventLocalHandleReleased (data_id : Z)
| EventLocalHandleAlreadyReleased (data_id : Z)
| SlotReleased (data_id : Z)
| InvalidDataId
| InvalidHandleForSlotRelease
| UnknownDataId
| RegistryFailure.

Record AvMediaEventMetadata := mkMetadata {
  md_stream_id : Z;
  md_is_pts_present : bool;
  md_pts_90khz : option Z;
  md_is_dts_present : bool;
  md_dts_90khz : option Z;
  md_is_pes_private_data : bool
}.
Definition metadata_default : AvMediaEventMetadata := mkMetadata 0 false None false None false.
Definition is_some {A} (o : option A) : bool := match o with Some _ => true | None => false end.
Definition from_pes (stream_id : Z) (pts dts : option Z) (private : bool) : AvMediaEventMetadata :=
  mkMetadata stream_id (is_some pts) pts (is_some dts) dts private.
Definition from_pes_with_authoritative_pts (stream_id : Z) (pes_pts : option Z) (pts : Z)
    (dts : option Z) (private : bool) : AvMediaEventMetadata :=
  mkMetadata stream_id (is_some pes_pts) (Some pts) (is_some dts) dts private.

(** A file is its number in the memory of the runtime. *)
Record AvMediaEventDescriptor := mkDescriptor {
  ev_data_id : Z;
  ev_slot_id : Z;
  ev_offset : Z;
  ev_data_length : Z;
  ev_metadata : AvMediaEventMetadata;
  event_local_file : option Z
}.

Inductive AvPayloadDeliveryOutcome :=
| Delivered (d : AvMediaEventDescriptor)
| SharedHandleNotExported
| ClientHandleReleasedOutcome
| PayloadEmpty
| PayloadOversized
| NoFreeSlot
| DataIdExhausted.

Record AvSlotState := mkSlot { slot_id : Z; active_data_id : option Z; data_length : Z }.
Record EventLocalAllocation := mkEventLocal {
  el_file : Z;
  file_identity : AvFileIdentity;
  handle_lease_state : AvEventLocalHandleLeaseState;
  el_length : Z
}.

Record AvSharedBacking := mkBacking {
  state : ClientHandleState;
  slot_size : Z;
  max_event_bytes : Z;
  max_outstanding_events : Z;
  per_filter_live_bytes : Z;
  slots : list AvSlotState;
  ever_exported : bool;
  file : option Z;
  shared_handle_identity : option AvFileIdentity;
  event_local_allocations : gmap Z EventLocalAllocation;
  event_local_bytes : Z
}.

(** *** What the filters share *)
Record AvRuntimeBudget := mkBudget { limit_bytes : Z; used_bytes : Z; corrupt : bool }.
Record AvRuntime := mkRuntime {
  budget : AvRuntimeBudget;
  issued_high_watermark : Z;
  memory : gmap Z bytes
}.

(** *** The kernel's answers during one call *)
Record AvOs := mkOs {
  tuner_dmabuf_heap_alloc_system : option Z;
  os_metadata : option AvFileIdentity;
  os_try_clone : bool;
  os_mmap : bool;
  os_munmap : bool
}.

(** ** The budget and the data ids *)
Definition budget_new (limit : Z) : AvRuntimeBudget := mkBudget limit 0 false.
Definition budget_unlimited : AvRuntimeBudget := budget_new usize_max.

(** [try_claim]: the compare-and-swap loop as one atomic step. *)
Definition try_claim (b : AvRuntimeBudget) (bytes : Z)
  : AvRuntimeBudget * result bool AvSharedBackingError :=
  if corrupt b then (b, Err InvariantViolation)
  else match checked_add usize_max (used_bytes b) bytes with
       | None => (b, Err InvariantViolation)
       | Some next =>
           if next >? limit_bytes b then (b, Ok false)
           else (mkBudget (limit_bytes b) next (corrupt b), Ok true)
       end.

Definition budget_release (b : AvRuntimeBudget) (bytes : Z) : AvRuntimeBudget * bool :=
  match checked_sub (used_bytes b) bytes with
  | Some next => (mkBudget (limit_bytes b) next (corrupt b), true)
  | None => (mkBudget (limit_bytes b) (used_bytes b) true, false)
  end.

Definition with_budget (w : AvRuntime) (b : AvRuntimeBudget) : AvRuntime :=
  mkRuntime b (issued_high_watermark w) (memory w).
Definition with_memory (w : AvRuntime) (m : gmap Z bytes) : AvRuntime :=
  mkRuntime (budget w) (issued_high_watermark w) m.

(** [release_after_owner_drop]: an uncommitted claim goes back. *)
Definition drop_claim (w : AvRuntime) (bytes : Z) : AvRuntime :=
  with_budget w (budget_release (budget w) bytes).1.

Definition can_issue (w : AvRuntime) : bool := issued_high_watermark w <? i64_max.
Definition issue (w : AvRuntime) : AvRuntime * option Z :=
  match checked_add i64_max (issued_high_watermark w) 1 with
  | Some next =>
      if next >? 0 then (mkRuntime (budget w) next (memory w), Some next) else (w, None)
  | None => (w, None)
  end.

(** ** The backing *)
Definition with_profile_limits (slot_count slot_size max_event_bytes max_outstanding_events
    per_filter_live_bytes : Z) : AvSharedBacking :=
  mkBacking NotExported slot_size max_event_bytes max_outstanding_events per_filter_live_bytes
    (map (fun idx => mkSlot (wrap32 idx) None 0) (seqZ 0 slot_count)) false None None ∅ 0.

Definition with_runtime_limits (max_event_bytes max_outstanding_events per_filter_live_bytes : Z) :=
  with_profile_limits max_outstanding_events max_event_bytes max_event_bytes max_outstanding_events
    per_filter_live_bytes.

Definition with_slots (b : AvSharedBacking) (l : list AvSlotState) : AvSharedBacking :=
  mkBacking (state b) (slot_size b) (max_event_bytes b) (max_outstanding_events b)
    (per_filter_live_bytes b) l (ever_exported b) (file b) (shared_handle_identity b)
    (event_local_allocations b) (event_local_bytes b).
Definition with_handle (b : AvSharedBacking) (s : ClientHandleState) (ever : bool) (f : option Z)
    (i : option AvFileIdentity) : AvSharedBacking :=
  mkBacking s (slot_size b) (max_event_bytes b) (max_outstanding_events b)
    (per_filter_live_bytes b) (slots b) ever f i (event_local_allocations b) (event_local_bytes b).
Definition with_event_local (b : AvSharedBacking) (m : gmap Z EventLocalAllocation) (n : Z) :=
  mkBacking (state b) (slot_size b) (max_event_bytes b) (max_outstanding_events b)
    (per_filter_live_bytes b) (slots b) (ever_exported b) (file b) (shared_handle_identity b) m n.

Definition mark_exported (b : AvSharedBacking) : AvSharedBacking :=
  with_handle b ExportedActive true (file b) (shared_handle_identity b).
Definition mark_client_released (b : AvSharedBacking) : AvSharedBacking :=
  with_handle b ClientReleased (ever_exported b) (file b) (shared_handle_identity b).

(** A fresh file of [n] zero bytes. *)
Definition zeroes (n : Z) : bytes := replicate (Z.to_nat n) 0.

Definition export_file (b : AvSharedBacking) (w : AvRuntime) (os : AvOs) (size : Z)
  : option (AvSharedBacking * AvRuntime * Z) :=
  match file b with
  | Some f => Some (b, w, f)
  | None =>
      match tuner_dmabuf_heap_alloc_system os with
      | None => None
      | Some f =>
          Some (with_handle b (state b) (ever_exported b) (Some f) (shared_handle_identity b),
                with_memory w (<[f := zeroes size]> (memory w)), f)
      end
  end.

(** [export_handle]: the file handed out (its duplicate) and its size. *)
Definition export_handle (b : AvSharedBacking) (w : AvRuntime) (os : AvOs)
  : AvSharedBacking * AvRuntime * result (Z * Z) AvSharedBackingError :=
  let size_bytes := slot_size b * len (slots b) in
  if size_bytes >? usize_max then (b, w, Err InvariantViolation)
  else match export_file b w os size_bytes with
  | None => (b, w, Err AllocationFailed)
  | Some (b, w, f) =>
      match (match shared_handle_identity b with Some i => Some i | None => os_metadata os end) with
      | None => (b, w, Err IdentityFailed)
      | Some i =>
          let b := with_handle b (state b) (ever_exported b) (file b) (Some i) in
          if os_try_clone os then (mark_exported b, w, Ok (f, size_bytes))
          else (b, w, Err DuplicateFailed)
      end
  end.

(** *** Allocation *)
Definition is_active (s : AvSlotState) : bool := is_some (active_data_id s).
Definition active_slots (b : AvSharedBacking) : list AvSlotState :=
  filter (fun s => is_active s = true) (slots b).
Definition active_shared_count (b : AvSharedBacking) : Z := len (active_slots b).
Definition event_local_count (b : AvSharedBacking) : Z := Z.of_nat (size (event_local_allocations b)).

(** [try_fold(start, checked_add)] over the active slots. *)
Definition sum_lengths (start : Z) (l : list AvSlotState) : option Z :=
  foldl (fun acc s => total ← acc; checked_add usize_max total (data_length s)) (Some start) l.

(** [iter().position(..)] *)
Fixpoint position (l : list AvSlotState) : option nat :=
  match l with
  | [] => None
  | s :: l => if is_active s then S <$> position l else Some O
  end.

Definition shared_slot_candidate (b : AvSharedBacking) (w : AvRuntime) (data_length : Z)
  : result nat AvPayloadDeliveryOutcome :=
  if negb (ever_exported b) then Err SharedHandleNotExported
  else if bool_decide (state b = ClientReleased) then Err ClientHandleReleasedOutcome
  else if data_length =? 0 then Err PayloadEmpty
  else if data_length >? max_event_bytes b then Err PayloadOversized
  else if data_length >? slot_size b then Err PayloadOversized
  else
    let active_count := checked_add usize_max (active_shared_count b) (event_local_count b) in
    if negb (match active_count with Some n => n <? max_outstanding_events b | None => false end)
    then Err NoFreeSlot
    else
      let live := (total ← sum_lengths (event_local_bytes b) (active_slots b);
                   checked_add usize_max total data_length) in
      if negb (match live with Some n => n <=? per_filter_live_bytes b | None => false end)
      then Err NoFreeSlot
      else match position (slots b) with
           | None => Err NoFreeSlot
           | Some i => if negb (can_issue w) then Err DataIdExhausted else Ok i
           end.

(** Overwrite [data] at [off] of a file. *)
Definition overwrite (content : bytes) (off : Z) (data : bytes) : bytes :=
  takez off content ++ data ++ dropz (off + len data) content.

Abbreviation delivery := (result AvPayloadDeliveryOutcome AvSharedBackingError).

(** The slot of [allocate_payload_bytes] and [allocate_payload]. *)
Definition occupy (b : AvSharedBacking) (i : nat) (data_id n : Z) : AvSharedBacking :=
  match slots b !! i with
  | Some s => with_slots b (<[i := mkSlot (slot_id s) (Some data_id) n]> (slots b))
  | None => b
  end.
Definition slot_number (b : AvSharedBacking) (i : nat) : Z :=
  match slots b !! i with Some s => slot_id s | None => 0 end.

Definition allocate_event_local_payload (b : AvSharedBacking) (w : AvRuntime) (os : AvOs)
    (payload : bytes) (metadata : AvMediaEventMetadata)
  : AvSharedBacking * AvRuntime * delivery :=
  if len payload =? 0 then (b, w, Ok PayloadEmpty)
  else if len payload >? max_event_bytes b then (b, w, Ok PayloadOversized)
  else match checked_add usize_max (active_shared_count b) (event_local_count b) with
  | None => (b, w, Err InvariantViolation)
  | Some active_count =>
  if active_count >=? max_outstanding_events b then (b, w, Ok NoFreeSlot)
  else match (shared ← sum_lengths 0 (active_slots b);
              total ← checked_add usize_max shared (event_local_bytes b);
              checked_add usize_max total (len payload)) with
  | None => (b, w, Err InvariantViolation)
  | Some next_live_bytes =>
  if next_live_bytes >? per_filter_live_bytes b then (b, w, Ok NoFreeSlot)
  else if negb (can_issue w) then (b, w, Ok DataIdExhausted)
  else match try_claim (budget w) (len payload) with
  | (_, Err e) => (b, w, Err e)
  | (_, Ok false) => (b, w, Ok NoFreeSlot)
  | (bud, Ok true) =>
      let w := with_budget w bud in
      let back (w : AvRuntime) (r : delivery) := (b, drop_claim w (len payload), r) in
      match tuner_dmabuf_heap_alloc_system os with
      | None => back w (Err AllocationFailed)
      | Some f =>
          if negb (os_mmap os) then back w (Err MappingFailed)
          else if negb (os_munmap os) then back w (Err UnmappingFailed)
          else match os_metadata os with
          | None => back w (Err IdentityFailed)
          | Some ident =>
              match issue w with
              | (w, None) => back w (Ok DataIdExhausted)
              | (w, Some data_id) =>
                  match checked_add usize_max (event_local_bytes b) (len payload) with
                  | None => back w (Err InvariantViolation)
                  | Some n =>
                      (with_event_local b
                         (<[data_id := mkEventLocal f ident LeaseActive (len payload)]>
                            (event_local_allocations b)) n,
                       with_memory w (<[f := overwrite (zeroes (len payload)) 0 payload]> (memory w)),
                       Ok (Delivered (mkDescriptor data_id u32_max 0 (len payload) metadata (Some f))))
                  end
              end
          end
      end
  end
  end
  end.

Definition allocate_payload_bytes (b : AvSharedBacking) (w : AvRuntime) (os : AvOs)
    (payload : bytes) (metadata : AvMediaEventMetadata)
  : AvSharedBacking * AvRuntime * delivery :=
  match shared_slot_candidate b w (len payload) with
  | Err _ => allocate_event_local_payload b w os payload metadata
  | Ok slot_index =>
  match try_claim (budget w) (len payload) with
  | (_, Err e) => (b, w, Err e)
  | (_, Ok false) => (b, w, Ok NoFreeSlot)
  | (bud, Ok true) =>
      let w := with_budget w bud in
      let back (w : AvRuntime) (r : delivery) := (b, drop_claim w (len payload), r) in
      match file b with
      | None => back w (Err InvariantViolation)
      | Some f =>
          let map_len := slot_size b * len (slots b) in
          if map_len >? usize_max then back w (Err InvariantViolation)
          else if negb (os_mmap os) then back w (Err MappingFailed)
          else
            let content := overwrite (default [] (memory w !! f))
                             (Z.of_nat slot_index * slot_size b) payload in
            let w := with_memory w (<[f := content]> (memory w)) in
            if negb (os_munmap os) then back w (Err UnmappingFailed)
            else match issue w with
            | (w, None) => back w (Ok DataIdExhausted)
            | (w, Some data_id) =>
                (occupy b slot_index data_id (len payload), w,
                 Ok (Delivered (mkDescriptor data_id (slot_number b slot_index)
                   (slot_number b slot_index * slot_size b) (len payload) metadata None)))
            end
      end
  end
  end.

(** [allocate_payload]: the claim and slot only; the offset is a checked
    [usize] multiplication. *)
Definition allocate_payload (b : AvSharedBacking) (w : AvRuntime) (data_length : Z)
  : outcome (AvSharedBacking * AvRuntime * AvPayloadDeliveryOutcome) :=
  match shared_slot_candidate b w data_length with
  | Err o => Ret (b, w, o)
  | Ok slot_index =>
      match try_claim (budget w) data_length with
      | (_, Err _) | (_, Ok false) => Ret (b, w, NoFreeSlot)
      | (bud, Ok true) =>
          let w := with_budget w bud in
          match issue w with
          | (w, None) => Ret (b, drop_claim w data_length, DataIdExhausted)
          | (w, Some data_id) =>
              let offset := slot_number b slot_index * slot_size b in
              if offset >? usize_max then Panic
              else Ret (occupy b slot_index data_id data_length, w,
                        Delivered (mkDescriptor data_id (slot_number b slot_index) offset data_length
                          metadata_default None))
          end
      end
  end.

(** ** Release *)
Definition holds_data_id (data_id : Z) (s : AvSlotState) : bool :=
  bool_decide (active_data_id s = Some data_id).

Definition data_id_state (b : AvSharedBacking) (data_id : Z) : AvDataIdState :=
  if existsb (holds_data_id data_id) (slots b) then ActiveShared
  else if bool_decide (is_Some (event_local_allocations b !! data_id)) then ActiveEventLocal
  else Unknown.

Definition classify (i : AvHandleReleaseInput) : AvHandleReleaseOutcome :=
  if in_data_id i <? 0 then InvalidDataId
  else match handle_kind i with
  | KindEmpty =>
      if in_data_id i =? 0 then EmptyHandleAccepted
      else match in_data_id_state i with
           | ActiveShared | ActiveEventLocal => SlotReleased (in_data_id i)
           | Unknown => UnknownDataId
           end
  | KindShared =>
      if in_data_id i >? 0 then InvalidHandleForSlotRelease
      else match client_state i with
           | ExportedActive =>
               if bool_decide (filter_state i = FilterClosed) then ClientHandleReleaseAfterClose
               else ClientHandleReleased
           | ClientReleased => ClientHandleAlreadyReleased
           | NotExported => InvalidHandleForSlotRelease
           end
  | KindEventLocal data_id lease_state =>
      if in_data_id i =? 0 then
        match lease_state with
        | LeaseActive => EventLocalHandleReleased data_id
        | LeaseFinalized => EventLocalHandleAlreadyReleased data_id
        end
      else if (in_data_id i =? data_id) && bool_decide (in_data_id_state i = ActiveEventLocal)
      then SlotReleased (in_data_id i)
      else InvalidHandleForSlotRelease
  | KindUnknownFile => InvalidHandleForSlotRelease
  end.

(** [iter().find_map(..)] of the ordered map: the least data id whose file has
    the identity. *)
Definition find_identity (m : gmap Z EventLocalAllocation) (ident : AvFileIdentity)
  : option (Z * EventLocalAllocation) :=
  map_fold (fun id a acc =>
    if bool_decide (file_identity a = ident) then
      match acc with
      | Some (id', _) => if id <? id' then Some (id, a) else acc
      | None => Some (id, a)
      end
    else acc) None m.

Definition handle_kind_of (b : AvSharedBacking) (descriptor : AvHandleReleaseDescriptor)
  : AvHandleReleaseKind :=
  match descriptor with
  | DescEmpty => KindEmpty
  | DescFile ident =>
      if bool_decide (shared_handle_identity b = Some ident) then KindShared
      else match find_identity (event_local_allocations b) ident with
           | Some (id, a) => KindEventLocal id (handle_lease_state a)
           | None => KindUnknownFile
           end
  end.

Definition classify_release (b : AvSharedBacking) (descriptor : AvHandleReleaseDescriptor)
    (data_id : Z) (filter_state : AvFilterReleaseState) : AvHandleReleaseOutcome :=
  classify (mkReleaseInput (handle_kind_of b descriptor) data_id (state b) filter_state
              (data_id_state b data_id)).

(** The first slot that holds the data id. *)
Fixpoint find_slot (data_id : Z) (l : list AvSlotState) : option nat :=
  match l with
  | [] => None
  | s :: l => if holds_data_id data_id s then Some O else S <$> find_slot data_id l
  end.

Definition release_slot (b : AvSharedBacking) (w : AvRuntime) (data_id : Z)
  : AvSharedBacking * AvRuntime * bool :=
  match find_slot data_id (slots b) with
  | None => (b, w, false)
  | Some i =>
      match slots b !! i with
      | None => (b, w, false)
      | Some s =>
          match budget_release (budget w) (data_length s) with
          | (bud, false) => (b, with_budget w bud, false)
          | (bud, true) =>
              (with_slots b (<[i := mkSlot (slot_id s) None 0]> (slots b)), with_budget w bud, true)
          end
      end
  end.

(** The removal of an event-local allocation. *)
Definition release_event_local (b : AvSharedBacking) (w : AvRuntime) (data_id : Z)
    (a : EventLocalAllocation) : AvSharedBacking * AvRuntime * bool :=
  match checked_sub (event_local_bytes b) (el_length a) with
  | None => (b, w, false)
  | Some next_live_bytes =>
      match budget_release (budget w) (el_length a) with
      | (bud, false) => (b, with_budget w bud, false)
      | (bud, true) =>
          (with_event_local b (delete data_id (event_local_allocations b)) next_live_bytes,
           with_budget w bud, true)
      end
  end.

Definition discard_undelivered_data_id (b : AvSharedBacking) (w : AvRuntime) (data_id : Z)
  : AvSharedBacking * AvRuntime * bool :=
  match event_local_allocations b !! data_id with
  | Some a => release_event_local b w data_id a
  | None => release_slot b w data_id
  end.

Definition apply_release (b : AvSharedBacking) (w : AvRuntime)
    (descriptor : AvHandleReleaseDescriptor) (data_id : Z) (filter_state : AvFilterReleaseState)
  : AvSharedBacking * AvRuntime * AvHandleReleaseOutcome :=
  let o := classify_release b descriptor data_id filter_state in
  match o with
  | ClientHandleReleased | ClientHandleReleaseAfterClose => (mark_client_released b, w, o)
  | EventLocalHandleReleased id =>
      match event_local_allocations b !! id with
      | None => (b, w, RegistryFailure)
      | Some a =>
          (with_event_local b
             (<[id := mkEventLocal (el_file a) (file_identity a) LeaseFinalized (el_length a)]>
                (event_local_allocations b)) (event_local_bytes b), w, o)
      end
  | SlotReleased id =>
      match discard_undelivered_data_id b w id with
      | (b, w, true) => (b, w, o)
      | (b, w, false) => (b, w, RegistryFailure)
      end
  | _ => (b, w, o)
  end.

Definition apply_release_after_close (b : AvSharedBacking) (w : AvRuntime)
    (descriptor : AvHandleReleaseDescriptor) (data_id : Z) :=
  apply_release b w descriptor data_id FilterClosed.

Definition release_is_complete (b : AvSharedBacking) : bool :=
  negb (bool_decide (state b = ExportedActive))
  && forallb (fun s => negb (is_active s)) (slots b)
  && bool_decide (event_local_allocations b = ∅).

Definition released_shared_handle_identity (b : AvSharedBacking) : option AvFileIdentity :=
  if bool_decide (state b = ClientReleased) then shared_handle_identity b else None.

Definition flush_slots_keep_exported_handle (b : AvSharedBacking) : AvSharedBacking := b.

(** *** Filters of one runtime *)
Inductive av_request :=
| AvAllocate (payload : bytes) (metadata : AvMediaEventMetadata) (os : AvOs)
| AvClaim (n : Z)
| AvRelease (descriptor : AvHandleReleaseDescriptor) (data_id : Z) (fs : AvFilterReleaseState)
| AvDiscard (data_id : Z)
| AvExport (os : AvOs)
| AvFlush.

Definition av_serve (b : AvSharedBacking) (w : AvRuntime) (r : av_request)
  : outcome (AvSharedBacking * AvRuntime) :=
  match r with
  | AvAllocate payload md os => Ret (allocate_payload_bytes b w os payload md).1
  | AvClaim n => r ← allocate_payload b w n; Ret r.1
  | AvRelease d id fs => Ret (apply_release b w d id fs).1
  | AvDiscard id => Ret (discard_undelivered_data_id b w id).1
  | AvExport os => Ret (export_handle b w os).1
  | AvFlush => Ret (flush_slots_keep_exported_handle b, w)
  end.

(** Any filter serves any request next, or a filter is opened. *)
Inductive av_step : list AvSharedBacking * AvRuntime -> list AvSharedBacking * AvRuntime -> Prop :=
| av_step_serve bs w i b r b' w' : bs !! i = Some b ->
    match r with AvClaim n => 0 <= n | _ => True end ->
    av_serve b w r = Ret (b', w') -> av_step (bs, w) (<[i := b']> bs, w')
| av_step_open bs w n s e o p : 0 <= n < 2 ^ 32 -> 0 <= s -> 0 <= o -> 0 <= p ->
    av_step (bs, w) (bs ++ [with_profile_limits n s e o p], w).

(** ** Sums over slots and allocations *)
Definition sumZ {A} (f : A -> Z) (l : list A) : Z := foldr (fun x acc => f x + acc) 0 l.
Definition map_sum {A} (f : A -> Z) (m : gmap Z A) : Z := map_fold (fun _ a acc => f a + acc) 0 m.

#[local] Arguments sumZ : simpl never.
#[local] Arguments map_sum : simpl never.

Lemma sumZ_insert {A} (f : A -> Z) l i x y : l !! i = Some x ->
  sumZ f (<[i := y]> l) = sumZ f l - f x + f y.
Proof.
  revert i. induction l as [|z l IH]; intros [|i] Hi; simplify_eq/=; [unfold sumZ; cbn; lia|].
  unfold sumZ in *. cbn. rewrite (IH i Hi). lia.
Qed.

Lemma sumZ_ge {A} (f : A -> Z) l i x : (forall y, y ∈ l -> 0 <= f y) -> l !! i = Some x ->
  0 <= f x <= sumZ f l.
Proof.
  revert i. induction l as [|z l IH]; intros i Hf Hi; [done|].
  assert (0 <= sumZ f l) as Hl.
  { clear IH Hi. assert (forall y, y ∈ l -> 0 <= f y) as Hf' by (intros; apply Hf; by right).
    clear Hf. induction l as [|y l IHl]; unfold sumZ in *; cbn; [lia|].
    pose proof (Hf' y ltac:(by left)). assert (0 <= foldr (fun x acc => f x + acc) 0 l)
      by (apply IHl; intros; apply Hf'; by right). lia. }
  pose proof (Hf z ltac:(by left)) as Hz. destruct i as [|i]; simplify_eq/=.
  - unfold sumZ in *. cbn. lia.
  - destruct (IH i) as [? ?]; [intros; apply Hf; by right|done|]. unfold sumZ in *. cbn. lia.
Qed.

Lemma map_sum_insert {A} (f : A -> Z) m k x : m !! k = None ->
  map_sum f (<[k := x]> m) = f x + map_sum f m.
Proof. intros Hk. unfold map_sum. rewrite map_fold_insert_L; [done| |done]. intros. lia. Qed.

Lemma map_sum_delete {A} (f : A -> Z) m k x : m !! k = Some x ->
  map_sum f (delete k m) = map_sum f m - f x.
Proof.
  intros Hk. rewrite <- (insert_delete_id m k x) at 2 by done.
  rewrite map_sum_insert by apply lookup_delete_eq. lia.
Qed.

Lemma map_sum_replace {A} (f : A -> Z) m k x y : m !! k = Some x -> f y = f x ->
  map_sum f (<[k := y]> m) = map_sum f m.
Proof.
  intros Hk Hf. rewrite <- insert_delete_eq, map_sum_insert by apply lookup_delete_eq.
  rewrite (map_sum_delete f m k x) by done. lia.
Qed.

Lemma map_sum_nonneg {A} (f : A -> Z) m : map_Forall (fun _ a => 0 <= f a) m -> 0 <= map_sum f m.
Proof.
  unfold map_sum. induction m as [|k x m Hk IH] using map_ind; intros Hm; [by rewrite map_fold_empty|].
  fold (map_sum f (<[k := x]> m)). rewrite map_sum_insert by done.
  apply map_Forall_insert in Hm as [Hx Hm]; [|done]. specialize (IH Hm). unfold map_sum. lia.
Qed.

(** ** Live bytes, the invariant of a backing *)
Definition active_bytes (b : AvSharedBacking) : Z := sumZ data_length (slots b).
Definition live_bytes (b : AvSharedBacking) : Z := active_bytes b + event_local_bytes b.
Definition outstanding (b : AvSharedBacking) : Z := active_shared_count b + event_local_count b.

(** The data id is allocated in the backing. *)
Definition holds (b : AvSharedBacking) (id : Z) : Prop :=
  (exists i s, slots b !! i = Some s /\ active_data_id s = Some id) \/
  is_Some (event_local_allocations b !! id).

Record backing_inv (b : AvSharedBacking) (issued : Z) : Prop := {
  inv_slots : forall i s, slots b !! i = Some s ->
    slot_id s = Z.of_nat i /\ 0 <= data_length s /\
    match active_data_id s with Some _ => data_length s <= slot_size b | None => data_length s = 0 end;
  inv_slot_size : 0 <= slot_size b;
  inv_distinct : forall i j s t id, slots b !! i = Some s -> slots b !! j = Some t ->
    active_data_id s = Some id -> active_data_id t = Some id -> i = j;
  inv_disjoint : forall i s id, slots b !! i = Some s -> active_data_id s = Some id ->
    event_local_allocations b !! id = None;
  inv_issued : forall id, holds b id -> 0 < id <= issued;
  inv_lengths : map_Forall (fun _ a => 0 <= el_length a) (event_local_allocations b);
  inv_bytes : event_local_bytes b = map_sum el_length (event_local_allocations b);
  inv_live : live_bytes b <= per_filter_live_bytes b;
  inv_outstanding : outstanding b <= max_outstanding_events b
}.

(** The budget has at least [n] bytes in use, of this backing. *)
Record runtime_inv (w : AvRuntime) (n : Z) : Prop := {
  rt_used : n <= used_bytes (budget w) <= limit_bytes (budget w);
  rt_limit : limit_bytes (budget w) <= usize_max;
  rt_sound : corrupt (budget w) = false;
  rt_issued : 0 <= issued_high_watermark w <= i64_max
}.

Lemma active_bytes_filter b : (forall i s, slots b !! i = Some s -> active_data_id s = None ->
  data_length s = 0) -> sumZ data_length (active_slots b) = active_bytes b.
Proof.
  unfold active_slots, active_bytes. induction (slots b) as [|s l IH]; intros Hl; [done|].
  rewrite filter_cons. assert (sumZ data_length (filter (fun s => is_active s = true) l)
    = sumZ data_length l) as E by (apply IH; intros i; apply (Hl (S i))).
  case_decide as Hd; unfold is_active, is_some in Hd;
    destruct (active_data_id s) eqn:Es; try done.
  - unfold sumZ in *. cbn. lia.
  - rewrite E. unfold sumZ. cbn. rewrite (Hl O s) by done. lia.
Qed.

Lemma sum_lengths_None l : foldl (fun acc s => total ← acc; checked_add usize_max total (data_length s))
  None l = None.
Proof. induction l; [done|]. by cbn. Qed.

Lemma sum_lengths_Some start l t : sum_lengths start l = Some t -> t = start + sumZ data_length l.
Proof.
  unfold sum_lengths. revert start. induction l as [|s l IH]; intros start; cbn.
  - intros [= ->]. unfold sumZ; cbn. lia.
  - destruct (checked_add _ start _) as [n|] eqn:E; [|by rewrite sum_lengths_None].
    intros H. apply IH in H. apply checked_add_Some in E as [-> _]. unfold sumZ in *; cbn. lia.
Qed.

Lemma position_Some l i : position l = Some i ->
  exists s, l !! i = Some s /\ active_data_id s = None.
Proof.
  revert i. induction l as [|s l IH]; intros i; cbn; [done|].
  unfold is_active, is_some. destruct (active_data_id s) eqn:E.
  - destruct (position l) as [j|]; [|done]. cbn. intros [= <-]. apply IH. done.
  - intros [= <-]. by exists s.
Qed.

(** The counted slots. *)
Lemma active_count_sum b :
  active_shared_count b = sumZ (fun s => if is_active s then 1 else 0) (slots b).
Proof.
  unfold active_shared_count, active_slots. induction (slots b) as [|s l IH]; [done|].
  rewrite filter_cons. case_decide as Hd; unfold sumZ in *; cbn.
  - rewrite Hd, len_cons. lia.
  - destruct (is_active s); [done|]. lia.
Qed.

Lemma live_room b n issued total : backing_inv b issued ->
  sum_lengths (event_local_bytes b) (active_slots b) = Some total ->
  checked_add usize_max total n = Some (live_bytes b + n) \/
  checked_add usize_max total n = None.
Proof.
  intros Hb E. apply sum_lengths_Some in E. rewrite active_bytes_filter in E.
  2: { intros i s Hs Ha. pose proof (inv_slots b issued Hb i s Hs) as (_ & _ & H). by rewrite Ha in H. }
  unfold live_bytes. destruct (checked_add usize_max total n) as [m|] eqn:Ec; [left|by right].
  apply checked_add_Some in Ec as [-> _]. f_equal. lia.
Qed.

(** What a slot candidate guarantees. *)
Lemma candidate_ok b w n i issued : backing_inv b issued -> 0 <= n ->
  shared_slot_candidate b w n = Ok i ->
  ever_exported b = true /\ 0 < n <= slot_size b /\ n <= max_event_bytes b /\
  outstanding b < max_outstanding_events b /\ live_bytes b + n <= per_filter_live_bytes b /\
  can_issue w = true /\ exists s, slots b !! i = Some s /\ active_data_id s = None.
Proof.
  intros Hb Hn. unfold shared_slot_candidate.
  destruct (ever_exported b); [|done]. cbn [negb]. case_bool_decide; [done|].
  destruct (Z.eqb_spec n 0); [done|].
  destruct (n >? max_event_bytes b) eqn:E1; [done|]. destruct (n >? slot_size b) eqn:E2; [done|].
  destruct (checked_add usize_max (active_shared_count b) _) as [c|] eqn:Ec; cbn; [|done].
  apply checked_add_Some in Ec as [-> _].
  destruct (Z.ltb_spec (active_shared_count b + event_local_count b) (max_outstanding_events b));
    cbn; [|done].
  destruct (sum_lengths _ _) as [total|] eqn:Es; cbn; [|done].
  destruct (live_room b n issued total Hb Es) as [-> | ->]; cbn; [|done].
  destruct (Z.leb_spec (live_bytes b + n) (per_filter_live_bytes b)); cbn; [|done].
  destruct (position (slots b)) as [j|] eqn:Ep; [|done].
  destruct (can_issue w) eqn:Ei; cbn; [|done]. intros [= <-].
  split_and!; try (done || lia). by apply position_Some.
Qed.

(** ** What an operation does to the backing and the shared runtime *)
Record op_ok (b : AvSharedBacking) (w : AvRuntime) (b' : AvSharedBacking) (w' : AvRuntime) : Prop := {
  op_backing : backing_inv b' (issued_high_watermark w');
  op_used : used_bytes (budget w') - used_bytes (budget w) = live_bytes b' - live_bytes b;
  op_limit : limit_bytes (budget w') = limit_bytes (budget w);
  op_bounded : used_bytes (budget w') <= limit_bytes (budget w');
  op_sound : corrupt (budget w') = false;
  op_issued : issued_high_watermark w <= issued_high_watermark w' <= i64_max;
  op_holds : forall id, holds b' id ->
    holds b id \/ issued_high_watermark w < id <= issued_high_watermark w';
  op_config : slot_size b' = slot_size b /\ per_filter_live_bytes b' = per_filter_live_bytes b /\
    max_outstanding_events b' = max_outstanding_events b
}.

Lemma backing_inv_mono b n m : backing_inv b n -> n <= m -> backing_inv b m.
Proof. intros [] Hm. split; auto. intros id Hid. specialize (inv_issued0 id Hid). lia. Qed.

Lemma sumZ_nonneg {A} (f : A -> Z) l : (forall i x, l !! i = Some x -> 0 <= f x) -> 0 <= sumZ f l.
Proof.
  induction l as [|x l IH]; intros Hf; unfold sumZ in *; cbn; [lia|].
  pose proof (Hf O x eq_refl). assert (0 <= foldr (fun x acc => f x + acc) 0 l)
    by (apply IH; intros i y; apply (Hf (S i))). lia.
Qed.

Lemma live_nonneg b n : backing_inv b n -> 0 <= active_bytes b /\ 0 <= event_local_bytes b.
Proof.
  intros Hb. split; [|rewrite (inv_bytes b n Hb); apply map_sum_nonneg, (inv_lengths b n Hb)].
  apply sumZ_nonneg. intros i s Hs. by destruct (inv_slots b n Hb i s Hs) as (_ & ? & _).
Qed.

Lemma op_refl b w : backing_inv b (issued_high_watermark w) -> runtime_inv w (live_bytes b) ->
  op_ok b w b w.
Proof. intros Hb []. split; auto; try lia. Qed.

(** Changing the handle or a lease changes neither ids nor bytes. *)
Lemma op_same b w b' : backing_inv b (issued_high_watermark w) -> runtime_inv w (live_bytes b) ->
  backing_inv b' (issued_high_watermark w) -> live_bytes b' = live_bytes b ->
  (forall id, holds b' id -> holds b id) -> slot_size b' = slot_size b ->
  per_filter_live_bytes b' = per_filter_live_bytes b ->
  max_outstanding_events b' = max_outstanding_events b -> op_ok b w b' w.
Proof. intros Hb [] Hb' Hl Hh ? ? ?. split; auto; lia. Qed.

(** The memory is nobody's bookkeeping. *)
Lemma op_memory b w b' w' m : op_ok b w b' w' -> op_ok b w b' (with_memory w' m).
Proof. by intros []. Qed.
Lemma op_memory_before b w b' w' m : op_ok b (with_memory w m) b' w' -> op_ok b w b' w'.
Proof. by intros []. Qed.

(** *** Occupying and freeing a slot *)
Section Slot.
  Context (b : AvSharedBacking) (w : AvRuntime) (i : nat) (s : AvSlotState).
  Hypothesis (Hb : backing_inv b (issued_high_watermark w)) (Hi : slots b !! i = Some s).

Lemma slot_update_bytes t : active_bytes (with_slots b (<[i := t]> (slots b)))
  = active_bytes b - data_length s + data_length t.
Proof. unfold active_bytes; cbn. by apply sumZ_insert. Qed.

Lemma slot_update_count t : active_shared_count (with_slots b (<[i := t]> (slots b)))
  = active_shared_count b - (if is_active s then 1 else 0) + (if is_active t then 1 else 0).
Proof. rewrite !active_count_sum; cbn. by rewrite (sumZ_insert _ _ i s t). Qed.

Lemma slot_lookup t j u : <[i := t]> (slots b) !! j = Some u ->
  j = i /\ u = t \/ j <> i /\ slots b !! j = Some u.
Proof. rewrite list_lookup_insert_Some. intros [(-> & -> & _)|[? ?]]; auto. Qed.

Lemma occupy_inv id n : active_data_id s = None -> 0 < n <= slot_size b ->
  outstanding b < max_outstanding_events b -> live_bytes b + n <= per_filter_live_bytes b ->
  id = issued_high_watermark w + 1 -> 0 < id ->
  backing_inv (occupy b i id n) id /\ live_bytes (occupy b i id n) = live_bytes b + n /\
  forall x, holds (occupy b i id n) x -> holds b x \/ x = id.
Proof.
  intros Hs Hn Hout Hlive Hid Hid0. unfold occupy. rewrite Hi.
  set (t := mkSlot (slot_id s) (Some id) n).
  destruct (inv_slots b _ Hb i s Hi) as (Hsid & _ & Hd). rewrite Hs in Hd.
  assert (forall x, holds (with_slots b (<[i := t]> (slots b))) x -> holds b x \/ x = id) as Hh.
  { intros x [(j & u & Hu & Ha)|Hx]; [|by left; right].
    apply slot_lookup in Hu as [[-> ->]|[_ Hu]]; [right; cbn in Ha; congruence|left; left; eauto]. }
  assert (~ holds b id) as Hfresh by (intros Hx; pose proof (inv_issued b _ Hb id Hx); lia).
  assert (live_bytes (with_slots b (<[i := t]> (slots b))) = live_bytes b + n) as Hl.
  { unfold live_bytes at 1. rewrite slot_update_bytes. cbn. unfold live_bytes. lia. }
  split; [|done]. destruct Hb as [B1 B2 B3 B4 B5 B6 B7 B8 B9]. split; cbn; auto.
  - intros j u Hu. apply slot_lookup in Hu as [[-> ->]|[_ Hu]]; [cbn; split_and!; (done || lia)|by apply B1].
  - intros j k u v x Hu Hv. apply slot_lookup in Hu as [[-> ->]|[_ Hu]];
      apply slot_lookup in Hv as [[-> ->]|[_ Hv]]; cbn; intros Ha Hc; simplify_eq; try done.
    + exfalso. apply Hfresh. left; eauto.
    + exfalso. apply Hfresh. left; eauto.
    + by eapply B3.
  - intros j u x Hu Ha. apply slot_lookup in Hu as [[-> ->]|[_ Hu]]; cbn in Ha; [|by eapply B4].
    injection Ha as <-. apply eq_None_not_Some. intros Hx. apply Hfresh. by right.
  - intros x Hx. apply Hh in Hx as [Hx| ->]; [specialize (B5 x Hx); lia|lia].
  - rewrite Hl. lia.
  - unfold outstanding, event_local_count in *. rewrite slot_update_count. cbn. unfold is_active. rewrite Hs. cbn. lia.
Qed.

Lemma free_inv id : active_data_id s = Some id ->
  let b' := with_slots b (<[i := mkSlot (slot_id s) None 0]> (slots b)) in
  backing_inv b' (issued_high_watermark w) /\ live_bytes b' = live_bytes b - data_length s /\
  forall x, holds b' x <-> holds b x /\ x <> id.
Proof.
  intros Hs b'. set (t := mkSlot (slot_id s) None 0) in b'.
  destruct (inv_slots b _ Hb i s Hi) as (Hsid & Hd0 & _).
  assert (forall x, holds b' x <-> holds b x /\ x <> id) as Hh.
  { intros x. split.
    - intros [(j & u & Hu & Ha)|Hx].
      + apply slot_lookup in Hu as [[-> ->]|[Hj Hu]]; [done|]. split; [left; eauto|].
        intros ->. apply Hj. by eapply (inv_distinct b _ Hb j i).
      + split; [by right|]. intros ->. destruct Hx as [a Ha]. cbn in Ha.
        by rewrite (inv_disjoint b _ Hb i s id Hi Hs) in Ha.
    - intros [[(j & u & Hu & Ha)|Hx] Hne]; [|by right]. left. exists j, u.
      split; [|done]. cbn. rewrite list_lookup_insert_ne; [done|]. intros ->. congruence. }
  assert (live_bytes b' = live_bytes b - data_length s) as Hl.
  { unfold live_bytes at 1, b'. rewrite slot_update_bytes. cbn. unfold live_bytes. lia. }
  split; [|done]. destruct Hb as [B1 B2 B3 B4 B5 B6 B7 B8 B9]. split; cbn; auto.
  - intros j u Hu. apply slot_lookup in Hu as [[-> ->]|[_ Hu]]; [cbn; split_and!; (done || lia)|by apply B1].
  - intros j k u v x Hu Hv. apply slot_lookup in Hu as [[-> ->]|[_ Hu]];
      apply slot_lookup in Hv as [[-> ->]|[_ Hv]]; cbn; intros Ha Hc; simplify_eq; try done.
    by eapply B3.
  - intros j u x Hu Ha. apply slot_lookup in Hu as [[-> ->]|[_ Hu]]; [done|by eapply B4].
  - intros x Hx. apply B5. by apply Hh in Hx as [Hx _].
  - rewrite Hl. lia.
  - unfold outstanding, event_local_count in *. unfold b'. rewrite slot_update_count. cbn. unfold is_active. rewrite Hs.
    cbn. lia.
Qed.
End Slot.

(** *** Event-local allocations *)
Section EventLocal.
  Context (b : AvSharedBacking) (w : AvRuntime).
  Hypothesis (Hb : backing_inv b (issued_high_watermark w)).

Lemma event_local_insert_inv id a : ~ holds b id -> id = issued_high_watermark w + 1 -> 0 < id ->
  0 <= el_length a -> outstanding b < max_outstanding_events b ->
  live_bytes b + el_length a <= per_filter_live_bytes b ->
  let b' := with_event_local b (<[id := a]> (event_local_allocations b))
              (event_local_bytes b + el_length a) in
  backing_inv b' id /\ live_bytes b' = live_bytes b + el_length a /\
  forall x, holds b' x -> holds b x \/ x = id.
Proof.
  intros Hfresh Hid Hid0 Hlen Hout Hlive b'.
  assert (event_local_allocations b !! id = None) as Hnone.
  { apply eq_None_not_Some. intros H. apply Hfresh. by right. }
  assert (forall x, holds b' x -> holds b x \/ x = id) as Hh.
  { intros x [Hx|[y Hy]]; [left; by left|]. cbn in Hy. apply lookup_insert_Some in Hy as [[-> _]|[_ Hy]];
      [by right|left; right; eauto]. }
  assert (live_bytes b' = live_bytes b + el_length a) as Hl
    by (unfold live_bytes, active_bytes; cbn; lia).
  split; [|done]. destruct Hb as [B1 B2 B3 B4 B5 B6 B7 B8 B9]. split; auto.
  - intros i s x Hs Ha. cbn. rewrite lookup_insert_ne; [by eapply B4|].
    intros <-. apply Hfresh. left; eauto.
  - intros x Hx. apply Hh in Hx as [Hx| ->]; [specialize (B5 x Hx); lia|lia].
  - cbn. by apply map_Forall_insert_2.
  - cbn. rewrite map_sum_insert by done. lia.
  - rewrite Hl. done.
  - unfold outstanding, event_local_count, active_shared_count, active_slots in *. cbn.
    rewrite map_size_insert_None by done. lia.
Qed.

Lemma event_local_delete_inv id a : event_local_allocations b !! id = Some a ->
  let b' := with_event_local b (delete id (event_local_allocations b))
              (event_local_bytes b - el_length a) in
  backing_inv b' (issued_high_watermark w) /\ live_bytes b' = live_bytes b - el_length a /\
  forall x, holds b' x <-> holds b x /\ x <> id.
Proof.
  intros Ha b'.
  assert (forall x, holds b' x <-> holds b x /\ x <> id) as Hh.
  { intros x. split.
    - intros [(i & s & Hs & Hx)|[y Hy]].
      + split; [left; eauto|]. intros ->. by rewrite (inv_disjoint b _ Hb i s id Hs Hx) in Ha.
      + cbn in Hy. apply lookup_delete_Some in Hy as [Hne Hy]. split; [right; eauto|done].
    - intros [[(i & s & Hs & Hx)|[y Hy]] Hne]; [left; eauto|right].
      exists y. cbn. by rewrite lookup_delete_ne. }
  assert (live_bytes b' = live_bytes b - el_length a) as Hl
    by (unfold live_bytes, active_bytes; cbn; lia).
  pose proof (inv_lengths b _ Hb id a Ha) as Hla. cbn in Hla.
  split; [|done]. destruct Hb as [B1 B2 B3 B4 B5 B6 B7 B8 B9]. split; auto.
  - intros i s x Hs Hx. cbn. apply lookup_delete_None. right. by eapply B4.
  - intros x Hx. apply B5. by apply Hh in Hx as [Hx _].
  - cbn. by apply map_Forall_delete.
  - cbn. rewrite (map_sum_delete _ _ id a) by done. lia.
  - rewrite Hl. cbn. lia.
  - unfold outstanding, event_local_count, active_shared_count, active_slots in *. cbn.
    rewrite map_size_delete, Ha. cbn. pose proof (map_size_ne_0_lookup_2 _ _ (mk_is_Some _ _ Ha)). lia.
Qed.
End EventLocal.

(** *** Claims *)
Lemma try_claim_true b n b' : try_claim b n = (b', Ok true) ->
  corrupt b = false /\ b' = mkBudget (limit_bytes b) (used_bytes b + n) false /\
  used_bytes b + n <= limit_bytes b.
Proof.
  unfold try_claim. destruct (corrupt b) eqn:Ec; [done|].
  destruct (checked_add _ _ _) as [x|] eqn:Ea; [|done]. apply checked_add_Some in Ea as [-> _].
  destruct (Z.gtb_spec (used_bytes b + n) (limit_bytes b)); [done|]. intros [= <-]. done.
Qed.

Lemma drop_claimed w n b' m : 0 <= used_bytes (budget w) -> try_claim (budget w) n = (b', Ok true) ->
  drop_claim (mkRuntime b' m (memory w)) n = mkRuntime (budget w) m (memory w).
Proof.
  intros Hu Hc. apply try_claim_true in Hc as (Hc & -> & _). unfold drop_claim, with_budget. cbn.
  unfold budget_release; cbn.
  destruct (checked_sub (used_bytes (budget w) + n) n) as [x|] eqn:Es.
  - apply checked_sub_Some in Es as [-> _]. cbn. f_equal. destruct (budget w); cbn in *. f_equal; [lia|done].
  - exfalso. unfold checked_sub in Es. destruct (Z.leb_spec n (used_bytes (budget w) + n)); [done|lia].
Qed.

Lemma budget_release_ok b n : 0 <= n <= used_bytes b ->
  budget_release b n = (mkBudget (limit_bytes b) (used_bytes b - n) (corrupt b), true).
Proof.
  intros Hn. unfold budget_release. destruct (checked_sub _ _) as [x|] eqn:E.
  - by apply checked_sub_Some in E as [-> _].
  - unfold checked_sub in E. destruct (Z.leb_spec n (used_bytes b)); [done|lia].
Qed.

Lemma issue_ok w : 0 <= issued_high_watermark w -> can_issue w = true ->
  issue w = (mkRuntime (budget w) (issued_high_watermark w + 1) (memory w),
             Some (issued_high_watermark w + 1)) /\ issued_high_watermark w + 1 <= i64_max.
Proof.
  unfold can_issue, issue, i64_max. intros H0 Hc. apply Z.ltb_lt in Hc. split; [|lia].
  destruct (checked_add _ _ _) as [n|] eqn:E.
  - apply checked_add_Some in E as [-> _]. by rewrite Z.gtb_ltb, (proj2 (Z.ltb_lt _ _)) by lia.
  - apply checked_add_None in E. lia.
Qed.

(** *** The operations *)
Section Operations.
  Context (b : AvSharedBacking) (w : AvRuntime).
  Hypothesis (Hb : backing_inv b (issued_high_watermark w)) (Hw : runtime_inv w (live_bytes b)).

Lemma used_nonneg : 0 <= used_bytes (budget w).
Proof. destruct (live_nonneg b _ Hb), Hw. unfold live_bytes in *. lia. Qed.

(** A claim that is dropped leaves everything but the ids issued meanwhile. *)
Lemma abandon_ok b' n m : try_claim (budget w) n = (b', Ok true) ->
  issued_high_watermark w <= m <= i64_max ->
  op_ok b w b (drop_claim (mkRuntime b' m (memory w)) n).
Proof.
  intros Hc Hm. rewrite drop_claimed by (done || apply used_nonneg). destruct Hw.
  split; cbn; auto; try lia. by eapply backing_inv_mono; [|apply Hm].
Qed.

Lemma claimed_ok b' n m x : try_claim (budget w) n = (b', Ok true) ->
  x <= i64_max -> forall c, backing_inv c x -> live_bytes c = live_bytes b + n ->
  (forall id, holds c id -> holds b id \/ id = x) -> x = issued_high_watermark w + 1 ->
  slot_size c = slot_size b /\ per_filter_live_bytes c = per_filter_live_bytes b /\
    max_outstanding_events c = max_outstanding_events b ->
  op_ok b w c (mkRuntime b' x m).
Proof.
  intros (Hc & -> & Hl)%try_claim_true Hx c Hcb Hlc Hh -> Hconf.
  split; cbn; auto; try lia. intros id [?| ->]%Hh; [by left|right; lia].
Qed.

Lemma occupy_config i id n : slot_size (occupy b i id n) = slot_size b /\
  per_filter_live_bytes (occupy b i id n) = per_filter_live_bytes b /\
  max_outstanding_events (occupy b i id n) = max_outstanding_events b.
Proof. unfold occupy. by case_match. Qed.

Lemma allocate_event_local_ok os payload md :
  let '(b', w', _) := allocate_event_local_payload b w os payload md in op_ok b w b' w'.
Proof.
  assert (op_ok b w b w) as Hrefl by by apply op_refl.
  unfold allocate_event_local_payload. destruct (Z.eqb_spec (len payload) 0); [done|].
  destruct (len payload >? max_event_bytes b); [done|].
  destruct (checked_add _ (active_shared_count b) _) as [c|] eqn:Ec; [|done].
  apply checked_add_Some in Ec as [-> _].
  rewrite Z.geb_leb. destruct (Z.leb_spec (max_outstanding_events b) (active_shared_count b + event_local_count b)); [done|].
  destruct (sum_lengths 0 (active_slots b)) as [t|] eqn:Es; cbn [mbind option_bind]; [|done].
  apply sum_lengths_Some in Es. rewrite active_bytes_filter in Es.
  2: { intros i s Hs Ha. pose proof (inv_slots b _ Hb i s Hs) as (_ & _ & H'). by rewrite Ha in H'. }
  destruct (checked_add usize_max t _) as [u|] eqn:Eu; cbn [mbind option_bind]; [|done].
  apply checked_add_Some in Eu as [-> _].
  destruct (checked_add usize_max _ (len payload)) as [v|] eqn:Ev; [|done].
  apply checked_add_Some in Ev as [-> _].
  destruct (Z.gtb_spec (t + event_local_bytes b + len payload) (per_filter_live_bytes b)); [done|].
  destruct (can_issue w) eqn:Eci; [|done]. cbn [negb].
  destruct (try_claim _ _) as [bud [[|]|e]] eqn:Ecl; [|done..].
  assert (forall m, issued_high_watermark w <= m <= i64_max ->
    op_ok b w b (drop_claim (mkRuntime bud m (memory w)) (len payload))) as Hback
    by (intros; by apply abandon_ok).
  pose proof (rt_issued w _ Hw) as Hm.
  assert (op_ok b w b (drop_claim (with_budget w bud) (len payload))) as Hback0
    by (apply (Hback (issued_high_watermark w)); lia).
  destruct (tuner_dmabuf_heap_alloc_system os) as [f|]; [|done].
  destruct (os_mmap os); [|done]. destruct (os_munmap os); [|done]. cbn [negb].
  destruct (os_metadata os) as [ident|]; [|done].
  destruct (issue_ok (with_budget w bud)) as [-> Hmax]; [apply Hm|done|].
  destruct (checked_add usize_max (event_local_bytes b) _) as [nl|] eqn:En; [|by apply Hback; cbn in *; lia].
  apply checked_add_Some in En as [-> _]. apply op_memory.
  edestruct (event_local_insert_inv b w Hb (issued_high_watermark w + 1)
    (mkEventLocal f ident LeaseActive (len payload))) as (Hi & Hl & Hh); try done; try lia.
  - intros Hx. pose proof (inv_issued b _ Hb _ Hx). lia.
  - cbn. unfold len; lia.
  - cbn. unfold live_bytes. lia.
  - by eapply claimed_ok.
Qed.

Lemma allocate_payload_bytes_ok os payload md :
  let '(b', w', _) := allocate_payload_bytes b w os payload md in op_ok b w b' w'.
Proof.
  assert (op_ok b w b w) as Hrefl by by apply op_refl. unfold allocate_payload_bytes.
  destruct (shared_slot_candidate b w (len payload)) as [i|] eqn:Ecand;
    [|apply allocate_event_local_ok].
  destruct (candidate_ok b w (len payload) i _ Hb (len_nonneg payload) Ecand)
    as (_ & Hn & _ & Hout & Hlive & Hci & s & Hs & Ha).
  destruct (try_claim _ _) as [bud [[|]|e]] eqn:Ecl; [|done..].
  pose proof (rt_issued w _ Hw) as Hm.
  assert (forall m, op_ok b w b (drop_claim (mkRuntime bud (issued_high_watermark w) m) (len payload)))
    as Hback.
  { intros m. apply (op_memory b w b (drop_claim (mkRuntime bud (issued_high_watermark w) (memory w))
      (len payload)) m). apply abandon_ok; [done|lia]. }
  destruct (file b) as [f|]; [|apply Hback]. case_test; [apply Hback|].
  destruct (os_mmap os); [|apply Hback]. destruct (os_munmap os); [|apply Hback]. cbn [negb].
  rewrite (proj1 (issue_ok (with_memory (with_budget w bud) _) (proj1 Hm) Hci)). cbn.
  assert (issued_high_watermark w + 1 <= i64_max) as Hmax.
  { unfold can_issue in Hci. apply Z.ltb_lt in Hci. lia. }
  destruct (occupy_inv b w i s Hb Hs (issued_high_watermark w + 1) (len payload)) as (Hi & Hl & Hh);
    try done; try lia.
  by eapply claimed_ok; eauto using occupy_config.
Qed.

Lemma allocate_payload_ok n : 0 <= n ->
  match allocate_payload b w n with Ret (b', w', _) => op_ok b w b' w' | _ => True end.
Proof.
  intros Hn0. assert (op_ok b w b w) as Hrefl by by apply op_refl. unfold allocate_payload.
  destruct (shared_slot_candidate b w n) as [i|] eqn:Ecand; [|done].
  destruct (candidate_ok b w _ i _ Hb Hn0 Ecand) as (_ & Hn & _ & Hout & Hlive & Hci & s & Hs & Ha).
  destruct (try_claim _ _) as [bud [[|]|e]] eqn:Ecl; [|done..].
  pose proof (rt_issued w _ Hw) as Hm.
  rewrite (proj1 (issue_ok (with_budget w bud) (proj1 Hm) Hci)). cbn.
  assert (issued_high_watermark w + 1 <= i64_max) as Hmax.
  { unfold can_issue in Hci. apply Z.ltb_lt in Hci. lia. }
  case_test; [done|].
  destruct (occupy_inv b w i s Hb Hs (issued_high_watermark w + 1) n) as (Hi & Hl & Hh);
    try done; try lia.
  by eapply claimed_ok; eauto using occupy_config.
Qed.

(** A release gives back exactly the bytes of the data id. *)
Record freed (id : Z) (b' : AvSharedBacking) (w' : AvRuntime) : Prop := {
  freed_op : op_ok b w b' w';
  freed_holds : forall x, holds b' x <-> holds b x /\ x <> id;
  freed_issued : issued_high_watermark w' = issued_high_watermark w
}.

Lemma find_slot_Some id l i : find_slot id l = Some i ->
  exists s, l !! i = Some s /\ active_data_id s = Some id.
Proof.
  revert i. induction l as [|s l IH]; intros i; cbn; [done|]. unfold holds_data_id.
  case_bool_decide as Hs; [intros [= <-]; by exists s|].
  destruct (find_slot id l) as [j|]; [|done]. cbn. intros [= <-]. by apply IH.
Qed.

Lemma find_slot_None id l : find_slot id l = None ->
  forall i s, l !! i = Some s -> active_data_id s <> Some id.
Proof.
  induction l as [|t l IH]; cbn; [done|]. unfold holds_data_id. case_bool_decide as Ht; [done|].
  destruct (find_slot id l) as [j|]; [done|]. intros _ [|i] s Hs; simplify_eq/=; [done|by eapply IH].
Qed.

Lemma budget_covers n : 0 <= n <= live_bytes b ->
  budget_release (budget w) n = (mkBudget (limit_bytes (budget w)) (used_bytes (budget w) - n)
                                   (corrupt (budget w)), true).
Proof. intros Hn. apply budget_release_ok. destruct Hw. lia. Qed.

Lemma freed_intro id b' n : backing_inv b' (issued_high_watermark w) ->
  live_bytes b' = live_bytes b - n -> 0 <= n -> (forall x, holds b' x <-> holds b x /\ x <> id) ->
  slot_size b' = slot_size b /\ per_filter_live_bytes b' = per_filter_live_bytes b /\
    max_outstanding_events b' = max_outstanding_events b ->
  freed id b' (with_budget w (mkBudget (limit_bytes (budget w)) (used_bytes (budget w) - n)
    (corrupt (budget w)))).
Proof.
  intros Hb' Hl Hn Hh Hc. destruct Hw. split; [split|..]; cbn; auto; try lia.
  intros x Hx. left. by apply Hh.
Qed.

Lemma release_slot_ok id : event_local_allocations b !! id = None ->
  let '(b', w', r) := release_slot b w id in
  if r : bool then holds b id /\ freed id b' w' else b' = b /\ w' = w /\ ~ holds b id.
Proof.
  intros Hnone. unfold release_slot. destruct (find_slot id (slots b)) as [i|] eqn:Ef.
  - destruct (find_slot_Some _ _ _ Ef) as (s & Hs & Ha). rewrite Hs.
    pose proof (inv_slots b _ Hb i s Hs) as (_ & Hd & _).
    destruct (free_inv b w i s Hb Hs id Ha) as (Hi & Hl & Hh). cbn zeta in *.
    rewrite budget_covers.
    2: { destruct (live_nonneg b _ Hb) as [? ?]. split; [done|]. unfold live_bytes, active_bytes in *.
         pose proof (sumZ_ge data_length (slots b) i s) as Hge. cut (data_length s <= sumZ data_length (slots b)); [lia|].
         apply Hge; [|done]. intros t Ht. apply list_elem_of_lookup in Ht as [j Ht].
         by destruct (inv_slots b _ Hb j t Ht) as (_ & ? & _). }
    split; [left; eauto|]. by apply freed_intro.
  - split_and!; try done. intros [(i & s & Hs & Ha)|[a Ha]]; [|congruence].
    by apply (find_slot_None _ _ Ef i s Hs).
Qed.

Lemma discard_ok id :
  let '(b', w', r) := discard_undelivered_data_id b w id in
  if r : bool then holds b id /\ freed id b' w' else b' = b /\ w' = w /\ ~ holds b id.
Proof.
  unfold discard_undelivered_data_id.
  destruct (event_local_allocations b !! id) as [a|] eqn:Ha; [|by apply release_slot_ok].
  unfold release_event_local. pose proof (inv_lengths b _ Hb id a Ha) as Hla. cbn in Hla.
  assert (el_length a <= event_local_bytes b) as Hle.
  { rewrite (inv_bytes b _ Hb). pose proof (map_sum_delete el_length _ _ _ Ha).
    assert (0 <= map_sum el_length (delete id (event_local_allocations b)))
      by (apply map_sum_nonneg, map_Forall_delete, (inv_lengths b _ Hb)). lia. }
  destruct (event_local_delete_inv b w Hb id a Ha) as (Hi & Hl & Hh). cbn zeta in *.
  destruct (checked_sub _ _) as [n|] eqn:Es.
  2: { unfold checked_sub in Es. destruct (Z.leb_spec (el_length a) (event_local_bytes b)); [done|lia]. }
  apply checked_sub_Some in Es as [-> _]. rewrite budget_covers.
  2: { destruct (live_nonneg b _ Hb). unfold live_bytes. lia. }
  split; [right; eauto|]. by apply freed_intro.
Qed.

Lemma data_id_state_spec id : match data_id_state b id with
  | ActiveShared => exists i s, slots b !! i = Some s /\ active_data_id s = Some id
  | ActiveEventLocal => is_Some (event_local_allocations b !! id)
  | Unknown => ~ holds b id
  end.
Proof.
  unfold data_id_state. destruct (existsb _ _) eqn:Ee.
  - apply existsb_exists in Ee as (s & Hs & Ha). unfold holds_data_id in Ha.
    apply bool_decide_eq_true in Ha. apply list_elem_of_In, list_elem_of_lookup in Hs as [i Hs]. eauto.
  - case_bool_decide as Hd; [done|]. intros [(i & s & Hs & Ha)|?]; [|done].
    assert (existsb (holds_data_id id) (slots b) = true); [|congruence].
    apply existsb_exists. exists s. split; [apply list_elem_of_In; by eapply list_elem_of_lookup_2|].
    unfold holds_data_id. by apply bool_decide_eq_true.
Qed.

(** A classified release addresses a data id that is held. *)
Lemma classify_slot_held d id fs x : classify_release b d id fs = SlotReleased x ->
  x = id /\ holds b id /\ 0 <= id.
Proof.
  unfold classify_release, classify; cbn. pose proof (data_id_state_spec id) as Hst.
  destruct (Z.ltb_spec id 0); [done|]. destruct (handle_kind_of b d) as [| |y l|]; try done.
  - destruct (id =? 0); [done|]. destruct (data_id_state b id); intros [= <-];
      (split_and!; [done| |done]); [by left|by right].
  - destruct (id >? 0); [done|]. destruct (state b); [done| |done]. by case_bool_decide.
  - destruct (id =? 0); [by destruct l|].
    destruct (id =? y); cbn [andb]; [|done]. case_bool_decide as Hd; [|done].
    intros [= <-]. split_and!; [done| |done]. right. by rewrite Hd in Hst.
Qed.

Lemma find_identity_Some m ident id a : find_identity m ident = Some (id, a) ->
  m !! id = Some a /\ file_identity a = ident.
Proof.
  unfold find_identity. revert id a.
  apply (map_fold_weak_ind (fun acc m => forall id a, acc = Some (id, a) ->
    m !! id = Some a /\ file_identity a = ident)); [done|].
  intros i x m' r Hi IH id a. case_bool_decide as Hx.
  - destruct r as [[id' a']|].
    + destruct (i <? id'); intros [= <- <-]; [by rewrite lookup_insert_eq|].
      destruct (IH _ _ eq_refl) as [Hm Hf]. split; [|done].
      rewrite lookup_insert_ne; [done|]. intros ->. congruence.
    + intros [= <- <-]. by rewrite lookup_insert_eq.
  - intros E. destruct (IH _ _ E) as [Hm Hf]. split; [|done].
    rewrite lookup_insert_ne; [done|]. intros ->. congruence.
Qed.

Lemma classify_lease d id fs x : classify_release b d id fs = EventLocalHandleReleased x ->
  is_Some (event_local_allocations b !! x).
Proof.
  unfold classify_release, classify, handle_kind_of; cbn. destruct (id <? 0); [done|].
  destruct d as [|ident]; cbn.
  - destruct (id =? 0); [done|]. by destruct (data_id_state b id).
  - case_bool_decide.
    + destruct (id >? 0); [done|]. destruct (state b); [done| |done]. by case_bool_decide.
    + destruct (find_identity _ _) as [[y a]|] eqn:Ef; [|done].
      destruct (id =? 0); [|destruct (_ && _); done].
      destruct (handle_lease_state a); [|done]. intros [= <-].
      apply find_identity_Some in Ef as [Hy _]. by eexists.
Qed.

Lemma mark_client_released_ok : op_ok b w (mark_client_released b) w.
Proof. apply op_same; try done. by destruct Hb. Qed.

Definition lease_finalized (x : Z) (a : EventLocalAllocation) : AvSharedBacking :=
  with_event_local b (<[x := mkEventLocal (el_file a) (file_identity a) LeaseFinalized (el_length a)]>
    (event_local_allocations b)) (event_local_bytes b).

Lemma lease_holds x a id : event_local_allocations b !! x = Some a ->
  holds (lease_finalized x a) id <-> holds b id.
Proof.
  intros Ha. unfold holds; cbn. split; intros [Hs|[y Hy]]; (left; exact Hs) || right.
  - apply lookup_insert_Some in Hy as [[<- _]|[_ Hy]]; eauto.
  - destruct (decide (id = x)) as [->|Hne]; [rewrite lookup_insert_eq; eauto|].
    rewrite lookup_insert_ne by done. eauto.
Qed.

Lemma lease_finalized_ok x a : event_local_allocations b !! x = Some a ->
  op_ok b w (lease_finalized x a) w.
Proof.
  intros Ha. apply op_same; try done; [|by intros id; apply lease_holds].
  pose proof (lease_holds x a) as Hh. destruct Hb as [B1 B2 B3 B4 B5 B6 B7 B8 B9]. split; cbn; auto.
  - intros i s id Hs Hid. rewrite lookup_insert_ne; [by eapply B4|]. intros <-.
    by rewrite (B4 i s x Hs Hid) in Ha.
  - intros id Hid. apply B5. by apply Hh.
  - apply map_Forall_insert_2; [by apply (B6 x a)|done].
  - by rewrite (map_sum_replace _ _ x a) by done.
  - unfold outstanding, event_local_count, active_shared_count, active_slots in *. cbn.
    by rewrite map_size_insert_Some by (by exists a).
Qed.

Lemma apply_release_ok d id fs :
  let '(b', w', o) := apply_release b w d id fs in
  op_ok b w b' w' /\ o = classify_release b d id fs /\
  (forall x, o = SlotReleased x -> x = id /\ holds b id /\ 0 <= id /\ freed id b' w') /\
  ((forall x, o <> SlotReleased x) -> w' = w /\ forall x, holds b' x <-> holds b x).
Proof.
  unfold apply_release. destruct (classify_release b d id fs) as [| | | |x|x|x| | | |] eqn:Ec;
    try (split_and!; [by apply op_refl|done|done|done]).
  - split_and!; [apply mark_client_released_ok|done..].
  - split_and!; [apply mark_client_released_ok|done..].
  - destruct (classify_lease _ _ _ _ Ec) as [a Ha]. rewrite Ha.
    split_and!; [by apply lease_finalized_ok|done|done|]. intros _. split; [done|].
    intros y. by apply lease_holds.
  - destruct (classify_slot_held _ _ _ _ Ec) as (-> & Hh & H0).
    pose proof (discard_ok id) as Hd. destruct (discard_undelivered_data_id b w id) as [[b' w'] [|]].
    + destruct Hd as [_ Hf]. split_and!; [apply Hf|done| |].
      * intros x [= <-]. done.
      * intros Hno. by destruct (Hno id).
    + by destruct Hd as (_ & _ & Hn).
Qed.

Lemma with_handle_ok s e f i : op_ok b w (with_handle b s e f i) w.
Proof. apply op_same; try done. by destruct Hb. Qed.

End Operations.

Lemma export_handle_ok b w os : backing_inv b (issued_high_watermark w) ->
  runtime_inv w (live_bytes b) ->
  let '(b', w', _) := export_handle b w os in op_ok b w b' w'.
Proof.
  intros Hb Hw. assert (op_ok b w b w) as Hrefl by by apply op_refl.
  pose proof (with_handle_ok b w Hb Hw) as Hh.
  unfold export_handle, export_file, mark_exported. case_test; [done|].
  destruct (file b) as [f|] eqn:Ef; [|destruct (tuner_dmabuf_heap_alloc_system os) as [f|]; [|done]];
    (destruct (match shared_handle_identity _ with Some _ => _ | None => _ end) as [i|];
       [destruct (os_try_clone os)|]); try done; try apply op_memory; apply Hh.
Qed.

(** A new backing. *)
Lemma with_profile_limits_inv n s e o p issued : 0 <= n < 2 ^ 32 -> 0 <= s -> 0 <= o -> 0 <= p ->
  backing_inv (with_profile_limits n s e o p) issued /\ live_bytes (with_profile_limits n s e o p) = 0 /\
  forall id, ~ holds (with_profile_limits n s e o p) id.
Proof.
  intros Hn Hs Ho Hp. set (b := with_profile_limits n s e o p).
  assert (forall i t, slots b !! i = Some t -> t = mkSlot (Z.of_nat i) None 0) as Hslots.
  { intros i t Hi. unfold b in Hi. cbn in Hi. apply list_lookup_fmap_Some in Hi as (x & -> & Hx).
    apply lookup_seqZ in Hx as [-> Hx]. f_equal. unfold wrap32. rewrite Z.mod_small; lia. }
  assert (forall id, ~ holds b id) as Hh.
  { intros id [(i & t & Hi & Ha)|[a Ha]]; [by rewrite (Hslots i t Hi) in Ha|]. cbn in Ha.
    by rewrite lookup_empty in Ha. }
  assert (sumZ data_length (slots b) = 0 /\ active_shared_count b = 0) as [Hl Hc].
  { rewrite active_count_sum. generalize dependent (slots b). intros l Hl.
    assert (forall t, t ∈ l -> active_data_id t = None /\ data_length t = 0) as Hall.
    { intros t [i Hi]%list_elem_of_lookup. by rewrite (Hl i t Hi). }
    clear Hl. induction l as [|t l IH]; [done|]. unfold sumZ in *; cbn.
    destruct (Hall t ltac:(by left)) as [Ha Hd]. unfold is_active at 1. rewrite Ha, Hd. cbn.
    destruct IH as [IH1 IH2]; [intros; apply Hall; by right|]. split; [lia|]. rewrite IH2. lia. }
  assert (live_bytes b = 0) as Hlive by (unfold live_bytes, active_bytes; rewrite Hl; done).
  split_and!; try done. split; try done.
  - intros i t Hi. by rewrite (Hslots i t Hi).
  - intros i j t u id Hi _ Ha. by rewrite (Hslots i t Hi) in Ha.
  - intros id Hid. by apply Hh in Hid.
  - by rewrite Hlive.
  - unfold outstanding, event_local_count. rewrite Hc. cbn. rewrite map_size_empty. done.
Qed.

(** ** All filters of a runtime *)
Record av_inv (bs : list AvSharedBacking) (w : AvRuntime) : Prop := {
  av_backings : forall i b, bs !! i = Some b -> backing_inv b (issued_high_watermark w);
  av_disjoint : forall i j b c id, bs !! i = Some b -> bs !! j = Some c ->
    holds b id -> holds c id -> i = j;
  av_used : used_bytes (budget w) = sumZ live_bytes bs;
  av_limit : used_bytes (budget w) <= limit_bytes (budget w) <= usize_max;
  av_sound : corrupt (budget w) = false;
  av_issued : 0 <= issued_high_watermark w <= i64_max
}.

Lemma av_runtime bs w i b : av_inv bs w -> bs !! i = Some b -> runtime_inv w (live_bytes b).
Proof.
  intros Hi Hb. assert (live_bytes b <= sumZ live_bytes bs).
  { apply (sumZ_ge live_bytes bs i b); [|done]. intros c [j Hj]%list_elem_of_lookup.
    destruct (live_nonneg c _ (av_backings _ _ Hi j c Hj)). unfold live_bytes. lia. }
  split; [rewrite (av_used _ _ Hi); pose proof (av_limit _ _ Hi); rewrite (av_used _ _ Hi) in *; lia
         |apply Hi..].
Qed.

Lemma av_serve_ok bs w i b r b' w' : av_inv bs w -> bs !! i = Some b ->
  match r with AvClaim n => 0 <= n | _ => True end -> av_serve b w r = Ret (b', w') ->
  op_ok b w b' w'.
Proof.
  intros Hi Hb Hr E. pose proof (av_backings _ _ Hi _ _ Hb) as Hbi.
  pose proof (av_runtime _ _ _ _ Hi Hb) as Hwi. destruct r; cbn in E.
  - pose proof (allocate_payload_bytes_ok b w Hbi Hwi os payload metadata) as H.
    destruct (allocate_payload_bytes _ _ _ _ _) as [[? ?] ?]. by simplify_eq/=.
  - pose proof (allocate_payload_ok b w Hbi Hwi n Hr) as H.
    destruct (allocate_payload _ _ _) as [[[? ?] ?]| |]; simplify_eq/=. done.
  - pose proof (apply_release_ok b w Hbi Hwi descriptor data_id fs) as H.
    destruct (apply_release _ _ _ _ _) as [[? ?] ?]. destruct H as [H _]. by simplify_eq/=.
  - pose proof (discard_ok b w Hbi Hwi data_id) as H.
    destruct (discard_undelivered_data_id _ _ _) as [[? ?] [|]]; simplify_eq/=.
    + apply H.
    + destruct H as (-> & -> & _). by apply op_refl.
  - pose proof (export_handle_ok b w os Hbi Hwi) as H.
    destruct (export_handle _ _ _) as [[? ?] ?]. by simplify_eq/=.
  - simplify_eq. by apply op_refl.
Qed.

Lemma av_step_inv s s' : av_step s s' -> av_inv s.1 s.2 -> av_inv s'.1 s'.2.
Proof.
  intros [bs w i b r b' w' Hb Hr E|bs w n z e o p Hn Hz Ho Hp] Hi; cbn in *.
  - pose proof (av_serve_ok _ _ _ _ _ _ _ Hi Hb Hr E) as [O1 O2 O3 O4 O5 O6 O7 _].
    destruct Hi as [A1 A2 A3 A4 A5 A6]. split; cbn; try done.
    + intros j c Hj. apply list_lookup_insert_Some in Hj as [(<- & <- & _)|[_ Hj]]; [done|].
      eapply backing_inv_mono; [by eapply A1|lia].
    + intros j k c d id Hj Hk Hc Hd.
      apply list_lookup_insert_Some in Hj as [(<- & <- & _)|[? Hj]];
        apply list_lookup_insert_Some in Hk as [(<- & <- & _)|[? Hk]]; try done; [| |by eapply A2].
      * apply O7 in Hc as [Hc|Hc]; [by eapply A2|].
        pose proof (inv_issued d _ (A1 _ _ Hk) id Hd). lia.
      * apply O7 in Hd as [Hd|Hd]; [by eapply A2|].
        pose proof (inv_issued c _ (A1 _ _ Hj) id Hc). lia.
    + rewrite (sumZ_insert _ _ i b b') by done. lia.
    + split; [done|]. rewrite O3. lia.
    + lia.
  - destruct (with_profile_limits_inv n z e o p (issued_high_watermark w) Hn Hz Ho Hp) as (Hv & Hl & Hh).
    destruct Hi as [A1 A2 A3 A4 A5 A6]. split; cbn; try done.
    + intros j c Hj. apply lookup_snoc_Some in Hj as [[_ Hj]|[_ <-]]; [by eapply A1|done].
    + intros j k c d id Hj Hk Hc Hd.
      apply lookup_snoc_Some in Hj as [[_ Hj]|[_ <-]]; [|by apply Hh in Hc].
      apply lookup_snoc_Some in Hk as [[_ Hk]|[_ <-]]; [by eapply A2|by apply Hh in Hd].
    + rewrite A3. revert Hl. generalize (with_profile_limits n z e o p). intros v Hl. clear -Hl.
      induction bs as [|c bs IH]; unfold sumZ in *; cbn; lia.
Qed.

Lemma av_empty_inv limit : 0 <= limit <= usize_max ->
  av_inv [] (mkRuntime (budget_new limit) 0 ∅).
Proof. intros Hl. split; cbn; try done; (unfold i64_max; lia). Qed.

Lemma av_steps_inv s s' : rtc av_step s s' -> av_inv s.1 s.2 -> av_inv s'.1 s'.2.
Proof. induction 1 as [|x y z Hxy _ IH]; [done|]. intros Hx. apply IH. by eapply av_step_inv. Qed.

Lemma av_reachable_inv limit bs w : 0 <= limit <= usize_max ->
  rtc av_step ([], mkRuntime (budget_new limit) 0 ∅) (bs, w) -> av_inv bs w.
Proof. intros Hl Hr. by apply (av_steps_inv _ _ Hr), av_empty_inv. Qed.


(** ** What a delivery writes *)
Section Overwrite.
  Context (c data : bytes) (off : Z).
  Hypothesis (Hoff : 0 <= off) (Hend : off + len data <= len c).

Lemma overwrite_len : len (overwrite c off data) = len c.
Proof. unfold overwrite. pose proof (len_nonneg data). lens. Qed.

Lemma overwrite_read : takez (len data) (dropz off (overwrite c off data)) = data.
Proof.
  unfold overwrite. pose_lens.
  assert (len (takez off c) = off) as E by lens. rewrite <- E at 1.
  by rewrite dropz_app_exact, takez_app_exact.
Qed.

Lemma overwrite_other o n : 0 <= n -> 0 <= o ->
  o + n <= off \/ off + len data <= o /\ o <= len c ->
  takez n (dropz o (overwrite c off data)) = takez n (dropz o c).
Proof.
  intros Hn Ho Hd. pose_lens. assert (len (takez off c) = off) as E by lens.
  unfold overwrite. destruct Hd as [Hd|[Hd Hc]].
  - rewrite <- (takez_dropz off c) at 3. rewrite !dropz_app_le by lens.
    by rewrite !takez_app_le by lens.
  - f_equal. rewrite app_assoc.
    assert (len (takez off c ++ data) = off + len data) as E2 by lens.
    replace o with (len (takez off c ++ data) + (o - (off + len data))) at 1 by lia.
    rewrite <- dropz_dropz by lia. rewrite dropz_app_exact, dropz_dropz by lia. f_equal. lia.
Qed.
End Overwrite.

(** The bytes of a slot in the shared file. *)
Definition slot_bytes (b : AvSharedBacking) (content : bytes) (i : nat) (n : Z) : bytes :=
  takez n (dropz (Z.of_nat i * slot_size b) content).

(** The shared file is the whole backing. *)
Definition shared_file (b : AvSharedBacking) (w : AvRuntime) : Prop :=
  forall f, file b = Some f ->
    exists c, memory w !! f = Some c /\ len c = slot_size b * len (slots b).

(** What a delivered event promises: its id is fresh and held from now on; a
    slot event's region of the shared file holds the payload and every other
    slot's bytes are as they were; an event-local file holds the payload and
    every other file is as it was. *)
Definition delivered_ok (b : AvSharedBacking) (w : AvRuntime) (payload : bytes)
    (d : AvMediaEventDescriptor) (b' : AvSharedBacking) (w' : AvRuntime) : Prop :=
  ev_data_length d = len payload /\ ev_data_id d = issued_high_watermark w' /\
  ~ holds b (ev_data_id d) /\ holds b' (ev_data_id d) /\
  match event_local_file d with
  | Some f => memory w !! f = None /\ memory w' !! f = Some payload /\
      forall g, g <> f -> memory w' !! g = memory w !! g
  | None => exists f c c' i s,
      file b = Some f /\ memory w !! f = Some c /\ memory w' !! f = Some c' /\ len c' = len c /\
      slots b !! i = Some s /\ active_data_id s = None /\
      ev_offset d = Z.of_nat i * slot_size b /\ ev_offset d + len payload <= len c /\
      takez (len payload) (dropz (ev_offset d) c') = payload /\
      (forall j t, j <> i -> slots b !! j = Some t ->
         slot_bytes b c' j (data_length t) = slot_bytes b c j (data_length t)) /\
      forall g, g <> f -> memory w' !! g = memory w !! g
  end.

Section Delivery.
  Context (b : AvSharedBacking) (w : AvRuntime) (os : AvOs) (payload : bytes)
    (md : AvMediaEventMetadata).
  Hypothesis (Hb : backing_inv b (issued_high_watermark w)) (Hw : runtime_inv w (live_bytes b)).

Lemma next_not_held : ~ holds b (issued_high_watermark w + 1).
Proof. intros H. pose proof (inv_issued b _ Hb _ H). lia. Qed.

Lemma event_local_delivered b' w' d :
  (forall f, tuner_dmabuf_heap_alloc_system os = Some f -> memory w !! f = None) ->
  allocate_event_local_payload b w os payload md = (b', w', Ok (Delivered d)) ->
  delivered_ok b w payload d b' w'.
Proof.
  intros Hfresh. unfold allocate_event_local_payload.
  destruct (len payload =? 0); [done|]. destruct (len payload >? _); [done|].
  destruct (checked_add _ _ _); [|done]. destruct (_ >=? _); [done|].
  destruct (_ ≫= _); [|done]. destruct (_ >? _); [done|].
  destruct (can_issue w) eqn:Eci; [|done]. cbn [negb].
  destruct (try_claim _ _) as [bud [[|]|e]]; [|done..].
  destruct (tuner_dmabuf_heap_alloc_system os) as [f|]; [|done].
  destruct (os_mmap os); [|done]. destruct (os_munmap os); [|done]. cbn [negb].
  destruct (os_metadata os) as [ident|]; [|done].
  rewrite (proj1 (issue_ok (with_budget w bud) (proj1 (rt_issued w _ Hw)) Eci)).
  destruct (checked_add _ (event_local_bytes b) _) as [n|]; [|done]. intros [= <- <- <-].
  pose proof next_not_held. split_and!; cbn; try done.
  - right. cbn. rewrite lookup_insert_eq. eauto.
  - split_and!; [by apply Hfresh| |intros g Hg; by apply lookup_insert_ne].
    rewrite lookup_insert_eq. f_equal. unfold overwrite. rewrite takez_0. cbn.
    rewrite dropz_all; [apply app_nil_r|]. unfold zeroes, len. rewrite length_replicate. lia.
Qed.

Lemma slot_region i s : slots b !! i = Some s ->
  0 <= Z.of_nat i * slot_size b /\ Z.of_nat i * slot_size b + slot_size b <= slot_size b * len (slots b).
Proof.
  intros Hs. pose proof (lookup_lt_Some _ _ _ Hs). pose proof (inv_slot_size b _ Hb).
  unfold len. nia.
Qed.

Lemma shared_write_ok i s c : slots b !! i = Some s -> len payload <= slot_size b ->
  len c = slot_size b * len (slots b) ->
  let c' := overwrite c (Z.of_nat i * slot_size b) payload in
  len c' = len c /\ takez (len payload) (dropz (Z.of_nat i * slot_size b) c') = payload /\
  forall j t, j <> i -> slots b !! j = Some t ->
    slot_bytes b c' j (data_length t) = slot_bytes b c j (data_length t).
Proof.
  intros Hs Hn Hc c'. destruct (slot_region i s Hs) as [H0 H1]. pose proof (inv_slot_size b _ Hb).
  split_and!.
  - apply overwrite_len; lia.
  - apply overwrite_read; lia.
  - intros j t Hj Ht. destruct (slot_region j t Ht) as [H2' H3'].
    destruct (inv_slots b _ Hb j t Ht) as (_ & Hd & Hl).
    assert (data_length t <= slot_size b) as Hdl by (destruct (active_data_id t); lia).
    apply overwrite_other; try lia. destruct (decide (j < i)%nat); [left|right]; nia.
Qed.
End Delivery.


(** *** Release at most once *)
Lemma classify_no_failure i : classify i <> RegistryFailure.
Proof.
  unfold classify. repeat (case_match; try done).
Qed.


(** ** Witnesses *)
Definition sample_os (f : Z) : AvOs := mkOs (Some f) (Some (mkIdentity 1 f 64)) true true true.
Definition sample_backing : AvSharedBacking := with_runtime_limits 16 2 32.
Definition sample_runtime : AvRuntime := mkRuntime (budget_new 40) 0 ∅.
Definition sample_exported : AvSharedBacking * AvRuntime :=
  (export_handle sample_backing sample_runtime (sample_os 5)).1.
Definition sample_allocated : AvSharedBacking * AvRuntime :=
  (allocate_payload_bytes sample_exported.1 sample_exported.2 (sample_os 6) [1; 2; 3] metadata_default).1.

(** Two events fit; a third falls over the event limit. *)
Example sample_events :
  let '(b, w, _) := allocate_payload_bytes sample_allocated.1 sample_allocated.2 (sample_os 6) [4; 5]
                      metadata_default in
  map active_data_id (slots b) = [Some 1; Some 2] /\ used_bytes (budget w) = 5 /\
  (allocate_payload_bytes b w (sample_os 7) [6] metadata_default).2 = Ok NoFreeSlot /\
  (apply_release b w DescEmpty 1 OpenAv).2 = SlotReleased 1.
Proof. vm_compute. auto. Qed.

Lemma sample_exported_reachable :
  rtc av_step ([], sample_runtime) ([sample_exported.1], sample_exported.2).
Proof.
  eapply rtc_l; [by apply (av_step_open [] sample_runtime 2 16 16 2 32)|].
  eapply rtc_l; [|apply rtc_refl].
  apply (av_step_serve [sample_backing] sample_runtime 0 sample_backing (AvExport (sample_os 5)));
    [done|done|]. vm_compute. reflexivity.
Qed.


Lemma sample_exported_inv :
  backing_inv sample_exported.1 (issued_high_watermark sample_exported.2) /\
  runtime_inv sample_exported.2 (live_bytes sample_exported.1).
Proof.
  pose proof (av_reachable_inv 40 _ _ ltac:(unfold u64_max; lia) sample_exported_reachable) as Hi.
  split; [by apply (av_backings _ _ Hi 0)|by apply (av_runtime _ _ 0 _ Hi)].
Qed.


Lemma sample_allocated_inv :
  backing_inv sample_allocated.1 (issued_high_watermark sample_allocated.2) /\
  runtime_inv sample_allocated.2 (live_bytes sample_allocated.1).
Proof.
  assert (rtc av_step ([], sample_runtime) ([sample_allocated.1], sample_allocated.2)) as Hr.
  { eapply rtc_r; [apply sample_exported_reachable|].
    apply (av_step_serve [sample_exported.1] sample_exported.2 0 sample_exported.1
      (AvAllocate [1; 2; 3] metadata_default (sample_os 6))); [done|done|]. vm_compute. reflexivity. }
  pose proof (av_reachable_inv 40 _ _ ltac:(unfold u64_max; lia) Hr) as Hi.
  split; [by apply (av_backings _ _ Hi 0)|by apply (av_runtime _ _ 0 _ Hi)].
Qed.

